(** * Perturbarium: permutation core, SineScramble, Licensee, XOF-Genetics

    A shallow embedding of the Python sources and the properties the
    specification states about them.

    Conventions of the embedding.
    - A Python [float] is a finite IEEE double, hence a rational: floats are
      values of [Q].  Comparisons, [floor] and the float remainder of two
      positive floats are exact and are computed in [Q].  The operations that
      round ([+], [*], [/], [sin]) go through the class [FloatOps]: [fl] is
      the rounding of an exact result to a double and [fsin] is the library
      sine.  Every theorem holds for every instance of the class.
    - A Python exception is a value [Raise e] of the type [result]; code that
      returns normally yields [Ok v].
    - Lists that are updated by index are stdpp lists; an index out of range
      raises [IndexError] as in Python ([list_store]). *)

From Stdlib Require Import QArith Qround Qabs Lqa Ascii String.
From stdpp Require Import prelude.

Local Close Scope Q_scope.
Local Open Scope nat_scope.

(** ** Exceptions as values *)

Inductive exn : Set :=
  | ValueError
  | IndexError
  | RuntimeError
  | AttributeError
  | ZeroDivisionError
  | OverflowError
  | UnicodeEncodeError.

Inductive result (A : Type) : Type :=
  | Ok (a : A)
  | Raise (e : exn).
Arguments Ok {A} a.
Arguments Raise {A} e.

#[global] Instance result_ret : MRet result := λ A a, Ok a.
#[global] Instance result_bind : MBind result := λ A B f m,
  match m with
  | Ok a => f a
  | Raise e => Raise e
  end.

(** [for x in xs: acc = f(acc, x)] where the body may raise. *)
Fixpoint foldM {A B} (f : B → A → result B) (acc : B) (xs : list A) : result B :=
  match xs with
  | [] => Ok acc
  | x :: xs' => acc' ← f acc x; foldM f acc' xs'
  end.

(** [for x in xs: ys.append(f(x))] where the body may raise. *)
Fixpoint forM {A B} (f : A → result B) (xs : list A) : result (list B) :=
  match xs with
  | [] => Ok []
  | x :: xs' => y ← f x; ys ← forM f xs'; Ok (y :: ys)
  end.

(** [l[i] = x] on a Python list: in range it overwrites, out of range it
    raises. *)
Definition list_store {A} (l : list A) (i : nat) (x : A) : result (list A) :=
  if decide (i < length l) then Ok (<[i:=x]> l) else Raise IndexError.

(** [l[i]] on a Python list or numpy array with a natural index. *)
Definition list_load {A} (l : list A) (i : nat) : result A :=
  match l !! i with
  | Some x => Ok x
  | None => Raise IndexError
  end.

(** [enumerate(l)] *)
Definition enumerate {A} (l : list A) : list (nat * A) := zip (seq 0 (length l)) l.

(** [int.from_bytes(b, 'big')] *)
Definition int_from_bytes (b : list Z) : Z :=
  foldl (λ acc x, acc * 256 + x)%Z 0%Z b.

(** [n.to_bytes(count, 'big')]: [OverflowError] when [n] is negative or does
    not fit. *)
Definition int_to_bytes (n : Z) (count : nat) : result (list Z) :=
  if ((n <? 0) || (2 ^ (8 * Z.of_nat count) <=? n))%Z then Raise OverflowError
  else Ok ((λ i, Z.land (Z.shiftr n (8 * Z.of_nat (count - 1 - i))) 255)
           <$> seq 0 count).

(** [n.to_bytes(count, 'big')] for an integer [count]: a negative [count]
    raises [ValueError] before [n] is looked at. *)
Definition to_bytes (n count : Z) : result (list Z) :=
  if (count <? 0)%Z then Raise ValueError else int_to_bytes n (Z.to_nat count).

(** ** Floating point *)

Class FloatOps : Type := {
  fl : Q → Q;
  fsin : Q → Q;
}.

Section Float.
Context `{FloatOps}.

Definition fadd (x y : Q) : Q := fl (x + y)%Q.
Definition fsub (x y : Q) : Q := fl (x - y)%Q.
Definition fmul (x y : Q) : Q := fl (x * y)%Q.
Definition fdiv (x y : Q) : Q := fl (x / y)%Q.
End Float.

(** [float(i)] for a small non-negative integer: exact. *)
Definition Qnat (i : nat) : Q := inject_Z (Z.of_nat i).

(** [int(x)]: truncation towards zero. *)
Definition Qtrunc (x : Q) : Z := Z.quot (Qnum x) (Z.pos (Qden x)).

(** [x % y] on two floats with [y > 0]: the remainder is computed exactly and
    carries the sign of [y]. *)
Definition Qmod (x y : Q) : Q := (x - y * inject_Z (Qfloor (x / y)))%Q.

Definition Qltb (x y : Q) : bool := negb (Qle_bool y x).

(** [math.pi], the double nearest to pi. *)
Definition math_pi : Q := (884279719003555 # 281474976710656)%Q.
(** The doubles written [0.2] and [0.1] in the sources. *)
Definition double_0_2 : Q := (3602879701896397 # 18014398509481984)%Q.
Definition double_0_1 : Q := (3602879701896397 # 36028797018963968)%Q.
Definition double_0_01 : Q := (5764607523034235 # 576460752303423488)%Q.

(** ** Sorting

    [list.sort()] is stable: an element is placed after every element that is
    not greater.  [lt x y] is the comparison [x < y] of the elements (or of
    their keys). *)

Section Sort.
Context {A : Type} (lt : A → A → bool).

Fixpoint insert_sorted (x : A) (l : list A) : list A :=
  match l with
  | [] => [x]
  | y :: l' => if lt x y then x :: y :: l' else y :: insert_sorted x l'
  end.

Definition list_sort (l : list A) : list A :=
  foldl (λ acc x, insert_sorted x acc) [] l.
End Sort.

(** Comparison of the tuples [(score, index)]: first components first, the
    index decides between equal scores. *)
Definition tuple_lt (a b : Q * nat) : bool :=
  if Qeq_bool a.1 b.1 then a.2 <? b.2 else Qltb a.1 b.1.

(** ** Permutation core of Licensee ([licensee/permutation.py]) *)

Module Licensee_permutation.
Section WithSize.
Context `{FloatOps}.
(** The module constant [TOTAL_CHARS_TO_PERMUTE]; the source fixes it to
    [440] (see [TOTAL_CHARS_TO_PERMUTE_source]), the functions are written
    for any value. *)
Variable TOTAL_CHARS_TO_PERMUTE : nat.

(** [math.sin(swap_param * 100.0 + i * 0.2) * 1000.0 + i] *)
Definition score (swap_param : Q) (i : nat) : Q :=
  fadd (fmul (fsin (fadd (fmul swap_param 100) (fmul (Qnat i) double_0_2))) 1000)
       (Qnat i).

Definition get_permutation_map (swap_param : Q) : result (list nat) :=
  if negb (Qle_bool 0 swap_param && Qle_bool swap_param 1) then Raise ValueError
  else
    let scored_indices :=
      (λ i, (score swap_param i, i)) <$> seq 0 TOTAL_CHARS_TO_PERMUTE in
    let scored_indices := list_sort tuple_lt scored_indices in
    foldM (λ permutation_map '(new_pos, (_, original_pos)),
             list_store permutation_map original_pos new_pos)
          (replicate TOTAL_CHARS_TO_PERMUTE 0)
          (enumerate scored_indices).

Definition get_inverse_permutation_map (permutation_map : list nat)
  : result (list nat) :=
  foldM (λ inverse_map '(original_pos, new_pos),
           list_store inverse_map new_pos original_pos)
        (replicate TOTAL_CHARS_TO_PERMUTE 0)
        (enumerate permutation_map).

(** The characters are collected in a list of strings that starts as
    [[""] * TOTAL_CHARS_TO_PERMUTE] and is joined at the end; a string is a
    list of characters here, and the character type is left open. *)
Definition apply_permutation {C} (input_chars : list C)
    (permutation_map : list nat) : result (list C) :=
  if negb (length input_chars =? TOTAL_CHARS_TO_PERMUTE) then Raise ValueError
  else if negb (length permutation_map =? TOTAL_CHARS_TO_PERMUTE) then Raise ValueError
  else
    permuted_chars ←
      foldM (λ permuted_chars '(original_pos, new_pos),
               c ← list_load input_chars original_pos;
               list_store permuted_chars new_pos [c])
            (replicate TOTAL_CHARS_TO_PERMUTE [])
            (enumerate permutation_map);
    Ok (concat permuted_chars).

Definition apply_inverse_permutation {C} (input_chars : list C)
    (inverse_permutation_map : list nat) : result (list C) :=
  if negb (length input_chars =? TOTAL_CHARS_TO_PERMUTE) then Raise ValueError
  else if negb (length inverse_permutation_map =? TOTAL_CHARS_TO_PERMUTE)
  then Raise ValueError
  else
    original_chars ←
      foldM (λ original_chars '(new_pos, original_pos),
               c ← list_load input_chars new_pos;
               list_store original_chars original_pos [c])
            (replicate TOTAL_CHARS_TO_PERMUTE [])
            (enumerate inverse_permutation_map);
    Ok (concat original_chars).
End WithSize.

Definition TOTAL_CHARS_TO_PERMUTE_source : nat := 440.
End Licensee_permutation.

(** ** SineShift mutator ([sineshift/mutator.py]) *)

Module SineShiftMutator.
Section WithFrames.
Context `{FloatOps}.
(** [self.frame_count]; [self.scale_factor = 1000.0] and
    [self.offset_factor = 0.2] are set by the constructor. *)
Variable frame_count : nat.
Definition scale_factor : Q := 1000.
Definition offset_factor : Q := double_0_2.

Definition two_pi : Q := (2 * math_pi)%Q.

Definition normalized_param (swap_param : Q) : Q :=
  if Qltb two_pi swap_param then Qmod swap_param two_pi else swap_param.

Definition score (swap_param : Q) (i : nat) : Q :=
  fadd (fmul (fsin (fadd (fmul (normalized_param swap_param) 100)
                         (fmul (Qnat i) offset_factor)))
             scale_factor)
       (Qnat i).

Definition generate_permutation_map (swap_param : Q) : result (list nat) :=
  if Qltb swap_param 0 then Raise ValueError
  else
    let scored_indices :=
      (λ i, (score swap_param i, i)) <$> seq 0 frame_count in
    let scored_indices := list_sort tuple_lt scored_indices in
    foldM (λ permutation_map '(new_pos, (_, original_pos)),
             list_store permutation_map original_pos new_pos)
          (replicate frame_count 0)
          (enumerate scored_indices).

Definition get_inverse_permutation_map (permutation_map : list nat)
  : result (list nat) :=
  foldM (λ inverse_map '(original_pos, new_pos),
           list_store inverse_map new_pos original_pos)
        (replicate frame_count 0)
        (enumerate permutation_map).

(** The audio data is a one-dimensional array of samples; [np.zeros_like]
    gives an array of the same length, and a store or a load out of range
    raises [IndexError]. *)
Definition apply_permutation (audio_data : list Q) (permutation_map : list nat)
  : result (list Q) :=
  if negb (length audio_data =? frame_count) then Raise ValueError
  else if negb (length permutation_map =? frame_count) then Raise ValueError
  else
    foldM (λ permuted_audio '(original_pos, new_pos),
             sample ← list_load audio_data original_pos;
             list_store permuted_audio new_pos sample)
          (replicate (length audio_data) 0%Q)
          (enumerate permutation_map).

Definition apply_inverse_permutation (audio_data : list Q)
    (inverse_permutation_map : list nat) : result (list Q) :=
  if negb (length audio_data =? frame_count) then Raise ValueError
  else if negb (length inverse_permutation_map =? frame_count)
  then Raise ValueError
  else
    foldM (λ original_audio '(new_pos, original_pos),
             sample ← list_load audio_data new_pos;
             list_store original_audio original_pos sample)
          (replicate (length audio_data) 0%Q)
          (enumerate inverse_permutation_map).

Definition mutate_data (data : list Q) (swap_param : Q) : result (list Q) :=
  let data :=
    if negb (length data =? frame_count) then
      if frame_count <? length data then take frame_count data
      else
        (* padded_data = np.zeros(frame_count); padded_data[:len(data)] = data *)
        data ++ drop (length data) (replicate frame_count 0%Q)
    else data in
  permutation_map ← generate_permutation_map swap_param;
  apply_permutation data permutation_map.

Definition unmute_data (data : list Q) (swap_param : Q) : result (list Q) :=
  let data :=
    if negb (length data =? frame_count) then
      if frame_count <? length data then take frame_count data
      else data ++ drop (length data) (replicate frame_count 0%Q)
    else data in
  permutation_map ← generate_permutation_map swap_param;
  inverse_permutation_map ← get_inverse_permutation_map permutation_map;
  apply_inverse_permutation data inverse_permutation_map.
End WithFrames.
End SineShiftMutator.

(** ** SineScramble cipher ([sinescramble/cipher.py]) *)

Module SineScramble.

Inductive OperationMode : Set := MULTI_ROUND | SEGMENTED.

(** The attributes set by [SineScrambleCipher.__init__]; [n] is [length key]. *)
Record SineScrambleCipher : Type := {
  key : list Q;
  mode : OperationMode;
  amplitude : Q;
  frequency : Q;
  phase : Q;
}.

(** [np.arange(data_size)] *)
Definition arange (data_size : nat) : list nat := seq 0 data_size.

(** [np.argsort(scores)]: the indices that sort [scores]. *)
Definition argsort (scores : list Q) : list nat :=
  (list_sort tuple_lt (zip scores (seq 0 (length scores)))).*2.

(** [a[idx]] with an index array: every index is looked up. *)
Definition take_indices {A} (a : list A) (idx : list nat) : result (list A) :=
  forM (list_load a) idx.

(** [a[idx] = values] with an index array. *)
Definition put_indices {A} (a : list A) (idx : list nat) (values : list A)
  : result (list A) :=
  foldM (λ a '(i, v), list_store a i v) a (zip idx values).

Section Cipher.
Context `{FloatOps}.

Definition __init__ (key : list Q) (mode : OperationMode)
    (amplitude frequency phase : Q) : result SineScrambleCipher :=
  match key with
  | [] => Raise ValueError
  | _ => Ok {| key := key; mode := mode; amplitude := amplitude;
               frequency := frequency; phase := phase |}
  end.

Variable self : SineScrambleCipher.

Definition n : nat := length (key self).

Definition _scoring_function (key_component : Q) (indices : list nat) : list Q :=
  (λ i, fadd (fmul (amplitude self)
                   (fsin (fadd (fmul key_component (phase self))
                               (fmul (Qnat i) (frequency self)))))
             (Qnat i)) <$> indices.

Definition _generate_permutation_map (key_component : Q) (data_size : nat)
  : list nat :=
  let indices := arange data_size in
  let scores := _scoring_function key_component indices in
  argsort scores.

Definition _generate_substitution_mask (key_component : Q) (data_size : nat)
  : list bool :=
  let indices := arange data_size in
  let scores := _scoring_function key_component indices in
  (λ s, Qltb (1 # 2) (s - inject_Z (Qfloor s))%Q) <$> scores.

Definition _permute_data (data : list Z) (permutation_map : list nat)
    (inverse : bool) : result (list Z) :=
  if inverse then
    inverse_map ←
      put_indices (replicate (length permutation_map) 0) permutation_map
                  (arange (length permutation_map));
    take_indices data inverse_map
  else take_indices data permutation_map.

(** [data ^ mask.astype(uint8)]; both arrays have the same length where the
    cipher calls it. *)
Definition _substitute_data (data : list Z) (substitution_mask : list bool)
  : list Z :=
  zip_with (λ d (m : bool), Z.lxor d (if m then 1 else 0)%Z)
           data substitution_mask.

Definition _transform_round (data : list Z) (key_component : Q)
    (inverse : bool) : result (list Z) :=
  let data_size := length data in
  let permutation_map := _generate_permutation_map key_component data_size in
  let substitution_mask := _generate_substitution_mask key_component data_size in
  if inverse then
    let data := _substitute_data data substitution_mask in
    _permute_data data permutation_map true
  else
    data ← _permute_data data permutation_map false;
    Ok (_substitute_data data substitution_mask).

Definition _encrypt_multi_round (data : list Z) : result (list Z) :=
  foldM (λ current_data k, _transform_round current_data k false)
        data (key self).

Definition _decrypt_multi_round (data : list Z) : result (list Z) :=
  foldM (λ current_data k, _transform_round current_data k true)
        data (reverse (key self)).

(** The slices [data[start_idx:end_idx]] of the segmented mode, paired with
    their key components. *)
Definition segment_args (data : list Z) (segment_size : nat)
  : list (list Z * Q) :=
  let data_size := length data in
  (λ '(i, k),
     let start_idx := i * segment_size in
     let end_idx := if decide (i = n - 1) then data_size
                    else (i + 1) * segment_size in
     (take (end_idx - start_idx) (drop start_idx data), k))
  <$> enumerate (key self).

Definition _process_segment (inverse : bool) (args : list Z * Q)
  : result (list Z) :=
  _transform_round args.1 args.2 inverse.

Definition _encrypt_segmented (data : list Z) : result (list Z) :=
  let data_size := length data in
  let segment_size := data_size / n in
  if decide (segment_size = 0) then Raise ValueError
  else
    processed_segments ← forM (_process_segment false) (segment_args data segment_size);
    Ok (concat processed_segments).

Definition _decrypt_segmented (data : list Z) : result (list Z) :=
  let data_size := length data in
  let segment_size := data_size / n in
  if decide (segment_size = 0) then Raise ValueError
  else
    processed_segments ← forM (_process_segment true) (segment_args data segment_size);
    Ok (concat processed_segments).

Definition encrypt (data : list Z) : result (list Z) :=
  match mode self with
  | MULTI_ROUND => _encrypt_multi_round data
  | SEGMENTED => _encrypt_segmented data
  end.

Definition decrypt (data : list Z) : result (list Z) :=
  match mode self with
  | MULTI_ROUND => _decrypt_multi_round data
  | SEGMENTED => _decrypt_segmented data
  end.
End Cipher.
End SineScramble.

#[global] Instance ascii_eq_decision : EqDecision ascii := ascii_dec.

(** The bytes of an ASCII string. *)
Definition bytes_of_string (s : string) : list Z :=
  (λ a, Z.of_N (N_of_ascii a)) <$> list_ascii_of_string s.

(** ** An executable float unit

    Used to run the definitions on concrete inputs.  Results are rounded down
    to a multiple of [2^-32], and the sine is the Taylor polynomial of degree 9
    around 0 of the argument reduced to [[-pi, pi)]. *)

Definition round32 (x : Q) : Q := (Qfloor (x * 4294967296) # 4294967296)%Q.

Definition poly_sin (x : Q) : Q :=
  let two_pi := (2 * math_pi)%Q in
  let r := round32 (Qmod (x + math_pi) two_pi - math_pi)%Q in
  let r2 := round32 (r * r)%Q in
  round32 (r * (1 - r2 / 6 * (1 - r2 / 20 * (1 - r2 / 42 * (1 - r2 / 72)))))%Q.

Definition fixed_float : FloatOps := {| fl := round32; fsin := poly_sin |}.

(** ** SHA-256 ([hashlib.sha256], FIPS 180-4)

    Bytes are integers in [[0, 256)], words are integers in [[0, 2^32)]. *)

Module SHA256.
Local Open Scope Z_scope.

Definition w32 (x : Z) : Z := Z.land x 0xFFFFFFFF.
Definition add32 (x y : Z) : Z := w32 (x + y).
Definition rotr (n x : Z) : Z := Z.lor (Z.shiftr x n) (w32 (Z.shiftl x (32 - n))).
Definition shr (n x : Z) : Z := Z.shiftr x n.
Definition not32 (x : Z) : Z := Z.lxor x 0xFFFFFFFF.

Definition Ch (x y z : Z) : Z := Z.lxor (Z.land x y) (Z.land (not32 x) z).
Definition Maj (x y z : Z) : Z :=
  Z.lxor (Z.lxor (Z.land x y) (Z.land x z)) (Z.land y z).
Definition Sigma0 (x : Z) : Z := Z.lxor (Z.lxor (rotr 2 x) (rotr 13 x)) (rotr 22 x).
Definition Sigma1 (x : Z) : Z := Z.lxor (Z.lxor (rotr 6 x) (rotr 11 x)) (rotr 25 x).
Definition sigma0 (x : Z) : Z := Z.lxor (Z.lxor (rotr 7 x) (rotr 18 x)) (shr 3 x).
Definition sigma1 (x : Z) : Z := Z.lxor (Z.lxor (rotr 17 x) (rotr 19 x)) (shr 10 x).

(** The round constants are the first 32 bits of the fractional parts of the
    cube roots of the first 64 primes, the initial hash value those of the
    square roots of the first 8 primes. *)
Definition is_prime (n : nat) : bool :=
  forallb (λ d, negb (n mod d =? 0)%nat) (seq 2 (n - 2)).
Definition primes (count : nat) : list Z :=
  Z.of_nat <$> take count (filter (λ n, is_prime n = true) (seq 2 400)).

(** The largest [r] in [[lo, hi)] with [r^3 <= x], by bisection. *)
Fixpoint cube_root_between (fuel : nat) (x lo hi : Z) : Z :=
  match fuel with
  | O => lo
  | S fuel' =>
      let mid := (lo + hi) / 2 in
      if mid * mid * mid <=? x then cube_root_between fuel' x mid hi
      else cube_root_between fuel' x lo mid
  end.
Definition cube_root_bits (p : Z) : Z :=
  w32 (cube_root_between 48 (p * 2 ^ 96) 0 (2 ^ 40)).
Definition square_root_bits (p : Z) : Z := w32 (Z.sqrt (p * 2 ^ 64)).

Definition K : list Z := Eval vm_compute in cube_root_bits <$> primes 64.

(** The eight working words. *)
Record state : Set := State { sa : Z; sb : Z; sc : Z; sd : Z; se : Z; sf : Z; sg : Z; sh : Z }.

Definition H0 : state := Eval vm_compute in
  match square_root_bits <$> primes 8 with
  | [a; b; c; d; e; f; g; h] => State a b c d e f g h
  | _ => State 0 0 0 0 0 0 0 0
  end.

(** Big-endian bytes of an integer, most significant first. *)
Fixpoint be_bytes (count : nat) (x : Z) : list Z :=
  match count with
  | O => []
  | S c => Z.land (Z.shiftr x (8 * Z.of_nat c)) 0xFF :: be_bytes c x
  end.

Fixpoint be_words (bytes : list Z) : list Z :=
  match bytes with
  | b0 :: b1 :: b2 :: b3 :: rest =>
      Z.lor (Z.shiftl b0 24) (Z.lor (Z.shiftl b1 16) (Z.lor (Z.shiftl b2 8) b3))
        :: be_words rest
  | _ => []
  end.

(** The message followed by the bit 1, zeros, and its length in bits on 64
    bits, a multiple of 64 bytes in all. *)
Definition pad (msg : list Z) : list Z :=
  let len := Z.of_nat (length msg) in
  let zeros := Z.to_nat ((55 - len) mod 64) in
  msg ++ [0x80] ++ replicate zeros 0 ++ be_bytes 8 (8 * len).

(** The message schedule, most recent word first: [rev_w] holds
    [W(t-1), W(t-2), ...]. *)
Fixpoint schedule (count : nat) (rev_w : list Z) : list Z :=
  match count with
  | O => rev_w
  | S c =>
      let w := add32 (add32 (sigma1 (nth 1 rev_w 0)) (nth 6 rev_w 0))
                     (add32 (sigma0 (nth 14 rev_w 0)) (nth 15 rev_w 0)) in
      schedule c (w :: rev_w)
  end.

Definition round (s : state) (kw : Z * Z) : state :=
  let t1 := add32 (add32 (add32 (sh s) (Sigma1 (se s)))
                         (add32 (Ch (se s) (sf s) (sg s)) kw.1)) kw.2 in
  let t2 := add32 (Sigma0 (sa s)) (Maj (sa s) (sb s) (sc s)) in
  State (add32 t1 t2) (sa s) (sb s) (sc s) (add32 (sd s) t1) (se s) (sf s) (sg s).

Definition compress (h : state) (block : list Z) : state :=
  let w := reverse (schedule 48 (reverse (be_words block))) in
  let s := foldl round h (zip K w) in
  State (add32 (sa h) (sa s)) (add32 (sb h) (sb s)) (add32 (sc h) (sc s))
        (add32 (sd h) (sd s)) (add32 (se h) (se s)) (add32 (sf h) (sf s))
        (add32 (sg h) (sg s)) (add32 (sh h) (sh s)).

Fixpoint blocks (count : nat) (bytes : list Z) : list (list Z) :=
  match count with
  | O => []
  | S c => take 64 bytes :: blocks c (drop 64 bytes)
  end.

(** [hashlib.sha256(data).digest()] *)
Definition digest (data : list Z) : list Z :=
  let padded := pad data in
  let s := foldl compress H0 (blocks (length padded / 64) padded) in
  be_bytes 4 (sa s) ++ be_bytes 4 (sb s) ++ be_bytes 4 (sc s) ++ be_bytes 4 (sd s)
  ++ be_bytes 4 (se s) ++ be_bytes 4 (sf s) ++ be_bytes 4 (sg s) ++ be_bytes 4 (sh s).

(** Hexadecimal form of a byte string, for reading digests. *)
Definition hex_digit (d : Z) : ascii :=
  ascii_of_N (Z.to_N (if d <? 10 then 48 + d else 87 + d)).
Definition hexdigest (bytes : list Z) : string :=
  string_of_list_ascii
    (flat_map (λ b, [hex_digit (Z.shiftr b 4); hex_digit (Z.land b 15)]) bytes).
End SHA256.

(** ** Randomness

    The draws of the module [random] are read from a tape: [randbelow n]
    consumes one entry and reduces it below [n].  Code that draws runs in the
    monad [M], which threads the tape and propagates exceptions. *)

Definition tape : Type := list nat.
Definition M (A : Type) : Type := tape → result (A * tape).

#[global] Instance M_ret : MRet M := λ A a t, Ok (a, t).
#[global] Instance M_bind : MBind M := λ A B f m t,
  match m t with
  | Ok (a, t') => f a t'
  | Raise e => Raise e
  end.

Definition lift {A} (r : result A) : M A := λ t,
  match r with
  | Ok a => Ok (a, t)
  | Raise e => Raise e
  end.

Definition randbelow (n : nat) : M nat := λ t,
  match t with
  | [] => Ok (0, [])
  | x :: t' => Ok (x mod n, t')
  end.

(** [random.choice(seq)] *)
Definition random_choice {A} (seq : list A) : M A :=
  match seq with
  | [] => lift (Raise IndexError)
  | _ => i ← randbelow (length seq); lift (list_load seq i)
  end.

(** [random.randint(a, b)] with [a <= b]. *)
Definition random_randint (a b : nat) : M nat :=
  i ← randbelow (b - a + 1); mret (a + i).

(** [random.sample(population, k)]: [k] draws without replacement. *)
Fixpoint random_sample_pool {A} (pool : list A) (k : nat) : M (list A) :=
  match k with
  | O => mret []
  | S k' =>
      j ← randbelow (length pool);
      x ← lift (list_load pool j);
      rest ← random_sample_pool (delete j pool) k';
      mret (x :: rest)
  end.
Definition random_sample {A} (population : list A) (k : nat) : M (list A) :=
  if decide (k ≤ length population) then random_sample_pool population k
  else lift (Raise ValueError).

(** [random.choices(population, weights, k)]: [k] draws with replacement
    (the weights bias the draws, the tape stands for their outcome). *)
Fixpoint random_choices {A} (population : list A) (k : nat) : M (list A) :=
  match k with
  | O => mret []
  | S k' => x ← random_choice population;
            rest ← random_choices population k';
            mret (x :: rest)
  end.

(** [random.shuffle(x)]: for [i] from [len(x) - 1] down to [1], swap [x[i]]
    with [x[randbelow(i + 1)]]. *)
Fixpoint random_shuffle_from {A} (i : nat) (x : list A) : M (list A) :=
  match i with
  | O => mret x
  | S i' =>
      j ← randbelow (i + 1);
      match x !! i, x !! j with
      | Some xi, Some xj => random_shuffle_from i' (<[j:=xi]> (<[i:=xj]> x))
      | _, _ => lift (Raise IndexError)
      end
  end.
Definition random_shuffle {A} (x : list A) : M (list A) :=
  random_shuffle_from (length x - 1) x.

(** [for x in xs: ys.extend(f(x))] in [M]. *)
Fixpoint extendM {A B} (f : A → M (list B)) (xs : list A) : M (list B) :=
  match xs with
  | [] => mret []
  | x :: xs' => ys ← f x; rest ← extendM f xs'; mret (ys ++ rest)
  end.

(** The same loop for a body that does not draw. *)
Fixpoint extendR {A B} (f : A → result (list B)) (xs : list A) : result (list B) :=
  match xs with
  | [] => Ok []
  | x :: xs' => ys ← f x; rest ← extendR f xs'; Ok (ys ++ rest)
  end.

(** ** XOF-Genetics: organisms ([xof_genetics/organism.py]) *)

Module XOF.

Inductive ReproductionMethod : Set :=
  | DIRECT_ASEXUAL
  | SELF_REPRODUCTION
  | SEXUAL
  | MUTATION
  | ROTATION
  | PERMUTATION
  | COMBINED_TRANSFORMATIONS
  | ENHANCED_SEXUAL.

#[global] Instance ReproductionMethod_eq_dec : EqDecision ReproductionMethod.
Proof. solve_decision. Defined.

(** The members in definition order, as [for method in ReproductionMethod]
    visits them. *)
Definition all_methods : list ReproductionMethod :=
  [DIRECT_ASEXUAL; SELF_REPRODUCTION; SEXUAL; MUTATION; ROTATION; PERMUTATION;
   COMBINED_TRANSFORMATIONS; ENHANCED_SEXUAL].

Inductive OrganismMode : Set := BASIC | DUAL_ENCODED.

(** The values of [combination_strategy]: ["all"], ["random"], ["weighted"]. *)
Inductive Combination : Set := All | Random | Weighted.

(** The interface [HashFunction]: [hash(data, length)]. *)
Record HashFunction : Type := { hash : list Z → nat → list Z }.

(** The loop of [SHA256Hash.hash]; every turn appends 32 bytes, so [fuel]
    turns are enough when [length <= len(extended) + 32 * fuel]. *)
Fixpoint SHA256Hash_extend (fuel : nat) (extended : list Z) (length : nat)
  : list Z :=
  match fuel with
  | O => extended
  | S fuel' =>
      if List.length extended <? length
      then SHA256Hash_extend fuel' (extended ++ SHA256.digest extended) length
      else extended
  end.

Definition SHA256Hash_hash (data : list Z) (length : nat) : list Z :=
  let result := SHA256.digest data in
  if length <=? List.length result then take length result
  else
    let extended := SHA256Hash_extend length result length in
    take length extended.

Definition SHA256Hash : HashFunction := {| hash := SHA256Hash_hash |}.

(** A set of reproduction methods is a duplicate-free list; the order in
    which Python iterates such a set is not specified, the list fixes one. *)
Record Strategy : Type := {
  s_enabled_methods : list ReproductionMethod;
  s_mutation_masks : list (list Z);
  s_rotation_positions : list Z;
  s_permutation_maps : list (list nat);
  s_method_weights : list (ReproductionMethod * Q);
  s_combination_strategy : Combination;
}.

Record OrganismConfig : Type := {
  genome_length : nat;
  hash_function : HashFunction;
  mode : OrganismMode;
  enabled_methods : list ReproductionMethod;
  combination_strategy : Combination;
  mutation_masks : list (list Z);
  rotation_positions : list Z;
  permutation_maps : list (list nat);
  method_weights : list (ReproductionMethod * Q);
  meta_genome_length : nat;
  enable_dual_encoding : bool;
  enable_reciprocal_reproduction : bool;
}.

Record Organism : Type := {
  genome : list Z;
  config : OrganismConfig;
  fitness : Q;
  generation : nat;
  meta_genome : option (list Z);
  reproduction_strategy : Strategy;
}.

(** [child.generation = g] and [organism.fitness = f] *)
Definition set_generation (o : Organism) (g : nat) : Organism :=
  {| genome := genome o; config := config o; fitness := fitness o;
     generation := g; meta_genome := meta_genome o;
     reproduction_strategy := reproduction_strategy o |}.
Definition set_fitness (o : Organism) (f : Q) : Organism :=
  {| genome := genome o; config := config o; fitness := f;
     generation := generation o; meta_genome := meta_genome o;
     reproduction_strategy := reproduction_strategy o |}.

(** [Organism.__eq__]: the genomes and the meta-genomes are equal. *)
Definition organism_eqb (a b : Organism) : bool :=
  bool_decide (genome a = genome b) && bool_decide (meta_genome a = meta_genome b).

(** [set(a) == set(b)] *)
Definition set_eqb (a b : list nat) : bool :=
  forallb (λ x, bool_decide (x ∈ b)) a && forallb (λ x, bool_decide (x ∈ a)) b.

(** [d.get(method, default)] on the weight dictionaries. *)
Definition weight_get (w : list (ReproductionMethod * Q)) (m : ReproductionMethod)
    (default : Q) : Q :=
  match list_find (λ p, p.1 = m) w with
  | Some (_, (_, q)) => q
  | None => default
  end.

Section WithFloat.
Context `{FloatOps}.

(** [genome[start:start + 32]] and friends. *)
Definition slice {A} (l : list A) (start count : nat) : list A :=
  take count (drop start l).

Definition _parse_genome_strategy (config : OrganismConfig) (genome : list Z)
  : result Strategy :=
  method_flags ← list_load genome 0;
  let flag (bit : Z) (m : ReproductionMethod) :=
    if (Z.land method_flags bit =? 0)%Z then [] else [m] in
  let enabled :=
    flag 1%Z DIRECT_ASEXUAL ++ flag 2%Z SELF_REPRODUCTION ++ flag 4%Z SEXUAL
    ++ flag 8%Z MUTATION ++ flag 16%Z ROTATION ++ flag 32%Z PERMUTATION
    ++ flag 64%Z COMBINED_TRANSFORMATIONS ++ flag 128%Z ENHANCED_SEXUAL in
  b1 ← list_load genome 1;
  let combination :=
    match (b1 mod 3)%Z with
    | 0%Z => All
    | 1%Z => Random
    | _ => Weighted
    end in
  let G := genome_length config in
  let masks :=
    (λ i, let mask_bytes := slice genome (2 + i * 32) 32 in
          if decide (length mask_bytes = 0)
          then (λ j, Z.of_nat (j mod 256)) <$> seq 0 G
          else (λ j, default 0%Z (mask_bytes !! (j mod length mask_bytes)))
               <$> seq 0 G)
    <$> seq 0 3 in
  positions ←
    forM (λ i, let pos_bytes := slice genome (98 + i * 2) 2 in
               if decide (G = 0) then Raise ZeroDivisionError
               else Ok (int_from_bytes pos_bytes mod Z.of_nat G)%Z)
         (seq 0 4);
  let perms :=
    (λ i, let perm_bytes := slice genome (106 + i * 32) 32 in
          foldl (λ perm_map '(j, byte),
                   if decide (j < length perm_map) then
                     let swap_idx := (j + Z.to_nat byte) mod length perm_map in
                     let a := default 0 (perm_map !! j) in
                     let b := default 0 (perm_map !! swap_idx) in
                     <[swap_idx:=a]> (<[j:=b]> perm_map)
                   else perm_map)
                (seq 0 G) (enumerate perm_bytes))
    <$> seq 0 3 in
  let weight_start := 202 in
  let weights :=
    (λ '(i, method),
       match genome !! (weight_start + i) with
       | Some b => (method, fdiv (inject_Z b) 255)
       | None => (method, 1 # 2)%Q
       end) <$> enumerate all_methods in
  Ok {| s_enabled_methods := enabled; s_mutation_masks := masks;
        s_rotation_positions := positions; s_permutation_maps := perms;
        s_method_weights := weights; s_combination_strategy := combination |}.

Definition _parse_reproduction_strategy (config : OrganismConfig)
    (genome : list Z) : result Strategy :=
  match mode config with
  | BASIC =>
      Ok {| s_enabled_methods := remove_dups (enabled_methods config);
            s_mutation_masks := mutation_masks config;
            s_rotation_positions := rotation_positions config;
            s_permutation_maps := permutation_maps config;
            s_method_weights := method_weights config;
            s_combination_strategy := combination_strategy config |}
  | DUAL_ENCODED => _parse_genome_strategy config genome
  end.

(** [Organism(genome, config, meta_genome)] *)
Definition Organism__init__ (genome : list Z) (config : OrganismConfig)
    (meta_genome : option (list Z)) : result Organism :=
  if negb (length genome =? genome_length config) then Raise ValueError
  else
    meta ←
      match mode config with
      | DUAL_ENCODED =>
          match meta_genome with
          | None => Raise ValueError
          | Some mg =>
              if negb (length mg =? meta_genome_length config)
              then Raise ValueError else Ok (Some mg)
          end
      | BASIC => Ok None
      end;
    strategy ← _parse_reproduction_strategy config genome;
    Ok {| genome := genome; config := config; fitness := 0; generation := 0;
          meta_genome := meta; reproduction_strategy := strategy |}.

Definition from_seed (seed_data : list Z) (config : OrganismConfig)
  : result Organism :=
  let genome := hash (hash_function config) seed_data (genome_length config) in
  match mode config with
  | DUAL_ENCODED =>
      let meta_genome :=
        hash (hash_function config) (seed_data ++ bytes_of_string "_meta")
             (meta_genome_length config) in
      Organism__init__ genome config (Some meta_genome)
  | BASIC => Organism__init__ genome config None
  end.

(** A child built from a genome: [Organism(child_genome, self.config,
    self.meta_genome)] followed by [child.generation = g]. *)
Definition new_child (self : Organism) (child_genome : list Z) (g : nat)
  : result Organism :=
  child ← Organism__init__ child_genome (config self) (meta_genome self);
  Ok (set_generation child g).

Definition H_ (self : Organism) (pre_image : list Z) : list Z :=
  hash (hash_function (config self)) pre_image (genome_length (config self)).

Definition direct_asexual_reproduction (self : Organism) : result (list Organism) :=
  child ← new_child self (H_ self (genome self)) (generation self + 1);
  Ok [child].

Definition mutate (self : Organism) (mutation_mask : list Z)
  : result (list Organism) :=
  if negb (length mutation_mask =? genome_length (config self)) then Raise ValueError
  else
    let mutated_genome := zip_with Z.lxor (genome self) mutation_mask in
    child ← new_child self (H_ self mutated_genome) (generation self + 1);
    Ok [child].

Definition rotate (self : Organism) (positions : Z) : result (list Organism) :=
  let G := genome_length (config self) in
  if decide (G = 0) then Raise ZeroDivisionError
  else
    let positions := Z.to_nat (positions mod Z.of_nat G)%Z in
    let rotated_genome := drop positions (genome self) ++ take positions (genome self) in
    child ← new_child self (H_ self rotated_genome) (generation self + 1);
    Ok [child].

Definition permute (self : Organism) (permutation_map : list nat)
  : result (list Organism) :=
  let G := genome_length (config self) in
  if negb (length permutation_map =? G) then Raise ValueError
  else if negb (set_eqb permutation_map (seq 0 G)) then Raise ValueError
  else
    permuted_genome ← forM (list_load (genome self)) permutation_map;
    child ← new_child self (H_ self permuted_genome) (generation self + 1);
    Ok [child].

Definition reproduce_sexually (self partner : Organism) : M (list Organism) :=
  let split_point := genome_length (config self) / 2 in
  let g := generation self `max` generation partner + 1 in
  if enable_reciprocal_reproduction (config self) then
    let pre_image1 := take split_point (genome self) ++ drop split_point (genome partner) in
    let pre_image2 := take split_point (genome partner) ++ drop split_point (genome self) in
    child1 ← lift (Organism__init__ (H_ self pre_image1) (config self) (meta_genome self));
    child2 ← lift (Organism__init__ (H_ self pre_image2) (config self) (meta_genome self));
    mret [set_generation child1 g; set_generation child2 g]
  else
    coin ← random_choice [true; false];
    let pre_image :=
      if coin : bool
      then take split_point (genome self) ++ drop split_point (genome partner)
      else take split_point (genome partner) ++ drop split_point (genome self) in
    child ← lift (new_child self (H_ self pre_image) g);
    mret [child].

Definition asexual_self_reproduction (self : Organism) : M (list Organism) :=
  child1_list ← lift (direct_asexual_reproduction self);
  child1 ← lift (list_load child1_list 0);
  child2 ←
    (if bool_decide (SEXUAL ∈ enabled_methods (config self)) then
       let split_point := genome_length (config self) / 2 in
       let pre_image := take split_point (genome self) ++ drop split_point (genome self) in
       lift (new_child self (H_ self pre_image) (generation self + 1))
     else
       mask ← random_choice (mutation_masks (config self));
       child2_list ← lift (mutate self mask);
       lift (list_load child2_list 0));
  mret [child1; child2].

Definition combination_index (c : Combination) : nat :=
  match c with All => 0 | Random => 1 | Weighted => 2 end.

Definition _combine_strategies (self partner : Organism) : Strategy :=
  let s1 := reproduction_strategy self in
  let s2 := reproduction_strategy partner in
  {| s_enabled_methods := list_union (s_enabled_methods s1) (s_enabled_methods s2);
     s_mutation_masks := s_mutation_masks s1 ++ s_mutation_masks s2;
     s_rotation_positions := s_rotation_positions s1 ++ s_rotation_positions s2;
     s_permutation_maps := s_permutation_maps s1 ++ s_permutation_maps s2;
     s_method_weights :=
       (λ method,
          let weight1 := weight_get (s_method_weights s1) method (1 # 2) in
          let weight2 := weight_get (s_method_weights s2) method (1 # 2) in
          (method, fdiv (fadd weight1 weight2) 2)) <$> all_methods;
     s_combination_strategy :=
       if decide (combination_index (s_combination_strategy s1)
                  ≤ combination_index (s_combination_strategy s2))
       then s_combination_strategy s2 else s_combination_strategy s1 |}.

Definition _select_methods (strategy : Strategy) : M (list ReproductionMethod) :=
  let enabled_methods :=
    match s_enabled_methods strategy with
    | [] => [DIRECT_ASEXUAL]
    | ms => ms
    end in
  match s_combination_strategy strategy with
  | All => mret enabled_methods
  | Random =>
      num_methods ← random_randint 1 (3 `min` length enabled_methods);
      random_sample enabled_methods num_methods
  | Weighted =>
      let weights :=
        (λ method, weight_get (s_method_weights strategy) method (1 # 2))
        <$> enabled_methods in
      let total_weight := foldl fadd 0%Q weights in
      if Qltb 0 total_weight then
        k ← random_randint 1 3;
        random_choices enabled_methods k
      else random_sample enabled_methods (3 `min` length enabled_methods)
  end.

(** [_apply_reproduction_method]; its only caller passes a partner (never
    [None]) and the combined strategy. *)
Definition _apply_reproduction_method (self : Organism)
    (method : ReproductionMethod) (partner : Organism) (strategy : Strategy)
  : M (list Organism) :=
  let distinct := negb (organism_eqb partner self) in
  let both (f : Organism → M (list Organism)) : M (list Organism) :=
    a ← f self;
    b ← (if distinct then f partner else mret []);
    mret (a ++ b) in
  match method with
  | DIRECT_ASEXUAL => both (λ o, lift (direct_asexual_reproduction o))
  | SELF_REPRODUCTION => both asexual_self_reproduction
  | SEXUAL => reproduce_sexually self partner
  | MUTATION =>
      extendM (λ mask, both (λ o, lift (mutate o mask))) (s_mutation_masks strategy)
  | ROTATION =>
      extendM (λ pos, both (λ o, lift (rotate o pos))) (s_rotation_positions strategy)
  | PERMUTATION =>
      extendM (λ perm_map, both (λ o, lift (permute o perm_map)))
              (s_permutation_maps strategy)
  | COMBINED_TRANSFORMATIONS =>
      extendM (λ mask,
        extendM (λ pos,
          both (λ o, mutated_children ← lift (mutate o mask);
                     lift (extendR (λ mutated, rotate mutated pos) mutated_children)))
          (take 2 (s_rotation_positions strategy)))
        (take 2 (s_mutation_masks strategy))
  | ENHANCED_SEXUAL =>
      sexual_children ← reproduce_sexually self partner;
      lift (extendR (λ child,
              extendR (λ mask, mutate child mask) (take 2 (s_mutation_masks strategy)))
            sexual_children)
  end.

Definition _dual_encoded_reproduction (self partner : Organism) : M (list Organism) :=
  let combined_strategy := _combine_strategies self partner in
  methods_to_use ← _select_methods combined_strategy;
  children ←
    extendM (λ method, _apply_reproduction_method self method partner combined_strategy)
            methods_to_use;
  let target_generation := generation self `max` generation partner + 1 in
  mret ((λ child, set_generation child target_generation) <$> children).

Definition _dual_encoded_self_reproduction (self : Organism) : M (list Organism) :=
  _dual_encoded_reproduction self self.

Definition _basic_asexual_reproduction (self : Organism) : M (list Organism) :=
  let enabled := s_enabled_methods (reproduction_strategy self) in
  a ← (if bool_decide (DIRECT_ASEXUAL ∈ enabled)
       then lift (direct_asexual_reproduction self) else mret []);
  b ← (if bool_decide (SELF_REPRODUCTION ∈ enabled)
       then asexual_self_reproduction self else mret []);
  mret (a ++ b).

Definition _basic_sexual_reproduction (self partner : Organism) : M (list Organism) :=
  if bool_decide (SEXUAL ∈ s_enabled_methods (reproduction_strategy self))
  then reproduce_sexually self partner else mret [].

Definition reproduce (self : Organism) (partner : option Organism)
  : M (list Organism) :=
  match mode (config self), partner with
  | BASIC, None => _basic_asexual_reproduction self
  | BASIC, Some p => _basic_sexual_reproduction self p
  | DUAL_ENCODED, None => _dual_encoded_self_reproduction self
  | DUAL_ENCODED, Some p => _dual_encoded_reproduction self p
  end.

(** [for x in xs: children.extend(self.f(x)); children.extend(partner.f(x))] *)
Definition for_both {A} (self partner : Organism)
    (f : Organism → A → result (list Organism)) (xs : list A)
  : result (list Organism) :=
  extendR (λ x, a ← f self x; b ← f partner x; Ok (a ++ b)) xs.

Definition omni_reproduce (self : Organism) (partner : option Organism)
  : M (list Organism) :=
  let partner := default self partner in
  (* 1. asexual reproduction from both parents *)
  c1a ← lift (direct_asexual_reproduction self);
  c1b ← lift (direct_asexual_reproduction partner);
  (* 2. asexual self-reproduction from both parents *)
  c2a ← asexual_self_reproduction self;
  c2b ← asexual_self_reproduction partner;
  (* 3. sexual reproduction between the parents *)
  c3 ← reproduce_sexually self partner;
  (* 4. - 6. mutated, rotated and permuted versions of both parents *)
  c4 ← lift (for_both self partner mutate (take 5 (mutation_masks (config self))));
  c5 ← lift (for_both self partner rotate (take 5 (rotation_positions (config self))));
  c6 ← lift (for_both self partner permute (take 5 (permutation_maps (config self))));
  (* 7. combined transformations: mutated, then rotated *)
  c7 ← lift (extendR (λ mask,
          extendR (λ pos,
            ms ← mutate self mask; mutated_self ← list_load ms 0;
            a ← rotate mutated_self pos;
            mp ← mutate partner mask; mutated_partner ← list_load mp 0;
            b ← rotate mutated_partner pos;
            Ok (a ++ b))
          (take 3 (rotation_positions (config self))))
        (take 3 (mutation_masks (config self))));
  (* 8. enhanced sexual offspring: sexual children, mutated further *)
  sexual_children ← reproduce_sexually self partner;
  c8 ← lift (extendR (λ child,
          extendR (λ mask, mutate child mask) (take 3 (mutation_masks (config self))))
        sexual_children);
  mret (c1a ++ c1b ++ c2a ++ c2b ++ c3 ++ c4 ++ c5 ++ c6 ++ c7 ++ c8).
End WithFloat.
End XOF.

(** ** XOF-Genetics: the evolutionary loop ([xof_genetics/evolution.py])

    The embedding follows the code for [thread_count = 1] (the default), where
    no executor is used and results are appended in input order.  Wall-clock
    time is outside the embedding: the auto-population step of the loop, which
    is driven by [time.time()], is the parameter [auto_population_step].  The
    optional [generation_callback] and the strategy analysis added to the
    history entries only read the state and are left out. *)

Module Evolution.
Import XOF.

Inductive PairingStrategy : Set :=
  | RANDOM
  | ELITE_VS_ELITE
  | ELITE_VS_CHALLENGER
  | COMPLEMENTARY.

Inductive EvolutionMode : Set :=
  | TOURNAMENT
  | SIMPLE
  | OMNI
  | DUAL_ENCODED_MODE.

Record EvolutionConfig : Type := {
  mode : EvolutionMode;
  pairing_strategy : PairingStrategy;
  max_generations : nat;
  population_cap : nat;
  elite_fraction : Q;
  selection_pressure : Q;
  track_strategy_history : bool;
}.

Record HistoryEntry : Type := {
  h_generation : nat;
  h_population_size : nat;
  h_best_fitness : Q;
  h_avg_fitness : Q;
}.

(** [population.sort(key=lambda x: x.fitness, reverse=True)]: stable, the
    fitter organism first. *)
Definition sort_by_fitness (population : list Organism) : list Organism :=
  list_sort (λ x y, Qltb (fitness y) (fitness x)) population.

(** [max(population, key=lambda x: x.fitness)]: the first organism of maximal
    fitness; [ValueError] on an empty population. *)
Definition max_by_fitness (population : list Organism) : result Organism :=
  match population with
  | [] => Raise ValueError
  | o :: rest =>
      Ok (foldl (λ best x, if Qltb (fitness best) (fitness x) then x else best)
                o rest)
  end.

(** [population.index(x)]: the position of the first organism equal to [x]. *)
Definition index_of (population : list Organism) (x : Organism) : result nat :=
  match list_find (λ y, organism_eqb y x = true) population with
  | Some (i, _) => Ok i
  | None => Raise ValueError
  end.

(** [max(a, int(x))] for a float [x]. *)
Definition max_int (a : nat) (x : Q) : nat := a `max` Z.to_nat (Qtrunc x).

(** The local variables of [evolutionary_loop] that are carried from one
    generation to the next. *)
Record LoopState : Type := {
  st_population : list Organism;
  st_best_organism_ever : option Organism;
  st_best_fitness_ever : option Q;
  st_history : list HistoryEntry;
}.

Section Loop.
Context `{FloatOps}.
Variable fitness_func : Organism → Q.

Definition threaded_fitness_evaluation (population : list Organism)
  : list Organism :=
  (λ organism, set_fitness organism (fitness_func organism)) <$> population.

Definition intergenerational_tournament (parent1 parent2 : Organism)
  : M (list Organism) :=
  children ← reproduce_sexually parent1 parent2;
  let child1 := children !! 0 in
  let child2 := if decide (length children = 2) then children !! 1 else None in
  let parent1 := set_fitness parent1 (fitness_func parent1) in
  let parent2 := set_fitness parent2 (fitness_func parent2) in
  let child1 := (λ c, set_fitness c (fitness_func c)) <$> child1 in
  let child2 := (λ c, set_fitness c (fitness_func c)) <$> child2 in
  let champion_child :=
    match child1, child2 with
    | Some c1, Some c2 => Some (if Qltb (fitness c2) (fitness c1) then c1 else c2)
    | Some c1, None => Some c1
    | None, _ => child2
    end in
  let beats (p : Organism) : bool :=
    match champion_child with
    | Some c => Qltb (fitness c) (fitness p)
    | None => true
    end in
  mret ((if beats parent1 then [parent1] else [])
        ++ (if beats parent2 then [parent2] else [])
        ++ option_list champion_child).

(** The pairs [(x[0], x[1]), (x[2], x[3]), ...] *)
Fixpoint consecutive_pairs (x : list Organism) : list (Organism * Organism) :=
  match x with
  | a :: b :: rest => (a, b) :: consecutive_pairs rest
  | _ => []
  end.

Definition pair_organisms (organisms : list Organism) (strategy : PairingStrategy)
  : M (list (Organism * Organism)) :=
  if decide (length organisms < 2) then mret []
  else
    match strategy with
    | RANDOM =>
        organisms_copy ← random_shuffle organisms;
        mret (consecutive_pairs organisms_copy)
    | ELITE_VS_ELITE => mret (consecutive_pairs (sort_by_fitness organisms))
    | ELITE_VS_CHALLENGER =>
        let organisms_copy := sort_by_fitness organisms in
        let mid := length organisms_copy / 2 in
        mret (zip (take mid organisms_copy) (drop mid organisms_copy))
    | COMPLEMENTARY =>
        let organisms_copy := sort_by_fitness organisms in
        mret (zip (take (length organisms_copy / 2) organisms_copy)
                  (reverse organisms_copy))
    end.

Definition handle_odd_organism (organism : Organism) : M (list Organism) :=
  asexual_self_reproduction organism.

(** The organisms whose position is not the position at which
    [population.index] finds a paired parent. *)
Definition unpaired_organisms (population : list Organism)
    (pairs : list (Organism * Organism)) : result (list Organism) :=
  paired_indices ←
    extendR (λ '(parent1, parent2),
               i ← index_of population parent1;
               j ← index_of population parent2;
               Ok [i; j]) pairs;
  Ok (filter (λ p, p.1 ∉ paired_indices) (enumerate population)).*2.

(** The common shape of the tournament, omni and dual-encoded reproduction:
    one call per pair, then one call per unpaired organism. *)
Definition paired_reproduction (population : list Organism)
    (strategy : PairingStrategy)
    (for_pair : Organism → Organism → M (list Organism))
    (for_unpaired : Organism → M (list Organism)) : M (list Organism) :=
  pairs ← pair_organisms population strategy;
  from_pairs ← extendM (λ '(parent1, parent2), for_pair parent1 parent2) pairs;
  unpaired ← lift (unpaired_organisms population pairs);
  from_unpaired ← extendM for_unpaired unpaired;
  mret (from_pairs ++ from_unpaired).

Definition threaded_tournament_reproduction (population : list Organism)
    (config : EvolutionConfig) : M (list Organism) :=
  paired_reproduction population (pairing_strategy config)
    intergenerational_tournament handle_odd_organism.

Definition threaded_omni_reproduction (population : list Organism)
    (config : EvolutionConfig) : M (list Organism) :=
  paired_reproduction population (pairing_strategy config)
    (λ parent1 parent2, omni_reproduce parent1 (Some parent2))
    (λ organism, omni_reproduce organism (Some organism)).

Definition threaded_dual_encoded_reproduction (population : list Organism)
    (config : EvolutionConfig) : M (list Organism) :=
  paired_reproduction population (pairing_strategy config)
    (λ parent1 parent2, reproduce parent1 (Some parent2))
    (λ organism, reproduce organism None).

(** The worker of the simple mode: [fuel] bounds the turns of its loop; every
    turn adds at least one child, so [target + 1] turns are enough. *)
Fixpoint reproduction_worker (fuel : nat) (parents children : list Organism)
    (target : nat) : M (list Organism) :=
  match fuel with
  | O => mret children
  | S fuel' =>
      if decide (length children < target) then
        picked ← random_sample parents 2;
        match picked with
        | [parent1; parent2] =>
            child_batch ← reproduce_sexually parent1 parent2;
            reproduction_worker fuel' parents (children ++ child_batch) target
        | _ => lift (Raise ValueError)
        end
      else mret children
  end.

Definition threaded_simple_reproduction (population : list Organism)
    (config : EvolutionConfig) : M (list Organism) :=
  let population := sort_by_fitness population in
  let num_parents :=
    max_int 2 (fmul (Qnat (length population)) (selection_pressure config)) in
  let parents := take num_parents population in
  let target_size := length population in
  new_population ←
    reproduction_worker (target_size + 2) parents [] (target_size + 1);
  mret (take target_size new_population).

Variable auto_population_step : list Organism → result (list Organism).

(** One turn of the loop of [evolutionary_loop]. *)
Definition generation_step (config : EvolutionConfig) (generation : nat)
    (st : LoopState) : M LoopState :=
  let population := threaded_fitness_evaluation (st_population st) in
  (* track the best organism ever seen *)
  current_best ← lift (max_by_fitness population);
  let improved :=
    match st_best_fitness_ever st with
    | None => true
    | Some b => Qltb b (fitness current_best)
    end in
  let best_fitness_ever :=
    if improved then Some (fitness current_best) else st_best_fitness_ever st in
  let best_organism_ever :=
    if improved then Some current_best else st_best_organism_ever st in
  (* history entry *)
  best ← lift (max_by_fitness population);
  let best_fitness := fitness best in
  let avg_fitness :=
    fdiv (foldl fadd 0%Q (fitness <$> population)) (Qnat (length population)) in
  let history_entry :=
    {| h_generation := generation; h_population_size := length population;
       h_best_fitness := best_fitness; h_avg_fitness := avg_fitness |} in
  (* reproduction *)
  new_population ←
    match mode config with
    | TOURNAMENT => threaded_tournament_reproduction population config
    | SIMPLE => threaded_simple_reproduction population config
    | OMNI => threaded_omni_reproduction population config
    | DUAL_ENCODED_MODE => threaded_dual_encoded_reproduction population config
    end;
  (* elitism *)
  let new_population :=
    match best_organism_ever with
    | Some best_organism =>
        if existsb (organism_eqb best_organism) new_population
        then new_population else new_population ++ [best_organism]
    | None => new_population
    end in
  (* population cap *)
  let population :=
    if decide (population_cap config < length new_population) then
      let sorted := sort_by_fitness new_population in
      let elite_size :=
        max_int 1 (fmul (Qnat (length sorted)) (elite_fraction config)) in
      take elite_size sorted
    else new_population in
  population ← lift (auto_population_step population);
  mret {| st_population := population;
          st_best_organism_ever := best_organism_ever;
          st_best_fitness_ever := best_fitness_ever;
          st_history := st_history st ++ [history_entry] |}.

(** [evolutionary_loop]: the final population and the history (the history is
    returned only when [track_strategy_history] is set). *)
Definition evolutionary_loop (initial_population : list Organism)
    (config : EvolutionConfig) : M (list Organism * list HistoryEntry) :=
  st ← foldl (λ acc generation, st ← acc; generation_step config generation st)
             (mret {| st_population := initial_population;
                      st_best_organism_ever := None;
                      st_best_fitness_ever := None; st_history := [] |})
             (seq 1 (max_generations config));
  mret (st_population st, st_history st).
End Loop.
End Evolution.

(** ** Licensee: payload and encoding ([licensee/license_data.py],
    [licensee/encoding.py]) *)

Module Licensee.
Import Licensee_permutation.

Definition ALPHABET : list ascii :=
  list_ascii_of_string "0123456789ABCDEFGHJKMNPQRSTWVXYZ".

(** [ALPHABET_MAP[char]], [None] when [char not in ALPHABET_MAP]. *)
Definition ALPHABET_MAP (char : ascii) : option Z :=
  (λ p, Z.of_nat p.1) <$> list_find (λ a, a = char) ALPHABET.

Definition TOTAL_BITS : Z := 150.

Inductive allocation : Set :=
  | A_mode_flag
  | A_swap_param
  | A_issue_date
  | A_license_plan
  | A_duration_expiry
  | A_key_holder_group
  | A_unique_license_id
  | A_version_lock
  | A_simple_checksum.

Definition BIT_ALLOCATIONS (a : allocation) : Z :=
  match a with
  | A_mode_flag => 1
  | A_swap_param => 8
  | A_issue_date => 14
  | A_license_plan => 4
  | A_duration_expiry => 10
  | A_key_holder_group => 8
  | A_unique_license_id => 32
  | A_version_lock => 8
  | A_simple_checksum => 5
  end.

Record LicenseData : Type := {
  mode_flag : Z;
  swap_param : Q;
  issue_date_days : Z;
  license_plan : Z;
  duration_days : Z;
  key_holder_group : Z;
  unique_license_id : Z;
  version_lock : Z;
  simple_checksum : Z;
  entropy_bits : Z;
  entropy_value : Z;
}.

(** [pack_value] of [to_bits]: the state is [(all_bits, current_bit_pos)];
    a negative shift count raises [ValueError]. *)
Definition pack_value (st : Z * Z) (field : Z * Z) : result (Z * Z) :=
  let '(all_bits, current_bit_pos) := st in
  let '(value, num_bits) := field in
  if (num_bits <? 0)%Z then Raise ValueError
  else if (2 ^ num_bits <=? value)%Z then Raise ValueError
  else
    let current_bit_pos := (current_bit_pos - num_bits)%Z in
    if (current_bit_pos <? 0)%Z then Raise ValueError
    else Ok (Z.lor all_bits (Z.shiftl value current_bit_pos), current_bit_pos).

(** The bits that the fixed fields take for a mode flag. *)
Definition fixed_bits (mode_flag : Z) : Z :=
  (BIT_ALLOCATIONS A_mode_flag
   + (if mode_flag =? 1 then BIT_ALLOCATIONS A_swap_param else 0)
   + BIT_ALLOCATIONS A_issue_date + BIT_ALLOCATIONS A_license_plan
   + BIT_ALLOCATIONS A_duration_expiry + BIT_ALLOCATIONS A_key_holder_group
   + BIT_ALLOCATIONS A_unique_license_id + BIT_ALLOCATIONS A_version_lock
   + BIT_ALLOCATIONS A_simple_checksum)%Z.

Section WithFloat.
Context `{FloatOps}.

Definition to_bits (self : LicenseData) : result (list Z) :=
  st ← pack_value (0, TOTAL_BITS)%Z (mode_flag self, BIT_ALLOCATIONS A_mode_flag);
  st ← (if (mode_flag self =? 1)%Z then
          let swap_param_int := Qtrunc (fmul (swap_param self) 255) in
          pack_value st (swap_param_int, BIT_ALLOCATIONS A_swap_param)
        else Ok st);
  st ← foldM pack_value st
         [(issue_date_days self, BIT_ALLOCATIONS A_issue_date);
          (license_plan self, BIT_ALLOCATIONS A_license_plan);
          (duration_days self, BIT_ALLOCATIONS A_duration_expiry);
          (key_holder_group self, BIT_ALLOCATIONS A_key_holder_group);
          (unique_license_id self, BIT_ALLOCATIONS A_unique_license_id);
          (version_lock self, BIT_ALLOCATIONS A_version_lock);
          (simple_checksum self, BIT_ALLOCATIONS A_simple_checksum)];
  let num_packed_bits := (TOTAL_BITS - entropy_bits self)%Z in
  if negb (st.2 =? TOTAL_BITS - num_packed_bits)%Z then Raise RuntimeError
  else
    st ← pack_value st (entropy_value self, entropy_bits self);
    let bytes_needed := ((TOTAL_BITS + 7) / 8)%Z in
    let aligned_bits := Z.shiftl st.1 (bytes_needed * 8 - TOTAL_BITS) in
    Ok ((λ i, Z.land (Z.shiftr aligned_bits ((bytes_needed - 1 - Z.of_nat i) * 8)) 255)
        <$> seq 0 (Z.to_nat bytes_needed)).

(** [unpack_value] of [from_bits]: returns the value and the new position. *)
Definition unpack_value (all_bits current_bit_pos num_bits : Z) : Z * Z :=
  let current_bit_pos := (current_bit_pos - num_bits)%Z in
  (Z.land (Z.shiftr all_bits current_bit_pos) (2 ^ num_bits - 1), current_bit_pos).

Definition from_bits (bit_bytes : list Z) : result LicenseData :=
  let bytes_provided := Z.of_nat (length bit_bytes) in
  if (bytes_provided * 8 <? TOTAL_BITS)%Z then Raise ValueError
  else
    let all_bits :=
      foldl (λ all_bits byte, Z.lor (Z.shiftl all_bits 8) byte) 0%Z bit_bytes in
    let bits_to_discard := (bytes_provided * 8 - TOTAL_BITS)%Z in
    let all_bits := Z.shiftr all_bits bits_to_discard in
    let pos := TOTAL_BITS in
    let '(mode_flag, pos) := unpack_value all_bits pos (BIT_ALLOCATIONS A_mode_flag) in
    let '(swap_param, pos) :=
      if (mode_flag =? 1)%Z then
        let '(swap_param_int, pos) :=
          unpack_value all_bits pos (BIT_ALLOCATIONS A_swap_param) in
        (fdiv (inject_Z swap_param_int) 255, pos)
      else (0%Q, pos) in
    let '(issue_date_days, pos) := unpack_value all_bits pos (BIT_ALLOCATIONS A_issue_date) in
    let '(license_plan, pos) := unpack_value all_bits pos (BIT_ALLOCATIONS A_license_plan) in
    let '(duration_days, pos) := unpack_value all_bits pos (BIT_ALLOCATIONS A_duration_expiry) in
    let '(key_holder_group, pos) := unpack_value all_bits pos (BIT_ALLOCATIONS A_key_holder_group) in
    let '(unique_license_id, pos) := unpack_value all_bits pos (BIT_ALLOCATIONS A_unique_license_id) in
    let '(version_lock, pos) := unpack_value all_bits pos (BIT_ALLOCATIONS A_version_lock) in
    let '(simple_checksum, pos) := unpack_value all_bits pos (BIT_ALLOCATIONS A_simple_checksum) in
    let entropy_bits := (TOTAL_BITS - fixed_bits mode_flag)%Z in
    let '(entropy_value, pos) := unpack_value all_bits pos entropy_bits in
    Ok {| mode_flag := mode_flag; swap_param := swap_param;
          issue_date_days := issue_date_days; license_plan := license_plan;
          duration_days := duration_days; key_holder_group := key_holder_group;
          unique_license_id := unique_license_id; version_lock := version_lock;
          simple_checksum := simple_checksum; entropy_bits := entropy_bits;
          entropy_value := entropy_value |}.
End WithFloat.

Definition ENCODED_CHARS_LEN : Z := (TOTAL_BITS / 5)%Z.

(** The loop over the characters that accumulates five bits per character;
    [None] stands for a character outside the alphabet. *)
Definition accumulate_chars (chars : list ascii) : option Z :=
  foldl (λ acc char,
           all_bits ← acc; five_bits ← ALPHABET_MAP char;
           Some (Z.lor (Z.shiftl all_bits 5) five_bits))
        (Some 0%Z) chars.

Definition bits_to_chars (bit_bytes : list Z) : result (list ascii) :=
  let bytes_expected := ((TOTAL_BITS + 7) / 8)%Z in
  if negb (Z.of_nat (length bit_bytes) =? bytes_expected)%Z then Raise ValueError
  else
    let all_bits := int_from_bytes bit_bytes in
    let bits_to_discard := (bytes_expected * 8 - TOTAL_BITS)%Z in
    let all_bits := Z.shiftr all_bits bits_to_discard in
    forM (λ i,
            let bit_position := (TOTAL_BITS - 5 * (Z.of_nat i + 1))%Z in
            let five_bits := Z.land (Z.shiftr all_bits bit_position) 31 in
            list_load ALPHABET (Z.to_nat five_bits))
         (seq 0 (Z.to_nat ENCODED_CHARS_LEN)).

Definition chars_to_bits (encoded_chars : list ascii) : result (list Z) :=
  if negb (Z.of_nat (length encoded_chars) =? ENCODED_CHARS_LEN)%Z
  then Raise ValueError
  else
    match accumulate_chars encoded_chars with
    | None => Raise ValueError
    | Some all_bits =>
        let bytes_needed := ((TOTAL_BITS + 7) / 8)%Z in
        let aligned_bits := Z.shiftl all_bits (bytes_needed * 8 - TOTAL_BITS) in
        to_bytes aligned_bits bytes_needed
    end.

(** The loop of [bytes_to_alphabet_string]; every turn takes at least one
    bit, so [fuel = total_bits] turns are enough. *)
Fixpoint encode_chunks (fuel : nat) (all_bits bits_remaining : Z)
  : result (list ascii) :=
  match fuel with
  | O => Ok []
  | S fuel' =>
      if (0 <? bits_remaining)%Z then
        let bits_to_take := Z.min 5 bits_remaining in
        let shift_amount := (bits_remaining - bits_to_take)%Z in
        let five_bits :=
          Z.land (Z.shiftr all_bits shift_amount) (2 ^ bits_to_take - 1) in
        let five_bits :=
          if (bits_to_take <? 5)%Z then Z.shiftl five_bits (5 - bits_to_take)
          else five_bits in
        char ← list_load ALPHABET (Z.to_nat five_bits);
        rest ← encode_chunks fuel' all_bits (bits_remaining - bits_to_take)%Z;
        Ok (char :: rest)
      else Ok []
  end.

Definition bytes_to_alphabet_string (input_bytes : list Z) : result (list ascii) :=
  let all_bits := int_from_bytes input_bytes in
  let total_bits := (Z.of_nat (length input_bytes) * 8)%Z in
  encode_chunks (Z.to_nat total_bits) all_bits total_bits.

Definition alphabet_string_to_bytes (input_string : list ascii)
    (expected_total_bits : Z) : result (list Z) :=
  match accumulate_chars input_string with
  | None => Raise ValueError
  | Some all_bits =>
      let total_bits_read := (5 * Z.of_nat (length input_string))%Z in
      if (total_bits_read <? expected_total_bits)%Z then Raise ValueError
      else
        let bits_to_discard := (total_bits_read - expected_total_bits)%Z in
        let all_bits := Z.shiftr all_bits bits_to_discard in
        let bytes_needed := ((expected_total_bits + 7) / 8)%Z in
        let aligned_bits :=
          Z.shiftl all_bits (bytes_needed * 8 - expected_total_bits) in
        to_bytes aligned_bits bytes_needed
  end.
End Licensee.

(** ** Licensee: generation and validation ([licensee/license_manager.py])

    The signature scheme is the library's: [sign_data], [verify_signature]
    and the key that [load_public_key] returns are parameters.  [sign_data]
    calls [private_key.sign] and raises what that call raises;
    [verify_signature] catches every exception and answers [False].  The draws of
    [random.random()] and [random.getrandbits()] and the clock are inputs:
    [random_swap_param], [random_entropy], and [now_days], the time in days
    since the epoch 2024-01-01 UTC.  A string is a list of characters. *)

Module LicenseManager.
Import Licensee_permutation Licensee.

Definition SIGNATURE_BIT_LENGTH : Z := 2048.
Definition TOTAL_CHARS_TO_PERMUTE : nat := TOTAL_CHARS_TO_PERMUTE_source.

Definition calculate_simple_checksum (license_data : LicenseData) : Z :=
  let values_to_checksum :=
    [mode_flag license_data; issue_date_days license_data;
     license_plan license_data; duration_days license_data;
     key_holder_group license_data; unique_license_id license_data;
     version_lock license_data] in
  (foldl Z.add 0 values_to_checksum mod 2 ^ BIT_ALLOCATIONS A_simple_checksum)%Z.

(** [[s[i:i + n] for i in range(0, len(s), n)]]; [fuel = len(s)] is enough. *)
Fixpoint segments {A} (fuel : nat) (n : nat) (s : list A) : list (list A) :=
  match fuel, s with
  | S fuel', _ :: _ => take n s :: segments fuel' n (drop n s)
  | _, _ => []
  end.

(** ["-".join(parts)] and [s.split("-")] *)
Definition hyphen : ascii := "-"%char.
Fixpoint join (parts : list (list ascii)) : list ascii :=
  match parts with
  | [] => []
  | [p] => p
  | p :: rest => p ++ hyphen :: join rest
  end.
Fixpoint split (s : list ascii) : list (list ascii) :=
  match s with
  | [] => [[]]
  | c :: s' =>
      if decide (c = hyphen) then [] :: split s'
      else match split s' with
           | [] => [[c]]
           | p :: rest => (c :: p) :: rest
           end
  end.

(** [s.encode("ascii")] *)
Definition encode_ascii (s : list ascii) : result (list Z) :=
  forM (λ c, let b := Z.of_N (N_of_ascii c) in
             if (b <? 128)%Z then Ok b else Raise UnicodeEncodeError) s.

Section WithCrypto.
Context `{FloatOps}.
Context {PrivateKey PublicKey : Type}.
Variable sign_data : list Z → PrivateKey → result (list Z).
Variable verify_signature : list Z → list Z → PublicKey → bool.
Variable load_public_key : PublicKey.

Definition generate_license_key
    (random_swap_param : Q) (random_entropy : Z) (now_days : Z)
    (private_key : PrivateKey)
    (license_plan duration_days key_holder_group unique_license_id : Z)
    (version_lock : Z) (use_included_swap_param : bool)
    (fixed_swap_param : option Q) : result (list ascii) :=
  let mode_flag := if use_included_swap_param then 1%Z else 0%Z in
  swap_param ←
    (if use_included_swap_param then Ok random_swap_param
     else match fixed_swap_param with
          | None => Raise ValueError
          | Some p => Ok p
          end);
  let fixed_data_bits := fixed_bits mode_flag in
  let entropy_bits := (TOTAL_BITS - fixed_data_bits)%Z in
  if (entropy_bits <? 0)%Z then Raise ValueError
  else
    let entropy_value :=
      if (0 <? entropy_bits)%Z then (random_entropy mod 2 ^ entropy_bits)%Z
      else 0%Z in
    let issue_date_days := if (now_days <? 0)%Z then 0%Z else now_days in
    let temp_license_data :=
      {| mode_flag := mode_flag; swap_param := swap_param;
         issue_date_days := issue_date_days; license_plan := license_plan;
         duration_days := duration_days; key_holder_group := key_holder_group;
         unique_license_id := unique_license_id; version_lock := version_lock;
         simple_checksum := 0; entropy_bits := entropy_bits;
         entropy_value := 0 |} in
    let simple_checksum := calculate_simple_checksum temp_license_data in
    let final_license_data :=
      {| mode_flag := mode_flag; swap_param := swap_param;
         issue_date_days := issue_date_days; license_plan := license_plan;
         duration_days := duration_days; key_holder_group := key_holder_group;
         unique_license_id := unique_license_id; version_lock := version_lock;
         simple_checksum := simple_checksum; entropy_bits := entropy_bits;
         entropy_value := entropy_value |} in
    (* 1. pack, 2. sign, 3. concatenate, 4. encode *)
    license_data_bytes ← to_bits final_license_data;
    signature_bytes ← sign_data license_data_bytes private_key;
    let combined_bytes := license_data_bytes ++ signature_bytes in
    original_440_chars ← bytes_to_alphabet_string combined_bytes;
    (* 5. permute *)
    perm_map ← get_permutation_map TOTAL_CHARS_TO_PERMUTE swap_param;
    permuted_440_chars ←
      apply_permutation TOTAL_CHARS_TO_PERMUTE original_440_chars perm_map;
    (* 6. segment *)
    let segment_length := 5 in
    Ok (join (segments (length permuted_440_chars) segment_length
                permuted_440_chars)).

(** One attempt of the helper of [validate_license_key]: un-permute with the
    map of [swap], decode, unpack. *)
Definition attempt (permuted_chars : list ascii) (swap : Q) : result LicenseData :=
  perm_map ← get_permutation_map TOTAL_CHARS_TO_PERMUTE swap;
  inv_perm_map ← get_inverse_permutation_map TOTAL_CHARS_TO_PERMUTE perm_map;
  original_chars ←
    apply_inverse_permutation TOTAL_CHARS_TO_PERMUTE permuted_chars inv_perm_map;
  original_bit_bytes ← chars_to_bits original_chars;
  from_bits original_bit_bytes.

(** The brute force over the 8-bit swap parameters; an attempt that raises is
    skipped ([except Exception: pass]). *)
Fixpoint brute_force (permuted_chars : list ascii) (candidates : list nat)
  : option (Z * Q * LicenseData) :=
  match candidates with
  | [] => None
  | swap_param_int :: rest =>
      let current_swap_param :=
        fdiv (Qnat swap_param_int)
             (inject_Z (2 ^ BIT_ALLOCATIONS A_swap_param - 1)) in
      match attempt permuted_chars current_swap_param with
      | Ok unpacked_data =>
          if (mode_flag unpacked_data =? 1)%Z
             && Qltb (Qabs (fsub (swap_param unpacked_data) current_swap_param))
                     double_0_01
             && (simple_checksum unpacked_data
                 =? calculate_simple_checksum unpacked_data)%Z
          then Some (1%Z, current_swap_param, unpacked_data)
          else brute_force permuted_chars rest
      | Raise _ => brute_force permuted_chars rest
      end
  end.

(** [get_mode_and_swap_param_from_permuted_chars_robust]; [None] is the
    failure triple [(-1, 0.0, None)]. *)
Definition get_mode_and_swap_param_from_permuted_chars_robust
    (permuted_chars : list ascii) (hardcoded_swap_param : option Q)
  : option (Z * Q * LicenseData) :=
  match hardcoded_swap_param with
  | Some hardcoded =>
      match attempt permuted_chars hardcoded with
      | Ok unpacked_data =>
          if (mode_flag unpacked_data =? 0)%Z
             && (simple_checksum unpacked_data
                 =? calculate_simple_checksum unpacked_data)%Z
          then Some (0%Z, hardcoded, unpacked_data)
          else None
      | Raise _ => None
      end
  | None =>
      brute_force permuted_chars
        (seq 0 (Z.to_nat (2 ^ BIT_ALLOCATIONS A_swap_param)))
  end.

(** Steps 3 to 5 of [validate_license_key], after the signature check. *)
Definition validate_content (now_days : Q) (permuted_chars : list ascii)
    (current_app_version : Z) (hardcoded_swap_param : option Q)
  : option LicenseData :=
  (* 3. determine the swap parameter and unpack *)
  match get_mode_and_swap_param_from_permuted_chars_robust
          permuted_chars hardcoded_swap_param with
  | None => None
  | Some (mode_flag_found, determined_swap_param, unpacked_license_data) =>
      (* 4. consistency *)
      if negb (mode_flag_found =? mode_flag unpacked_license_data)%Z then None
      else if negb (simple_checksum unpacked_license_data
                    =? calculate_simple_checksum unpacked_license_data)%Z
      then None
      else
        (* 5. expiry and version lock *)
        let expiry_days :=
          (issue_date_days unpacked_license_data
           + duration_days unpacked_license_data)%Z in
        if Qltb (inject_Z expiry_days) now_days then None
        else if (0 <? version_lock unpacked_license_data)%Z
                && negb (version_lock unpacked_license_data
                         =? current_app_version)%Z
        then None
        else Some unpacked_license_data
  end.

(** [validate_license_key].  The first component is the outcome: [Ok None] is
    the answer [None] (invalid key), [Ok (Some data)] a valid key.  The second
    component records the calls of [verify_signature]: the pairs
    [(data, signature)] it was asked to check. *)
Definition validate_license_key (now_days : Q) (license_key_string : list ascii)
    (current_app_version : Z) (hardcoded_swap_param : option Q)
  : result (option LicenseData) * list (list Z * list Z) :=
  (* 1. parse *)
  let parts := split license_key_string in
  if negb (length parts =? 7) then (Ok None, [])
  else
    let segmented_chars := take 6 parts in
    let encoded_signature := default [] (parts !! 6) in
    let permuted_chars := concat segmented_chars in
    if negb (length permuted_chars =? TOTAL_CHARS_TO_PERMUTE) then (Ok None, [])
    else
      match alphabet_string_to_bytes encoded_signature SIGNATURE_BIT_LENGTH with
      | Raise ValueError => (Ok None, [])
      | Raise e => (Raise e, [])
      | Ok signature_bytes =>
          (* 2. verify the signature *)
          match encode_ascii permuted_chars with
          | Raise e => (Raise e, [])
          | Ok data_to_verify =>
              let public_key := load_public_key in
              let verified := [(data_to_verify, signature_bytes)] in
              if negb (verify_signature data_to_verify signature_bytes public_key)
              then (Ok None, verified)
              else (Ok (validate_content now_days permuted_chars
                          current_app_version hardcoded_swap_param),
                    verified)
          end
      end.
End WithCrypto.
End LicenseManager.

(** ** Notions used by the statements and the proofs *)

(** [q] sends [j] back to [i] whenever [p] sends [i] to [j]. *)
Definition inverts (p q : list nat) : Prop :=
  ∀ i j, p !! i = Some j → q !! j = Some i.

(** The segments of the segmented mode, cut off the front one at a time:
    every key component but the last takes [segment_size] bytes, the last
    one takes what is left. *)
Fixpoint chunks (segment_size : nat) (ks : list Q) (data : list Z)
  : list (list Z * Q) :=
  match ks with
  | [] => []
  | k :: ks' =>
      match ks' with
      | [] => [(data, k)]
      | _ => (take segment_size data, k)
               :: chunks segment_size ks' (drop segment_size data)
      end
  end.

(** ** The rounds of SineScramble as the specification words them

    For a buffer [B] and a key component [k], with [π] the permutation map and
    [m] the substitution mask of [k] for the length of [B].  Encrypt round:
    [tmp[new] = B[π[new]]], then [out[i] = tmp[i] XOR m[i]].  Decrypt round:
    XOR the mask back in, then apply [π] as an inverse permutation,
    [out[π[new]] = in[new]].  Multi-round mode applies the encrypt rounds
    with [k_1 .. k_n] in order and the decrypt rounds with [k_n .. k_1];
    segmented mode transforms slab [i] once with key component [i]. *)
Definition mask_bit (m : list bool) (i : nat) : Z :=
  if default false (m !! i) then 1%Z else 0%Z.

Definition encrypt_round `{FloatOps} (self : SineScramble.SineScrambleCipher)
    (k : Q) (B : list Z) : list Z :=
  let π := SineScramble._generate_permutation_map self k (length B) in
  let m := SineScramble._generate_substitution_mask self k (length B) in
  (λ new, Z.lxor (default 0%Z (B !! default 0 (π !! new))) (mask_bit m new))
  <$> seq 0 (length B).

Definition decrypt_round `{FloatOps} (self : SineScramble.SineScrambleCipher)
    (k : Q) (B : list Z) : list Z :=
  let π := SineScramble._generate_permutation_map self k (length B) in
  let m := SineScramble._generate_substitution_mask self k (length B) in
  (λ orig,
     match list_find (λ o, o = orig) π with
     | Some (new, _) => Z.lxor (default 0%Z (B !! new)) (mask_bit m new)
     | None => 0%Z
     end)
  <$> seq 0 (length B).

Definition rounds_in_order (round : Q → list Z → list Z) (ks : list Q)
    (B : list Z) : list Z :=
  foldl (λ B k, round k B) B ks.

Definition slabs_once (round : Q → list Z → list Z) (ks : list Q)
    (B : list Z) : list Z :=
  concat ((λ slab, round slab.2 slab.1) <$> chunks (length B / length ks) ks B).

Definition spec_encrypt `{FloatOps} (self : SineScramble.SineScrambleCipher)
    (x : list Z) : list Z :=
  match SineScramble.mode self with
  | SineScramble.MULTI_ROUND =>
      rounds_in_order (encrypt_round self) (SineScramble.key self) x
  | SineScramble.SEGMENTED =>
      slabs_once (encrypt_round self) (SineScramble.key self) x
  end.

Definition spec_decrypt `{FloatOps} (self : SineScramble.SineScrambleCipher)
    (c : list Z) : list Z :=
  match SineScramble.mode self with
  | SineScramble.MULTI_ROUND =>
      rounds_in_order (decrypt_round self) (reverse (SineScramble.key self)) c
  | SineScramble.SEGMENTED =>
      slabs_once (decrypt_round self) (SineScramble.key self) c
  end.

(** ** Inputs of the scenarios of the specification *)

Definition scenario_message : list Z :=
  bytes_of_string "Hello, SineScramble! This is a comprehensive test message.".

(** The two readings of the fixed-digest expansion.  [chained_digest D k] is
    the chain of the specification, [h0 ++ h1 ++ ... ++ hk] with
    [h0 = SHA256(D)] and [h(i+1) = SHA256(h(i))].  [accumulated_digest D k]
    starts from [SHA256(D)] and [k] times appends the digest of everything
    produced so far. *)
Fixpoint chained_blocks (h : list Z) (k : nat) : list Z :=
  match k with
  | O => h
  | S k' => h ++ chained_blocks (SHA256.digest h) k'
  end.
Definition chained_digest (D : list Z) (k : nat) : list Z :=
  chained_blocks (SHA256.digest D) k.

Fixpoint accumulated_digest (D : list Z) (k : nat) : list Z :=
  match k with
  | O => SHA256.digest D
  | S k' =>
      let extended := accumulated_digest D k' in
      extended ++ SHA256.digest extended
  end.

(** ** The generations of the children of omni reproduction

    In the order in which the eight steps of [omni_reproduce] add the
    children, for parents of the generations [g_self] and [g_partner]: a
    child of one operator applied to one parent is one generation after that
    parent, a sexual child one generation after the later parent, and the
    children of the last two steps, made by two operators in a row, are two
    generations after. *)
Definition omni_generations (cfg : XOF.OrganismConfig) (g_self g_partner : nat)
  : list nat :=
  let sexual := if XOF.enable_reciprocal_reproduction cfg then 2 else 1 in
  let masks := length (XOF.mutation_masks cfg) in
  let positions := length (XOF.rotation_positions cfg) in
  let maps := length (XOF.permutation_maps cfg) in
  let top := g_self `max` g_partner in
  [g_self + 1; g_partner + 1]
  ++ [g_self + 1; g_self + 1] ++ [g_partner + 1; g_partner + 1]
  ++ replicate sexual (top + 1)
  ++ concat (replicate (5 `min` masks) [g_self + 1; g_partner + 1])
  ++ concat (replicate (5 `min` positions) [g_self + 1; g_partner + 1])
  ++ concat (replicate (5 `min` maps) [g_self + 1; g_partner + 1])
  ++ concat (replicate (3 `min` masks)
               (concat (replicate (3 `min` positions)
                          [g_self + 2; g_partner + 2])))
  ++ concat (replicate sexual (replicate (3 `min` masks) (top + 2))).

(** Reading a result. *)
Definition is_Ok {A} (r : result A) : bool :=
  match r with Ok _ => true | Raise _ => false end.

(** ** Sample organisms

    Configurations with 32-byte genomes over SHA-256 and one entry in each
    library, and the organisms of the seeds [parent1], [parent2], [seed_0]
    and [seed_1]. *)

Definition sample_config (m : XOF.OrganismMode) : XOF.OrganismConfig := {|
  XOF.genome_length := 32; XOF.hash_function := XOF.SHA256Hash; XOF.mode := m;
  XOF.enabled_methods := XOF.all_methods; XOF.combination_strategy := XOF.All;
  XOF.mutation_masks := [replicate 32 1%Z]; XOF.rotation_positions := [1%Z];
  XOF.permutation_maps := [reverse (seq 0 32)];
  XOF.method_weights := (λ m, (m, 1%Q)) <$> XOF.all_methods;
  XOF.meta_genome_length := 32; XOF.enable_dual_encoding := false;
  XOF.enable_reciprocal_reproduction := true |}.

(** The organism a constructor call returned; the blank organism stands for a
    call that raised. *)
Definition organism_of (r : result XOF.Organism) : XOF.Organism :=
  match r with
  | Ok o => o
  | Raise _ =>
      {| XOF.genome := []; XOF.config := sample_config XOF.BASIC; XOF.fitness := 0;
         XOF.generation := 0; XOF.meta_genome := None;
         XOF.reproduction_strategy :=
           {| XOF.s_enabled_methods := []; XOF.s_mutation_masks := [];
              XOF.s_rotation_positions := []; XOF.s_permutation_maps := [];
              XOF.s_method_weights := []; XOF.s_combination_strategy := XOF.All |} |}
  end.

Definition seeded (m : XOF.OrganismMode) (seed : string) : XOF.Organism :=
  organism_of (XOF.from_seed (H:=fixed_float) (bytes_of_string seed) (sample_config m)).

(** The draws used in the sample runs. *)
Definition sample_tape : tape := [3; 1; 4; 1; 5; 9; 2; 6].

(** ** The run that loses the best organism

    Omni mode with elite-vs-elite pairing over the organisms of the seeds
    [seed_0] and [seed_1], the fitness [-sum(genome)], a population cap of 10
    and the default elite fraction 0.1; auto-population is off. *)

Definition negative_sum_fitness (o : XOF.Organism) : Q :=
  inject_Z (- foldl Z.add 0%Z (XOF.genome o)).

Definition capped_omni_config (generations : nat) : Evolution.EvolutionConfig := {|
  Evolution.mode := Evolution.OMNI;
  Evolution.pairing_strategy := Evolution.ELITE_VS_ELITE;
  Evolution.max_generations := generations;
  Evolution.population_cap := 10;
  Evolution.elite_fraction := double_0_1;
  Evolution.selection_pressure := 1 # 2;
  Evolution.track_strategy_history := true |}.

Definition two_seeds : list XOF.Organism :=
  [seeded XOF.BASIC "seed_0"; seeded XOF.BASIC "seed_1"].

Definition capped_omni_run (generations : nat)
  : result (list XOF.Organism * list Evolution.HistoryEntry * tape) :=
  Evolution.evolutionary_loop (H:=fixed_float) negative_sum_fitness Ok
    two_seeds (capped_omni_config generations) [].

(** ** A stand-in signature scheme

    A keyed hash of 256 bytes in place of RSA-PSS, used only to run
    generation and validation on concrete inputs; the key is a byte string
    and serves as private and public key. *)

Definition toy_sign (data : list Z) (key : list Z) : result (list Z) :=
  Ok (XOF.SHA256Hash_hash (key ++ data) 256).
Definition toy_verify (data signature : list Z) (key : list Z) : bool :=
  bool_decide (signature = XOF.SHA256Hash_hash (key ++ data) 256).
Definition toy_key : list Z := bytes_of_string "signing key".

(** [sign_data] when the private key may be missing: [private_key.sign] on
    [None] is an [AttributeError]. *)
Definition keyless_sign (data : list Z) (private_key : option (list Z))
  : result (list Z) :=
  match private_key with
  | None => Raise AttributeError
  | Some key => toy_sign data key
  end.

(** Scenario 5 of the specification (embedded swap parameter), generated on
    day 1037 after the epoch with the draws [0.42] and [12345]. *)
Definition scenario5_key : result (list ascii) :=
  LicenseManager.generate_license_key (H:=fixed_float) toy_sign
    (42 # 100) 12345 1037 toy_key 3 730 50 98765 2 true None.

(** Scenario 6 (hardcoded swap parameter [0.88], the double nearest to it). *)
Definition double_0_88 : Q := (7926335344172073 # 9007199254740992)%Q.
Definition scenario6_key : result (list ascii) :=
  LicenseManager.generate_license_key (H:=fixed_float) toy_sign
    (42 # 100) 12345 1037 toy_key 1 30 1 112233 0 false (Some double_0_88).

(** The number of hyphens of a string. *)
Definition hyphens (s : list ascii) : nat :=
  length (filter (λ c, c = LicenseManager.hyphen) s).

(** A key in the format that [validate_license_key] parses: seven groups, the
    first six with 440 characters in all (five groups of five [A] and one of
    415), the seventh a signature of 410 characters. *)
Definition seven_part_key : list ascii :=
  LicenseManager.join
    (replicate 5 (replicate 5 "A"%char)
     ++ [replicate 415 "A"%char; replicate 410 "0"%char]).

(** ** Notions of the further properties *)

(** A byte, and the upper seven bits of the bytes of a buffer. *)
Definition is_byte (b : Z) : Prop := (0 ≤ b < 256)%Z.
Definition high_bits (data : list Z) : list Z := (λ b, Z.shiftr b 1) <$> data.

(** What a round of SineScramble keeps, in either direction: the length, the
    range of the bytes, and the upper seven bits of the bytes up to their
    order. *)
Definition kept (data r : list Z) : Prop :=
  length r = length data
  ∧ (Forall is_byte data → Forall is_byte r)
  ∧ high_bits r ≡ₚ high_bits data.

(** Digits in base [2^w], most significant first: the value of a digit list,
    and the [k] low digits of a number. *)
Definition be_value (w : Z) (ds : list Z) : Z :=
  foldl (λ acc d, acc * 2 ^ w + d)%Z 0%Z ds.
Definition be_digits (w : Z) (k : nat) (n : Z) : list Z :=
  (λ i, (n / 2 ^ (w * Z.of_nat (k - 1 - i))) mod 2 ^ w)%Z <$> seq 0 k.
Definition is_digit (w : Z) (d : Z) : Prop := (0 ≤ d < 2 ^ w)%Z.

(** The character of a five-bit value. *)
Definition alphabet_char (five_bits : Z) : ascii :=
  default "0"%char (Licensee.ALPHABET !! Z.to_nat five_bits).

(** ** The payload as it is stored

    The fields of a payload in packing order with their widths, the payloads
    that fit ([well_formed]), and what unpacking returns for one: the payload
    with its swap parameter replaced by the stored eight bits. *)
Definition fixed_fields `{FloatOps} (d : Licensee.LicenseData) : list (Z * Z) :=
  [(Licensee.mode_flag d, 1%Z)]
  ++ (if (Licensee.mode_flag d =? 1)%Z
      then [(Qtrunc (fmul (Licensee.swap_param d) 255), 8%Z)] else [])
  ++ [(Licensee.issue_date_days d, 14%Z); (Licensee.license_plan d, 4%Z);
      (Licensee.duration_days d, 10%Z); (Licensee.key_holder_group d, 8%Z);
      (Licensee.unique_license_id d, 32%Z); (Licensee.version_lock d, 8%Z);
      (Licensee.simple_checksum d, 5%Z)].
Definition packed_fields `{FloatOps} (d : Licensee.LicenseData) : list (Z * Z) :=
  fixed_fields d ++ [(Licensee.entropy_value d, Licensee.entropy_bits d)].

Definition well_formed `{FloatOps} (d : Licensee.LicenseData) : Prop :=
  Forall (λ field, 0 ≤ field.1 < 2 ^ field.2)%Z (packed_fields d)
  ∧ Licensee.entropy_bits d
    = (Licensee.TOTAL_BITS - Licensee.fixed_bits (Licensee.mode_flag d))%Z.

Definition stored `{FloatOps} (d : Licensee.LicenseData) : Licensee.LicenseData :=
  {| Licensee.mode_flag := Licensee.mode_flag d;
     Licensee.swap_param :=
       if (Licensee.mode_flag d =? 1)%Z
       then fdiv (inject_Z (Qtrunc (fmul (Licensee.swap_param d) 255))) 255
       else 0%Q;
     Licensee.issue_date_days := Licensee.issue_date_days d;
     Licensee.license_plan := Licensee.license_plan d;
     Licensee.duration_days := Licensee.duration_days d;
     Licensee.key_holder_group := Licensee.key_holder_group d;
     Licensee.unique_license_id := Licensee.unique_license_id d;
     Licensee.version_lock := Licensee.version_lock d;
     Licensee.simple_checksum := Licensee.simple_checksum d;
     Licensee.entropy_bits := Licensee.entropy_bits d;
     Licensee.entropy_value := Licensee.entropy_value d |}.

(** The state of the packing loop after a field that fits. *)
Definition packed (st : Z * Z) (field : Z * Z) : Z * Z :=
  ((st.1 + field.1 * 2 ^ (st.2 - field.2))%Z, (st.2 - field.2)%Z).

(** The payload that [generate_license_key] packs: [swap_param] is the swap
    parameter in use (the draw, or the fixed one), [random_entropy] the draw
    of [getrandbits], [now_days] the day of issue. *)
Definition issued_payload (use_included_swap_param : bool) (swap_param : Q)
    (random_entropy now_days : Z)
    (license_plan duration_days key_holder_group unique_license_id : Z)
    (version_lock : Z) : Licensee.LicenseData :=
  let mode_flag := if use_included_swap_param then 1%Z else 0%Z in
  let entropy_bits := (Licensee.TOTAL_BITS - Licensee.fixed_bits mode_flag)%Z in
  let issue_date_days := if (now_days <? 0)%Z then 0%Z else now_days in
  {| Licensee.mode_flag := mode_flag; Licensee.swap_param := swap_param;
     Licensee.issue_date_days := issue_date_days;
     Licensee.license_plan := license_plan;
     Licensee.duration_days := duration_days;
     Licensee.key_holder_group := key_holder_group;
     Licensee.unique_license_id := unique_license_id;
     Licensee.version_lock := version_lock;
     Licensee.simple_checksum :=
       LicenseManager.calculate_simple_checksum
         {| Licensee.mode_flag := mode_flag; Licensee.swap_param := swap_param;
            Licensee.issue_date_days := issue_date_days;
            Licensee.license_plan := license_plan;
            Licensee.duration_days := duration_days;
            Licensee.key_holder_group := key_holder_group;
            Licensee.unique_license_id := unique_license_id;
            Licensee.version_lock := version_lock;
            Licensee.simple_checksum := 0; Licensee.entropy_bits := entropy_bits;
            Licensee.entropy_value := 0 |};
     Licensee.entropy_bits := entropy_bits;
     Licensee.entropy_value :=
       if (0 <? entropy_bits)%Z then (random_entropy mod 2 ^ entropy_bits)%Z
       else 0%Z |}.

(** ** XOF-Genetics: organisms as the constructor leaves them *)

(** An organism as [Organism.__init__] leaves it for the configuration [cfg]:
    the genome has the configured length and the fitness is the initial
    [0.0]. *)
Definition fresh_organism (cfg : XOF.OrganismConfig) (c : XOF.Organism) : Prop :=
  XOF.config c = cfg
  ∧ length (XOF.genome c) = XOF.genome_length cfg
  ∧ XOF.fitness c = 0%Q.

(** The number of children of one call of [omni_reproduce] under the
    configuration [cfg] of the first parent. *)
Definition omni_children (cfg : XOF.OrganismConfig) : nat :=
  let sexual := if XOF.enable_reciprocal_reproduction cfg then 2 else 1 in
  let masks := length (XOF.mutation_masks cfg) in
  let positions := length (XOF.rotation_positions cfg) in
  let maps := length (XOF.permutation_maps cfg) in
  2 + 4 + sexual
  + 2 * (5 `min` masks) + 2 * (5 `min` positions) + 2 * (5 `min` maps)
  + 2 * ((3 `min` masks) * (3 `min` positions))
  + sexual * (3 `min` masks).

(** * Properties *)

(** ** The result monad and the list primitives *)

Lemma bind_Ok {A B} (f : A → result B) (m : result A) (b : B) :
  m ≫= f = Ok b ↔ ∃ a, m = Ok a ∧ f a = Ok b.
Proof.
  destruct m as [a|e]; simpl; split.
  - intros Hf. by exists a.
  - by intros (a' & [= <-] & Hf).
  - done.
  - by intros (a' & [=] & _).
Qed.

Lemma bind_Ok_l {A B} (f : A → result B) (a : A) : Ok a ≫= f = f a.
Proof. done. Qed.

Lemma foldM_cons {A B} (f : B → A → result B) (acc : B) x xs :
  foldM f acc (x :: xs) = f acc x ≫= (λ acc', foldM f acc' xs).
Proof. done. Qed.

Lemma foldM_app {A B} (f : B → A → result B) (acc : B) (xs ys : list A) :
  foldM f acc (xs ++ ys) = foldM f acc xs ≫= (λ acc', foldM f acc' ys).
Proof.
  revert acc. induction xs as [|x xs IH]; intros acc; simpl; [done|].
  destruct (f acc x) as [acc'|e]; simpl; [apply IH|done].
Qed.

Lemma forM_cons {A B} (f : A → result B) x xs :
  forM f (x :: xs) = f x ≫= (λ y, forM f xs ≫= (λ ys, Ok (y :: ys))).
Proof. done. Qed.

Lemma list_store_Ok {A} (l : list A) i x :
  i < length l → list_store l i x = Ok (<[i:=x]> l).
Proof. intros Hi. unfold list_store. by rewrite decide_True. Qed.

Lemma list_load_Ok {A} (l : list A) i x :
  l !! i = Some x → list_load l i = Ok x.
Proof. intros Hi. unfold list_load. by rewrite Hi. Qed.

Lemma list_load_Forall {A} (P : A → Prop) (l : list A) i x :
  Forall P l → list_load l i = Ok x → P x.
Proof.
  unfold list_load. intros HP Hl. destruct (l !! i) as [y|] eqn:Hy; [|done].
  injection Hl as <-. by eapply Forall_lookup_1.
Qed.

Lemma enumerate_lookup {A} (l : list A) i p :
  enumerate l !! i = Some p ↔ p.1 = i ∧ l !! i = Some p.2.
Proof.
  unfold enumerate. destruct p as [j x]. simpl. rewrite lookup_zip_Some.
  rewrite lookup_seq. simpl. split.
  - intros [[-> _] Hx]; done.
  - intros [-> Hx]. split_and!; [done| |done]. by eapply lookup_lt_Some.
Qed.

Lemma enumerate_fst {A} (l : list A) : (enumerate l).*1 = seq 0 (length l).
Proof. unfold enumerate. apply fst_zip. by rewrite length_seq. Qed.

Lemma enumerate_snd {A} (l : list A) : (enumerate l).*2 = l.
Proof. unfold enumerate. apply snd_zip. by rewrite length_seq. Qed.

(** ** Sorting returns a rearrangement of its input *)

Section SortFacts.
Context {A : Type} (lt : A → A → bool).

Lemma insert_sorted_perm x l : insert_sorted lt x l ≡ₚ x :: l.
Proof.
  induction l as [|y l IH]; simpl; [done|].
  destruct (lt x y); [done|]. rewrite IH. apply Permutation_swap.
Qed.

Lemma list_sort_perm l : list_sort lt l ≡ₚ l.
Proof.
  unfold list_sort.
  cut (∀ acc, foldl (λ acc x, insert_sorted lt x acc) acc l ≡ₚ acc ++ l).
  { intros Hc. apply (Hc []). }
  induction l as [|x l IH]; intros acc; simpl.
  - by rewrite app_nil_r.
  - rewrite IH, insert_sorted_perm. simpl. apply Permutation_middle.
Qed.
End SortFacts.

(** ** Writing a list through an index list *)

Lemma foldM_scatter {A B} (f : list B → A → result (list B))
    (idx : A → nat) (val : A → B) (xs : list A) (init : list B) :
  (∀ acc x, x ∈ xs → f acc x = list_store acc (idx x) (val x)) →
  NoDup (idx <$> xs) →
  Forall (λ x, idx x < length init) xs →
  ∃ r, foldM f init xs = Ok r ∧ length r = length init ∧
       (∀ x, x ∈ xs → r !! idx x = Some (val x)) ∧
       (∀ j, j ∉ idx <$> xs → r !! j = init !! j).
Proof.
  revert init. induction xs as [|x xs IH]; intros init Hf Hnd Hlt.
  - exists init. split_and!; [done|done| |done].
    intros x Hx. by apply elem_of_nil in Hx.
  - rewrite fmap_cons in Hnd. apply NoDup_cons in Hnd as [Hx Hnd].
    apply Forall_cons in Hlt as [Hxlt Hlt].
    destruct (IH (<[idx x:=val x]> init)) as (r & Hr & Hlen & Hin & Hout).
    + intros acc y Hy. apply Hf. by right.
    + done.
    + by rewrite length_insert.
    + exists r. simpl. rewrite Hf by left. rewrite list_store_Ok by done. simpl.
      rewrite length_insert in Hlen. split_and!; [done|done| |].
      * intros y [->|Hy]%elem_of_cons; [|by apply Hin].
        rewrite Hout by done. by apply list_lookup_insert_eq.
      * intros j Hj.
        apply not_elem_of_cons in Hj as [Hne Hj].
        rewrite Hout by done. by apply list_lookup_insert_ne.
Qed.

(** The slots of [apply_permutation] once every one of them is filled. *)
Lemma concat_singletons {C} (slots : list (list C)) :
  (∀ j, j < length slots → ∃ c, slots !! j = Some [c]) →
  length (concat slots) = length slots
  ∧ ∀ j c, slots !! j = Some [c] → concat slots !! j = Some c.
Proof.
  induction slots as [|s slots IH]; intros Hs; [done|].
  destruct (Hs 0) as [c Hc]; [simpl; lia|]. injection Hc as ->.
  destruct IH as [IHlen IHget].
  { intros j Hj. apply (Hs (S j)). simpl. lia. }
  simpl. split; [by rewrite IHlen|].
  intros [|j] c' Hj; simpl in *; [congruence|by apply IHget].
Qed.

(** ** Permutation maps *)

Lemma perm_seq_lookup (p : list nat) N x :
  p ≡ₚ seq 0 N → x < N → ∃ i, p !! i = Some x.
Proof.
  intros Hp Hx. apply list_elem_of_lookup. rewrite Hp. apply elem_of_seq. lia.
Qed.

Lemma perm_seq_bound (p : list nat) N i x :
  p ≡ₚ seq 0 N → p !! i = Some x → x < N.
Proof.
  intros Hp Hi. apply list_elem_of_lookup_2 in Hi. rewrite Hp in Hi.
  apply elem_of_seq in Hi. lia.
Qed.

Lemma perm_seq_length (p : list nat) N : p ≡ₚ seq 0 N → length p = N.
Proof. intros ->. apply length_seq. Qed.

Lemma perm_seq_NoDup (p : list nat) N : p ≡ₚ seq 0 N → NoDup p.
Proof. intros ->. apply NoDup_seq. Qed.

Lemma inverts_perm (p q : list nat) N :
  p ≡ₚ seq 0 N → length q = N → inverts p q →
  q ≡ₚ seq 0 N ∧ inverts q p.
Proof.
  intros Hp Hlen Hinv.
  assert (Hback : inverts q p).
  { intros j i Hj.
    assert (j < N) as Hjlt by (rewrite <-Hlen; by eapply lookup_lt_Some).
    pose proof (perm_seq_length _ _ Hp) as Hplen.
    destruct (lookup_lt_is_Some_2 p j) as [x Hx]; [lia|].
    (* j is a position of p holding x; x is held by p at some position k *)
    assert (∃ k, p !! k = Some j) as [k Hk] by (by eapply perm_seq_lookup).
    apply Hinv in Hk as Hqk. rewrite Hj in Hqk. by injection Hqk as ->. }
  split; [|done].
  apply NoDup_Permutation; [|apply NoDup_seq|].
  - apply NoDup_alt. intros i j x Hi Hj.
    apply Hback in Hi, Hj. congruence.
  - intros x. rewrite elem_of_seq, list_elem_of_lookup. split.
    + intros [j Hj]. apply Hback in Hj.
      apply lookup_lt_Some in Hj. rewrite (perm_seq_length _ _ Hp) in Hj. lia.
    + intros [_ Hx]. simpl in Hx.
      destruct (lookup_lt_is_Some_2 p x) as [j Hj].
      { by rewrite (perm_seq_length _ _ Hp). }
      exists j. by apply Hinv.
Qed.

(** The loop that turns the sorted [(score, index)] pairs into the map
    original position -> new position. *)
Lemma build_map_spec (scored : list (Q * nat)) N :
  scored.*2 ≡ₚ seq 0 N →
  ∃ pm,
    foldM (λ permutation_map '(new_pos, (_, original_pos)),
             list_store permutation_map original_pos new_pos)
          (replicate N 0) (enumerate scored) = Ok pm
    ∧ pm ≡ₚ seq 0 N ∧ inverts scored.*2 pm.
Proof.
  intros Hp.
  destruct (foldM_scatter
    (λ permutation_map '(new_pos, (_, original_pos)),
       list_store permutation_map original_pos new_pos)
    (λ x : nat * (Q * nat), x.2.2) (λ x, x.1)
    (enumerate scored) (replicate N 0)) as (pm & Hpm & Hlen & Hin & _).
  - by intros acc [new_pos [s o]] _.
  - replace ((λ x : nat * (Q * nat), x.2.2) <$> enumerate scored) with scored.*2;
      [by eapply perm_seq_NoDup|].
    rewrite <-(enumerate_snd scored) at 1. by rewrite <-list_fmap_compose.
  - apply Forall_forall. intros [k [s o]] Hk. simpl. rewrite length_replicate.
    apply list_elem_of_lookup in Hk as [k' Hk]. apply enumerate_lookup in Hk as [_ Hk].
    simpl in Hk. eapply (perm_seq_bound _ _ k'); [exact Hp|].
    by rewrite list_lookup_fmap, Hk.
  - exists pm. split; [done|]. rewrite length_replicate in Hlen.
    assert (Hinv : inverts scored.*2 pm).
    { intros k o Hk. rewrite list_lookup_fmap in Hk.
      destruct (scored !! k) as [[s o']|] eqn:Hs; [|done]. injection Hk as ->.
      apply (Hin (k, (s, o))). apply list_elem_of_lookup. exists k.
      by apply enumerate_lookup. }
    split; [|done]. by eapply inverts_perm.
Qed.

Lemma scored_indices_snd (f : nat → Q) N :
  (list_sort tuple_lt ((λ i, (f i, i)) <$> seq 0 N)).*2 ≡ₚ seq 0 N.
Proof.
  rewrite list_sort_perm. rewrite <-list_fmap_compose.
  by rewrite (list_fmap_ext _ id) by done; rewrite list_fmap_id.
Qed.

Module Licensee_permutation_facts.
Import Licensee_permutation.
Section WithSize.
Context `{FloatOps} (N : nat).

Lemma get_permutation_map_accepts (s : Q) :
  (0 <= s)%Q → (s <= 1)%Q →
  ∃ pm, get_permutation_map N s = Ok pm ∧ pm ≡ₚ seq 0 N.
Proof.
  intros H0 H1. unfold get_permutation_map.
  apply Qle_bool_iff in H0, H1. rewrite H0, H1. simpl.
  destruct (build_map_spec
    (list_sort tuple_lt ((λ i, (score s i, i)) <$> seq 0 N)) N)
    as (pm & Hpm & Hperm & _); [apply scored_indices_snd|].
  by exists pm.
Qed.

Lemma get_permutation_map_rejects (s : Q) :
  ¬ ((0 <= s)%Q ∧ (s <= 1)%Q) → get_permutation_map N s = Raise ValueError.
Proof.
  intros Hs. unfold get_permutation_map.
  destruct (Qle_bool 0 s) eqn:H0; [|done].
  destruct (Qle_bool s 1) eqn:H1; [|done].
  apply Qle_bool_iff in H0, H1. by destruct Hs.
Qed.

Lemma get_permutation_map_Ok (s : Q) (pm : list nat) :
  get_permutation_map N s = Ok pm →
  (0 <= s)%Q ∧ (s <= 1)%Q ∧ pm ≡ₚ seq 0 N.
Proof.
  intros Hpm.
  destruct (Qle_bool 0 s) eqn:H0; [|by unfold get_permutation_map in Hpm; rewrite H0 in Hpm].
  destruct (Qle_bool s 1) eqn:H1; [|by unfold get_permutation_map in Hpm; rewrite H0, H1 in Hpm].
  apply Qle_bool_iff in H0, H1.
  destruct (get_permutation_map_accepts s H0 H1) as (pm' & Hpm' & Hperm).
  split_and!; [done|done|congruence].
Qed.

Lemma get_inverse_permutation_map_spec (p : list nat) :
  p ≡ₚ seq 0 N →
  ∃ inv, get_inverse_permutation_map N p = Ok inv
         ∧ inv ≡ₚ seq 0 N ∧ inverts p inv.
Proof.
  intros Hp. unfold get_inverse_permutation_map.
  destruct (foldM_scatter
    (λ inverse_map '(original_pos, new_pos),
       list_store inverse_map new_pos original_pos)
    (λ x : nat * nat, x.2) (λ x, x.1)
    (enumerate p) (replicate N 0)) as (inv & Hinv & Hlen & Hin & _).
  - by intros acc [o k] _.
  - rewrite enumerate_snd. by eapply perm_seq_NoDup.
  - apply Forall_forall. intros [o k] Hk. simpl. rewrite length_replicate.
    apply list_elem_of_lookup in Hk as [k' Hk].
    apply enumerate_lookup in Hk as [_ Hk]. by eapply perm_seq_bound.
  - exists inv. split; [done|]. rewrite length_replicate in Hlen.
    assert (Hpq : inverts p inv).
    { intros i j Hi. apply (Hin (i, j)). apply list_elem_of_lookup. exists i.
      by apply enumerate_lookup. }
    split; [|done]. by eapply inverts_perm.
Qed.

(** What both [apply_permutation] and [apply_inverse_permutation] compute
    from a valid map: position [i] of the input lands at position [p[i]]. *)
Lemma scatter_chars_spec {C} (x : list C) (p : list nat) :
  length x = N → p ≡ₚ seq 0 N →
  ∃ y, foldM (λ slots '(src, dst),
                c ← list_load x src; list_store slots dst [c])
             (replicate N []) (enumerate p) ≫= (λ slots, Ok (concat slots))
       = Ok y
       ∧ length y = N ∧ ∀ i j, p !! i = Some j → y !! j = x !! i.
Proof.
  intros Hx Hp.
  pose proof (perm_seq_length _ _ Hp) as Hplen.
  destruct (foldM_scatter
    (λ slots '(src, dst), c ← list_load x src; list_store slots dst [c])
    (λ a : nat * nat, a.2)
    (λ a, match x !! a.1 with Some c => [c] | None => [] end)
    (enumerate p) (replicate N [])) as (slots & Hs & Hlen & Hin & _).
  - intros acc [i j] Hij. simpl.
    apply list_elem_of_lookup in Hij as [k Hk].
    apply enumerate_lookup in Hk as [Hk1 Hk2]. simpl in *. subst k.
    destruct (lookup_lt_is_Some_2 x i) as [c Hc].
    { rewrite Hx, <-Hplen. by eapply lookup_lt_Some. }
    by rewrite (list_load_Ok _ _ _ Hc), Hc.
  - rewrite enumerate_snd. by eapply perm_seq_NoDup.
  - apply Forall_forall. intros [i j] Hk. simpl. rewrite length_replicate.
    apply list_elem_of_lookup in Hk as [k' Hk].
    apply enumerate_lookup in Hk as [_ Hk]. by eapply perm_seq_bound.
  - rewrite length_replicate in Hlen. rewrite Hs. simpl.
    assert (Hslot : ∀ i j, p !! i = Some j →
              ∃ c, x !! i = Some c ∧ slots !! j = Some [c]).
    { intros i j Hij.
      destruct (lookup_lt_is_Some_2 x i) as [c Hc].
      { rewrite Hx, <-Hplen. by eapply lookup_lt_Some. }
      exists c. split; [done|].
      specialize (Hin (i, j)). simpl in Hin. rewrite Hc in Hin.
      apply Hin. apply list_elem_of_lookup. exists i. by apply enumerate_lookup. }
    destruct (concat_singletons slots) as [Hclen Hcget].
    { intros j Hj. rewrite Hlen in Hj.
      destruct (perm_seq_lookup p N j Hp Hj) as [i Hi].
      destruct (Hslot i j Hi) as (c & _ & Hc). by exists c. }
    exists (concat slots). split_and!; [done|congruence|].
    intros i j Hij. destruct (Hslot i j Hij) as (c & Hc & Hsl).
    rewrite Hc. by apply Hcget.
Qed.

Lemma apply_permutation_spec {C} (x : list C) (p : list nat) :
  length x = N → p ≡ₚ seq 0 N →
  ∃ y, apply_permutation N x p = Ok y
       ∧ length y = N ∧ ∀ i j, p !! i = Some j → y !! j = x !! i.
Proof.
  intros Hx Hp. unfold apply_permutation.
  rewrite Hx, (perm_seq_length _ _ Hp), Nat.eqb_refl. simpl.
  by apply scatter_chars_spec.
Qed.

Lemma apply_inverse_permutation_spec {C} (y : list C) (q : list nat) :
  length y = N → q ≡ₚ seq 0 N →
  ∃ x, apply_inverse_permutation N y q = Ok x
       ∧ length x = N ∧ ∀ j i, q !! j = Some i → x !! i = y !! j.
Proof.
  intros Hy Hq. unfold apply_inverse_permutation.
  rewrite Hy, (perm_seq_length _ _ Hq), Nat.eqb_refl. simpl.
  by apply scatter_chars_spec.
Qed.

(** Applying a valid map and then its inverse map gives the input back. *)
Lemma apply_then_inverse {C} (x : list C) (p : list nat) :
  length x = N → p ≡ₚ seq 0 N →
  ∃ y inv,
    apply_permutation N x p = Ok y
    ∧ get_inverse_permutation_map N p = Ok inv
    ∧ apply_inverse_permutation N y inv = Ok x.
Proof.
  intros Hx Hp.
  destruct (apply_permutation_spec x p Hx Hp) as (y & Hy & Hylen & Hyget).
  destruct (get_inverse_permutation_map_spec p Hp) as (inv & Hinv & Hq & Hpq).
  destruct (apply_inverse_permutation_spec y inv Hylen Hq) as (z & Hz & Hzlen & Hzget).
  exists y, inv. split_and!; [done|done|].
  rewrite Hz. f_equal. apply list_eq. intros i.
  destruct (decide (i < N)) as [Hi|Hi].
  - destruct (lookup_lt_is_Some_2 p i) as [j Hj].
    { by rewrite (perm_seq_length _ _ Hp). }
    rewrite (Hzget j i (Hpq i j Hj)). by apply Hyget.
  - rewrite !lookup_ge_None_2; [done|lia..].
Qed.
End WithSize.
End Licensee_permutation_facts.

Module SineShiftMutator_facts.
Import SineShiftMutator.

Lemma Qmod_two_pi_bound (s : Q) :
  (0 <= Qmod s two_pi)%Q ∧ (Qmod s two_pi < two_pi)%Q.
Proof.
  unfold Qmod.
  pose proof (Qfloor_le (s / two_pi)) as Hlo.
  pose proof (Qlt_floor (s / two_pi)) as Hhi.
  rewrite inject_Z_plus in Hhi. change (inject_Z 1) with 1%Q in Hhi.
  assert (Hs : (s == (s / two_pi) * two_pi)%Q) by (by field).
  revert Hlo Hhi Hs.
  generalize (inject_Z (Qfloor (s / two_pi))). generalize (s / two_pi)%Q.
  intros d f Hlo Hhi Hs. unfold two_pi, math_pi in *. split; lra.
Qed.

Lemma Qltb_false (x y : Q) : (y <= x)%Q → Qltb x y = false.
Proof. intros Hle. unfold Qltb. apply Qle_bool_iff in Hle. by rewrite Hle. Qed.

Lemma Qltb_true (x y : Q) : (x < y)%Q → Qltb x y = true.
Proof.
  intros Hlt. unfold Qltb. destruct (Qle_bool y x) eqn:Hle; [|done].
  apply Qle_bool_iff in Hle. lra.
Qed.

Lemma normalized_param_idem (s : Q) :
  normalized_param (normalized_param s) = normalized_param s.
Proof.
  unfold normalized_param. destruct (Qltb two_pi s) eqn:Hs.
  - rewrite Qltb_false; [done|]. apply Qlt_le_weak, Qmod_two_pi_bound.
  - by rewrite Hs.
Qed.

Section WithFrames.
Context `{FloatOps} (N : nat).

Lemma generate_permutation_map_accepts (s : Q) :
  (0 <= s)%Q →
  ∃ pm, generate_permutation_map N s = Ok pm ∧ pm ≡ₚ seq 0 N.
Proof.
  intros H0. unfold generate_permutation_map.
  rewrite Qltb_false by done.
  destruct (build_map_spec
    (list_sort tuple_lt ((λ i, (score s i, i)) <$> seq 0 N)) N)
    as (pm & Hpm & Hperm & _); [apply scored_indices_snd|].
  by exists pm.
Qed.

Lemma generate_permutation_map_normalizes (s : Q) :
  (0 <= s)%Q →
  generate_permutation_map N s = generate_permutation_map N (normalized_param s).
Proof.
  intros H0. unfold generate_permutation_map.
  assert (0 <= normalized_param s)%Q as H0'.
  { unfold normalized_param. destruct (Qltb two_pi s); [|done].
    apply Qmod_two_pi_bound. }
  rewrite !Qltb_false by done.
  assert ((λ i, (score (normalized_param s) i, i)) <$> seq 0 N
          = (λ i, (score s i, i)) <$> seq 0 N) as ->; [|done].
  apply list_fmap_ext. intros _ i _. unfold score.
  by rewrite normalized_param_idem.
Qed.
End WithFrames.
End SineShiftMutator_facts.

(** C3.  Permutation core round trip: for every size [N], every key [s] that
    the map generator accepts (it returns a map [pm]) and every sequence [x]
    of length [N], applying [pm] to [x] and then applying the inverse map of
    [pm] to the result gives [x] back; none of the three calls raises. *)
Theorem permutation_core_round_trip `{FloatOps} {C} (N : nat) (s : Q)
    (pm : list nat) (x : list C) :
  Licensee_permutation.get_permutation_map N s = Ok pm →
  length x = N →
  ∃ y inv,
    Licensee_permutation.apply_permutation N x pm = Ok y
    ∧ Licensee_permutation.get_inverse_permutation_map N pm = Ok inv
    ∧ Licensee_permutation.apply_inverse_permutation N y inv = Ok x.
Proof.
  intros Hpm Hx.
  apply Licensee_permutation_facts.apply_then_inverse; [done|].
  by apply Licensee_permutation_facts.get_permutation_map_Ok in Hpm as (_ & _ & Hperm).
Qed.

(** The scenario of the specification: [N = 8], [s = 0.42], the input
    [ABCDEFGH]. *)
Lemma permutation_core_round_trip_witness :
  Licensee_permutation.get_permutation_map (H:=fixed_float) 8 (42 # 100)
    = Ok [4; 2; 0; 1; 3; 5; 6; 7]
  ∧ ∃ y inv,
      Licensee_permutation.apply_permutation 8
        (list_ascii_of_string "ABCDEFGH") [4; 2; 0; 1; 3; 5; 6; 7] = Ok y
      ∧ Licensee_permutation.get_inverse_permutation_map 8
          [4; 2; 0; 1; 3; 5; 6; 7] = Ok inv
      ∧ Licensee_permutation.apply_inverse_permutation 8 y inv
          = Ok (list_ascii_of_string "ABCDEFGH").
Proof.
  split; [vm_compute; reflexivity|].
  apply (permutation_core_round_trip (H:=fixed_float) 8 (42 # 100));
    [vm_compute; reflexivity|reflexivity].
Defined.

(** C8, as the code has it.  The SineShift map generator accepts exactly the
    keys [s >= 0]: for them it uses [s mod 2 pi] in place of [s] when
    [s > 2 pi] and returns a rearrangement of [0 .. N-1]; a key [s < 0]
    raises [ValueError].  The Licensee map generator accepts exactly the keys
    [0 <= s <= 1], without normalization: for them it returns a rearrangement
    of [0 .. N-1]; every other key, [s < 0] or [s > 1], raises
    [ValueError]. *)
Theorem score_key_domain `{FloatOps} (N : nat) (s : Q) :
  ((0 <= s)%Q →
   ∃ pm, SineShiftMutator.generate_permutation_map N s = Ok pm
         ∧ pm ≡ₚ seq 0 N
         ∧ SineShiftMutator.generate_permutation_map N
             (if Qltb SineShiftMutator.two_pi s
              then Qmod s SineShiftMutator.two_pi else s) = Ok pm)
  ∧ ((s < 0)%Q →
     SineShiftMutator.generate_permutation_map N s = Raise ValueError)
  ∧ ((0 <= s)%Q → (s <= 1)%Q →
     ∃ pm, Licensee_permutation.get_permutation_map N s = Ok pm
           ∧ pm ≡ₚ seq 0 N)
  ∧ ((s < 0)%Q ∨ (1 < s)%Q →
     Licensee_permutation.get_permutation_map N s = Raise ValueError).
Proof.
  split_and!.
  - intros H0.
    destruct (SineShiftMutator_facts.generate_permutation_map_accepts N s H0)
      as (pm & Hpm & Hperm).
    exists pm. split_and!; [done|done|].
    rewrite <-Hpm. symmetry.
    by apply SineShiftMutator_facts.generate_permutation_map_normalizes.
  - intros Hneg. unfold SineShiftMutator.generate_permutation_map.
    by rewrite SineShiftMutator_facts.Qltb_true.
  - intros H0 H1. by apply Licensee_permutation_facts.get_permutation_map_accepts.
  - intros Hout. apply Licensee_permutation_facts.get_permutation_map_rejects.
    intros [Hlo Hhi]. destruct Hout; lra.
Qed.

(** The keys [7] (above [2 pi]: normalized by SineShift, rejected by
    Licensee), [-1] (rejected by both) and [0.42] (accepted by Licensee). *)
Lemma score_key_domain_witness :
  (∃ pm, SineShiftMutator.generate_permutation_map (H:=fixed_float) 8 7 = Ok pm
         ∧ pm ≡ₚ seq 0 8
         ∧ SineShiftMutator.generate_permutation_map (H:=fixed_float) 8
             (if Qltb SineShiftMutator.two_pi 7
              then Qmod 7 SineShiftMutator.two_pi else 7) = Ok pm)
  ∧ Licensee_permutation.get_permutation_map (H:=fixed_float) 8 7
    = Raise ValueError
  ∧ SineShiftMutator.generate_permutation_map (H:=fixed_float) 8 (-1)
    = Raise ValueError
  ∧ Licensee_permutation.get_permutation_map (H:=fixed_float) 8 (-1)
    = Raise ValueError
  ∧ ∃ pm, Licensee_permutation.get_permutation_map (H:=fixed_float) 8 (42 # 100)
          = Ok pm
          ∧ pm ≡ₚ seq 0 8.
Proof.
  destruct (score_key_domain (H:=fixed_float) 8 7) as (Hshift & _ & _ & Hlic).
  destruct (score_key_domain (H:=fixed_float) 8 (-1)) as (_ & Hshift' & _ & Hlic').
  destruct (score_key_domain (H:=fixed_float) 8 (42 # 100)) as (_ & _ & Hin & _).
  split_and!.
  - apply Hshift. by vm_compute.
  - apply Hlic. right. by vm_compute.
  - apply Hshift'. by vm_compute.
  - apply Hlic'. left. by vm_compute.
  - apply Hin; by vm_compute.
Defined.

(** C8 as stated fails for the Licensee generator: the key [s = 2] is
    non-negative and is rejected. *)
Lemma score_key_domain_counterexample :
  (0 <= 2)%Q
  ∧ Licensee_permutation.get_permutation_map (H:=fixed_float)
      Licensee_permutation.TOTAL_CHARS_TO_PERMUTE_source 2
    = Raise ValueError.
Proof. split; [by vm_compute|reflexivity]. Qed.

(** ** SineScramble *)

Module SineScramble_facts.
Import SineScramble.

Lemma argsort_perm (scores : list Q) : argsort scores ≡ₚ seq 0 (length scores).
Proof.
  unfold argsort. rewrite list_sort_perm. rewrite snd_zip; [done|].
  by rewrite length_seq.
Qed.

Lemma take_indices_spec {A} (a : list A) (idx : list nat) :
  Forall (λ i, i < length a) idx →
  ∃ r, take_indices a idx = Ok r ∧ length r = length idx
       ∧ ∀ j i, idx !! j = Some i → r !! j = a !! i.
Proof.
  unfold take_indices. induction idx as [|i idx IH]; intros Hlt.
  - by exists [].
  - apply Forall_cons in Hlt as [Hi Hlt]. destruct (IH Hlt) as (r & Hr & Hlen & Hget).
    destruct (lookup_lt_is_Some_2 a i Hi) as [x Hx].
    exists (x :: r). simpl. rewrite (list_load_Ok _ _ _ Hx). simpl. rewrite Hr. simpl.
    split_and!; [done|by rewrite Hlen|].
    intros [|j] i' Hj; simpl in *; [congruence|by apply Hget].
Qed.

Lemma put_indices_inverse (p : list nat) N :
  p ≡ₚ seq 0 N →
  ∃ inv, put_indices (replicate (length p) 0) p (arange (length p)) = Ok inv
         ∧ inv ≡ₚ seq 0 N ∧ inverts p inv ∧ inverts inv p.
Proof.
  intros Hp. pose proof (perm_seq_length _ _ Hp) as Hlen. unfold put_indices, arange.
  destruct (foldM_scatter (λ a '(i, v), list_store a i v)
    (λ x : nat * nat, x.1) (λ x, x.2)
    (zip p (seq 0 (length p))) (replicate (length p) 0))
    as (inv & Hinv & Hilen & Hin & _).
  - by intros acc [i v] _.
  - rewrite fst_zip by (by rewrite length_seq). by eapply perm_seq_NoDup.
  - apply Forall_forall. intros [i v] Hiv. simpl. rewrite length_replicate, Hlen.
    apply elem_of_zip_l in Hiv. rewrite Hp in Hiv. apply elem_of_seq in Hiv. lia.
  - exists inv. split; [done|]. rewrite length_replicate in Hilen.
    assert (Hpq : inverts p inv).
    { intros i j Hi. apply (Hin (j, i)). apply list_elem_of_lookup. exists i.
      apply lookup_zip_Some. split; [done|]. apply lookup_seq.
      split; [done|]. by eapply lookup_lt_Some. }
    destruct (inverts_perm p inv N) as [Hq Hqp]; [done|congruence|done|done].
Qed.

Lemma substitute_involutive (data : list Z) (mask : list bool) :
  length data = length mask →
  _substitute_data (_substitute_data data mask) mask = data.
Proof.
  unfold _substitute_data. revert mask.
  induction data as [|d data IH]; intros [|m mask] Hlen; try done.
  simpl in *. f_equal; [|apply IH; lia].
  rewrite Z.lxor_assoc, Z.lxor_nilpotent. apply Z.lxor_0_r.
Qed.

Lemma length_substitute (data : list Z) (mask : list bool) :
  length data = length mask → length (_substitute_data data mask) = length data.
Proof. intros Hlen. unfold _substitute_data. rewrite length_zip_with. lia. Qed.

Section Cipher.
Context `{FloatOps} (self : SineScrambleCipher).

Lemma length_scoring_function k indices :
  length (_scoring_function self k indices) = length indices.
Proof. unfold _scoring_function. apply length_fmap. Qed.

Lemma generate_permutation_map_perm k L :
  _generate_permutation_map self k L ≡ₚ seq 0 L.
Proof.
  unfold _generate_permutation_map. rewrite argsort_perm.
  unfold arange. by rewrite length_scoring_function, length_seq.
Qed.

Lemma length_generate_substitution_mask k L :
  length (_generate_substitution_mask self k L) = L.
Proof.
  unfold _generate_substitution_mask, arange.
  by rewrite length_fmap, length_scoring_function, length_seq.
Qed.

(** One round: the forward round returns a buffer of the same length, and
    the inverse round with the same key component undoes it. *)
Lemma transform_round_inverse (data : list Z) (k : Q) :
  ∃ c, _transform_round self data k false = Ok c
       ∧ length c = length data
       ∧ _transform_round self c k true = Ok data.
Proof.
  unfold _transform_round.
  set (L := length data).
  pose proof (generate_permutation_map_perm k L) as Hp.
  pose proof (length_generate_substitution_mask k L) as Hm.
  set (p := _generate_permutation_map self k L) in *.
  set (mask := _generate_substitution_mask self k L) in *.
  pose proof (perm_seq_length _ _ Hp) as Hplen.
  unfold _permute_data at 1.
  destruct (take_indices_spec data p) as (d1 & Hd1 & Hd1len & Hd1get).
  { apply Forall_forall. intros i Hi. rewrite Hp in Hi.
    apply elem_of_seq in Hi. fold L. lia. }
  rewrite Hd1. simpl.
  assert (length (_substitute_data d1 mask) = L) as Hclen.
  { rewrite length_substitute; congruence. }
  exists (_substitute_data d1 mask). split_and!; [done|done|].
  rewrite Hclen. fold p mask.
  rewrite substitute_involutive by congruence.
  unfold _permute_data.
  destruct (put_indices_inverse p L Hp) as (inv & Hinv & Hq & Hpq & Hqp).
  rewrite Hinv. simpl.
  destruct (take_indices_spec d1 inv) as (r & Hr & Hrlen & Hrget).
  { apply Forall_forall. intros i Hi. rewrite Hq in Hi.
    apply elem_of_seq in Hi. lia. }
  rewrite Hr. f_equal. apply list_eq. intros i.
  rewrite (perm_seq_length _ _ Hq) in Hrlen.
  destruct (decide (i < L)) as [Hi|Hi].
  - destruct (lookup_lt_is_Some_2 inv i) as [j Hj].
    { by rewrite (perm_seq_length _ _ Hq). }
    rewrite (Hrget i j Hj). by rewrite (Hd1get j i (Hqp i j Hj)).
  - rewrite !lookup_ge_None_2; [done|fold L; lia|lia].
Qed.

(** A round never raises, in either direction, and keeps the length. *)
Lemma transform_round_total (data : list Z) (k : Q) (inverse : bool) :
  ∃ r, _transform_round self data k inverse = Ok r ∧ length r = length data.
Proof.
  destruct inverse.
  - unfold _transform_round.
    set (L := length data).
    pose proof (generate_permutation_map_perm k L) as Hp.
    pose proof (length_generate_substitution_mask k L) as Hm.
    unfold _permute_data.
    destruct (put_indices_inverse _ L Hp) as (inv & Hinv & Hq & _).
    rewrite Hinv, bind_Ok_l.
    destruct (take_indices_spec
      (_substitute_data data (_generate_substitution_mask self k L)) inv)
      as (r & Hr & Hrlen & _).
    { apply Forall_forall. intros i Hi. rewrite Hq in Hi.
      apply elem_of_seq in Hi. rewrite length_substitute by (fold L; lia).
      fold L. lia. }
    exists r. split; [done|]. rewrite Hrlen. by apply perm_seq_length.
  - destruct (transform_round_inverse data k) as (c & Hc & Hlen & _).
    by exists c.
Qed.

Lemma process_chunks_total (inverse : bool) (segs : list (list Z * Q)) :
  ∃ cs, forM (_process_segment self inverse) segs = Ok cs.
Proof.
  induction segs as [|[d k] segs [cs Hcs]]; [by exists []|].
  destruct (transform_round_total d k inverse) as (c & Hc & _).
  assert (Hp : _process_segment self inverse (d, k) = Ok c) by done.
  exists (c :: cs). by rewrite forM_cons, Hp, bind_Ok_l, Hcs.
Qed.

Lemma segment_size_zero (data : list Z) :
  key self ≠ [] →
  length data / SineScramble.n self = 0 ↔ length data < SineScramble.n self.
Proof.
  intros Hkey. apply Nat.div_small_iff.
  unfold SineScramble.n. destruct (key self); [done|simpl; lia].
Qed.

Lemma segmented_rejects (data : list Z) :
  key self ≠ [] → length data < SineScramble.n self →
  _encrypt_segmented self data = Raise ValueError
  ∧ _decrypt_segmented self data = Raise ValueError.
Proof.
  intros Hkey Hlt. apply segment_size_zero in Hlt; [|done].
  unfold _encrypt_segmented, _decrypt_segmented. by rewrite Hlt.
Qed.

Lemma segmented_accepts (data : list Z) :
  key self ≠ [] → SineScramble.n self ≤ length data →
  (∃ c, _encrypt_segmented self data = Ok c)
  ∧ (∃ d, _decrypt_segmented self data = Ok d).
Proof.
  intros Hkey Hle.
  assert (length data / SineScramble.n self ≠ 0) as Hseg.
  { rewrite segment_size_zero by done. lia. }
  unfold _encrypt_segmented, _decrypt_segmented.
  rewrite !decide_False by done. split.
  - destruct (process_chunks_total false
      (segment_args self data (length data / SineScramble.n self))) as [cs ->].
    by eexists.
  - destruct (process_chunks_total true
      (segment_args self data (length data / SineScramble.n self))) as [cs ->].
    by eexists.
Qed.

Lemma multi_round_inverse (ks : list Q) (data : list Z) :
  ∃ c, foldM (λ d k, _transform_round self d k false) data ks = Ok c
       ∧ length c = length data
       ∧ foldM (λ d k, _transform_round self d k true) c (reverse ks) = Ok data.
Proof.
  revert data. induction ks as [|k ks IH]; intros data.
  - by exists data.
  - destruct (transform_round_inverse data k) as (c1 & Hc1 & Hlen1 & Hback1).
    destruct (IH c1) as (c & Hc & Hlen & Hback).
    exists c. rewrite foldM_cons, Hc1, bind_Ok_l. split_and!; [done|congruence|].
    by rewrite reverse_cons, foldM_app, Hback, bind_Ok_l, foldM_cons, Hback1.
Qed.

Lemma segment_args_chunks (data : list Z) (seg : nat) :
  segment_args self data seg = chunks seg (key self) data.
Proof.
  unfold segment_args, enumerate.
  cut (∀ ks off,
    SineScramble.n self = off + length ks →
    (λ '(i, k),
       (take ((if decide (i = SineScramble.n self - 1) then length data
               else (i + 1) * seg) - i * seg) (drop (i * seg) data), k))
    <$> zip (seq off (length ks)) ks
    = chunks seg ks (drop (off * seg) data)).
  { intros Hc. by rewrite (Hc (key self) 0). }
  induction ks as [|k ks IH]; intros off Hn; [done|].
  simpl length. simpl seq. simpl zip. rewrite fmap_cons.
  destruct ks as [|k' ks].
  - simpl in *. rewrite decide_True by lia. f_equal. f_equal.
    apply take_ge. rewrite length_drop. lia.
  - rewrite decide_False by (simpl in Hn; lia).
    rewrite (IH (S off)) by (simpl in *; lia).
    replace ((off + 1) * seg - off * seg) with seg by lia.
    replace (S off * seg) with (off * seg + seg) by lia.
    by rewrite <-drop_drop.
Qed.

Lemma chunks_concat (seg : nat) (ks : list Q) (data : list Z) :
  ks ≠ [] → concat (chunks seg ks data).*1 = data.
Proof.
  revert data. induction ks as [|k ks IH]; intros data Hne; [done|].
  destruct ks as [|k' ks].
  - simpl. apply app_nil_r.
  - change (take seg data ++ concat (chunks seg (k' :: ks) (drop seg data)).*1 = data).
    rewrite IH by done. apply take_drop.
Qed.

Lemma chunks_snd (seg : nat) (ks : list Q) (data : list Z) :
  (chunks seg ks data).*2 = ks.
Proof.
  revert data. induction ks as [|k ks IH]; intros data; [done|].
  destruct ks as [|k' ks]; [done|].
  change (k :: (chunks seg (k' :: ks) (drop seg data)).*2 = k :: k' :: ks).
  by rewrite IH.
Qed.

(** Cutting a concatenation whose parts have the segment lengths gives the
    parts back. *)
Lemma chunks_of_concat (seg : nat) (ks : list Q) (data : list Z)
    (cs : list (list Z)) :
  seg * (length ks - 1) ≤ length data →
  Forall2 (λ c s, length c = length s.1) cs (chunks seg ks data) →
  chunks seg ks (concat cs) = zip cs ks.
Proof.
  revert data cs. induction ks as [|k ks IH]; intros data cs Hlen Hcs.
  - by apply Forall2_nil_inv_r in Hcs as ->.
  - destruct ks as [|k' ks].
    + simpl in Hcs. apply Forall2_cons_inv_r in Hcs as (c & cs' & _ & Hnil & ->).
      apply Forall2_nil_inv_r in Hnil as ->. simpl. by rewrite app_nil_r.
    + change (chunks seg (k :: k' :: ks) data)
        with ((take seg data, k) :: chunks seg (k' :: ks) (drop seg data)) in Hcs.
      apply Forall2_cons_inv_r in Hcs as (c & cs' & Hc & Hcs' & ->).
      simpl in Hc. rewrite length_take in Hc. simpl length in Hlen.
      assert (length c = seg) as Hcseg by lia.
      change (chunks seg (k :: k' :: ks) (concat (c :: cs')))
        with ((take seg (c ++ concat cs'), k)
                :: chunks seg (k' :: ks) (drop seg (c ++ concat cs'))).
      rewrite take_app_length' by done. rewrite drop_app_length' by done.
      rewrite (IH (drop seg data)); [done| |done].
      rewrite length_drop. simpl length. lia.
Qed.

Lemma process_chunks_inverse (segs : list (list Z * Q)) :
  ∃ cs, forM (_process_segment self false) segs = Ok cs
        ∧ Forall2 (λ c s, length c = length s.1) cs segs
        ∧ forM (_process_segment self true) (zip cs segs.*2) = Ok segs.*1.
Proof.
  induction segs as [|[d k] segs (cs & Hcs & Hlen & Hback)].
  - by exists [].
  - destruct (transform_round_inverse d k) as (c & Hc & Hclen & Hcback).
    assert (Hfwd : _process_segment self false (d, k) = Ok c) by done.
    assert (Hbwd : _process_segment self true (c, k) = Ok d) by done.
    exists (c :: cs). rewrite forM_cons, Hfwd, bind_Ok_l, Hcs, bind_Ok_l.
    split_and!; [done|by constructor|].
    rewrite !fmap_cons. simpl zip.
    by rewrite forM_cons, Hbwd, bind_Ok_l, Hback, bind_Ok_l.
Qed.

Lemma concat_length_Forall2 (cs : list (list Z)) (segs : list (list Z * Q)) :
  Forall2 (λ c s, length c = length s.1) cs segs →
  length (concat cs) = length (concat segs.*1).
Proof.
  induction 1 as [|c s cs segs Hc _ IH]; [done|].
  rewrite fmap_cons. simpl concat. rewrite !length_app. by rewrite Hc, IH.
Qed.

Lemma segmented_inverse (data : list Z) :
  key self ≠ [] → SineScramble.n self ≤ length data →
  ∃ c, _encrypt_segmented self data = Ok c
       ∧ length c = length data
       ∧ _decrypt_segmented self c = Ok data.
Proof.
  intros Hkey Hn. unfold _encrypt_segmented, _decrypt_segmented.
  assert (0 < SineScramble.n self) as Hpos.
  { unfold SineScramble.n. destruct (key self); [done|simpl; lia]. }
  set (seg := length data / SineScramble.n self).
  assert (seg ≠ 0) as Hseg.
  { unfold seg. intros Hz. apply Nat.div_small_iff in Hz; lia. }
  rewrite decide_False by done. rewrite segment_args_chunks.
  destruct (process_chunks_inverse (chunks seg (key self) data))
    as (cs & Hcs & Hlen & Hback).
  rewrite Hcs, bind_Ok_l.
  rewrite chunks_snd in Hback.
  assert (length (concat cs) = length data) as Hclen.
  { rewrite (concat_length_Forall2 _ _ Hlen). by rewrite chunks_concat. }
  exists (concat cs). split_and!; [done|done|].
  rewrite Hclen. fold seg. rewrite decide_False by done.
  rewrite segment_args_chunks.
  rewrite (chunks_of_concat seg (key self) data cs); [|subst seg|done].
  - by rewrite Hback, bind_Ok_l, chunks_concat.
  - fold (SineScramble.n self).
    pose proof (Nat.Div0.mul_div_le (length data) (SineScramble.n self)).
    nia.
Qed.

(** *** The rounds as the specification words them *)

Lemma substitute_lookup (data : list Z) (mask : list bool) (i : nat) (d : Z) :
  length data = length mask → data !! i = Some d →
  _substitute_data data mask !! i = Some (Z.lxor d (mask_bit mask i)).
Proof.
  intros Hlen Hd. unfold _substitute_data, mask_bit.
  rewrite lookup_zip_with, Hd. simpl.
  destruct (lookup_lt_is_Some_2 mask i) as [m Hm].
  { rewrite <-Hlen. by eapply lookup_lt_Some. }
  by rewrite Hm.
Qed.

Lemma transform_round_forward (B : list Z) (k : Q) :
  _transform_round self B k false = Ok (encrypt_round self k B).
Proof.
  unfold _transform_round, encrypt_round.
  set (L := length B).
  pose proof (generate_permutation_map_perm k L) as Hp.
  pose proof (length_generate_substitution_mask k L) as Hm.
  set (p := _generate_permutation_map self k L) in *.
  set (mask := _generate_substitution_mask self k L) in *.
  pose proof (perm_seq_length _ _ Hp) as Hplen.
  unfold _permute_data.
  destruct (take_indices_spec B p) as (d1 & Hd1 & Hd1len & Hd1get).
  { apply Forall_forall. intros i Hi. rewrite Hp in Hi.
    apply elem_of_seq in Hi. fold L. lia. }
  rewrite Hd1, bind_Ok_l. f_equal. apply list_eq. intros i.
  rewrite list_lookup_fmap.
  destruct (decide (i < L)) as [Hi|Hi].
  - rewrite lookup_seq_lt by done. simpl.
    destruct (lookup_lt_is_Some_2 p i) as [j Hj]; [lia|].
    assert (j < L) as Hjlt by (by eapply perm_seq_bound).
    destruct (lookup_lt_is_Some_2 B j Hjlt) as [b Hb].
    rewrite (substitute_lookup d1 mask i b); [|lia|by rewrite (Hd1get i j Hj)].
    rewrite Hj. simpl. by rewrite Hb.
  - rewrite lookup_seq_ge by lia. simpl. apply lookup_ge_None_2.
    rewrite length_substitute by lia. lia.
Qed.

Lemma transform_round_backward (B : list Z) (k : Q) :
  _transform_round self B k true = Ok (decrypt_round self k B).
Proof.
  unfold _transform_round, decrypt_round.
  set (L := length B).
  pose proof (generate_permutation_map_perm k L) as Hp.
  pose proof (length_generate_substitution_mask k L) as Hm.
  set (p := _generate_permutation_map self k L) in *.
  set (mask := _generate_substitution_mask self k L) in *.
  pose proof (perm_seq_length _ _ Hp) as Hplen.
  pose proof (perm_seq_NoDup _ _ Hp) as Hnd.
  unfold _permute_data.
  destruct (put_indices_inverse p L Hp) as (inv & Hinv & Hq & Hpq & Hqp).
  rewrite Hinv, bind_Ok_l.
  assert (length (_substitute_data B mask) = L) as Hslen.
  { rewrite length_substitute; fold L; lia. }
  destruct (take_indices_spec (_substitute_data B mask) inv)
    as (r & Hr & Hrlen & Hrget).
  { apply Forall_forall. intros i Hi. rewrite Hq in Hi.
    apply elem_of_seq in Hi. lia. }
  rewrite Hr. f_equal. apply list_eq. intros j.
  rewrite list_lookup_fmap.
  rewrite (perm_seq_length _ _ Hq) in Hrlen.
  destruct (decide (j < L)) as [Hj|Hj].
  - rewrite lookup_seq_lt by done. simpl.
    destruct (lookup_lt_is_Some_2 inv j) as [i Hi].
    { by rewrite (perm_seq_length _ _ Hq). }
    pose proof (Hqp j i Hi) as Hpi.
    assert (list_find (λ o, o = j) p = Some (i, j)) as ->.
    { apply list_find_Some. split_and!; [done|done|].
      intros i' y Hi' Hlt ->. pose proof (NoDup_lookup _ _ _ _ Hnd Hi' Hpi). lia. }
    assert (i < L) as Hilt by (by eapply perm_seq_bound).
    destruct (lookup_lt_is_Some_2 B i Hilt) as [b Hb].
    rewrite (Hrget j i Hi), (substitute_lookup B mask i b); [|fold L; lia|done].
    by rewrite Hb.
  - rewrite lookup_seq_ge by lia. simpl. apply lookup_ge_None_2. lia.
Qed.

Lemma rounds_forward (ks : list Q) (B : list Z) :
  foldM (λ d k, _transform_round self d k false) B ks
  = Ok (rounds_in_order (encrypt_round self) ks B).
Proof.
  revert B. induction ks as [|k ks IH]; intros B; [done|].
  by rewrite foldM_cons, transform_round_forward, bind_Ok_l, IH.
Qed.

Lemma rounds_backward (ks : list Q) (B : list Z) :
  foldM (λ d k, _transform_round self d k true) B ks
  = Ok (rounds_in_order (decrypt_round self) ks B).
Proof.
  revert B. induction ks as [|k ks IH]; intros B; [done|].
  by rewrite foldM_cons, transform_round_backward, bind_Ok_l, IH.
Qed.

Lemma process_slabs (segs : list (list Z * Q)) :
  forM (_process_segment self false) segs
  = Ok ((λ slab, encrypt_round self slab.2 slab.1) <$> segs)
  ∧ forM (_process_segment self true) segs
    = Ok ((λ slab, decrypt_round self slab.2 slab.1) <$> segs).
Proof.
  induction segs as [|[d k] segs [IH1 IH2]]; [done|].
  assert (_process_segment self false (d, k) = Ok (encrypt_round self k d)) as Hf
    by apply transform_round_forward.
  assert (_process_segment self true (d, k) = Ok (decrypt_round self k d)) as Hb
    by apply transform_round_backward.
  split.
  - by rewrite forM_cons, Hf, bind_Ok_l, IH1.
  - by rewrite forM_cons, Hb, bind_Ok_l, IH2.
Qed.

(** What [encrypt] and [decrypt] compute on a buffer of valid size. *)
Lemma encrypt_decrypt_rounds (B : list Z) :
  key self ≠ [] →
  (mode self = SEGMENTED → SineScramble.n self ≤ length B) →
  encrypt self B = Ok (spec_encrypt self B)
  ∧ decrypt self B = Ok (spec_decrypt self B).
Proof.
  intros Hkey Hsize. unfold encrypt, decrypt, spec_encrypt, spec_decrypt.
  destruct (mode self).
  - split; [apply rounds_forward|apply rounds_backward].
  - specialize (Hsize eq_refl).
    assert (length B / SineScramble.n self ≠ 0) as Hseg.
    { rewrite segment_size_zero by done. lia. }
    unfold _encrypt_segmented, _decrypt_segmented, slabs_once.
    rewrite !decide_False by done. rewrite segment_args_chunks.
    destruct (process_slabs (chunks (length B / SineScramble.n self) (key self) B))
      as [-> ->].
    done.
Qed.
End Cipher.
End SineScramble_facts.

(** C1.  SineScramble round trip: for a cipher built from a non-empty key
    vector, in either mode, and for every buffer (of length at least the key
    length in segmented mode), [encrypt] returns a ciphertext and [decrypt]
    returns the buffer from it.  What the two compute is what the
    specification words: [encrypt] returns [spec_encrypt], the rounds
    permute-then-XOR ([encrypt_round]) with the key components in order, and
    [decrypt] returns [spec_decrypt], the rounds XOR-then-inverse-permute
    ([decrypt_round]) with the key components in reverse order; in segmented
    mode each slab gets the one round of its key component. *)
Theorem sinescramble_round_trip `{FloatOps} (key : list Q)
    (mode : SineScramble.OperationMode) (amplitude frequency phase : Q)
    (self : SineScramble.SineScrambleCipher) (x : list Z) :
  SineScramble.__init__ key mode amplitude frequency phase = Ok self →
  (mode = SineScramble.SEGMENTED → length key ≤ length x) →
  (∃ c, SineScramble.encrypt self x = Ok c
        ∧ SineScramble.decrypt self c = Ok x)
  ∧ SineScramble.encrypt self x = Ok (spec_encrypt self x)
  ∧ SineScramble.decrypt self x = Ok (spec_decrypt self x)
  ∧ spec_decrypt self (spec_encrypt self x) = x.
Proof.
  intros Hinit Hsize. unfold SineScramble.__init__ in Hinit.
  destruct key as [|k ks] eqn:Hkey; [done|]. injection Hinit as <-.
  set (self := {| SineScramble.key := k :: ks; SineScramble.mode := mode;
                  SineScramble.amplitude := amplitude;
                  SineScramble.frequency := frequency;
                  SineScramble.phase := phase |}).
  assert (∃ c, SineScramble.encrypt self x = Ok c
               ∧ length c = length x
               ∧ SineScramble.decrypt self c = Ok x) as (c & Hc & Hclen & Hback).
  { unfold SineScramble.encrypt, SineScramble.decrypt. simpl SineScramble.mode.
    destruct mode.
    - destruct (SineScramble_facts.multi_round_inverse self (k :: ks) x)
        as (c & Hc & Hlen & Hback).
      by exists c.
    - destruct (SineScramble_facts.segmented_inverse self x)
        as (c & Hc & Hlen & Hback); [done|by apply Hsize|].
      by exists c. }
  destruct (SineScramble_facts.encrypt_decrypt_rounds self x) as [Henc Hdec];
    [done|exact Hsize|].
  destruct (SineScramble_facts.encrypt_decrypt_rounds self c) as [_ Hdec'];
    [done|by rewrite Hclen|].
  split_and!; [by exists c|done|done|].
  rewrite Hc in Henc. injection Henc as <-.
  rewrite Hback in Hdec'. by injection Hdec' as <-.
Qed.

(** Scenario 2 of the specification (multi-round, key [1.5, 2.5, 3.5, 4.5]):
    the round trip, the rounds, and a ciphertext that differs from the
    message; and a segmented run with the key [1.0, 2.0] on five bytes. *)
Lemma sinescramble_round_trip_witness :
  (∃ self,
     SineScramble.__init__ [3 # 2; 5 # 2; 7 # 2; 9 # 2]%Q
       SineScramble.MULTI_ROUND 100 double_0_1 1 = Ok self
     ∧ (∃ c, SineScramble.encrypt (H:=fixed_float) self scenario_message = Ok c
             ∧ SineScramble.decrypt (H:=fixed_float) self c = Ok scenario_message)
     ∧ SineScramble.encrypt (H:=fixed_float) self scenario_message
       = Ok (spec_encrypt (H:=fixed_float) self scenario_message)
     ∧ SineScramble.decrypt (H:=fixed_float) self scenario_message
       = Ok (spec_decrypt (H:=fixed_float) self scenario_message)
     ∧ spec_decrypt (H:=fixed_float) self
         (spec_encrypt (H:=fixed_float) self scenario_message)
       = scenario_message
     ∧ bool_decide (spec_encrypt (H:=fixed_float) self scenario_message
                    = scenario_message) = false)
  ∧ (∃ self,
       SineScramble.__init__ [1; 2]%Q
         SineScramble.SEGMENTED 100 double_0_1 1 = Ok self
       ∧ (∃ c, SineScramble.encrypt (H:=fixed_float) self (bytes_of_string "Hello")
               = Ok c
               ∧ SineScramble.decrypt (H:=fixed_float) self c
                 = Ok (bytes_of_string "Hello"))
       ∧ SineScramble.encrypt (H:=fixed_float) self (bytes_of_string "Hello")
         = Ok (spec_encrypt (H:=fixed_float) self (bytes_of_string "Hello"))
       ∧ SineScramble.decrypt (H:=fixed_float) self (bytes_of_string "Hello")
         = Ok (spec_decrypt (H:=fixed_float) self (bytes_of_string "Hello"))
       ∧ spec_decrypt (H:=fixed_float) self
           (spec_encrypt (H:=fixed_float) self (bytes_of_string "Hello"))
         = bytes_of_string "Hello").
Proof.
  split; eexists; (split; [reflexivity|]).
  - destruct (sinescramble_round_trip (H:=fixed_float)
                [3 # 2; 5 # 2; 7 # 2; 9 # 2]%Q SineScramble.MULTI_ROUND 100
                double_0_1 1 _ scenario_message eq_refl)
      as (Htrip & Henc & Hdec & Hspec); [discriminate|].
    split_and!; [exact Htrip|exact Henc|exact Hdec|exact Hspec|].
    vm_compute. reflexivity.
  - apply (sinescramble_round_trip (H:=fixed_float) [1; 2]%Q
             SineScramble.SEGMENTED 100 double_0_1 1); [reflexivity|].
    intros _. vm_compute. lia.
Defined.

(** C9.  Segmented-mode size precondition: for a cipher in segmented mode
    with a key of length [n >= 1], the computed segment size is 0 exactly
    when the buffer is shorter than [n]; then [encrypt] and [decrypt] raise
    [ValueError], and for every buffer of length at least [n] both return a
    result. *)
Theorem segmented_size_precondition `{FloatOps}
    (self : SineScramble.SineScrambleCipher) (data : list Z) :
  SineScramble.key self ≠ [] →
  SineScramble.mode self = SineScramble.SEGMENTED →
  (length data / SineScramble.n self = 0 ↔ length data < SineScramble.n self)
  ∧ (length data < SineScramble.n self →
     SineScramble.encrypt self data = Raise ValueError
     ∧ SineScramble.decrypt self data = Raise ValueError)
  ∧ (SineScramble.n self ≤ length data →
     (∃ c, SineScramble.encrypt self data = Ok c)
     ∧ (∃ d, SineScramble.decrypt self data = Ok d)).
Proof.
  intros Hkey Hmode. unfold SineScramble.encrypt, SineScramble.decrypt.
  rewrite Hmode. split_and!.
  - by apply SineScramble_facts.segment_size_zero.
  - by apply SineScramble_facts.segmented_rejects.
  - by apply SineScramble_facts.segmented_accepts.
Qed.

(** Scenario 3 of the specification: the key [1.0, 2.0] and one byte. *)
Lemma segmented_size_precondition_witness :
  SineScramble.encrypt (H:=fixed_float)
    {| SineScramble.key := [1; 2]%Q; SineScramble.mode := SineScramble.SEGMENTED;
       SineScramble.amplitude := 100; SineScramble.frequency := double_0_1;
       SineScramble.phase := 1 |} [65%Z] = Raise ValueError
  ∧ SineScramble.decrypt (H:=fixed_float)
      {| SineScramble.key := [1; 2]%Q; SineScramble.mode := SineScramble.SEGMENTED;
         SineScramble.amplitude := 100; SineScramble.frequency := double_0_1;
         SineScramble.phase := 1 |} [65%Z] = Raise ValueError.
Proof.
  apply (segmented_size_precondition (H:=fixed_float)
           {| SineScramble.key := [1; 2]%Q; SineScramble.mode := SineScramble.SEGMENTED;
              SineScramble.amplitude := 100; SineScramble.frequency := double_0_1;
              SineScramble.phase := 1 |} [65%Z]);
    [discriminate|reflexivity|vm_compute; lia].
Defined.

(** ** The fixed-digest hash *)

Module SHA256Hash_facts.
Import XOF.

Lemma length_be_bytes (count : nat) (x : Z) : length (SHA256.be_bytes count x) = count.
Proof. induction count as [|c IH]; simpl; [done|by rewrite IH]. Qed.

Lemma length_digest (data : list Z) : length (SHA256.digest data) = 32.
Proof. unfold SHA256.digest. by rewrite !length_app, !length_be_bytes. Qed.

Lemma length_accumulated (D : list Z) (k : nat) :
  length (accumulated_digest D k) = 32 * (k + 1).
Proof.
  induction k as [|k IH]; cbn [accumulated_digest].
  - apply length_digest.
  - rewrite length_app, length_digest, IH. lia.
Qed.

Lemma accumulated_prefix (D : list Z) (k k' : nat) :
  k ≤ k' → accumulated_digest D k `prefix_of` accumulated_digest D k'.
Proof.
  induction 1 as [|k' _ IH]; [done|].
  etrans; [exact IH|]. cbn [accumulated_digest]. by apply prefix_app_r.
Qed.

(** The loop stops at the first accumulated buffer that is long enough. *)
Lemma extend_accumulated (D : list Z) (L fuel k : nat) :
  L ≤ 32 * (k + 1) + 32 * fuel →
  ∃ k', SHA256Hash_extend fuel (accumulated_digest D k) L = accumulated_digest D k'
        ∧ L ≤ 32 * (k' + 1).
Proof.
  revert k. induction fuel as [|fuel IH]; intros k Hfuel.
  - exists k. split; [done|lia].
  - cbn [SHA256Hash_extend]. rewrite length_accumulated.
    destruct (32 * (k + 1) <? L) eqn:Hlt.
    + apply (IH (S k)). lia.
    + apply Nat.ltb_ge in Hlt. by exists k.
Qed.

Lemma hash_accumulated (D : list Z) (L k : nat) :
  L ≤ 32 * (k + 1) → SHA256Hash_hash D L = take L (accumulated_digest D k).
Proof.
  intros Hk. unfold SHA256Hash_hash. rewrite length_digest.
  assert (Htake : ∀ k', L ≤ 32 * (k' + 1) →
            take L (accumulated_digest D k') = take L (accumulated_digest D k)).
  { intros k' Hk'. destruct (Nat.le_ge_cases k k') as [Hle|Hle].
    - destruct (accumulated_prefix D k k' Hle) as [rest ->].
      rewrite take_app_le; [done|]. rewrite length_accumulated. lia.
    - destruct (accumulated_prefix D k' k Hle) as [rest ->].
      rewrite take_app_le; [done|]. rewrite length_accumulated. lia. }
  destruct (L <=? 32) eqn:Hle.
  - apply Nat.leb_le in Hle. apply (Htake 0). lia.
  - destruct (extend_accumulated D L L 0) as (k' & Hext & Hk'); [lia|].
    change (SHA256.digest D) with (accumulated_digest D 0).
    rewrite Hext. by apply Htake.
Qed.

Lemma length_hash (D : list Z) (L : nat) : length (SHA256Hash_hash D L) = L.
Proof.
  rewrite (hash_accumulated D L (L / 32)).
  - rewrite length_take, length_accumulated.
    pose proof (Nat.div_mod_eq L 32). pose proof (Nat.mod_upper_bound L 32). lia.
  - pose proof (Nat.div_mod_eq L 32). pose proof (Nat.mod_upper_bound L 32). lia.
Qed.

Lemma chained_accumulated_1 (D : list Z) :
  chained_digest D 1 = accumulated_digest D 1.
Proof. done. Qed.
End SHA256Hash_facts.

(** C5, as the code has it.  For every input [D] and length [L] the SHA-256
    variant returns exactly [L] bytes: the first [L] bytes of the buffer that
    starts as [SHA256(D)] and grows by the digest of the whole buffer
    produced so far ([accumulated_digest]).  Up to [L = 64] this is the chain
    of the specification, [SHA256(D) ++ SHA256(SHA256(D))]. *)
Theorem fixed_digest_expansion (D : list Z) (L : nat) :
  length (XOF.SHA256Hash_hash D L) = L
  ∧ XOF.SHA256Hash_hash D L = take L (accumulated_digest D (L / 32))
  ∧ (L ≤ 32 → XOF.SHA256Hash_hash D L = take L (SHA256.digest D))
  ∧ (L ≤ 64 → XOF.SHA256Hash_hash D L = take L (chained_digest D 1)).
Proof.
  split_and!.
  - apply SHA256Hash_facts.length_hash.
  - apply SHA256Hash_facts.hash_accumulated.
    pose proof (Nat.div_mod_eq L 32). pose proof (Nat.mod_upper_bound L 32). lia.
  - intros HL. apply (SHA256Hash_facts.hash_accumulated D L 0). lia.
  - intros HL. rewrite SHA256Hash_facts.chained_accumulated_1.
    apply SHA256Hash_facts.hash_accumulated. lia.
Qed.

Lemma fixed_digest_expansion_witness :
  XOF.SHA256Hash_hash (bytes_of_string "abc") 40
  = take 40 (chained_digest (bytes_of_string "abc") 1).
Proof.
  apply (fixed_digest_expansion (bytes_of_string "abc") 40). lia.
Defined.

(** C5 as stated fails from the third block on: for the empty input and
    [L = 96] the code returns [h0 ++ h1 ++ SHA256(h0 ++ h1)], the chain of the
    specification is [h0 ++ h1 ++ SHA256(h1)]. *)
Lemma fixed_digest_expansion_counterexample :
  XOF.SHA256Hash_hash [] 96 ≠ take 96 (chained_digest [] 2)
  ∧ SHA256.hexdigest (drop 64 (XOF.SHA256Hash_hash [] 96))
    = "5fe4463c6c44975ee6ecc2929fc266c5919a867c9c4993216f20a65f992a1a00"%string
  ∧ SHA256.hexdigest (drop 64 (take 96 (chained_digest [] 2)))
    = "aa6ac2d4961882f42a345c7615f4133dde8e6d6e7c1b6b40ae4ff6ee52c393d0"%string.
Proof.
  split_and!; [|by vm_compute..].
  intros Heq. apply (f_equal (λ l, l !! 64)) in Heq. vm_compute in Heq. done.
Qed.

(** ** The monad of the drawing code *)

Lemma M_bind_Ok {A B} (f : A → M B) (m : M A) (t t' : tape) (b : B) :
  (m ≫= f) t = Ok (b, t') ↔ ∃ a t1, m t = Ok (a, t1) ∧ f a t1 = Ok (b, t').
Proof.
  unfold mbind, M_bind. destruct (m t) as [[a t1]|e]; split.
  - intros Hf. by exists a, t1.
  - by intros (a' & t1' & [= <- <-] & Hf).
  - done.
  - by intros (a' & t1' & [=] & _).
Qed.

Lemma M_bind_Raise {A B} (f : A → M B) (m : M A) (t : tape) (e : exn) :
  m t = Raise e → (m ≫= f) t = Raise e.
Proof. intros Hm. unfold mbind, M_bind. by rewrite Hm. Qed.

Lemma M_bind_Ok_l {A B} (f : A → M B) (a : A) (t : tape) (r : result (B * tape)) :
  f a t = r → (mret a ≫= f) t = r.
Proof. done. Qed.

Lemma M_ret_Ok {A} (a b : A) (t t' : tape) :
  (mret a : M A) t = Ok (b, t') ↔ a = b ∧ t = t'.
Proof. unfold mret, M_ret. split; [by intros [= -> ->]|by intros [-> ->]]. Qed.

Lemma lift_Ok {A} (r : result A) (t t' : tape) (a : A) :
  lift r t = Ok (a, t') ↔ r = Ok a ∧ t = t'.
Proof.
  unfold lift. destruct r as [a'|e]; split; try done.
  - by intros [= -> ->].
  - by intros [[= ->] ->].
  - by intros [[=] _].
Qed.

(** Inversion of a successful run, one bind at a time. *)
Ltac inv_run H :=
  repeat match type of H with
  | (_ ≫= _) _ = Ok _ =>
      let a := fresh "a" in let t := fresh "t" in
      let H1 := fresh "Hrun" in
      apply M_bind_Ok in H as (a & t & H1 & H)
  | _ ≫= _ = Ok _ =>
      let a := fresh "a" in let H1 := fresh "Hrun" in
      apply bind_Ok in H as (a & H1 & H)
  end.

Lemma extendR_Forall {A B} (P : B → Prop) (f : A → result (list B)) xs ys :
  (∀ x zs, x ∈ xs → f x = Ok zs → Forall P zs) →
  extendR f xs = Ok ys → Forall P ys.
Proof.
  revert ys. induction xs as [|x xs IH]; intros ys Hf Hrun.
  - injection Hrun as <-. constructor.
  - simpl in Hrun. inv_run Hrun. injection Hrun as <-.
    apply Forall_app. split.
    + eapply Hf; [by left|done].
    + apply IH; [|done]. intros x' zs Hx'. apply Hf. by right.
Qed.

Lemma extendM_Forall {A B} (P : B → Prop) (f : A → M (list B)) xs ys t t' :
  (∀ x zs t1 t2, x ∈ xs → f x t1 = Ok (zs, t2) → Forall P zs) →
  extendM f xs t = Ok (ys, t') → Forall P ys.
Proof.
  revert ys t. induction xs as [|x xs IH]; intros ys t Hf Hrun.
  - apply M_ret_Ok in Hrun as [<- _]. constructor.
  - simpl in Hrun. inv_run Hrun. apply M_ret_Ok in Hrun as [<- <-].
    apply Forall_app. split.
    + eapply Hf; [by left|done].
    + eapply IH; [|done]. intros x' zs ta tb Hx'. apply Hf. by right.
Qed.

(** ** Generations of the children *)

Module Organism_facts.
Import XOF.
Section WithFloat.
Context `{FloatOps}.

Lemma new_child_generation (self : Organism) g n c :
  new_child self g n = Ok c → generation c = n.
Proof. unfold new_child. intros Hc. inv_run Hc. by injection Hc as <-. Qed.

Lemma direct_asexual_generation (self : Organism) cs :
  direct_asexual_reproduction self = Ok cs →
  Forall (λ c, generation c = generation self + 1) cs.
Proof.
  unfold direct_asexual_reproduction. intros Hc. inv_run Hc. injection Hc as <-.
  repeat constructor. by eapply new_child_generation.
Qed.

Lemma mutate_generation (self : Organism) mask cs :
  mutate self mask = Ok cs →
  Forall (λ c, generation c = generation self + 1) cs.
Proof.
  unfold mutate. destruct (negb _); [done|]. intros Hc. inv_run Hc.
  injection Hc as <-. repeat constructor. by eapply new_child_generation.
Qed.

Lemma rotate_generation (self : Organism) pos cs :
  rotate self pos = Ok cs →
  Forall (λ c, generation c = generation self + 1) cs.
Proof.
  unfold rotate. destruct (decide _); [done|]. intros Hc. inv_run Hc.
  injection Hc as <-. repeat constructor. by eapply new_child_generation.
Qed.

Lemma permute_generation (self : Organism) pm cs :
  permute self pm = Ok cs →
  Forall (λ c, generation c = generation self + 1) cs.
Proof.
  unfold permute. destruct (negb _); [done|]. destruct (negb _); [done|].
  intros Hc. inv_run Hc. injection Hc as <-. repeat constructor.
  by eapply new_child_generation.
Qed.

Lemma reproduce_sexually_generation (self partner : Organism) cs t t' :
  reproduce_sexually self partner t = Ok (cs, t') →
  Forall (λ c, generation c = generation self `max` generation partner + 1) cs.
Proof.
  unfold reproduce_sexually.
  destruct (enable_reciprocal_reproduction (config self)); intros Hc.
  - apply M_bind_Ok in Hc as (c1 & t1 & _ & Hc).
    apply M_bind_Ok in Hc as (c2 & t2 & _ & Hc).
    apply M_ret_Ok in Hc as [<- _]. by repeat constructor.
  - apply M_bind_Ok in Hc as (coin & t1 & _ & Hc).
    apply M_bind_Ok in Hc as (c & t2 & [Hn _]%lift_Ok & Hc).
    apply M_ret_Ok in Hc as [<- _].
    repeat constructor. by eapply new_child_generation.
Qed.

Lemma asexual_self_reproduction_generation (self : Organism) cs t t' :
  asexual_self_reproduction self t = Ok (cs, t') →
  Forall (λ c, generation c = generation self + 1) cs.
Proof.
  unfold asexual_self_reproduction. intros Hc.
  apply M_bind_Ok in Hc as (l1 & t1 & [Hd _]%lift_Ok & Hc).
  apply M_bind_Ok in Hc as (c1 & t2 & [Hl1 _]%lift_Ok & Hc).
  apply M_bind_Ok in Hc as (c2 & t3 & Hc2 & Hc).
  apply M_ret_Ok in Hc as [<- _].
  apply direct_asexual_generation in Hd.
  constructor; [exact (list_load_Forall _ _ _ _ Hd Hl1)|]. constructor; [|done].
  destruct (bool_decide _).
  - apply lift_Ok in Hc2 as [Hn _]. by eapply new_child_generation.
  - apply M_bind_Ok in Hc2 as (mask & t4 & _ & Hc2).
    apply M_bind_Ok in Hc2 as (l2 & t5 & [Hm _]%lift_Ok & [Hl2 _]%lift_Ok).
    apply mutate_generation in Hm. exact (list_load_Forall _ _ _ _ Hm Hl2).
Qed.

Lemma dual_encoded_generation (self partner : Organism) cs t t' :
  _dual_encoded_reproduction self partner t = Ok (cs, t') →
  Forall (λ c, generation c = generation self `max` generation partner + 1) cs.
Proof.
  unfold _dual_encoded_reproduction. intros Hc. inv_run Hc.
  apply M_ret_Ok in Hc as [<- _]. by apply Forall_fmap, Forall_true.
Qed.

(** Omni reproduction keeps the generations its operators assign: every child
    comes after the earlier of the two parents. *)
Lemma omni_reproduce_generation (self : Organism) (partner : option Organism)
    cs t t' :
  omni_reproduce self partner t = Ok (cs, t') →
  Forall (λ c, generation self `min` generation (default self partner) + 1
               ≤ generation c) cs.
Proof.
  unfold omni_reproduce. set (p := default self partner). intros Hc.
  set (lo := generation self `min` generation p + 1).
  assert (Hself : ∀ l, Forall (λ c, generation c = generation self + 1) l →
                       Forall (λ c, lo ≤ generation c) l).
  { intros l Hl. eapply Forall_impl; [exact Hl|]. simpl. intros c ->. unfold lo. lia. }
  assert (Hp : ∀ l, Forall (λ c, generation c = generation p + 1) l →
                    Forall (λ c, lo ≤ generation c) l).
  { intros l Hl. eapply Forall_impl; [exact Hl|]. simpl. intros c ->. unfold lo. lia. }
  assert (Hmax : ∀ l,
            Forall (λ c, generation c = generation self `max` generation p + 1) l →
            Forall (λ c, lo ≤ generation c) l).
  { intros l Hl. eapply Forall_impl; [exact Hl|]. simpl. intros c ->. unfold lo. lia. }
  assert (Hnext : ∀ (o : Organism) l, lo ≤ generation o →
            Forall (λ c, generation c = generation o + 1) l →
            Forall (λ c, lo ≤ generation c) l).
  { intros o l Ho Hl. eapply Forall_impl; [exact Hl|]. simpl. intros c ->. lia. }
  assert (Hboth : ∀ {A} (f : Organism → A → result (list Organism)) xs l,
            (∀ o x zs, f o x = Ok zs →
                       Forall (λ c, generation c = generation o + 1) zs) →
            for_both self p f xs = Ok l → Forall (λ c, lo ≤ generation c) l).
  { intros A f xs l Hf. unfold for_both. apply extendR_Forall.
    intros x zs _ Hx. inv_run Hx. injection Hx as <-. apply Forall_app. split.
    - eapply Hself, Hf. done.
    - eapply Hp, Hf. done. }
  apply M_bind_Ok in Hc as (c1a & ? & [H1a _]%lift_Ok & Hc).
  apply M_bind_Ok in Hc as (c1b & ? & [H1b _]%lift_Ok & Hc).
  apply M_bind_Ok in Hc as (c2a & ? & H2a & Hc).
  apply M_bind_Ok in Hc as (c2b & ? & H2b & Hc).
  apply M_bind_Ok in Hc as (c3 & ? & H3 & Hc).
  apply M_bind_Ok in Hc as (c4 & ? & [H4 _]%lift_Ok & Hc).
  apply M_bind_Ok in Hc as (c5 & ? & [H5 _]%lift_Ok & Hc).
  apply M_bind_Ok in Hc as (c6 & ? & [H6 _]%lift_Ok & Hc).
  apply M_bind_Ok in Hc as (c7 & ? & [H7 _]%lift_Ok & Hc).
  apply M_bind_Ok in Hc as (sc & ? & Hsc & Hc).
  apply M_bind_Ok in Hc as (c8 & ? & [H8 _]%lift_Ok & Hc).
  apply M_ret_Ok in Hc as [<- _].
  repeat (apply Forall_app; split).
  - by apply Hself, direct_asexual_generation.
  - by apply Hp, direct_asexual_generation.
  - eapply Hself, asexual_self_reproduction_generation. done.
  - eapply Hp, asexual_self_reproduction_generation. done.
  - eapply Hmax, reproduce_sexually_generation. done.
  - eapply Hboth; [|done]. intros o y zs. apply mutate_generation.
  - eapply Hboth; [|done]. intros o y zs. apply rotate_generation.
  - eapply Hboth; [|done]. intros o y zs. apply permute_generation.
  - revert H7. apply extendR_Forall. intros mask zs _.
    apply extendR_Forall. intros pos zs' _ Hx.
    apply bind_Ok in Hx as (ms & Hms & Hx).
    apply bind_Ok in Hx as (m1 & Hm1 & Hx).
    apply bind_Ok in Hx as (a & Ha & Hx).
    apply bind_Ok in Hx as (mp & Hmp & Hx).
    apply bind_Ok in Hx as (m2 & Hm2 & Hx).
    apply bind_Ok in Hx as (b & Hb & Hx). injection Hx as <-.
    apply mutate_generation in Hms, Hmp.
    pose proof (list_load_Forall _ _ _ _ Hms Hm1) as Hg1.
    pose proof (list_load_Forall _ _ _ _ Hmp Hm2) as Hg2. simpl in Hg1, Hg2.
    apply Forall_app. split.
    + eapply (Hnext m1); [unfold lo; lia|]. by eapply rotate_generation.
    + eapply (Hnext m2); [unfold lo; lia|]. by eapply rotate_generation.
  - apply reproduce_sexually_generation in Hsc.
    revert H8. apply extendR_Forall. intros child zs Hchild.
    apply extendR_Forall. intros mask zs' _ Hx.
    eapply (Hnext child); [|by eapply mutate_generation].
    rewrite Forall_forall in Hsc. rewrite (Hsc child Hchild). unfold lo. lia.
Qed.

(** *** The generations of the omni children, one by one *)

Lemma extendR_fmap {A B C} (g : B → C) (l : list C) (f : A → result (list B))
    xs ys :
  (∀ x zs, x ∈ xs → f x = Ok zs → g <$> zs = l) →
  extendR f xs = Ok ys → g <$> ys = concat (replicate (length xs) l).
Proof.
  revert ys. induction xs as [|x xs IH]; intros ys Hf Hrun.
  - by injection Hrun as <-.
  - simpl in Hrun. inv_run Hrun. injection Hrun as <-.
    rewrite fmap_app. cbn [length replicate concat]. f_equal.
    + eapply Hf; [by left|done].
    + apply IH; [|done]. intros x' zs Hx'. apply Hf. by right.
Qed.

Lemma concat_replicate_singleton {A} (n : nat) (x : A) :
  concat (replicate n [x]) = replicate n x.
Proof. induction n as [|n IH]; [done|]. simpl. by rewrite IH. Qed.

Lemma new_child_single (self : Organism) g n cs :
  (child ← new_child self g n; Ok [child]) = Ok cs → generation <$> cs = [n].
Proof.
  intros Hc. inv_run Hc. injection Hc as <-. simpl.
  by erewrite new_child_generation.
Qed.

Lemma direct_asexual_gens (self : Organism) cs :
  direct_asexual_reproduction self = Ok cs →
  generation <$> cs = [generation self + 1].
Proof. apply new_child_single. Qed.

Lemma mutate_gens (self : Organism) mask cs :
  mutate self mask = Ok cs → generation <$> cs = [generation self + 1].
Proof. unfold mutate. destruct (negb _); [done|]. apply new_child_single. Qed.

Lemma rotate_gens (self : Organism) pos cs :
  rotate self pos = Ok cs → generation <$> cs = [generation self + 1].
Proof. unfold rotate. destruct (decide _); [done|]. apply new_child_single. Qed.

Lemma permute_gens (self : Organism) pm cs :
  permute self pm = Ok cs → generation <$> cs = [generation self + 1].
Proof.
  unfold permute. destruct (negb _); [done|]. destruct (negb _); [done|].
  intros Hc. apply bind_Ok in Hc as (g & _ & Hc). by eapply new_child_single.
Qed.

Lemma reproduce_sexually_gens (self partner : Organism) cs t t' :
  reproduce_sexually self partner t = Ok (cs, t') →
  generation <$> cs
  = replicate (if enable_reciprocal_reproduction (config self) then 2 else 1)
              (generation self `max` generation partner + 1).
Proof.
  unfold reproduce_sexually.
  destruct (enable_reciprocal_reproduction (config self)); intros Hc.
  - apply M_bind_Ok in Hc as (c1 & t1 & _ & Hc).
    apply M_bind_Ok in Hc as (c2 & t2 & _ & Hc).
    by apply M_ret_Ok in Hc as [<- _].
  - apply M_bind_Ok in Hc as (coin & t1 & _ & Hc).
    apply M_bind_Ok in Hc as (c & t2 & [Hn _]%lift_Ok & Hc).
    apply M_ret_Ok in Hc as [<- _]. simpl. by erewrite new_child_generation.
Qed.

Lemma asexual_self_gens (self : Organism) cs t t' :
  asexual_self_reproduction self t = Ok (cs, t') →
  generation <$> cs = [generation self + 1; generation self + 1].
Proof.
  intros Hc. pose proof (asexual_self_reproduction_generation _ _ _ _ Hc) as Hg.
  unfold asexual_self_reproduction in Hc.
  apply M_bind_Ok in Hc as (l1 & t1 & _ & Hc).
  apply M_bind_Ok in Hc as (c1 & t2 & _ & Hc).
  apply M_bind_Ok in Hc as (c2 & t3 & _ & Hc).
  apply M_ret_Ok in Hc as [<- _].
  apply Forall_cons in Hg as [H1 Hg]. apply Forall_cons in Hg as [H2 _].
  simpl. by rewrite H1, H2.
Qed.

Lemma for_both_gens {A} (self p : Organism)
    (f : Organism → A → result (list Organism)) xs l :
  (∀ o x zs, f o x = Ok zs → generation <$> zs = [generation o + 1]) →
  for_both self p f xs = Ok l →
  generation <$> l
  = concat (replicate (length xs) [generation self + 1; generation p + 1]).
Proof.
  intros Hf. unfold for_both. apply extendR_fmap. intros x zs _ Hx.
  inv_run Hx. injection Hx as <-. rewrite fmap_app.
  by rewrite (Hf _ _ _ Hrun), (Hf _ _ _ Hrun0).
Qed.

(** Omni reproduction does not renumber: its children carry the generations
    that the operators gave them. *)
Lemma omni_reproduce_gens (self partner : Organism) cs t t' :
  omni_reproduce self (Some partner) t = Ok (cs, t') →
  generation <$> cs
  = omni_generations (config self) (generation self) (generation partner).
Proof.
  unfold omni_reproduce. intros Hc.
  change (default self (Some partner)) with partner in Hc.
  apply M_bind_Ok in Hc as (c1a & ? & [H1a _]%lift_Ok & Hc).
  apply M_bind_Ok in Hc as (c1b & ? & [H1b _]%lift_Ok & Hc).
  apply M_bind_Ok in Hc as (c2a & ? & H2a & Hc).
  apply M_bind_Ok in Hc as (c2b & ? & H2b & Hc).
  apply M_bind_Ok in Hc as (c3 & ? & H3 & Hc).
  apply M_bind_Ok in Hc as (c4 & ? & [H4 _]%lift_Ok & Hc).
  apply M_bind_Ok in Hc as (c5 & ? & [H5 _]%lift_Ok & Hc).
  apply M_bind_Ok in Hc as (c6 & ? & [H6 _]%lift_Ok & Hc).
  apply M_bind_Ok in Hc as (c7 & ? & [H7 _]%lift_Ok & Hc).
  apply M_bind_Ok in Hc as (sc & ? & Hsc & Hc).
  apply M_bind_Ok in Hc as (c8 & ? & [H8 _]%lift_Ok & Hc).
  apply M_ret_Ok in Hc as [<- _].
  apply direct_asexual_gens in H1a, H1b.
  apply asexual_self_gens in H2a, H2b.
  apply reproduce_sexually_gens in H3.
  apply for_both_gens in H4; [|intros ???; apply mutate_gens].
  apply for_both_gens in H5; [|intros ???; apply rotate_gens].
  apply for_both_gens in H6; [|intros ???; apply permute_gens].
  pose proof (reproduce_sexually_generation _ _ _ _ _ Hsc) as Hscg.
  apply reproduce_sexually_gens in Hsc.
  assert (generation <$> c7
          = concat (replicate (length (take 3 (mutation_masks (config self))))
                      (concat (replicate
                                 (length (take 3 (rotation_positions (config self))))
                                 [generation self + 2; generation partner + 2]))))
    as G7.
  { revert H7. apply extendR_fmap. intros mask zs _.
    apply extendR_fmap. intros pos zs' _ Hx.
    apply bind_Ok in Hx as (ms & Hms & Hx).
    apply bind_Ok in Hx as (m1 & Hm1 & Hx).
    apply bind_Ok in Hx as (a & Ha & Hx).
    apply bind_Ok in Hx as (mp & Hmp & Hx).
    apply bind_Ok in Hx as (m2 & Hm2 & Hx).
    apply bind_Ok in Hx as (b & Hb & Hx). injection Hx as <-.
    apply mutate_generation in Hms, Hmp.
    pose proof (list_load_Forall _ _ _ _ Hms Hm1) as Hg1.
    pose proof (list_load_Forall _ _ _ _ Hmp Hm2) as Hg2. simpl in Hg1, Hg2.
    apply rotate_gens in Ha, Hb. rewrite fmap_app, Ha, Hb, Hg1, Hg2.
    replace (generation self + 1 + 1) with (generation self + 2) by lia.
    by replace (generation partner + 1 + 1) with (generation partner + 2) by lia. }
  assert (generation <$> c8
          = concat (replicate (length sc)
                      (replicate (length (take 3 (mutation_masks (config self))))
                         (generation self `max` generation partner + 2))))
    as G8.
  { revert H8. apply extendR_fmap. intros child zs Hchild Hz.
    rewrite <-concat_replicate_singleton. revert Hz.
    apply extendR_fmap. intros mask zs' _ Hx.
    apply mutate_gens in Hx. rewrite Hx.
    rewrite Forall_forall in Hscg. rewrite (Hscg child Hchild).
    by replace (generation self `max` generation partner + 1 + 1)
      with (generation self `max` generation partner + 2) by lia. }
  assert (length sc = if enable_reciprocal_reproduction (config self) then 2 else 1)
    as Lsc.
  { rewrite <-(length_fmap generation), Hsc. apply length_replicate. }
  rewrite !fmap_app, H1a, H1b, H2a, H2b, H3, H4, H5, H6, G7, G8, Lsc.
  rewrite !length_take. unfold omni_generations. simpl. done.
Qed.
End WithFloat.
End Organism_facts.

(** C6, as the code has it.  Dual-encoded reproduction and sexual
    reproduction give every child the generation [max(parent generations) + 1].
    Each single-parent operator (direct asexual, self reproduction, mutation,
    rotation, permutation) gives its children the generation of the parent it
    is applied to, plus one.  Omni reproduction collects the children of
    these operators without renumbering them: the generations of its
    children, in order, are [omni_generations] -- the parent's generation
    plus one for the direct, self-reproduction, mutation, rotation and
    permutation children, [max + 1] for the sexual children, the parent's
    generation plus two for the combined transformations and [max + 2] for
    the enhanced sexual offspring; so each child comes after the earlier of
    the two parents. *)
Theorem generation_assignment `{FloatOps} (self partner : XOF.Organism)
    (t : tape) :
  let next := XOF.generation self `max` XOF.generation partner + 1 in
  (∀ cs t', XOF._dual_encoded_reproduction self partner t = Ok (cs, t') →
            Forall (λ c, XOF.generation c = next) cs)
  ∧ (∀ cs t', XOF.reproduce_sexually self partner t = Ok (cs, t') →
              Forall (λ c, XOF.generation c = next) cs)
  ∧ (∀ cs, XOF.direct_asexual_reproduction self = Ok cs →
           Forall (λ c, XOF.generation c = XOF.generation self + 1) cs)
  ∧ (∀ cs t', XOF.asexual_self_reproduction self t = Ok (cs, t') →
              Forall (λ c, XOF.generation c = XOF.generation self + 1) cs)
  ∧ (∀ mask cs, XOF.mutate self mask = Ok cs →
                Forall (λ c, XOF.generation c = XOF.generation self + 1) cs)
  ∧ (∀ pos cs, XOF.rotate self pos = Ok cs →
               Forall (λ c, XOF.generation c = XOF.generation self + 1) cs)
  ∧ (∀ pm cs, XOF.permute self pm = Ok cs →
              Forall (λ c, XOF.generation c = XOF.generation self + 1) cs)
  ∧ (∀ cs t', XOF.omni_reproduce self (Some partner) t = Ok (cs, t') →
              XOF.generation <$> cs
              = omni_generations (XOF.config self) (XOF.generation self)
                  (XOF.generation partner)
              ∧ Forall (λ c, XOF.generation self `min` XOF.generation partner + 1
                             ≤ XOF.generation c) cs).
Proof.
  intros next. split_and!.
  - intros cs t'. apply Organism_facts.dual_encoded_generation.
  - intros cs t'. apply Organism_facts.reproduce_sexually_generation.
  - apply Organism_facts.direct_asexual_generation.
  - intros cs t'. apply Organism_facts.asexual_self_reproduction_generation.
  - intros mask cs. apply Organism_facts.mutate_generation.
  - intros pos cs. apply Organism_facts.rotate_generation.
  - intros pm cs. apply Organism_facts.permute_generation.
  - intros cs t' Hrun. split.
    + by eapply Organism_facts.omni_reproduce_gens.
    + by apply (Organism_facts.omni_reproduce_generation self (Some partner)) in Hrun.
Qed.


(** Dual-encoded reproduction of the organisms of the seeds [parent1]
    (generation 0) and [parent2] (moved to generation 3): four children, all
    of generation 4. *)
Lemma generation_assignment_witness :
  match XOF._dual_encoded_reproduction (H:=fixed_float)
          (seeded XOF.DUAL_ENCODED "parent1")
          (XOF.set_generation (seeded XOF.DUAL_ENCODED "parent2") 3) sample_tape
  with
  | Ok (cs, _) => length cs = 4 ∧ Forall (λ c, XOF.generation c = 4) cs
  | Raise _ => False
  end.
Proof.
  assert (match XOF._dual_encoded_reproduction (H:=fixed_float)
                  (seeded XOF.DUAL_ENCODED "parent1")
                  (XOF.set_generation (seeded XOF.DUAL_ENCODED "parent2") 3)
                  sample_tape
          with
          | Ok (cs, _) => Some (length cs)
          | Raise _ => None
          end = Some 4) as Hlen by (vm_compute; reflexivity).
  destruct (XOF._dual_encoded_reproduction _ _ _) as [[cs t']|e] eqn:Hrun;
    [|discriminate Hlen].
  split; [by injection Hlen|].
  exact (proj1 (generation_assignment (H:=fixed_float)
                  (seeded XOF.DUAL_ENCODED "parent1")
                  (XOF.set_generation (seeded XOF.DUAL_ENCODED "parent2") 3)
                  sample_tape) cs t' Hrun).
Defined.

(** C6 as stated fails for omni reproduction: the organisms of the seeds
    [parent1] and [parent2] are of generation 0, and the last four of their
    eighteen omni children (the combined transformations and the enhanced
    sexual offspring) are of generation 2, not 1. *)
Lemma generation_assignment_counterexample :
  XOF.generation (seeded XOF.BASIC "parent1") = 0
  ∧ XOF.generation (seeded XOF.BASIC "parent2") = 0
  ∧ match XOF.omni_reproduce (H:=fixed_float) (seeded XOF.BASIC "parent1")
            (Some (seeded XOF.BASIC "parent2")) []
    with
    | Ok (cs, _) => Ok (XOF.generation <$> cs)
    | Raise e => Raise e
    end = Ok [1; 1; 1; 1; 1; 1; 1; 1; 1; 1; 1; 1; 1; 1; 2; 2; 2; 2].
Proof. split_and!; by vm_compute. Qed.

(** ** The evolutionary loop *)

Module Evolution_facts.
Import XOF Evolution.
Section Loop.
Context `{FloatOps}.
Variable fitness_func : Organism → Q.
Variable auto_population_step : list Organism → result (list Organism).

(** Once a generation has raised, the remaining turns do not run. *)
Lemma loop_raise_propagates (config : EvolutionConfig) (gens : list nat)
    (acc : M LoopState) (t : tape) (e : exn) :
  acc t = Raise e →
  foldl (λ acc generation,
           st ← acc; generation_step fitness_func auto_population_step
                       config generation st)
        acc gens t = Raise e.
Proof.
  revert acc. induction gens as [|g gens IH]; intros acc Hacc; [done|].
  cbn [foldl]. apply IH. by apply M_bind_Raise.
Qed.

Lemma generation_step_empty (config : EvolutionConfig) (generation : nat)
    (st : LoopState) (t : tape) :
  st_population st = [] →
  generation_step fitness_func auto_population_step config generation st t
  = Raise ValueError.
Proof. intros Hst. unfold generation_step. by rewrite Hst. Qed.
End Loop.
End Evolution_facts.

(** C10.  [evolutionary_loop] needs a non-empty initial population: with an
    empty one and [max_generations >= 1] the first generation raises
    [ValueError] (the maximum over an empty sequence), whatever the fitness
    function, the mode and the draws; no population and no history is
    returned. *)
Theorem empty_population_raises `{FloatOps}
    (fitness_func : XOF.Organism → Q)
    (auto_population_step : list XOF.Organism → result (list XOF.Organism))
    (config : Evolution.EvolutionConfig) (t : tape) :
  1 ≤ Evolution.max_generations config →
  Evolution.evolutionary_loop fitness_func auto_population_step [] config t
  = Raise ValueError.
Proof.
  intros Hgen. unfold Evolution.evolutionary_loop.
  apply M_bind_Raise.
  destruct (Evolution.max_generations config) as [|n]; [lia|].
  change (seq 1 (S n)) with (1 :: seq 2 n). cbn [foldl].
  apply Evolution_facts.loop_raise_propagates.
  apply M_bind_Ok_l. by apply Evolution_facts.generation_step_empty.
Qed.

Lemma empty_population_raises_witness :
  Evolution.evolutionary_loop (H:=fixed_float) negative_sum_fitness Ok []
    (capped_omni_config 3) sample_tape = Raise ValueError.
Proof.
  apply (empty_population_raises (H:=fixed_float)). simpl. lia.
Defined.

(** C7 fails on the code.  In the run [capped_omni_run] the first generation
    has best fitness [-3915] (the organism of [seed_0]).  Its eighteen omni
    children carry the fitness 0 they were created with, so after the
    best-ever organism is appended the cap sorts it last and the truncation
    to one organism drops it: the population after the first generation is
    a single child, the best-ever organism is not in it, and the best fitness
    recorded for the second generation is [-4494]. *)
Theorem elitism_lost_under_cap :
  match capped_omni_run 1 with
  | Ok (population, history, _) =>
      Ok (Evolution.h_best_fitness <$> history,
          XOF.fitness <$> population,
          existsb (XOF.organism_eqb (seeded XOF.BASIC "seed_0")) population)
  | Raise e => Raise e
  end = Ok ([(-3915)%Q], [0%Q], false)
  ∧ match capped_omni_run 2 with
    | Ok (_, history, _) =>
        Ok ((λ h, (Evolution.h_generation h, Evolution.h_population_size h,
                   Evolution.h_best_fitness h)) <$> history)
    | Raise e => Raise e
    end = Ok [(1, 2, (-3915)%Q); (2, 1, (-4494)%Q)].
Proof. split; by vm_compute. Qed.

(** ** SHA-256 test vectors *)

Example sha256_abc :
  SHA256.hexdigest (SHA256.digest (bytes_of_string "abc"))
  = "ba7816bf8f01cfea414140de5dae2223b00361a396177a9cb410ff61f20015ad"%string.
Proof. by vm_compute. Qed.

Example sha256_empty :
  SHA256.hexdigest (SHA256.digest [])
  = "e3b0c44298fc1c149afbf4c8996fb92427ae41e4649b934ca495991b7852b855"%string.
Proof. by vm_compute. Qed.

Example sha256_two_blocks :
  SHA256.hexdigest (SHA256.digest (replicate 100 97%Z))
  = "2816597888e4a0d3a36b82b83316ab32680eb8f00f8cd3b904d681246d285a0e"%string.
Proof. by vm_compute. Qed.

(** ** Licensee: keys and their validation *)

Module LicenseManager_facts.
Import Licensee_permutation Licensee LicenseManager.

Lemma length_segments {A} (k fuel : nat) (s : list A) :
  length s = 5 * k → k ≤ fuel → length (segments fuel 5 s) = k.
Proof.
  revert fuel s. induction k as [|k IH]; intros fuel s Hlen Hfuel.
  - destruct s; [|done]. by destruct fuel.
  - destruct fuel as [|fuel]; [lia|]. destruct s as [|c s]; [done|].
    cbn [segments]. cbn [length]. f_equal. apply IH; [|lia].
    rewrite length_drop. lia.
Qed.

Lemma length_split (s : list ascii) : length (split s) = S (hyphens s).
Proof.
  unfold hyphens. induction s as [|c s IH]; [done|]. cbn [split].
  rewrite filter_cons. destruct (decide (c = hyphen)) as [->|Hc].
  - cbn [length]. by rewrite IH.
  - destruct (split s) as [|p rest]; [done|]. by rewrite <-IH.
Qed.

Lemma hyphens_app (s1 s2 : list ascii) :
  hyphens (s1 ++ s2) = hyphens s1 + hyphens s2.
Proof. unfold hyphens. by rewrite filter_app, length_app. Qed.

Lemma hyphens_join (parts : list (list ascii)) :
  length parts - 1 ≤ hyphens (join parts).
Proof.
  induction parts as [|p parts IH]; [done|].
  destruct parts as [|q parts]; [cbn; lia|].
  change (join (p :: q :: parts)) with (p ++ hyphen :: join (q :: parts)).
  rewrite hyphens_app. unfold hyphens at 2. rewrite filter_cons_True by done.
  cbn [length] in *. fold (hyphens (join (q :: parts))). lia.
Qed.

Section WithCrypto.
Context `{FloatOps}.
Context {PrivateKey PublicKey : Type}.
Variable sign_data : list Z → PrivateKey → result (list Z).
Variable verify_signature : list Z → list Z → PublicKey → bool.
Variable load_public_key : PublicKey.

Lemma length_to_bits (d : LicenseData) (bytes : list Z) :
  to_bits d = Ok bytes → length bytes = 19.
Proof.
  unfold to_bits. intros Hb.
  apply bind_Ok in Hb as (st1 & _ & Hb). apply bind_Ok in Hb as (st2 & _ & Hb).
  apply bind_Ok in Hb as (st3 & _ & Hb). destruct (negb _); [done|].
  apply bind_Ok in Hb as (st4 & _ & Hb). by injection Hb as <-.
Qed.

(** A generated key has 88 groups of characters. *)
Lemma generated_key_parts random_swap_param random_entropy now_days private_key
    license_plan duration_days key_holder_group unique_license_id version_lock
    use_included_swap_param fixed_swap_param key :
  generate_license_key sign_data random_swap_param random_entropy now_days
    private_key license_plan duration_days key_holder_group unique_license_id
    version_lock use_included_swap_param fixed_swap_param = Ok key →
  88 ≤ length (split key).
Proof.
  unfold generate_license_key. intros Hgen.
  apply bind_Ok in Hgen as (swap & _ & Hgen). destruct (_ <? 0)%Z; [done|].
  apply bind_Ok in Hgen as (bytes & _ & Hgen).
  apply bind_Ok in Hgen as (signature & _ & Hgen).
  apply bind_Ok in Hgen as (original & _ & Hgen).
  apply bind_Ok in Hgen as (pm & Hpm & Hgen).
  apply bind_Ok in Hgen as (permuted & Hperm & Hgen). injection Hgen as <-.
  apply Licensee_permutation_facts.get_permutation_map_Ok in Hpm as (_ & _ & Hpm).
  assert (length permuted = 5 * 88) as Hlen.
  { destruct (decide (length original = TOTAL_CHARS_TO_PERMUTE)) as [Ho|Ho].
    - destruct (Licensee_permutation_facts.apply_permutation_spec
                  TOTAL_CHARS_TO_PERMUTE original pm Ho Hpm)
        as (y & Hy & Hylen & _).
      rewrite Hy in Hperm. injection Hperm as <-. exact Hylen.
    - unfold apply_permutation in Hperm.
      apply Nat.eqb_neq in Ho. by rewrite Ho in Hperm. }
  rewrite length_split.
  pose proof (hyphens_join (segments (length permuted) 5 permuted)) as Hj.
  rewrite (length_segments 88) in Hj by lia. lia.
Qed.

(** An attempt to unpack never succeeds: the un-permuted string has 440
    characters and [chars_to_bits] wants 30. *)
Lemma attempt_raises (permuted_chars : list ascii) (swap : Q) (d : LicenseData) :
  attempt permuted_chars swap ≠ Ok d.
Proof.
  unfold attempt. intros Ha.
  apply bind_Ok in Ha as (pm & Hpm & Ha).
  apply bind_Ok in Ha as (inv & Hinv & Ha).
  apply bind_Ok in Ha as (original & Horig & Ha).
  apply bind_Ok in Ha as (bytes & Hbytes & _).
  apply Licensee_permutation_facts.get_permutation_map_Ok in Hpm as (_ & _ & Hpm).
  destruct (Licensee_permutation_facts.get_inverse_permutation_map_spec
              TOTAL_CHARS_TO_PERMUTE pm Hpm) as (inv' & Hinv' & Hq & _).
  rewrite Hinv in Hinv'. injection Hinv' as <-.
  assert (length original = 440) as Hlen.
  { destruct (decide (length permuted_chars = TOTAL_CHARS_TO_PERMUTE)) as [Hp|Hp].
    - destruct (Licensee_permutation_facts.apply_inverse_permutation_spec
                  TOTAL_CHARS_TO_PERMUTE permuted_chars inv Hp Hq)
        as (x & Hx & Hxlen & _).
      rewrite Hx in Horig. injection Horig as <-. exact Hxlen.
    - unfold apply_inverse_permutation in Horig.
      apply Nat.eqb_neq in Hp. by rewrite Hp in Horig. }
  unfold chars_to_bits in Hbytes. rewrite Hlen in Hbytes. done.
Qed.

Lemma brute_force_fails (permuted_chars : list ascii) (candidates : list nat) :
  brute_force permuted_chars candidates = None.
Proof.
  induction candidates as [|i rest IH]; [done|]. cbn [brute_force].
  destruct (attempt permuted_chars _) as [d|e] eqn:Ha; [|done].
  by apply attempt_raises in Ha.
Qed.

Lemma validate_content_fails now_days permuted_chars version hardcoded :
  validate_content now_days permuted_chars version hardcoded = None.
Proof.
  unfold validate_content, get_mode_and_swap_param_from_permuted_chars_robust.
  destruct hardcoded as [h|].
  - destruct (attempt permuted_chars h) as [d|e] eqn:Ha; [|done].
    by apply attempt_raises in Ha.
  - by rewrite brute_force_fails.
Qed.

(** Validation returns a payload for no input at all. *)
Lemma validate_never_accepts now_days key version hardcoded (d : LicenseData) :
  (validate_license_key verify_signature load_public_key now_days key version
     hardcoded).1 ≠ Ok (Some d).
Proof.
  unfold validate_license_key.
  repeat (case_match; simpl; try done).
  by rewrite validate_content_fails.
Qed.

(** The ASCII form of a string has one byte for each character: its code. *)
Lemma encode_ascii_Ok (s : list ascii) (data : list Z) :
  encode_ascii s = Ok data →
  data = (λ c, Z.of_N (N_of_ascii c)) <$> s ∧ length data = length s.
Proof.
  revert data. induction s as [|c s IH]; intros data Hdata.
  - by injection Hdata as <-.
  - cbn [encode_ascii forM] in Hdata.
    apply bind_Ok in Hdata as (b & Hb & Hdata).
    apply bind_Ok in Hdata as (bs & Hbs & Hdata). injection Hdata as <-.
    destruct (IH bs Hbs) as [-> Hlen].
    destruct (_ <? 128)%Z; [|done]. injection Hb as <-.
    by rewrite fmap_cons, !length_cons, Hlen.
Qed.

(** The calls of [verify_signature]: at most one, on the ASCII form of the
    440 permuted characters of a key of seven parts and on the decoded
    seventh part. *)
Lemma verified_calls now_days key version hardcoded :
  let calls := (validate_license_key verify_signature load_public_key now_days
                  key version hardcoded).2 in
  length calls ≤ 1
  ∧ Forall (λ call,
        length (split key) = 7
        ∧ encode_ascii (concat (take 6 (split key))) = Ok call.1
        ∧ length call.1 = 440
        ∧ alphabet_string_to_bytes (default [] (split key !! 6))
            SIGNATURE_BIT_LENGTH = Ok call.2) calls.
Proof.
  unfold validate_license_key.
  destruct (length (split key) =? 7) eqn:Hparts; [|by split; [simpl; lia|]].
  apply Nat.eqb_eq in Hparts. cbn [negb].
  destruct (length (concat (take 6 (split key))) =? TOTAL_CHARS_TO_PERMUTE)
    eqn:Hlen; [|by split; [simpl; lia|]].
  apply Nat.eqb_eq in Hlen. cbn [negb].
  destruct (alphabet_string_to_bytes _ _) as [sig|[]] eqn:Hsig;
    [|by split; [simpl; lia|]..].
  destruct (encode_ascii _) as [data|e] eqn:Hdata; [|by split; [simpl; lia|]].
  assert (length data = 440) as Hd.
  { apply encode_ascii_Ok in Hdata as [_ ->]. exact Hlen. }
  destruct (negb _); (split; [simpl; lia|]); by repeat constructor.
Qed.

End WithCrypto.
End LicenseManager_facts.

(** X19.  A generated key does not pass validation.  Generation produces 88
    hyphen-separated groups, validation answers [None] unless there are
    exactly 7: every key that [generate_license_key] returns is rejected by
    [validate_license_key] at the parsing step, before any signature check,
    whatever the signature scheme, the date, the application version and the
    hardcoded swap parameter. *)
Theorem generated_key_is_rejected `{FloatOps} {PrivateKey PublicKey : Type}
    (sign_data : list Z → PrivateKey → result (list Z))
    (verify_signature : list Z → list Z → PublicKey → bool)
    (load_public_key : PublicKey)
    (random_swap_param : Q) (random_entropy now_days : Z)
    (private_key : PrivateKey)
    (license_plan duration_days key_holder_group unique_license_id : Z)
    (version_lock : Z) (use_included_swap_param : bool)
    (fixed_swap_param : option Q) (key : list ascii)
    (now : Q) (current_app_version : Z) (hardcoded_swap_param : option Q) :
  LicenseManager.generate_license_key sign_data random_swap_param random_entropy
    now_days private_key license_plan duration_days key_holder_group
    unique_license_id version_lock use_included_swap_param fixed_swap_param
  = Ok key →
  LicenseManager.validate_license_key verify_signature load_public_key now key
    current_app_version hardcoded_swap_param = (Ok None, []).
Proof.
  intros Hgen. apply LicenseManager_facts.generated_key_parts in Hgen.
  unfold LicenseManager.validate_license_key.
  destruct (length (LicenseManager.split key) =? 7) eqn:Hparts; [|done].
  apply Nat.eqb_eq in Hparts. lia.
Qed.

(** Scenario 5 of the specification: the key generated with an embedded swap
    parameter is rejected with the matching application version and no
    hardcoded parameter. *)
Lemma generated_key_is_rejected_witness :
  match LicenseManager.generate_license_key (H:=fixed_float) toy_sign
          (42 # 100) 12345 1037 toy_key 3 730 50 98765 2 true None with
  | Ok key =>
      LicenseManager.validate_license_key (H:=fixed_float) toy_verify toy_key
        1037 key 2 None = (Ok None, [])
  | Raise _ => False
  end.
Proof.
  assert (is_Ok (LicenseManager.generate_license_key (H:=fixed_float) toy_sign
                   (42 # 100) 12345 1037 toy_key 3 730 50 98765 2 true None)
          = true) as Hok by (vm_compute; reflexivity).
  destruct (LicenseManager.generate_license_key _ _ _ _ _ _ _ _ _ _ _ _)
    as [key|e] eqn:Hgen.
  - eapply generated_key_is_rejected. exact Hgen.
  - discriminate Hok.
Defined.

(** * Further properties of the code *)

(** ** Moving the elements of a list along a permutation map *)

(** A list whose position [p[i]] holds what [x] holds at [i], for a
    rearrangement [p] of the positions, is a rearrangement of [x]. *)
Lemma scatter_Permutation {A} (x y : list A) (p : list nat) (N : nat) :
  length x = N → length y = N → p ≡ₚ seq 0 N →
  (∀ i j, p !! i = Some j → y !! j = x !! i) →
  y ≡ₚ x.
Proof.
  intros Hx Hy Hp Hget. symmetry. apply Permutation_inj. split; [congruence|].
  pose proof (perm_seq_length _ _ Hp) as Hplen.
  exists (λ i, default i (p !! i)). split.
  - intros i1 i2 Heq.
    destruct (p !! i1) as [j1|] eqn:H1; destruct (p !! i2) as [j2|] eqn:H2;
      simpl in Heq.
    + subst j2. pose proof (perm_seq_NoDup _ _ Hp) as Hnd.
      by eapply NoDup_lookup.
    + subst i2. apply (perm_seq_bound _ _ _ _ Hp) in H1.
      apply lookup_ge_None_1 in H2. lia.
    + subst i1. apply (perm_seq_bound _ _ _ _ Hp) in H2.
      apply lookup_ge_None_1 in H1. lia.
    + done.
  - intros i. destruct (p !! i) as [j|] eqn:Hi; simpl.
    + symmetry. by apply Hget.
    + apply lookup_ge_None_1 in Hi. rewrite !lookup_ge_None_2; [done|lia..].
Qed.

Module SineShiftMutator_data_facts.
Import SineShiftMutator.
Section WithFrames.
Context `{FloatOps} (N : nat).

(** The loop of [apply_permutation] and of [apply_inverse_permutation] on a
    valid map: the sample at position [i] lands at position [p[i]]. *)
Lemma scatter_samples_spec (x : list Q) (p : list nat) :
  length x = N → p ≡ₚ seq 0 N →
  ∃ y, foldM (λ out '(src, dst),
                sample ← list_load x src; list_store out dst sample)
             (replicate (length x) 0%Q) (enumerate p) = Ok y
       ∧ length y = N ∧ ∀ i j, p !! i = Some j → y !! j = x !! i.
Proof.
  intros Hx Hp.
  pose proof (perm_seq_length _ _ Hp) as Hplen.
  destruct (foldM_scatter
    (λ out '(src, dst), sample ← list_load x src; list_store out dst sample)
    (λ a : nat * nat, a.2) (λ a, default 0%Q (x !! a.1))
    (enumerate p) (replicate (length x) 0%Q)) as (y & Hy & Hlen & Hin & _).
  - intros acc [i j] Hij. simpl.
    apply list_elem_of_lookup in Hij as [k Hk].
    apply enumerate_lookup in Hk as [Hk1 Hk2]. simpl in *. subst k.
    destruct (lookup_lt_is_Some_2 x i) as [c Hc].
    { rewrite Hx, <-Hplen. by eapply lookup_lt_Some. }
    by rewrite (list_load_Ok _ _ _ Hc), Hc.
  - rewrite enumerate_snd. by eapply perm_seq_NoDup.
  - apply Forall_forall. intros [i j] Hk. simpl. rewrite length_replicate, Hx.
    apply list_elem_of_lookup in Hk as [k' Hk].
    apply enumerate_lookup in Hk as [_ Hk]. by eapply perm_seq_bound.
  - rewrite length_replicate in Hlen. exists y. split_and!; [done|congruence|].
    intros i j Hij.
    destruct (lookup_lt_is_Some_2 x i) as [c Hc].
    { rewrite Hx, <-Hplen. by eapply lookup_lt_Some. }
    rewrite Hc. specialize (Hin (i, j)). simpl in Hin. rewrite Hc in Hin.
    apply Hin. apply list_elem_of_lookup. exists i. by apply enumerate_lookup.
Qed.

Lemma samples_permutation_spec (x : list Q) (p : list nat) :
  length x = N → p ≡ₚ seq 0 N →
  ∃ y, apply_permutation N x p = Ok y
       ∧ length y = N ∧ ∀ i j, p !! i = Some j → y !! j = x !! i.
Proof.
  intros Hx Hp. unfold apply_permutation.
  rewrite (perm_seq_length _ _ Hp), Nat.eqb_refl.
  replace (length x =? N) with true by (symmetry; by apply Nat.eqb_eq).
  by apply scatter_samples_spec.
Qed.

Lemma samples_inverse_permutation_spec (y : list Q) (q : list nat) :
  length y = N → q ≡ₚ seq 0 N →
  ∃ x, apply_inverse_permutation N y q = Ok x
       ∧ length x = N ∧ ∀ j i, q !! j = Some i → x !! i = y !! j.
Proof.
  intros Hy Hq. unfold apply_inverse_permutation.
  rewrite (perm_seq_length _ _ Hq), Nat.eqb_refl.
  replace (length y =? N) with true by (symmetry; by apply Nat.eqb_eq).
  by apply scatter_samples_spec.
Qed.

Lemma samples_inverse_map_spec (p : list nat) :
  p ≡ₚ seq 0 N →
  ∃ inv, get_inverse_permutation_map N p = Ok inv
         ∧ inv ≡ₚ seq 0 N ∧ inverts p inv.
Proof. apply (Licensee_permutation_facts.get_inverse_permutation_map_spec N p). Qed.

(** The resizing at the head of [mutate_data] and [unmute_data]. *)
Lemma fitted_data (data : list Q) :
  (if negb (length data =? N) then
     if N <? length data then take N data
     else data ++ drop (length data) (replicate N 0%Q)
   else data)
  = take N data ++ replicate (N - length data) 0%Q.
Proof.
  destruct (length data =? N) eqn:Heq; simpl.
  - apply Nat.eqb_eq in Heq. rewrite take_ge by lia.
    replace (N - length data) with 0 by lia. by rewrite app_nil_r.
  - apply Nat.eqb_neq in Heq. destruct (N <? length data) eqn:Hlt.
    + apply Nat.ltb_lt in Hlt. replace (N - length data) with 0 by lia.
      by rewrite app_nil_r.
    + apply Nat.ltb_ge in Hlt. rewrite take_ge by lia.
      by rewrite drop_replicate.
Qed.

Lemma length_fitted (data : list Q) :
  length (take N data ++ replicate (N - length data) 0%Q) = N.
Proof. rewrite length_app, length_take, length_replicate. lia. Qed.

Lemma mutate_then_unmute (data : list Q) (s : Q) :
  (0 <= s)%Q →
  ∃ m, mutate_data N data s = Ok m
       ∧ length m = N
       ∧ m ≡ₚ take N data ++ replicate (N - length data) 0%Q
       ∧ unmute_data N m s = Ok (take N data ++ replicate (N - length data) 0%Q).
Proof.
  intros Hs. unfold mutate_data, unmute_data.
  rewrite fitted_data. set (x := take N data ++ _).
  pose proof (length_fitted data) as Hx. fold x in Hx.
  destruct (SineShiftMutator_facts.generate_permutation_map_accepts N s Hs)
    as (pm & Hpm & Hperm).
  rewrite Hpm, !bind_Ok_l.
  destruct (samples_permutation_spec x pm Hx Hperm) as (y & Hy & Hylen & Hyget).
  exists y. split_and!; [done|done|by eapply scatter_Permutation|].
  rewrite fitted_data. rewrite take_ge by lia.
  replace (N - length y) with 0 by lia. rewrite app_nil_r. rewrite bind_Ok_l.
  destruct (samples_inverse_map_spec pm Hperm) as (inv & Hinv & Hq & Hpq).
  rewrite Hinv, bind_Ok_l.
  destruct (samples_inverse_permutation_spec y inv Hylen Hq) as (z & Hz & Hzlen & Hzget).
  rewrite Hz. f_equal. apply list_eq. intros i.
  destruct (decide (i < N)) as [Hi|Hi].
  - destruct (lookup_lt_is_Some_2 pm i) as [j Hj].
    { by rewrite (perm_seq_length _ _ Hperm). }
    rewrite (Hzget j i (Hpq i j Hj)). by apply Hyget.
  - rewrite !lookup_ge_None_2; [done|lia..].
Qed.

Lemma negative_key_raises (data : list Q) (s : Q) :
  (s < 0)%Q →
  mutate_data N data s = Raise ValueError
  ∧ unmute_data N data s = Raise ValueError.
Proof.
  intros Hs. unfold mutate_data, unmute_data, generate_permutation_map.
  by rewrite SineShiftMutator_facts.Qltb_true.
Qed.
End WithFrames.
End SineShiftMutator_data_facts.
(** ** Writing through an index list that may repeat *)

(** Without the assumption that the indices are distinct: a position that is
    not written keeps its value, a position that is written holds the value
    of one of the writes. *)
Lemma foldM_overwrite {A B} (f : list B → A → result (list B))
    (idx : A → nat) (val : A → B) (xs : list A) (init : list B) :
  (∀ acc x, x ∈ xs → f acc x = list_store acc (idx x) (val x)) →
  Forall (λ x, idx x < length init) xs →
  ∃ r, foldM f init xs = Ok r ∧ length r = length init ∧
       (∀ j, j ∈ idx <$> xs → ∃ x, x ∈ xs ∧ idx x = j ∧ r !! j = Some (val x)) ∧
       (∀ j, j ∉ idx <$> xs → r !! j = init !! j).
Proof.
  revert init. induction xs as [|x xs IH]; intros init Hf Hlt.
  - exists init. split_and!; [done|done| |done].
    intros j Hj. by apply elem_of_nil in Hj.
  - apply Forall_cons in Hlt as [Hxlt Hlt].
    destruct (IH (<[idx x:=val x]> init)) as (r & Hr & Hlen & Hin & Hout).
    + intros acc y Hy. apply Hf. by right.
    + by rewrite length_insert.
    + exists r. simpl. rewrite Hf by left. rewrite list_store_Ok by done. simpl.
      rewrite length_insert in Hlen. split_and!; [done|done| |].
      * intros j Hj. destruct (decide (j ∈ idx <$> xs)) as [Hj'|Hj'].
        -- destruct (Hin j Hj') as (y & Hy & Hyj & Hry).
           exists y. split_and!; [by right|done|done].
        -- exists x. rewrite ?fmap_cons in Hj.
           apply elem_of_cons in Hj as [->|Hj]; [|done].
           split_and!; [by left|done|].
           rewrite Hout by done. by apply list_lookup_insert_eq.
      * intros j Hj. rewrite ?fmap_cons in Hj.
        apply not_elem_of_cons in Hj as [Hne Hj].
        rewrite Hout by done. by apply list_lookup_insert_ne.
Qed.

(** The length of the joined slots when every slot is empty or holds one
    character: the number of slots that are filled. *)
Lemma length_concat_slots {C} (slots : list (list C)) (filled : nat → Prop)
    `{!∀ j, Decision (filled j)} (off : nat) :
  (∀ j s, slots !! j = Some s →
          if decide (filled (off + j)) then length s = 1 else s = []) →
  length (concat slots)
  = length (filter filled (seq off (length slots))).
Proof.
  revert off. induction slots as [|s slots IH]; intros off Hs; [done|].
  simpl. rewrite length_app, filter_cons.
  rewrite (IH (S off)).
  - specialize (Hs 0 s eq_refl). rewrite Nat.add_0_r in Hs.
    destruct (decide (filled off)); [simpl; lia|by subst s].
  - intros j s' Hj. specialize (Hs (S j) s' Hj).
    by replace (off + S j) with (S off + j) in Hs by lia.
Qed.

Module Licensee_permutation_more.
Import Licensee_permutation.
Section WithSize.
Context `{FloatOps} (N : nat).

(** The inverse of the inverse map is the map. *)
Lemma inverse_of_inverse (p : list nat) :
  p ≡ₚ seq 0 N →
  ∃ inv, get_inverse_permutation_map N p = Ok inv
         ∧ inv ≡ₚ seq 0 N
         ∧ get_inverse_permutation_map N inv = Ok p.
Proof.
  intros Hp.
  destruct (Licensee_permutation_facts.get_inverse_permutation_map_spec N p Hp)
    as (inv & Hinv & Hq & Hpq).
  destruct (Licensee_permutation_facts.get_inverse_permutation_map_spec N inv Hq)
    as (p' & Hp' & Hperm' & Hqp').
  exists inv. split_and!; [done|done|]. rewrite Hp'. f_equal.
  apply list_eq. intros i.
  destruct (decide (i < N)) as [Hi|Hi].
  - destruct (lookup_lt_is_Some_2 p i) as [j Hj].
    { by rewrite (perm_seq_length _ _ Hp). }
    rewrite Hj. apply Hqp'. by apply Hpq.
  - rewrite !lookup_ge_None_2; [done| |].
    + rewrite (perm_seq_length _ _ Hp). lia.
    + rewrite (perm_seq_length _ _ Hperm'). lia.
Qed.

(** The result of [apply_permutation] on a valid map has the characters of
    the input, each at the position the map gives. *)
Lemma apply_permutation_rearranges {C} (x : list C) (p : list nat) :
  length x = N → p ≡ₚ seq 0 N →
  ∃ y, apply_permutation N x p = Ok y
       ∧ y ≡ₚ x
       ∧ ∀ i j, p !! i = Some j → y !! j = x !! i.
Proof.
  intros Hx Hp.
  destruct (Licensee_permutation_facts.apply_permutation_spec N x p Hx Hp)
    as (y & Hy & Hylen & Hyget).
  exists y. split_and!; [done| |done]. by eapply scatter_Permutation.
Qed.

(** [apply_permutation] does not check that the map is a permutation: with
    any map of the right length whose entries are positions it returns, and
    the result has one character for every position that occurs in the map. *)
Lemma apply_permutation_unchecked {C} (x : list C) (p : list nat) :
  length x = N → length p = N → Forall (λ j, j < N) p →
  ∃ y, apply_permutation N x p = Ok y
       ∧ length y = length (remove_dups p).
Proof.
  intros Hx Hplen Hp. unfold apply_permutation.
  rewrite Hx, Hplen, Nat.eqb_refl. cbn [negb].
  destruct (foldM_overwrite
    (λ slots '(src, dst), c ← list_load x src; list_store slots dst [c])
    (λ a : nat * nat, a.2)
    (λ a, match x !! a.1 with Some c => [c] | None => [] end)
    (enumerate p) (replicate N [])) as (slots & Hs & Hlen & Hin & Hout).
  - intros acc [i j] Hij. simpl.
    apply list_elem_of_lookup in Hij as [k Hk].
    apply enumerate_lookup in Hk as [Hk1 Hk2]. simpl in *. subst k.
    destruct (lookup_lt_is_Some_2 x i) as [c Hc].
    { rewrite Hx, <-Hplen. by eapply lookup_lt_Some. }
    by rewrite (list_load_Ok _ _ _ Hc), Hc.
  - apply Forall_forall. intros [i j] Hk. simpl. rewrite length_replicate.
    apply list_elem_of_lookup in Hk as [k' Hk].
    apply enumerate_lookup in Hk as [_ Hk]. simpl in Hk.
    rewrite Forall_forall in Hp. apply Hp. by eapply list_elem_of_lookup_2.
  - rewrite Hs, bind_Ok_l. eexists. split; [done|].
    rewrite enumerate_snd in Hin, Hout. rewrite length_replicate in Hlen.
    rewrite (length_concat_slots slots (λ j, j ∈ p) 0).
    + rewrite Hlen. apply Permutation_length. apply NoDup_Permutation.
      * apply NoDup_filter, NoDup_seq.
      * apply NoDup_remove_dups.
      * intros j. rewrite list_elem_of_filter, elem_of_seq, elem_of_remove_dups.
        split; [by intros [Hj _]|]. intros Hj. split; [done|].
        rewrite Forall_forall in Hp. specialize (Hp j Hj). lia.
    + intros j s Hj. simpl. destruct (decide (j ∈ p)) as [Hjp|Hjp].
      * destruct (Hin j Hjp) as ([i j'] & Hij & Hjj & Hslot). simpl in *.
        subst j'. rewrite Hj in Hslot. injection Hslot as ->.
        apply list_elem_of_lookup in Hij as [k Hk].
        apply enumerate_lookup in Hk as [Hk1 Hk2]. simpl in *. subst k.
        destruct (lookup_lt_is_Some_2 x i) as [c Hc].
        { rewrite Hx, <-Hplen. by eapply lookup_lt_Some. }
        by rewrite Hc.
      * rewrite (Hout j Hjp) in Hj. apply lookup_replicate in Hj as [-> _]. done.
Qed.

(** A wrong length is refused before anything is moved. *)
Lemma apply_permutation_wrong_length {C} (x : list C) (p : list nat) :
  length x ≠ N ∨ length p ≠ N →
  apply_permutation N x p = Raise ValueError
  ∧ apply_inverse_permutation N x p = Raise ValueError.
Proof.
  unfold apply_permutation, apply_inverse_permutation.
  intros [Hl|Hl]; apply Nat.eqb_neq in Hl; rewrite Hl; [done|].
  by destruct (length x =? N).
Qed.
End WithSize.
End Licensee_permutation_more.
(** ** SineScramble: what a round keeps *)

Module SineScramble_more.
Import SineScramble.

Lemma take_indices_Permutation {A} (a r : list A) (p : list nat) :
  p ≡ₚ seq 0 (length a) → take_indices a p = Ok r → r ≡ₚ a.
Proof.
  intros Hp Hr.
  destruct (SineScramble_facts.take_indices_spec a p) as (r' & Hr' & Hlen & Hget).
  { apply Forall_forall. intros i Hi. rewrite Hp in Hi.
    apply elem_of_seq in Hi. lia. }
  rewrite Hr in Hr'. injection Hr' as <-.
  rewrite (perm_seq_length _ _ Hp) in Hlen.
  symmetry. apply (scatter_Permutation r a p (length a)); [done|done|done|].
  intros j i Hj. symmetry. by apply Hget.
Qed.

Lemma high_bits_substitute (data : list Z) (mask : list bool) :
  length data = length mask →
  high_bits (_substitute_data data mask) = high_bits data.
Proof.
  unfold high_bits, _substitute_data. revert mask.
  induction data as [|d data IH]; intros [|m mask] Hlen; try done.
  simpl in *. f_equal; [|apply IH; lia].
  rewrite Z.shiftr_lxor. destruct m; by rewrite Z.lxor_0_r.
Qed.

Lemma is_byte_lxor_bit (d : Z) (m : bool) :
  is_byte d → is_byte (Z.lxor d (if m then 1 else 0)).
Proof.
  unfold is_byte. intros [Hlo Hhi]. destruct m; [|by rewrite Z.lxor_0_r].
  assert (0 ≤ Z.lxor d 1)%Z as Hnn by (apply Z.lxor_nonneg; split; lia).
  split; [done|].
  destruct (decide (Z.lxor d 1 = 0%Z)) as [->|Hne]; [done|].
  assert (0 < Z.lxor d 1)%Z as Hpos by lia.
  change 256%Z with (2 ^ 8)%Z. apply Z.log2_lt_pow2; [done|].
  pose proof (Z.log2_lxor d 1 Hlo ltac:(lia)) as Hlog.
  destruct (decide (d = 0%Z)) as [->|Hd]; [simpl in *; lia|].
  assert (Z.log2 d < 8)%Z by (apply Z.log2_lt_pow2; lia).
  change (Z.log2 1) with 0%Z in Hlog. pose proof (Z.log2_nonneg d). lia.
Qed.

Lemma is_byte_substitute (data : list Z) (mask : list bool) :
  Forall is_byte data → Forall is_byte (_substitute_data data mask).
Proof.
  unfold _substitute_data. intros Hd. revert mask.
  induction Hd as [|d data Hb _ IH]; intros [|m mask]; simpl; try constructor.
  - by apply is_byte_lxor_bit.
  - apply IH.
Qed.

Section Cipher.
Context `{FloatOps} (self : SineScrambleCipher).

Lemma kept_refl data : kept data data.
Proof. by split_and!. Qed.

Lemma kept_trans a b c : kept a b → kept b c → kept a c.
Proof.
  intros (H1 & H2 & H3) (H4 & H5 & H6). split_and!; [congruence|auto|].
  by rewrite H6.
Qed.

Lemma transform_round_kept (data r : list Z) (k : Q) (inverse : bool) :
  _transform_round self data k inverse = Ok r → kept data r.
Proof.
  unfold _transform_round.
  set (L := length data).
  pose proof (SineScramble_facts.generate_permutation_map_perm self k L) as Hp.
  pose proof (SineScramble_facts.length_generate_substitution_mask self k L) as Hm.
  set (p := _generate_permutation_map self k L) in *.
  set (mask := _generate_substitution_mask self k L) in *.
  destruct inverse; unfold _permute_data.
  - destruct (SineScramble_facts.put_indices_inverse p L Hp)
      as (inv & Hinv & Hq & _).
    rewrite Hinv, bind_Ok_l. intros Hr.
    assert (length (_substitute_data data mask) = L) as Hslen.
    { rewrite SineScramble_facts.length_substitute; [done|]. fold L. lia. }
    pose proof (take_indices_Permutation _ _ inv
                  ltac:(by rewrite Hslen) Hr) as Hperm.
    split_and!.
    + apply Permutation_length in Hperm. lia.
    + intros Hd. rewrite Hperm. by apply is_byte_substitute.
    + unfold high_bits at 1. rewrite Hperm. fold (high_bits (_substitute_data data mask)).
      rewrite high_bits_substitute; [done|]. fold L. lia.
  - intros Hr. apply bind_Ok in Hr as (d1 & Hd1 & Hr). injection Hr as <-.
    pose proof (take_indices_Permutation _ _ p Hp Hd1) as Hperm.
    assert (length d1 = L) as Hd1len by (by apply Permutation_length in Hperm).
    split_and!.
    + rewrite SineScramble_facts.length_substitute; lia.
    + intros Hd. apply is_byte_substitute. by rewrite Hperm.
    + rewrite high_bits_substitute by lia. unfold high_bits. by rewrite Hperm.
Qed.

Lemma rounds_kept (ks : list Q) (inverse : bool) (data r : list Z) :
  foldM (λ d k, _transform_round self d k inverse) data ks = Ok r → kept data r.
Proof.
  revert data. induction ks as [|k ks IH]; intros data Hr.
  - injection Hr as <-. apply kept_refl.
  - rewrite foldM_cons in Hr. apply bind_Ok in Hr as (d1 & Hd1 & Hr).
    eapply kept_trans; [by eapply transform_round_kept|by apply IH].
Qed.

Lemma process_chunks_kept (inverse : bool) (segs : list (list Z * Q))
    (cs : list (list Z)) :
  forM (_process_segment self inverse) segs = Ok cs →
  kept (concat segs.*1) (concat cs).
Proof.
  revert cs. induction segs as [|[d k] segs IH]; intros cs Hcs.
  - injection Hcs as <-. apply kept_refl.
  - rewrite forM_cons in Hcs. apply bind_Ok in Hcs as (c & Hc & Hcs).
    apply bind_Ok in Hcs as (cs' & Hcs' & Hcs). injection Hcs as <-.
    apply transform_round_kept in Hc as (Hc1 & Hc2 & Hc3).
    destruct (IH cs' Hcs') as (Hi1 & Hi2 & Hi3).
    rewrite fmap_cons. simpl concat. split_and!.
    + rewrite !length_app. simpl in *. lia.
    + rewrite !Forall_app. intros [Ha Hb]. split; [by apply Hc2|by apply Hi2].
    + unfold high_bits in *. rewrite !fmap_app. by rewrite Hc3, Hi3.
Qed.

Lemma segmented_kept (inverse : bool) (data r : list Z) :
  (if inverse then _decrypt_segmented self data
   else _encrypt_segmented self data) = Ok r →
  kept data r.
Proof.
  assert (∀ segs : list (list Z * Q),
            segs = segment_args self data (length data / SineScramble.n self) →
            length data / SineScramble.n self ≠ 0 →
            forM (_process_segment self inverse) segs ≫= (λ ps, Ok (concat ps))
            = Ok r → kept data r) as Hmain.
  { intros segs -> Hseg Hr. apply bind_Ok in Hr as (cs & Hcs & Hr).
    injection Hr as <-. apply process_chunks_kept in Hcs.
    rewrite SineScramble_facts.segment_args_chunks in Hcs.
    rewrite SineScramble_facts.chunks_concat in Hcs; [done|].
    intros Hkey. apply Hseg. unfold SineScramble.n. by rewrite Hkey. }
  destruct inverse; unfold _decrypt_segmented, _encrypt_segmented;
    (destruct (decide _) as [|Hseg]; [done|]); by apply Hmain.
Qed.

Lemma encrypt_decrypt_kept (data r : list Z) :
  encrypt self data = Ok r ∨ decrypt self data = Ok r → kept data r.
Proof.
  unfold encrypt, decrypt.
  intros [Hr|Hr]; destruct (mode self).
  - by apply (rounds_kept (key self) false).
  - by apply (segmented_kept false).
  - by apply (rounds_kept (reverse (key self)) true).
  - by apply (segmented_kept true).
Qed.

(** The inverse round followed by the forward round with the same key
    component gives the buffer back. *)
Lemma transform_round_inverse_first (c : list Z) (k : Q) :
  ∃ d, _transform_round self c k true = Ok d
       ∧ length d = length c
       ∧ _transform_round self d k false = Ok c.
Proof.
  destruct (SineScramble_facts.transform_round_total self c k true)
    as (d & Hd & Hdlen).
  exists d. split_and!; [done|done|].
  revert Hd. unfold _transform_round. rewrite Hdlen.
  set (L := length c).
  pose proof (SineScramble_facts.generate_permutation_map_perm self k L) as Hp.
  pose proof (SineScramble_facts.length_generate_substitution_mask self k L) as Hm.
  set (p := _generate_permutation_map self k L) in *.
  set (mask := _generate_substitution_mask self k L) in *.
  unfold _permute_data.
  destruct (SineScramble_facts.put_indices_inverse p L Hp)
    as (inv & Hinv & Hq & Hpq & Hqp).
  rewrite Hinv, bind_Ok_l. intros Hd.
  assert (length (_substitute_data c mask) = L) as Hslen.
  { rewrite SineScramble_facts.length_substitute; [done|]. fold L. lia. }
  destruct (SineScramble_facts.take_indices_spec (_substitute_data c mask) inv)
    as (d' & Hd' & Hd'len & Hdget).
  { apply Forall_forall. intros i Hi. rewrite Hq in Hi.
    apply elem_of_seq in Hi. lia. }
  rewrite Hd in Hd'. injection Hd' as <-.
  destruct (SineScramble_facts.take_indices_spec d p) as (e & He & Helen & Heget).
  { apply Forall_forall. intros i Hi. rewrite Hp in Hi.
    apply elem_of_seq in Hi. lia. }
  rewrite He, bind_Ok_l. f_equal.
  assert (e = _substitute_data c mask) as ->.
  { apply list_eq. intros j.
    rewrite (perm_seq_length _ _ Hp) in Helen.
    destruct (decide (j < L)) as [Hj|Hj].
    - destruct (lookup_lt_is_Some_2 p j) as [i Hi].
      { by rewrite (perm_seq_length _ _ Hp). }
      rewrite (Heget j i Hi). by rewrite (Hdget i j (Hpq j i Hi)).
    - rewrite !lookup_ge_None_2; [done|lia..]. }
  apply SineScramble_facts.substitute_involutive. fold L. lia.
Qed.

Lemma multi_round_inverse_first (ks : list Q) (c : list Z) :
  ∃ d, foldM (λ d k, _transform_round self d k true) c (reverse ks) = Ok d
       ∧ length d = length c
       ∧ foldM (λ d k, _transform_round self d k false) d ks = Ok c.
Proof.
  revert c. induction ks as [|k ks IH] using rev_ind; intros c.
  - by exists c.
  - destruct (transform_round_inverse_first c k) as (d1 & Hd1 & Hlen1 & Hfwd1).
    destruct (IH d1) as (d & Hd & Hlen & Hfwd).
    exists d. rewrite reverse_app, reverse_singleton.
    change ([k] ++ reverse ks) with (k :: reverse ks).
    rewrite foldM_cons, Hd1, bind_Ok_l. split_and!; [done|congruence|].
    by rewrite foldM_app, Hfwd, bind_Ok_l, foldM_cons, Hfwd1.
Qed.

Lemma process_chunks_inverse_first (segs : list (list Z * Q)) :
  ∃ ds, forM (_process_segment self true) segs = Ok ds
        ∧ Forall2 (λ d s, length d = length s.1) ds segs
        ∧ forM (_process_segment self false) (zip ds segs.*2) = Ok segs.*1.
Proof.
  induction segs as [|[c k] segs (ds & Hds & Hlen & Hback)].
  - by exists [].
  - destruct (transform_round_inverse_first c k) as (d & Hd & Hdlen & Hdback).
    assert (Hbwd : _process_segment self true (c, k) = Ok d) by done.
    assert (Hfwd : _process_segment self false (d, k) = Ok c) by done.
    exists (d :: ds). rewrite forM_cons, Hbwd, bind_Ok_l, Hds, bind_Ok_l.
    split_and!; [done|by constructor|].
    rewrite !fmap_cons. simpl zip.
    by rewrite forM_cons, Hfwd, bind_Ok_l, Hback, bind_Ok_l.
Qed.

Lemma segmented_inverse_first (c : list Z) :
  key self ≠ [] → SineScramble.n self ≤ length c →
  ∃ d, _decrypt_segmented self c = Ok d
       ∧ length d = length c
       ∧ _encrypt_segmented self d = Ok c.
Proof.
  intros Hkey Hn. unfold _encrypt_segmented, _decrypt_segmented.
  assert (0 < SineScramble.n self) as Hpos.
  { unfold SineScramble.n. destruct (key self); [done|simpl; lia]. }
  set (seg := length c / SineScramble.n self).
  assert (seg ≠ 0) as Hseg.
  { unfold seg. intros Hz. apply Nat.div_small_iff in Hz; lia. }
  rewrite decide_False by done. rewrite SineScramble_facts.segment_args_chunks.
  destruct (process_chunks_inverse_first (chunks seg (key self) c))
    as (ds & Hds & Hlen & Hback).
  rewrite Hds, bind_Ok_l.
  rewrite SineScramble_facts.chunks_snd in Hback.
  assert (length (concat ds) = length c) as Hdlen.
  { rewrite (SineScramble_facts.concat_length_Forall2 _ _ Hlen).
    by rewrite SineScramble_facts.chunks_concat. }
  exists (concat ds). split_and!; [done|done|].
  rewrite Hdlen. fold seg. rewrite decide_False by done.
  rewrite SineScramble_facts.segment_args_chunks.
  rewrite (SineScramble_facts.chunks_of_concat seg (key self) c ds); [|subst seg|done].
  - by rewrite Hback, bind_Ok_l, SineScramble_facts.chunks_concat.
  - fold (SineScramble.n self).
    pose proof (Nat.Div0.mul_div_le (length c) (SineScramble.n self)).
    nia.
Qed.

(** With a key of one component the segmented mode has one segment, the
    whole buffer, and runs the one round of the multi-round mode on it. *)
Lemma single_segment (k : Q) (data : list Z) :
  key self = [k] → data ≠ [] →
  _encrypt_segmented self data = _encrypt_multi_round self data
  ∧ _decrypt_segmented self data = _decrypt_multi_round self data.
Proof.
  intros Hkey Hdata.
  unfold _encrypt_segmented, _decrypt_segmented, _encrypt_multi_round,
    _decrypt_multi_round.
  assert (SineScramble.n self = 1) as Hn by (unfold SineScramble.n; by rewrite Hkey).
  rewrite Hn, Nat.div_1_r.
  rewrite !decide_False by (by destruct data).
  rewrite SineScramble_facts.segment_args_chunks, Hkey.
  change (chunks (length data) [k] data) with [(data, k)].
  change (reverse [k]) with [k].
  rewrite !forM_cons, !foldM_cons. unfold _process_segment.
  cbn [fst snd forM foldM].
  split; (destruct (_transform_round self data k _) as [c|e]; [|done]);
    rewrite !bind_Ok_l; cbn [concat]; by rewrite app_nil_r.
Qed.
End Cipher.
End SineScramble_more.
(** ** Digits in base [2^w] *)

Section Digits.
Local Open Scope Z_scope.
Context (w : Z) (Hw : 0 < w).

Lemma pow2_pos (n : Z) : 0 ≤ n → 0 < 2 ^ n.
Proof. intros Hn. by apply Z.pow_pos_nonneg. Qed.

(** Setting bits that are clear adds them. *)
Lemma lor_add_disjoint (a b p : Z) :
  0 ≤ p → 0 ≤ b < 2 ^ p → Z.lor (a * 2 ^ p) b = a * 2 ^ p + b.
Proof.
  intros Hp Hb. symmetry. apply Z.add_nocarry_lor.
  apply Z.bits_inj'. intros i Hi. rewrite Z.land_spec, Z.bits_0.
  destruct (decide (i < p)) as [Hlt|Hge].
  - by rewrite Z.mul_pow2_bits_low.
  - rewrite (proj1 (Z.bounded_iff_bits_nonneg' p b Hp (proj1 Hb)) Hb i) by lia.
    apply andb_false_r.
Qed.

Lemma lor_shiftl_add (acc d : Z) :
  is_digit w d → Z.lor (Z.shiftl acc w) d = acc * 2 ^ w + d.
Proof.
  intros Hd. rewrite Z.shiftl_mul_pow2 by lia. apply lor_add_disjoint; [lia|done].
Qed.

Lemma foldl_lor_shiftl (acc : Z) (ds : list Z) :
  Forall (is_digit w) ds →
  foldl (λ acc d, Z.lor (Z.shiftl acc w) d) acc ds
  = foldl (λ acc d, acc * 2 ^ w + d) acc ds.
Proof.
  intros Hds. revert acc. induction Hds as [|d ds Hd _ IH]; intros acc; [done|].
  simpl. by rewrite lor_shiftl_add, IH.
Qed.

Lemma foldl_value (acc : Z) (ds : list Z) :
  foldl (λ acc d, acc * 2 ^ w + d) acc ds
  = acc * 2 ^ (w * Z.of_nat (length ds)) + be_value w ds.
Proof.
  unfold be_value. revert acc. induction ds as [|d ds IH] using rev_ind; intros acc.
  - simpl. rewrite Z.mul_0_r. simpl. lia.
  - rewrite !foldl_app. simpl. rewrite IH, length_app. simpl.
    replace (w * Z.of_nat (length ds + 1)%nat) with (w * Z.of_nat (length ds) + w) by lia.
    rewrite Z.pow_add_r by lia. lia.
Qed.

Lemma be_value_snoc (ds : list Z) (d : Z) :
  be_value w (ds ++ [d]) = be_value w ds * 2 ^ w + d.
Proof. unfold be_value. by rewrite foldl_app. Qed.

Lemma be_value_cons (d : Z) (ds : list Z) :
  be_value w (d :: ds) = d * 2 ^ (w * Z.of_nat (length ds)) + be_value w ds.
Proof.
  unfold be_value at 1. simpl. rewrite foldl_value.
  replace (0 * 2 ^ w + d) with d by lia. done.
Qed.

Lemma be_value_bound (ds : list Z) :
  Forall (is_digit w) ds → 0 ≤ be_value w ds < 2 ^ (w * Z.of_nat (length ds)).
Proof.
  induction ds as [|d ds IH] using rev_ind; intros Hds.
  - simpl. unfold be_value. simpl. lia.
  - apply Forall_app in Hds as [Hds Hd]. rewrite Forall_singleton in Hd.
    specialize (IH Hds). rewrite be_value_snoc, length_app. simpl.
    replace (w * Z.of_nat (length ds + 1)%nat) with (w * Z.of_nat (length ds) + w) by lia.
    rewrite Z.pow_add_r by lia. unfold is_digit in Hd.
    pose proof (pow2_pos w ltac:(lia)) as Hq.
    revert IH Hd Hq. generalize (be_value w ds) (2 ^ w) (2 ^ (w * Z.of_nat (length ds))).
    intros v q p [Hv0 Hv] [Hd0 Hd] Hq. split; [nia|].
    assert (v * q ≤ (p - 1) * q) by (apply Z.mul_le_mono_nonneg_r; lia). lia.
Qed.

Lemma length_be_digits (k : nat) (n : Z) : length (be_digits w k n) = k.
Proof. unfold be_digits. by rewrite length_fmap, length_seq. Qed.

Lemma be_digits_bound (k : nat) (n : Z) : Forall (is_digit w) (be_digits w k n).
Proof.
  unfold be_digits. apply Forall_fmap, Forall_true. intros i. simpl.
  apply Z.mod_pos_bound. apply pow2_pos. lia.
Qed.

Lemma be_digits_S (k : nat) (n : Z) :
  be_digits w (S k) n = be_digits w k (n / 2 ^ w) ++ [n mod 2 ^ w].
Proof.
  unfold be_digits. rewrite seq_S, fmap_app. simpl. f_equal.
  - apply list_fmap_ext. intros j i Hi. apply lookup_seq in Hi as [-> Hlt]. simpl.
    replace (k - 0 - j)%nat with (S (k - 1 - j)) by lia.
    rewrite Nat2Z.inj_succ.
    replace (w * Z.succ (Z.of_nat (k - 1 - j))) with (w + w * Z.of_nat (k - 1 - j)) by lia.
    rewrite Z.pow_add_r by nia.
    rewrite Z.div_div; [done| |apply pow2_pos; nia].
    pose proof (pow2_pos w ltac:(lia)). lia.
  - replace (k - 0 - k)%nat with 0%nat by lia. rewrite Z.mul_0_r. simpl.
    by rewrite Z.div_1_r.
Qed.

Lemma be_value_digits (k : nat) (n : Z) :
  be_value w (be_digits w k n) = n mod 2 ^ (w * Z.of_nat k).
Proof.
  revert n. induction k as [|k IH]; intros n.
  - simpl. rewrite Z.mul_0_r. simpl. by rewrite Z.mod_1_r.
  - rewrite be_digits_S, be_value_snoc, IH.
    replace (w * Z.of_nat (S k)) with (w + w * Z.of_nat k) by lia.
    rewrite Z.pow_add_r by lia.
    rewrite Z.rem_mul_r; [lia| |apply pow2_pos; lia].
    pose proof (pow2_pos w ltac:(lia)). lia.
Qed.

Lemma be_digits_value (ds : list Z) :
  Forall (is_digit w) ds → be_digits w (length ds) (be_value w ds) = ds.
Proof.
  induction ds as [|d ds IH] using rev_ind; intros Hds; [done|].
  apply Forall_app in Hds as [Hds Hd]. rewrite Forall_singleton in Hd.
  rewrite length_app. simpl. replace (length ds + 1)%nat with (S (length ds)) by lia.
  rewrite be_digits_S, be_value_snoc.
  pose proof (pow2_pos w ltac:(lia)) as Hpos. unfold is_digit in Hd.
  rewrite Z.div_add_l by lia. rewrite Z.div_small by done. rewrite Z.add_0_r.
  rewrite IH by done. f_equal. f_equal.
  rewrite Z.add_comm, Z.mod_add by lia. by apply Z.mod_small.
Qed.

(** The digits of a number that fits are the digits of its value. *)
Lemma be_digits_inj (k : nat) (n : Z) (ds : list Z) :
  0 ≤ n < 2 ^ (w * Z.of_nat k) → be_digits w k n = ds → be_value w ds = n.
Proof. intros Hn <-. rewrite be_value_digits. by apply Z.mod_small. Qed.

(** The digits as the sources extract them, by shifting and masking. *)
Lemma shift_mask_digit (n j : Z) :
  0 ≤ j → Z.land (Z.shiftr n (w * j)) (2 ^ w - 1) = (n / 2 ^ (w * j)) mod 2 ^ w.
Proof.
  intros Hj. rewrite Z.shiftr_div_pow2 by lia.
  replace (2 ^ w - 1) with (Z.ones w) by (rewrite Z.ones_equiv; lia).
  apply Z.land_ones. lia.
Qed.
End Digits.
(** ** Licensee: the encodings ([licensee/encoding.py]) *)

Module Encoding_facts.
Import Licensee.
Local Open Scope Z_scope.

Lemma alphabet_table :
  Forall (λ i, ALPHABET !! i = Some (alphabet_char (Z.of_nat i))
               ∧ ALPHABET_MAP (alphabet_char (Z.of_nat i)) = Some (Z.of_nat i))
         (seq 0 32).
Proof. repeat constructor. Qed.

Lemma alphabet_digit (d : Z) :
  is_digit 5 d →
  ALPHABET !! Z.to_nat d = Some (alphabet_char d)
  ∧ ALPHABET_MAP (alphabet_char d) = Some d.
Proof.
  intros [Hlo Hhi]. change (2 ^ 5) with 32 in Hhi.
  pose proof alphabet_table as Ht. rewrite Forall_forall in Ht.
  specialize (Ht (Z.to_nat d)). rewrite Z2Nat.id in Ht by done.
  apply Ht. apply elem_of_seq. lia.
Qed.

Lemma alphabet_load (d : Z) :
  is_digit 5 d → list_load ALPHABET (Z.to_nat d) = Ok (alphabet_char d).
Proof. intros Hd. apply list_load_Ok. by apply alphabet_digit. Qed.

Lemma alphabet_char_elem (d : Z) : is_digit 5 d → alphabet_char d ∈ ALPHABET.
Proof. intros Hd. eapply list_elem_of_lookup_2. by apply alphabet_digit. Qed.

(** A character that [ALPHABET_MAP] knows is the character of its value. *)
Lemma alphabet_map_Some (c : ascii) (d : Z) :
  ALPHABET_MAP c = Some d → is_digit 5 d ∧ alphabet_char d = c.
Proof.
  unfold ALPHABET_MAP. intros Hc.
  destruct (list_find (λ a, a = c) ALPHABET) as [[i a]|] eqn:Hfind; [|done].
  injection Hc as <-. simpl.
  apply list_find_Some in Hfind as (Hi & -> & _).
  pose proof (lookup_lt_Some _ _ _ Hi) as Hlt. change (length ALPHABET) with 32%nat in Hlt.
  split; [unfold is_digit; change (2 ^ 5) with 32; lia|].
  unfold alphabet_char. by rewrite Nat2Z.id, Hi.
Qed.

Lemma alphabet_map_elem (c : ascii) :
  c ∈ ALPHABET → ∃ d, ALPHABET_MAP c = Some d.
Proof.
  intros Hc. unfold ALPHABET_MAP.
  destruct (list_find (λ a, a = c) ALPHABET) as [[i a]|] eqn:Hfind; [by eexists|].
  apply list_find_None in Hfind. rewrite Forall_forall in Hfind.
  by destruct (Hfind c Hc).
Qed.

(** The loop that reads the characters, five bits each. *)
Lemma accumulate_from (acc : Z) (ds : list Z) :
  Forall (is_digit 5) ds →
  foldl (λ acc char,
           all_bits ← acc; five_bits ← ALPHABET_MAP char;
           Some (Z.lor (Z.shiftl all_bits 5) five_bits))
        (Some acc) (alphabet_char <$> ds)
  = Some (acc * 2 ^ (5 * Z.of_nat (length ds)) + be_value 5 ds).
Proof.
  intros Hds. rewrite <-foldl_value by lia. revert acc.
  induction Hds as [|d ds Hd _ IH]; intros acc; [done|].
  simpl. rewrite (proj2 (alphabet_digit d Hd)). simpl.
  rewrite (lor_shiftl_add 5) by (done || lia). apply IH.
Qed.

Lemma accumulate_chars_digits (ds : list Z) :
  Forall (is_digit 5) ds →
  accumulate_chars (alphabet_char <$> ds) = Some (be_value 5 ds).
Proof.
  intros Hds. unfold accumulate_chars. rewrite accumulate_from by done. f_equal; lia.
Qed.

Lemma accumulate_None (s : list ascii) :
  foldl (λ acc char,
           all_bits ← acc; five_bits ← ALPHABET_MAP char;
           Some (Z.lor (Z.shiftl all_bits 5) five_bits))
        None s = None.
Proof. induction s as [|c s IH]; [done|]. simpl. apply IH. Qed.

(** A string is read iff all its characters are in the alphabet; it is then
    the string of the digits of the value read. *)
Lemma accumulate_chars_Some (s : list ascii) (v : Z) :
  accumulate_chars s = Some v →
  ∃ ds, Forall (is_digit 5) ds ∧ s = alphabet_char <$> ds ∧ v = be_value 5 ds.
Proof.
  unfold accumulate_chars.
  cut (∀ acc, foldl (λ acc char,
                 all_bits ← acc; five_bits ← ALPHABET_MAP char;
                 Some (Z.lor (Z.shiftl all_bits 5) five_bits)) (Some acc) s = Some v →
              ∃ ds, Forall (is_digit 5) ds ∧ s = alphabet_char <$> ds
                    ∧ v = acc * 2 ^ (5 * Z.of_nat (length ds)) + be_value 5 ds).
  { intros Hc Hs. destruct (Hc 0 Hs) as (ds & Hds & -> & ->).
    exists ds. split_and!; [done|done|lia]. }
  induction s as [|c s IH]; intros acc Hs.
  - injection Hs as <-. exists []. split_and!; [done|done|].
    unfold be_value. simpl. lia.
  - simpl in Hs. destruct (ALPHABET_MAP c) as [d|] eqn:Hc; simpl in Hs.
    + apply alphabet_map_Some in Hc as [Hd <-].
      destruct (IH _ Hs) as (ds & Hds & -> & ->).
      exists (d :: ds). split_and!; [by constructor|done|].
      rewrite (lor_shiftl_add 5) by (done || lia).
      rewrite (be_value_cons 5) by lia. simpl length.
      replace (5 * Z.of_nat (S (length ds))) with (5 + 5 * Z.of_nat (length ds)) by lia.
      rewrite Z.pow_add_r by lia. lia.
    + by rewrite accumulate_None in Hs.
Qed.

Lemma accumulate_chars_None (s : list ascii) :
  ¬ Forall (λ c, c ∈ ALPHABET) s → accumulate_chars s = None.
Proof.
  intros Hs. destruct (accumulate_chars s) as [v|] eqn:Hv; [|done].
  destruct Hs. apply accumulate_chars_Some in Hv as (ds & Hds & -> & _).
  apply Forall_fmap. eapply Forall_impl; [exact Hds|].
  intros d Hd. by apply alphabet_char_elem.
Qed.

(** Bytes to and from integers. *)
Lemma int_from_bytes_value (b : list Z) : int_from_bytes b = be_value 8 b.
Proof. done. Qed.

Lemma shift_or_bytes_value (b : list Z) :
  Forall is_byte b →
  foldl (λ all_bits byte, Z.lor (Z.shiftl all_bits 8) byte) 0 b = be_value 8 b.
Proof. intros Hb. by rewrite (foldl_lor_shiftl 8). Qed.

Lemma extracted_bytes (n : Z) (count : nat) :
  (λ i, Z.land (Z.shiftr n (8 * Z.of_nat (count - 1 - i))) 255) <$> seq 0 count
  = be_digits 8 count n.
Proof.
  unfold be_digits. apply list_fmap_ext. intros _ i _. simpl.
  apply (shift_mask_digit 8); lia.
Qed.

Lemma int_to_bytes_fits (n : Z) (count : nat) :
  0 ≤ n < 2 ^ (8 * Z.of_nat count) →
  int_to_bytes n count = Ok (be_digits 8 count n).
Proof.
  intros [Hlo Hhi]. unfold int_to_bytes.
  replace (n <? 0) with false by (symmetry; apply Z.ltb_ge; lia).
  replace (2 ^ (8 * Z.of_nat count) <=? n) with false by (symmetry; apply Z.leb_gt; lia).
  simpl. by rewrite extracted_bytes.
Qed.

Lemma be_digits_bytes (count : nat) (n : Z) : Forall is_byte (be_digits 8 count n).
Proof. apply (be_digits_bound 8). lia. Qed.

(** The 150-bit strings *)

Lemma bits_to_chars_digits (b : list Z) :
  length b = 19%nat →
  bits_to_chars b
  = Ok (alphabet_char <$> be_digits 5 30 (be_value 8 b / 4)).
Proof.
  intros Hlen. unfold bits_to_chars. rewrite Hlen. simpl negb. cbv iota.
  rewrite int_from_bytes_value.
  change ((TOTAL_BITS + 7) / 8 * 8 - TOTAL_BITS) with 2.
  rewrite Z.shiftr_div_pow2 by lia. change (2 ^ 2) with 4.
  change (Z.to_nat ENCODED_CHARS_LEN) with 30%nat.
  generalize (be_value 8 b / 4). intros N.
  unfold be_digits.
  cut (∀ l : list nat,
         Forall (λ i, i < 30)%nat l →
         forM (λ i : nat,
                 list_load ALPHABET
                   (Z.to_nat (Z.land (Z.shiftr N (TOTAL_BITS - 5 * (Z.of_nat i + 1))) 31))) l
         = Ok (alphabet_char <$>
                 ((λ i : nat, (N / 2 ^ (5 * Z.of_nat (30 - 1 - i))) mod 2 ^ 5) <$> l))).
  { intros Hc. apply Hc. apply Forall_forall. intros i Hi.
    apply elem_of_seq in Hi. lia. }
  induction 1 as [|i l Hi _ IH]; [done|].
  rewrite forM_cons, IH.
  replace (TOTAL_BITS - 5 * (Z.of_nat i + 1)) with (5 * Z.of_nat (30 - 1 - i))
    by (unfold TOTAL_BITS; lia).
  change 31 with (2 ^ 5 - 1).
  rewrite (shift_mask_digit 5 ltac:(lia) N (Z.of_nat (30 - 1 - i))) by lia.
  rewrite alphabet_load; [done|]. apply Z.mod_pos_bound. lia.
Qed.

Lemma chars_to_bits_digits (ds : list Z) :
  length ds = 30%nat → Forall (is_digit 5) ds →
  chars_to_bits (alphabet_char <$> ds) = Ok (be_digits 8 19 (be_value 5 ds * 4)).
Proof.
  intros Hlen Hds. unfold chars_to_bits. rewrite length_fmap, Hlen. simpl negb. cbv iota.
  rewrite accumulate_chars_digits by done.
  change ((TOTAL_BITS + 7) / 8 * 8 - TOTAL_BITS) with 2.
  unfold to_bytes. change ((TOTAL_BITS + 7) / 8 <? 0) with false. cbv iota.
  change (Z.to_nat ((TOTAL_BITS + 7) / 8)) with 19%nat.
  rewrite Z.shiftl_mul_pow2 by lia. change (2 ^ 2) with 4.
  apply int_to_bytes_fits.
  pose proof (be_value_bound 5 ltac:(lia) ds Hds) as Hb. rewrite Hlen in Hb.
  change (2 ^ (5 * Z.of_nat 30)) with (2 ^ 150) in Hb.
  change (2 ^ (8 * Z.of_nat 19)) with (2 ^ 150 * 4). lia.
Qed.

Lemma chars_bits_chars (ds : list Z) :
  length ds = 30%nat → Forall (is_digit 5) ds →
  ∃ b, chars_to_bits (alphabet_char <$> ds) = Ok b
       ∧ length b = 19%nat ∧ Forall is_byte b
       ∧ bits_to_chars b = Ok (alphabet_char <$> ds).
Proof.
  intros Hlen Hds. rewrite chars_to_bits_digits by done.
  eexists. split; [done|]. rewrite (length_be_digits 8).
  split_and!; [done|apply be_digits_bytes|].
  rewrite bits_to_chars_digits by apply (length_be_digits 8).
  rewrite (be_value_digits 8) by lia.
  pose proof (be_value_bound 5 ltac:(lia) ds Hds) as Hb. rewrite Hlen in Hb.
  change (2 ^ (5 * Z.of_nat 30)) with (2 ^ 150) in Hb.
  change (2 ^ (8 * Z.of_nat 19)) with (2 ^ 150 * 4).
  rewrite Z.mod_small by lia. rewrite Z.div_mul by lia.
  by rewrite <-Hlen, (be_digits_value 5) by (done || lia).
Qed.

Lemma bits_chars_bits (b : list Z) :
  length b = 19%nat → Forall is_byte b → int_from_bytes b mod 4 = 0 →
  ∃ s, bits_to_chars b = Ok s
       ∧ length s = 30%nat ∧ Forall (λ c, c ∈ ALPHABET) s
       ∧ chars_to_bits s = Ok b.
Proof.
  intros Hlen Hb Hpad. rewrite bits_to_chars_digits by done.
  eexists. split; [done|]. rewrite length_fmap, (length_be_digits 5).
  split_and!; [done| |].
  - apply Forall_fmap. eapply Forall_impl; [apply (be_digits_bound 5); lia|].
    intros d Hd. by apply alphabet_char_elem.
  - rewrite chars_to_bits_digits;
      [|apply (length_be_digits 5)|apply (be_digits_bound 5); lia].
    rewrite (be_value_digits 5) by lia.
    pose proof (be_value_bound 8 ltac:(lia) b Hb) as Hv. rewrite Hlen in Hv.
    change (2 ^ (8 * Z.of_nat 19)) with (2 ^ 150 * 4) in Hv.
    change (2 ^ (5 * Z.of_nat 30)) with (2 ^ 150).
    rewrite int_from_bytes_value in Hpad.
    rewrite Z.mod_small by (split; [apply Z.div_pos; lia|apply Z.div_lt_upper_bound; lia]).
    replace (be_value 8 b / 4 * 4) with (be_value 8 b)
      by (pose proof (Z.div_mod (be_value 8 b) 4 ltac:(lia)); lia).
    f_equal. rewrite <-Hlen. by apply (be_digits_value 8).
Qed.

(** The general encoding *)

Lemma shift_mask (n s m : Z) :
  0 ≤ s → 0 ≤ m → Z.land (Z.shiftr n s) (2 ^ m - 1) = (n / 2 ^ s) mod 2 ^ m.
Proof.
  intros Hs Hm. rewrite Z.shiftr_div_pow2 by lia.
  replace (2 ^ m - 1) with (Z.ones m) by (rewrite Z.ones_equiv; lia).
  by apply Z.land_ones.
Qed.

Lemma encode_chunks_done (N : Z) (fuel : nat) : encode_chunks fuel N 0 = Ok [].
Proof. by destruct fuel. Qed.

(** The characters are the digits of the bits read so far, moved left by
    the padding of the last character. *)
Lemma encode_chunks_spec (N : Z) (fuel : nat) (rem : Z) :
  0 ≤ rem ≤ Z.of_nat fuel →
  ∃ ds pad, encode_chunks fuel N rem = Ok (alphabet_char <$> ds)
            ∧ Forall (is_digit 5) ds
            ∧ 0 ≤ pad < 5 ∧ 5 * Z.of_nat (length ds) = rem + pad
            ∧ be_value 5 ds = (N mod 2 ^ rem) * 2 ^ pad.
Proof.
  revert rem. induction fuel as [|fuel IH]; intros rem Hrem.
  - assert (rem = 0) as -> by lia. exists [], 0. split_and!; try done.
    simpl. by rewrite Z.mod_1_r.
  - destruct (decide (rem = 0)) as [->|Hpos].
    { exists [], 0. split_and!; try done. simpl. by rewrite Z.mod_1_r. }
    cbn [encode_chunks].
    replace (0 <? rem) with true by (symmetry; apply Z.ltb_lt; lia).
    destruct (decide (5 ≤ rem)) as [Hbig|Hsmall].
    + rewrite Z.min_l by done. replace (5 <? 5) with false by done.
      rewrite shift_mask by lia.
      set (five := (N / 2 ^ (rem - 5)) mod 2 ^ 5).
      assert (is_digit 5 five) as Hfive by (apply Z.mod_pos_bound; lia).
      rewrite alphabet_load, bind_Ok_l by done.
      destruct (IH (rem - 5)) as (ds & pad & Hrun & Hds & Hpad & Hlen & Hval); [lia|].
      rewrite Hrun, bind_Ok_l. exists (five :: ds), pad.
      split_and!; [done|by constructor|lia|lia|simpl length; lia|].
      rewrite (be_value_cons 5) by lia. rewrite Hval, Hlen.
      replace (2 ^ rem) with (2 ^ (rem - 5) * 2 ^ 5)
        by (rewrite <-Z.pow_add_r by lia; f_equal; lia).
      rewrite Z.rem_mul_r; [| |lia].
      2:{ pose proof (pow2_pos (rem - 5) ltac:(lia)). lia. }
      rewrite Z.pow_add_r by lia. fold five. ring.
    + rewrite Z.min_r by lia. replace (rem - rem) with 0 by lia.
      replace (rem <? 5) with true by (symmetry; apply Z.ltb_lt; lia).
      rewrite shift_mask by lia. change (2 ^ 0) with 1. rewrite Z.div_1_r.
      rewrite Z.shiftl_mul_pow2 by lia.
      set (five := N mod 2 ^ rem * 2 ^ (5 - rem)).
      assert (is_digit 5 five) as Hfive.
      { unfold five, is_digit.
        pose proof (Z.mod_pos_bound N (2 ^ rem) (pow2_pos rem ltac:(lia))) as Hm.
        pose proof (pow2_pos (5 - rem) ltac:(lia)) as Hq.
        replace (2 ^ 5) with (2 ^ rem * 2 ^ (5 - rem))
          by (rewrite <-Z.pow_add_r by lia; f_equal; lia).
        split; [nia|]. apply Z.mul_lt_mono_pos_r; lia. }
      rewrite alphabet_load, bind_Ok_l by done.
      rewrite encode_chunks_done, bind_Ok_l. exists [five], (5 - rem).
      split_and!; [done|by constructor|lia|lia|simpl length; lia|].
      unfold be_value. simpl. unfold five. lia.
Qed.

Lemma bytes_to_alphabet_string_spec (b : list Z) :
  ∃ ds pad, bytes_to_alphabet_string b = Ok (alphabet_char <$> ds)
            ∧ Forall (is_digit 5) ds
            ∧ 0 ≤ pad < 5
            ∧ 5 * Z.of_nat (length ds) = 8 * Z.of_nat (length b) + pad
            ∧ be_value 5 ds
              = (be_value 8 b mod 2 ^ (8 * Z.of_nat (length b))) * 2 ^ pad.
Proof.
  unfold bytes_to_alphabet_string. rewrite int_from_bytes_value.
  destruct (encode_chunks_spec (be_value 8 b)
              (Z.to_nat (Z.of_nat (length b) * 8)) (Z.of_nat (length b) * 8))
    as (ds & pad & Hrun & Hds & Hpad & Hlen & Hval); [lia|].
  exists ds, pad. split_and!; [done|done|lia|lia|lia|].
  rewrite Hval. do 3 f_equal. lia.
Qed.

(** The number of characters of the encoding of [n] bytes. *)
Lemma length_bytes_to_alphabet_string (b : list Z) (s : list ascii) :
  bytes_to_alphabet_string b = Ok s →
  Z.of_nat (length s) = (8 * Z.of_nat (length b) + 4) / 5
  ∧ Forall (λ c, c ∈ ALPHABET) s.
Proof.
  destruct (bytes_to_alphabet_string_spec b)
    as (ds & pad & Hrun & Hds & Hpad & Hlen & _).
  rewrite Hrun. intros [= <-]. rewrite length_fmap. split.
  - apply Z.div_unique with (r := 4 - pad); lia.
  - apply Forall_fmap. eapply Forall_impl; [exact Hds|].
    intros d Hd. by apply alphabet_char_elem.
Qed.

Lemma alphabet_string_round_trip (b : list Z) :
  Forall is_byte b →
  ∃ s, bytes_to_alphabet_string b = Ok s
       ∧ alphabet_string_to_bytes s (8 * Z.of_nat (length b)) = Ok b.
Proof.
  intros Hb.
  destruct (bytes_to_alphabet_string_spec b)
    as (ds & pad & Hrun & Hds & Hpad & Hlen & Hval).
  eexists. split; [done|]. unfold alphabet_string_to_bytes.
  rewrite accumulate_chars_digits by done. rewrite length_fmap.
  replace (5 * Z.of_nat (length ds) <? 8 * Z.of_nat (length b)) with false
    by (symmetry; apply Z.ltb_ge; lia).
  pose proof (be_value_bound 8 ltac:(lia) b Hb) as Hv.
  rewrite Z.mod_small in Hval by done. rewrite Hval.
  replace (5 * Z.of_nat (length ds) - 8 * Z.of_nat (length b)) with pad by lia.
  rewrite Z.shiftr_div_pow2 by lia.
  rewrite Z.div_mul by (pose proof (pow2_pos pad ltac:(lia)); lia).
  replace ((8 * Z.of_nat (length b) + 7) / 8) with (Z.of_nat (length b))
    by (apply Z.div_unique with (r := 7); lia).
  replace (Z.of_nat (length b) * 8 - 8 * Z.of_nat (length b)) with 0 by lia.
  rewrite Z.shiftl_0_r. unfold to_bytes.
  replace (Z.of_nat (length b) <? 0) with false by (symmetry; apply Z.ltb_ge; lia).
  rewrite Nat2Z.id.
  rewrite int_to_bytes_fits by done. f_equal. by apply (be_digits_value 8).
Qed.

(** Decoding fails on a character outside the alphabet and on a string that
    is too short. *)
Lemma alphabet_string_to_bytes_rejects (s : list ascii) (expected : Z) :
  ¬ Forall (λ c, c ∈ ALPHABET) s ∨ 5 * Z.of_nat (length s) < expected →
  alphabet_string_to_bytes s expected = Raise ValueError.
Proof.
  unfold alphabet_string_to_bytes. intros [Hs|Hs].
  - by rewrite accumulate_chars_None.
  - destruct (accumulate_chars s); [|done].
    by replace (5 * Z.of_nat (length s) <? expected) with true
      by (symmetry; apply Z.ltb_lt; lia).
Qed.

Lemma chars_to_bits_rejects (s : list ascii) :
  length s ≠ 30%nat ∨ ¬ Forall (λ c, c ∈ ALPHABET) s →
  chars_to_bits s = Raise ValueError.
Proof.
  unfold chars_to_bits. intros [Hs|Hs].
  - replace (Z.of_nat (length s) =? ENCODED_CHARS_LEN) with false; [done|].
    symmetry. apply Z.eqb_neq. change ENCODED_CHARS_LEN with 30. lia.
  - destruct (negb _); [done|]. by rewrite accumulate_chars_None.
Qed.
End Encoding_facts.
(** ** Licensee: packing and unpacking the payload ([license_data.py]) *)

(** Closed exponents are evaluated. *)
Ltac norm_exp :=
  repeat match goal with
  | |- context [Z.pow 2 ?e] =>
      lazymatch e with
      | Zpos _ => fail
      | Z0 => fail
      | _ => let v := eval vm_compute in e in change (Z.pow 2 e) with (Z.pow 2 v)
      end
  end.

Module LicenseData_facts.
Import Licensee.
Local Open Scope Z_scope.

Lemma lor_add_low (a b p : Z) :
  0 ≤ p → a mod 2 ^ p = 0 → 0 ≤ b < 2 ^ p → Z.lor a b = a + b.
Proof.
  intros Hp Ha Hb. pose proof (pow2_pos p Hp) as Hpos.
  rewrite (Z.div_mod a (2 ^ p)) by lia. rewrite Ha, Z.add_0_r.
  rewrite (Z.mul_comm (2 ^ p)). by apply lor_add_disjoint.
Qed.

Lemma pack_value_fits (st field : Z * Z) :
  0 ≤ field.2 ≤ st.2 → 0 ≤ field.1 < 2 ^ field.2 → st.1 mod 2 ^ st.2 = 0 →
  pack_value st field = Ok (packed st field)
  ∧ (packed st field).1 mod 2 ^ (packed st field).2 = 0.
Proof.
  destruct st as [a pos], field as [v n]. simpl. intros Hn Hv Ha.
  unfold pack_value, packed. simpl.
  replace (n <? 0) with false by (symmetry; apply Z.ltb_ge; lia).
  replace (2 ^ n <=? v) with false by (symmetry; apply Z.leb_gt; lia).
  replace (pos - n <? 0) with false by (symmetry; apply Z.ltb_ge; lia).
  rewrite Z.shiftl_mul_pow2 by lia.
  pose proof (pow2_pos (pos - n) ltac:(lia)) as Hq.
  pose proof (pow2_pos n ltac:(lia)) as Hqn.
  assert (2 ^ pos = 2 ^ n * 2 ^ (pos - n)) as Hsplit.
  { rewrite <-Z.pow_add_r by lia. f_equal. lia. }
  split.
  - f_equal. f_equal. apply (lor_add_low _ _ pos); [lia|done|].
    rewrite Hsplit. split; [nia|]. apply Z.mul_lt_mono_pos_r; lia.
  - rewrite Z.mod_add by lia.
    rewrite (Z.div_mod a (2 ^ pos)) by lia. rewrite Ha, Z.add_0_r, Hsplit.
    replace (2 ^ n * 2 ^ (pos - n) * (a / (2 ^ n * 2 ^ (pos - n))))
      with (2 ^ n * (a / (2 ^ n * 2 ^ (pos - n))) * 2 ^ (pos - n)) by ring.
    apply Z.mod_mul. lia.
Qed.

Lemma pack_fold (fields : list (Z * Z)) (st : Z * Z) :
  Forall (λ field, 0 ≤ field.2 ∧ 0 ≤ field.1 < 2 ^ field.2) fields →
  foldr (λ field acc, field.2 + acc) 0 fields ≤ st.2 →
  st.1 mod 2 ^ st.2 = 0 →
  foldM pack_value st fields = Ok (foldl packed st fields)
  ∧ (foldl packed st fields).1 mod 2 ^ (foldl packed st fields).2 = 0.
Proof.
  intros Hf. revert st. induction Hf as [|field fields [Hn Hv] Hfs IH]; intros st Hsum Hst.
  - done.
  - simpl in Hsum.
    assert (0 ≤ foldr (λ field acc, field.2 + acc) 0 fields) as Hrest.
    { clear -Hfs. induction Hfs as [|f fs [Hn _] _ IH]; simpl; lia. }
    destruct (pack_value_fits st field) as [Hstep Hinv]; [lia|done|done|].
    rewrite foldM_cons, Hstep, bind_Ok_l. cbn [foldl]. apply IH; [|done].
    unfold packed. simpl. lia.
Qed.


Lemma extracted_bytes_Z (n : Z) (count : nat) :
  (λ i, Z.land (Z.shiftr n ((Z.of_nat count - 1 - Z.of_nat i) * 8)) 255) <$> seq 0 count
  = be_digits 8 count n.
Proof.
  unfold be_digits. apply list_fmap_ext. intros j i Hi.
  apply lookup_seq in Hi as [-> Hlt]. simpl.
  replace ((Z.of_nat count - 1 - Z.of_nat j) * 8) with (8 * Z.of_nat (count - 1 - j)) by lia.
  apply (shift_mask_digit 8); lia.
Qed.


(** Packing raises nothing but [ValueError]. *)
Lemma pack_value_raises (st field : Z * Z) (e : exn) :
  pack_value st field = Raise e → e = ValueError.
Proof.
  destruct st as [a pos], field as [v n]. unfold pack_value.
  repeat case_match; congruence.
Qed.

Lemma pack_value_overflow (st field : Z * Z) :
  2 ^ field.2 ≤ field.1 → pack_value st field = Raise ValueError.
Proof.
  destruct st as [a pos], field as [v n]. simpl. intros Hv. unfold pack_value.
  destruct (n <? 0); [done|].
  by replace (2 ^ n <=? v) with true by (symmetry; apply Z.leb_le; lia).
Qed.

Lemma pack_value_position (st st' field : Z * Z) :
  pack_value st field = Ok st' → st'.2 = st.2 - field.2.
Proof.
  destruct st as [a pos], field as [v n]. unfold pack_value.
  repeat case_match; intros [= <-]; done.
Qed.

Lemma pack_value_accepts (st field : Z * Z) :
  0 ≤ field.2 ≤ st.2 → field.1 < 2 ^ field.2 →
  ∃ st', pack_value st field = Ok st'.
Proof.
  destruct st as [a pos], field as [v n]. simpl. intros Hn Hv. unfold pack_value.
  replace (n <? 0) with false by (symmetry; apply Z.ltb_ge; lia).
  replace (2 ^ n <=? v) with false by (symmetry; apply Z.leb_gt; lia).
  replace (pos - n <? 0) with false by (symmetry; apply Z.ltb_ge; lia).
  by eexists.
Qed.

Lemma foldM_pack_raises (fields : list (Z * Z)) (st : Z * Z) (e : exn) :
  foldM pack_value st fields = Raise e → e = ValueError.
Proof.
  revert st. induction fields as [|f fields IH]; intros st; [done|].
  rewrite foldM_cons. destruct (pack_value st f) as [st'|e'] eqn:Hf; simpl.
  - apply IH.
  - intros [= <-]. by eapply pack_value_raises.
Qed.

Lemma foldM_pack_overflow (fields : list (Z * Z)) (st : Z * Z) :
  Exists (λ field, 2 ^ field.2 ≤ field.1) fields →
  foldM pack_value st fields = Raise ValueError.
Proof.
  intros Hex. revert st. induction Hex as [f fields Hf|f fields _ IH]; intros st.
  - rewrite foldM_cons. by rewrite pack_value_overflow.
  - rewrite foldM_cons. destruct (pack_value st f) as [st'|e] eqn:Hf; simpl.
    + apply IH.
    + f_equal. by eapply pack_value_raises.
Qed.

Lemma foldM_pack_position (fields : list (Z * Z)) (st st' : Z * Z) :
  foldM pack_value st fields = Ok st' →
  st'.2 = st.2 - foldr (λ field acc, field.2 + acc) 0 fields.
Proof.
  revert st. induction fields as [|f fields IH]; intros st.
  - intros [= <-]. simpl. lia.
  - rewrite foldM_cons. intros Hrun. apply bind_Ok in Hrun as (st1 & Hst1 & Hrun).
    apply IH in Hrun. apply pack_value_position in Hst1. simpl. lia.
Qed.

Lemma foldM_pack_accepts (fields : list (Z * Z)) (st : Z * Z) :
  Forall (λ field, 0 ≤ field.2 ∧ field.1 < 2 ^ field.2) fields →
  foldr (λ field acc, field.2 + acc) 0 fields ≤ st.2 →
  ∃ st', foldM pack_value st fields = Ok st'.
Proof.
  intros Hf. revert st. induction Hf as [|f fields [Hn Hv] Hfs IH]; intros st Hsum.
  - by eexists.
  - simpl in Hsum.
    assert (0 ≤ foldr (λ field acc, field.2 + acc) 0 fields) as Hrest.
    { clear -Hfs. induction Hfs as [|g gs [Hn _] _ IH]; simpl; lia. }
    destruct (pack_value_accepts st f) as [st1 Hst1]; [lia|done|].
    rewrite foldM_cons, Hst1, bind_Ok_l. apply IH.
    apply pack_value_position in Hst1. lia.
Qed.


Lemma pack_value_Ok_fits (st st' field : Z * Z) :
  pack_value st field = Ok st' → 0 ≤ field.2 ∧ field.1 < 2 ^ field.2.
Proof.
  destruct st as [a pos], field as [v n]. unfold pack_value. simpl.
  destruct (n <? 0) eqn:Hn; [done|]. destruct (2 ^ n <=? v) eqn:Hv; [done|].
  intros _. apply Z.ltb_ge in Hn. apply Z.leb_gt in Hv. done.
Qed.

Lemma foldM_pack_Ok_fits (fields : list (Z * Z)) (st st' : Z * Z) :
  foldM pack_value st fields = Ok st' →
  Forall (λ field, 0 ≤ field.2 ∧ field.1 < 2 ^ field.2) fields.
Proof.
  revert st. induction fields as [|f fields IH]; intros st; [by constructor|].
  rewrite foldM_cons. intros Hrun. apply bind_Ok in Hrun as (st1 & Hst1 & Hrun).
  constructor; [by eapply pack_value_Ok_fits|by eapply IH].
Qed.

Section WithFloat.
Context `{FloatOps}.

Lemma mode_flag_cases (d : LicenseData) :
  well_formed d →
  (mode_flag d = 0 ∧ entropy_bits d = 68) ∨ (mode_flag d = 1 ∧ entropy_bits d = 60).
Proof.
  intros [Hf He]. unfold packed_fields, fixed_fields in Hf. rewrite <-!app_assoc in Hf.
  apply Forall_app in Hf as [Hm _].
  rewrite Forall_singleton in Hm. simpl in Hm.
  assert (mode_flag d = 0 ∨ mode_flag d = 1) as [Hz|Hz] by lia;
    rewrite Hz in He; [left|right]; by rewrite He.
Qed.

Lemma fields_fit (d : LicenseData) :
  well_formed d →
  Forall (λ field, 0 ≤ field.2 ∧ 0 ≤ field.1 < 2 ^ field.2) (packed_fields d)
  ∧ foldr (λ field acc, field.2 + acc) 0 (packed_fields d) = 150.
Proof.
  intros Hwf. destruct (mode_flag_cases d Hwf) as [[Hm He]|[Hm He]];
    destruct Hwf as [Hf _]; unfold packed_fields, fixed_fields in *; rewrite Hm, He in *;
    cbn [Z.eqb Pos.eqb app] in *.
  - split; [|done]. eapply Forall_impl; [exact Hf|].
    intros [v n] [Hlo Hhi]. simpl in *. split; [|done].
    destruct (decide (0 ≤ n)); [done|]. rewrite Z.pow_neg_r in Hhi by lia. lia.
  - split; [|done]. eapply Forall_impl; [exact Hf|].
    intros [v n] [Hlo Hhi]. simpl in *. split; [|done].
    destruct (decide (0 ≤ n)); [done|]. rewrite Z.pow_neg_r in Hhi by lia. lia.
Qed.

Lemma to_bits_value (d : LicenseData) :
  well_formed d →
  to_bits d
  = Ok (be_digits 8 19 ((foldl packed (0, TOTAL_BITS) (packed_fields d)).1 * 4))
  ∧ (foldl packed (0, TOTAL_BITS) (packed_fields d)).2 = 0.
Proof.
  intros Hwf. destruct (fields_fit d Hwf) as [Hfit Hsum].
  destruct (mode_flag_cases d Hwf) as [[Hm He]|[Hm He]];
    unfold to_bits, packed_fields, fixed_fields in *; rewrite Hm, He in *; cbn [Z.eqb Pos.eqb app] in *.
  - apply Forall_cons in Hfit as [Hf1 Hfit].
    change [(issue_date_days d, 14); (license_plan d, 4); (duration_days d, 10);
            (key_holder_group d, 8); (unique_license_id d, 32);
            (version_lock d, 8); (simple_checksum d, 5); (entropy_value d, 68)]
      with ([(issue_date_days d, 14); (license_plan d, 4); (duration_days d, 10);
             (key_holder_group d, 8); (unique_license_id d, 32);
             (version_lock d, 8); (simple_checksum d, 5)]
            ++ [(entropy_value d, 68)]) in Hfit.
    apply Forall_app in Hfit as [Hf7 Hfe]. rewrite Forall_singleton in Hfe.
    destruct (pack_value_fits (0, TOTAL_BITS) (0, 1)) as [Hs1 Hi1];
      [done|done|done|].
    change (BIT_ALLOCATIONS A_mode_flag) with 1. rewrite Hs1, !bind_Ok_l.
    destruct (pack_fold _ (packed (0, TOTAL_BITS) (0, 1)) Hf7) as [Hs2 Hi2];
      [done|done|].
    unfold BIT_ALLOCATIONS. rewrite Hs2, bind_Ok_l.
    set (st := foldl packed _ _) in *.
    assert (st.2 = 68) as Hpos by reflexivity.
    rewrite Hpos. change (68 =? TOTAL_BITS - (TOTAL_BITS - 68)) with true.
    cbn [negb].
    destruct (pack_value_fits st (entropy_value d, 68)) as [Hs3 Hi3];
      [split; [done|by rewrite Hpos]|apply Hfe|done|].
    rewrite Hs3, bind_Ok_l. split; [|reflexivity]. f_equal.
    change (Z.to_nat ((TOTAL_BITS + 7) / 8)) with 19%nat.
    change ((TOTAL_BITS + 7) / 8 * 8 - TOTAL_BITS) with 2.
    change ((TOTAL_BITS + 7) / 8) with (Z.of_nat 19).
    rewrite extracted_bytes_Z. rewrite Z.shiftl_mul_pow2 by lia. done.
  - apply Forall_cons in Hfit as [Hf1 Hfit]. apply Forall_cons in Hfit as [Hfs Hfit].
    change [(issue_date_days d, 14); (license_plan d, 4); (duration_days d, 10);
            (key_holder_group d, 8); (unique_license_id d, 32);
            (version_lock d, 8); (simple_checksum d, 5); (entropy_value d, 60)]
      with ([(issue_date_days d, 14); (license_plan d, 4); (duration_days d, 10);
             (key_holder_group d, 8); (unique_license_id d, 32);
             (version_lock d, 8); (simple_checksum d, 5)]
            ++ [(entropy_value d, 60)]) in Hfit.
    apply Forall_app in Hfit as [Hf7 Hfe]. rewrite Forall_singleton in Hfe.
    destruct (pack_value_fits (0, TOTAL_BITS) (1, 1)) as [Hs1 Hi1];
      [done|done|done|].
    change (BIT_ALLOCATIONS A_mode_flag) with 1. rewrite Hs1, !bind_Ok_l.
    destruct (pack_value_fits (packed (0, TOTAL_BITS) (1, 1))
                (Qtrunc (fmul (swap_param d) 255), 8)) as [Hs1' Hi1'];
      [done|apply Hfs|done|].
    change (BIT_ALLOCATIONS A_swap_param) with 8. rewrite Hs1', !bind_Ok_l.
    destruct (pack_fold _ (packed (packed (0, TOTAL_BITS) (1, 1))
                             (Qtrunc (fmul (swap_param d) 255), 8)) Hf7)
      as [Hs2 Hi2]; [done|done|].
    unfold BIT_ALLOCATIONS. rewrite Hs2, bind_Ok_l.
    set (st := foldl packed _ _) in *.
    assert (st.2 = 60) as Hpos by reflexivity.
    rewrite Hpos. change (60 =? TOTAL_BITS - (TOTAL_BITS - 60)) with true.
    cbn [negb].
    destruct (pack_value_fits st (entropy_value d, 60)) as [Hs3 Hi3];
      [split; [done|by rewrite Hpos]|apply Hfe|done|].
    rewrite Hs3, bind_Ok_l. split; [|reflexivity]. f_equal.
    change (Z.to_nat ((TOTAL_BITS + 7) / 8)) with 19%nat.
    change ((TOTAL_BITS + 7) / 8 * 8 - TOTAL_BITS) with 2.
    change ((TOTAL_BITS + 7) / 8) with (Z.of_nat 19).
    rewrite extracted_bytes_Z. rewrite Z.shiftl_mul_pow2 by lia. done.
Qed.

(** The packed integer has 150 bits. *)
Lemma packed_value_bound (d : LicenseData) :
  well_formed d →
  0 ≤ (foldl packed (0, TOTAL_BITS) (packed_fields d)).1 < 2 ^ 150.
Proof.
  intros Hwf. destruct (fields_fit d Hwf) as [Hfit _].
  destruct (mode_flag_cases d Hwf) as [[Hm He]|[Hm He]];
    unfold packed_fields, fixed_fields in *; rewrite Hm, He in *; cbn [Z.eqb Pos.eqb app] in *;
    repeat (apply Forall_cons in Hfit as [[_ ?] Hfit]);
    unfold packed, TOTAL_BITS; cbn [foldl fst snd] in *; norm_exp; lia.
Qed.

Lemma from_bits_packed (d : LicenseData) :
  well_formed d →
  from_bits (be_digits 8 19 ((foldl packed (0, TOTAL_BITS) (packed_fields d)).1 * 4))
  = Ok (stored d).
Proof.
  intros Hwf. pose proof (packed_value_bound d Hwf) as Hbound.
  unfold from_bits. rewrite (length_be_digits 8).
  rewrite Encoding_facts.shift_or_bytes_value by apply Encoding_facts.be_digits_bytes.
  rewrite (be_value_digits 8) by lia.
  change (2 ^ (8 * Z.of_nat 19)) with (2 ^ 150 * 4).
  rewrite Z.mod_small by lia.
  replace (Z.of_nat 19 * 8 <? TOTAL_BITS) with false by done.
  change (Z.of_nat 19 * 8 - TOTAL_BITS) with 2.
  rewrite Z.shiftr_div_pow2 by lia. change (2 ^ 2) with 4. rewrite Z.div_mul by lia.
  clear Hbound. destruct (fields_fit d Hwf) as [Hfit _].
  unfold stored.
  destruct (mode_flag_cases d Hwf) as [[Hm He]|[Hm He]];
    unfold packed_fields, fixed_fields in *; rewrite Hm, He in *; cbn [Z.eqb Pos.eqb app] in *;
    repeat (apply Forall_cons in Hfit as [[_ ?] Hfit]);
    unfold packed, TOTAL_BITS; cbn [foldl fst snd] in *; norm_exp;
    unfold unpack_value, fixed_bits, BIT_ALLOCATIONS, TOTAL_BITS.
  - match goal with |- context [Z.shiftr ?x (150 - 1)] => set (X := x) end.
    rewrite !Encoding_facts.shift_mask by lia.
    assert ((X / 2 ^ (150 - 1)) mod 2 ^ 1 = 0) as ->
      by (subst X; norm_exp; Z.div_mod_to_equations; lia).
    cbn [Z.eqb]. cbv beta iota zeta.
    rewrite !Encoding_facts.shift_mask by lia.
    f_equal. f_equal; subst X; norm_exp; try reflexivity;
      Z.div_mod_to_equations; lia.
  - match goal with |- context [Z.shiftr ?x (150 - 1)] => set (X := x) end.
    rewrite !Encoding_facts.shift_mask by lia.
    assert ((X / 2 ^ (150 - 1)) mod 2 ^ 1 = 1) as ->
      by (subst X; norm_exp; Z.div_mod_to_equations; lia).
    cbn [Z.eqb Pos.eqb]. cbv beta iota zeta.
    rewrite !Encoding_facts.shift_mask by lia.
    assert ((X / 2 ^ (150 - 1 - 8)) mod 2 ^ 8 = Qtrunc (fmul (swap_param d) 255))
      as -> by (subst X; norm_exp; Z.div_mod_to_equations; lia).
    f_equal. f_equal; subst X; norm_exp; try reflexivity;
      Z.div_mod_to_equations; lia.
Qed.

(** [to_bits] as one loop over the fixed fields, the check of the entropy
    width, and the entropy field. *)
Lemma to_bits_loop (d : LicenseData) :
  to_bits d
  = foldM pack_value (0, TOTAL_BITS) (fixed_fields d) ≫= λ st,
      if negb (st.2 =? TOTAL_BITS - (TOTAL_BITS - entropy_bits d))
      then Raise RuntimeError
      else
        pack_value st (entropy_value d, entropy_bits d) ≫= λ st,
          Ok ((λ i, Z.land (Z.shiftr (Z.shiftl st.1 (((TOTAL_BITS + 7) / 8) * 8 - TOTAL_BITS))
                                     (((TOTAL_BITS + 7) / 8 - 1 - Z.of_nat i) * 8)) 255)
              <$> seq 0 (Z.to_nat ((TOTAL_BITS + 7) / 8))).
Proof.
  unfold to_bits, fixed_fields. cbn [app]. rewrite foldM_cons.
  change (BIT_ALLOCATIONS A_mode_flag) with 1.
  destruct (pack_value (0, TOTAL_BITS) (mode_flag d, 1)) as [st1|e]; [|done].
  rewrite !bind_Ok_l. destruct (mode_flag d =? 1).
  - cbn [app]. rewrite foldM_cons. change (BIT_ALLOCATIONS A_swap_param) with 8.
    destruct (pack_value st1 _) as [st2|e]; [|done]. by rewrite !bind_Ok_l.
  - by rewrite bind_Ok_l.
Qed.

Lemma fixed_fields_bits (d : LicenseData) :
  foldr (λ field acc, field.2 + acc) 0 (fixed_fields d) = fixed_bits (mode_flag d).
Proof. unfold fixed_fields, fixed_bits. by destruct (mode_flag d =? 1). Qed.

Lemma fixed_fields_widths (d : LicenseData) :
  Forall (λ field, 0 ≤ field.2) (fixed_fields d).
Proof.
  unfold fixed_fields. destruct (mode_flag d =? 1); simpl;
    repeat (constructor; [simpl; lia|]); constructor.
Qed.

(** A fixed field that exceeds its allocation makes [to_bits] raise
    [ValueError]. *)
Lemma to_bits_overflow (d : LicenseData) :
  Exists (λ field, 2 ^ field.2 ≤ field.1) (fixed_fields d) →
  to_bits d = Raise ValueError.
Proof.
  intros Hex. rewrite to_bits_loop. by rewrite foldM_pack_overflow.
Qed.

(** With fixed fields that fit, a wrong [entropy_bits] makes it raise
    [RuntimeError], and an entropy value that exceeds [entropy_bits] makes it
    raise [ValueError]. *)
Lemma to_bits_entropy (d : LicenseData) :
  Forall (λ field, field.1 < 2 ^ field.2) (fixed_fields d) →
  (entropy_bits d ≠ TOTAL_BITS - fixed_bits (mode_flag d) →
   to_bits d = Raise RuntimeError)
  ∧ (entropy_bits d = TOTAL_BITS - fixed_bits (mode_flag d) →
     2 ^ entropy_bits d ≤ entropy_value d →
     to_bits d = Raise ValueError).
Proof.
  intros Hfit. rewrite to_bits_loop.
  destruct (foldM_pack_accepts (fixed_fields d) (0, TOTAL_BITS)) as [st Hst].
  { pose proof (fixed_fields_widths d) as Hw.
    rewrite Forall_forall in Hfit, Hw. apply Forall_forall. intros f Hf.
    split; [by apply Hw|by apply Hfit]. }
  { rewrite fixed_fields_bits. unfold fixed_bits, BIT_ALLOCATIONS, TOTAL_BITS.
    simpl. destruct (mode_flag d =? 1); lia. }
  rewrite Hst, bind_Ok_l. apply foldM_pack_position in Hst.
  rewrite fixed_fields_bits in Hst. simpl in Hst. rewrite Hst. split.
  - intros Hne.
    replace (TOTAL_BITS - fixed_bits (mode_flag d) =? TOTAL_BITS - (TOTAL_BITS - entropy_bits d))
      with false; [done|]. symmetry. apply Z.eqb_neq. lia.
  - intros Heq Hover.
    replace (TOTAL_BITS - fixed_bits (mode_flag d) =? TOTAL_BITS - (TOTAL_BITS - entropy_bits d))
      with true by (symmetry; apply Z.eqb_eq; lia).
    cbn [negb]. by rewrite pack_value_overflow.
Qed.

(** [to_bits] raises nothing but [ValueError] and [RuntimeError], and returns
    19 bytes when it returns. *)
Lemma to_bits_outcome (d : LicenseData) :
  (∃ bytes, to_bits d = Ok bytes ∧ length bytes = 19%nat ∧ Forall is_byte bytes)
  ∨ to_bits d = Raise ValueError ∨ to_bits d = Raise RuntimeError.
Proof.
  rewrite to_bits_loop.
  destruct (foldM pack_value (0, TOTAL_BITS) (fixed_fields d)) as [st|e] eqn:Hst.
  - rewrite bind_Ok_l. destruct (negb _); [by right; right|].
    destruct (pack_value st _) as [st'|e] eqn:Hst'.
    + left. rewrite bind_Ok_l. eexists. split; [done|].
      change (Z.to_nat ((TOTAL_BITS + 7) / 8)) with 19%nat.
      change ((TOTAL_BITS + 7) / 8) with (Z.of_nat 19).
      rewrite extracted_bytes_Z. rewrite (length_be_digits 8).
      split; [done|]. apply Encoding_facts.be_digits_bytes.
    + right; left. simpl. f_equal. by eapply pack_value_raises.
  - right; left. simpl. f_equal. by eapply foldM_pack_raises.
Qed.

(** Unpacking *)

Lemma from_bits_short (b : list Z) :
  (length b < 19)%nat → from_bits b = Raise ValueError.
Proof.
  intros Hlen. unfold from_bits.
  by replace (Z.of_nat (length b) * 8 <? TOTAL_BITS) with true
    by (symmetry; apply Z.ltb_lt; unfold TOTAL_BITS; lia).
Qed.

(** The result depends on the first 150 bits only. *)
Lemma from_bits_ext (b1 b2 : list Z) :
  (19 ≤ length b1)%nat → (19 ≤ length b2)%nat →
  Z.shiftr (foldl (λ all_bits byte, Z.lor (Z.shiftl all_bits 8) byte) 0 b1)
           (Z.of_nat (length b1) * 8 - TOTAL_BITS)
  = Z.shiftr (foldl (λ all_bits byte, Z.lor (Z.shiftl all_bits 8) byte) 0 b2)
             (Z.of_nat (length b2) * 8 - TOTAL_BITS) →
  from_bits b1 = from_bits b2.
Proof.
  intros H1 H2 Heq. unfold from_bits.
  replace (Z.of_nat (length b1) * 8 <? TOTAL_BITS) with false
    by (symmetry; apply Z.ltb_ge; unfold TOTAL_BITS; lia).
  replace (Z.of_nat (length b2) * 8 <? TOTAL_BITS) with false
    by (symmetry; apply Z.ltb_ge; unfold TOTAL_BITS; lia).
  cbv zeta. by rewrite Heq.
Qed.

Lemma from_bits_trailing (b extra : list Z) :
  length b = 19%nat → Forall is_byte b → Forall is_byte extra →
  from_bits (b ++ extra) = from_bits b.
Proof.
  intros Hlen Hb Hextra. apply from_bits_ext; [rewrite length_app; lia|lia|].
  rewrite !Encoding_facts.shift_or_bytes_value by (done || by apply Forall_app).
  unfold be_value at 1. rewrite foldl_app. fold (be_value 8 b).
  rewrite (foldl_value 8) by lia.
  rewrite length_app, Hlen. unfold TOTAL_BITS.
  pose proof (be_value_bound 8 ltac:(lia) extra Hextra) as Hv.
  set (k := Z.of_nat (length extra)) in *.
  replace (Z.of_nat (19 + length extra) * 8 - 150) with (8 * k + 2) by lia.
  replace (Z.of_nat 19 * 8 - 150) with 2 by lia.
  rewrite !Z.shiftr_div_pow2 by lia. rewrite Z.pow_add_r by lia.
  rewrite <-Z.div_div by (try apply pow2_pos; lia).
  rewrite Z.div_add_l by (pose proof (pow2_pos (8 * k) ltac:(lia)); lia).
  by rewrite (Z.div_small (be_value 8 extra)), Z.add_0_r.
Qed.

(** When [to_bits] returns, every field is below the capacity of its
    allocation, and [entropy_bits] is the width its mode leaves. *)
Lemma to_bits_Ok_fits (d : LicenseData) (bytes : list Z) :
  to_bits d = Ok bytes →
  Forall (λ field, field.1 < 2 ^ field.2) (packed_fields d)
  ∧ entropy_bits d = TOTAL_BITS - fixed_bits (mode_flag d).
Proof.
  rewrite to_bits_loop. intros Hrun. apply bind_Ok in Hrun as (st & Hst & Hrun).
  destruct (negb _) eqn:Hcheck; [done|].
  apply bind_Ok in Hrun as (st' & Hst' & _).
  apply negb_false_iff, Z.eqb_eq in Hcheck.
  pose proof (foldM_pack_position _ _ _ Hst) as Hpos.
  rewrite fixed_fields_bits in Hpos. simpl in Hpos.
  apply foldM_pack_Ok_fits in Hst. apply pack_value_Ok_fits in Hst'.
  split; [|lia]. unfold packed_fields. apply Forall_app. split.
  - eapply Forall_impl; [exact Hst|]. by intros f [_ Hf].
  - constructor; [|constructor]. apply Hst'.
Qed.
End WithFloat.
End LicenseData_facts.
(** ** Licensee: the generated key ([license_manager.py]) *)

Module LicenseManager_more.
Import Licensee_permutation Licensee LicenseManager.

Lemma concat_segments {A} (n fuel : nat) (s : list A) :
  0 < n → length s ≤ fuel → concat (segments fuel n s) = s.
Proof.
  intros Hn. revert s. induction fuel as [|fuel IH]; intros s Hlen.
  - destruct s; [done|simpl in Hlen; lia].
  - destruct s as [|c s]; [done|]. cbn [segments concat].
    rewrite IH; [apply take_drop|]. rewrite length_drop. simpl in *. lia.
Qed.

Lemma segments_lengths {A} (n k fuel : nat) (s : list A) :
  0 < n → length s = n * k → k ≤ fuel →
  Forall (λ g, length g = n) (segments fuel n s).
Proof.
  intros Hn. revert fuel s. induction k as [|k IH]; intros fuel s Hlen Hfuel.
  - destruct s; [|simpl in Hlen; lia]. destruct fuel; constructor.
  - destruct fuel as [|fuel]; [lia|]. destruct s as [|c s]; [simpl in Hlen; lia|].
    cbn [segments]. constructor.
    + rewrite length_take. nia.
    + apply IH; [|lia]. rewrite length_drop. nia.
Qed.

Lemma length_join (parts : list (list ascii)) :
  parts ≠ [] →
  length (join parts) = length (concat parts) + (length parts - 1).
Proof.
  induction parts as [|p parts IH]; [done|]. intros _.
  destruct parts as [|q parts].
  - simpl. rewrite app_nil_r. lia.
  - change (join (p :: q :: parts)) with (p ++ hyphen :: join (q :: parts)).
    rewrite length_app. cbn [length concat]. rewrite IH by done.
    rewrite !length_app. cbn [length concat]. rewrite !length_app. lia.
Qed.

(** Splitting a joined list of groups that hold no hyphen gives the groups. *)
Lemma split_no_hyphen (g : list ascii) : hyphen ∉ g → split g = [g].
Proof.
  induction g as [|c g IH]; [done|]. intros Hg.
  apply not_elem_of_cons in Hg as [Hc Hg]. cbn [split].
  rewrite decide_False by done. by rewrite IH.
Qed.

Lemma split_app_hyphen (g rest : list ascii) :
  hyphen ∉ g → split (g ++ hyphen :: rest) = g :: split rest.
Proof.
  induction g as [|c g IH]; intros Hg.
  - cbn [app split]. by rewrite decide_True.
  - apply not_elem_of_cons in Hg as [Hc Hg]. cbn [app split].
    rewrite decide_False by done. by rewrite IH.
Qed.

Lemma split_join (parts : list (list ascii)) :
  parts ≠ [] → Forall (λ g, hyphen ∉ g) parts → split (join parts) = parts.
Proof.
  induction parts as [|p parts IH]; [done|]. intros _ Hp.
  apply Forall_cons in Hp as [Hp Hparts]. destruct parts as [|q parts].
  - by apply split_no_hyphen.
  - change (join (p :: q :: parts)) with (p ++ hyphen :: join (q :: parts)).
    rewrite split_app_hyphen by done. by rewrite IH.
Qed.

Lemma hyphen_not_in_alphabet : hyphen ∉ ALPHABET.
Proof. apply (bool_decide_unpack _). by vm_compute. Qed.

Section WithCrypto.
Context `{FloatOps}.
Context {PrivateKey : Type}.
Variable sign_data : list Z → PrivateKey → result (list Z).

Lemma get_permutation_map_raises (N : nat) (s : Q) (e : exn) :
  get_permutation_map N s = Raise e → e = ValueError.
Proof.
  unfold get_permutation_map. destruct (negb _); [by intros [= <-]|].
  destruct (build_map_spec
    (list_sort tuple_lt ((λ i, (score s i, i)) <$> seq 0 N)) N)
    as (pm & Hpm & _); [apply scored_indices_snd|].
  by rewrite Hpm.
Qed.

(** The steps of [generate_license_key], with the payload named. *)
Lemma generate_steps random_swap_param random_entropy now_days private_key
    license_plan duration_days key_holder_group unique_license_id version_lock
    use_included_swap_param fixed_swap_param :
  generate_license_key sign_data random_swap_param random_entropy now_days
    private_key license_plan duration_days key_holder_group unique_license_id
    version_lock use_included_swap_param fixed_swap_param
  = (swap_param ←
       (if use_included_swap_param then Ok random_swap_param
        else match fixed_swap_param with
             | None => Raise ValueError
             | Some p => Ok p
             end);
     license_data_bytes ←
       to_bits (issued_payload use_included_swap_param swap_param random_entropy
                  now_days license_plan duration_days key_holder_group
                  unique_license_id version_lock);
     signature_bytes ← sign_data license_data_bytes private_key;
     original_440_chars ←
       bytes_to_alphabet_string (license_data_bytes ++ signature_bytes);
     perm_map ← get_permutation_map TOTAL_CHARS_TO_PERMUTE swap_param;
     permuted_440_chars ←
       apply_permutation TOTAL_CHARS_TO_PERMUTE original_440_chars perm_map;
     Ok (join (segments (length permuted_440_chars) 5 permuted_440_chars))).
Proof.
  unfold generate_license_key.
  destruct use_included_swap_param; [done|]. by destruct fixed_swap_param.
Qed.

(** What a successful generation went through. *)
Lemma generate_inv random_swap_param random_entropy now_days private_key
    license_plan duration_days key_holder_group unique_license_id version_lock
    use_included_swap_param fixed_swap_param key :
  generate_license_key sign_data random_swap_param random_entropy now_days
    private_key license_plan duration_days key_holder_group unique_license_id
    version_lock use_included_swap_param fixed_swap_param = Ok key →
  ∃ swap_param bytes signature original pm permuted,
    (if use_included_swap_param then Some random_swap_param else fixed_swap_param)
    = Some swap_param
    ∧ to_bits (issued_payload use_included_swap_param swap_param random_entropy
                 now_days license_plan duration_days key_holder_group
                 unique_license_id version_lock) = Ok bytes
    ∧ length bytes = 19
    ∧ sign_data bytes private_key = Ok signature
    ∧ length signature = 256
    ∧ bytes_to_alphabet_string (bytes ++ signature) = Ok original
    ∧ length original = 440
    ∧ Forall (λ c, c ∈ ALPHABET) original
    ∧ get_permutation_map TOTAL_CHARS_TO_PERMUTE swap_param = Ok pm
    ∧ pm ≡ₚ seq 0 440
    ∧ apply_permutation TOTAL_CHARS_TO_PERMUTE original pm = Ok permuted
    ∧ length permuted = 440
    ∧ permuted ≡ₚ original
    ∧ key = join (segments 440 5 permuted).
Proof.
  rewrite generate_steps. intros Hgen.
  apply bind_Ok in Hgen as (swap & Hswap & Hgen).
  apply bind_Ok in Hgen as (bytes & Hbytes & Hgen).
  apply bind_Ok in Hgen as (signature & Hsign & Hgen).
  apply bind_Ok in Hgen as (original & Horig & Hgen).
  apply bind_Ok in Hgen as (pm & Hpm & Hgen).
  apply bind_Ok in Hgen as (permuted & Hperm & Hgen). injection Hgen as <-.
  pose proof Hpm as Hpm'.
  apply Licensee_permutation_facts.get_permutation_map_Ok in Hpm' as (_ & _ & Hpmperm).
  assert (length original = TOTAL_CHARS_TO_PERMUTE) as Holen.
  { destruct (decide (length original = TOTAL_CHARS_TO_PERMUTE)) as [Ho|Ho]; [done|].
    unfold apply_permutation in Hperm. apply Nat.eqb_neq in Ho.
    by rewrite Ho in Hperm. }
  destruct (Licensee_permutation_more.apply_permutation_rearranges
              TOTAL_CHARS_TO_PERMUTE original pm Holen Hpmperm)
    as (y & Hy & Hyperm & _).
  rewrite Hy in Hperm. injection Hperm as ->.
  assert (length permuted = 440) as Hplen.
  { apply Permutation_length in Hyperm. by rewrite Hyperm. }
  assert (length bytes = 19) as Hblen.
  { destruct (LicenseData_facts.to_bits_outcome
                (issued_payload use_included_swap_param swap random_entropy
                   now_days license_plan duration_days key_holder_group
                   unique_license_id version_lock))
      as [(b & Hb & Hlen & _)|[Hb|Hb]]; rewrite Hbytes in Hb; [|done..].
    by injection Hb as ->. }
  destruct (Encoding_facts.length_bytes_to_alphabet_string _ _ Horig)
    as [Hchars Halpha].
  exists swap, bytes, signature, original, pm, permuted.
  split_and!; try done.
  - destruct use_included_swap_param; [by injection Hswap as ->|].
    destruct fixed_swap_param; [by injection Hswap as ->|done].
  - rewrite length_app, Hblen, Holen in Hchars.
    change (Z.of_nat TOTAL_CHARS_TO_PERMUTE) with 440%Z in Hchars.
    pose proof (Z.div_mod (8 * Z.of_nat (19 + length signature) + 4)
                  5 ltac:(lia)).
    pose proof (Z.mod_pos_bound (8 * Z.of_nat (19 + length signature) + 4)
                  5 ltac:(lia)).
    lia.
  - by rewrite Hplen.
Qed.

(** Generation itself raises nothing but [ValueError]; any other exception
    is the one the signer raised on the packed payload. *)
Lemma generate_raises random_swap_param random_entropy now_days private_key
    license_plan duration_days key_holder_group unique_license_id version_lock
    use_included_swap_param fixed_swap_param (e : exn) :
  generate_license_key sign_data random_swap_param random_entropy now_days
    private_key license_plan duration_days key_holder_group unique_license_id
    version_lock use_included_swap_param fixed_swap_param = Raise e →
  e = ValueError
  ∨ ∃ swap_param bytes,
      (if use_included_swap_param then Some random_swap_param else fixed_swap_param)
      = Some swap_param
      ∧ to_bits (issued_payload use_included_swap_param swap_param
                   random_entropy now_days license_plan duration_days
                   key_holder_group unique_license_id version_lock) = Ok bytes
      ∧ sign_data bytes private_key = Raise e.
Proof.
  rewrite generate_steps.
  set (swap_step := if use_included_swap_param then _ else _).
  destruct swap_step as [swap|e0] eqn:Hswap.
  2:{ intros [= <-]. left. subst swap_step.
      destruct use_included_swap_param; [done|].
      destruct fixed_swap_param; [done|]. by injection Hswap. }
  assert ((if use_included_swap_param then Some random_swap_param
           else fixed_swap_param) = Some swap) as Hsw.
  { subst swap_step. destruct use_included_swap_param; [by injection Hswap as ->|].
    destruct fixed_swap_param; [by injection Hswap as ->|done]. }
  rewrite bind_Ok_l.
  set (d := issued_payload _ _ _ _ _ _ _ _ _).
  destruct (LicenseData_facts.to_bits_outcome d) as [(b & Hb & _)|[Hb|Hb]];
    rewrite Hb.
  - rewrite bind_Ok_l.
    destruct (sign_data b private_key) as [signature|e1] eqn:Hsign.
    2:{ intros [= <-]. right. by exists swap, b. }
    rewrite bind_Ok_l.
    destruct (Encoding_facts.bytes_to_alphabet_string_spec (b ++ signature))
      as (ds & pad & -> & _).
    rewrite bind_Ok_l. intros Hrun. left. revert Hrun.
    destruct (get_permutation_map TOTAL_CHARS_TO_PERMUTE swap) as [pm|e1] eqn:Hpm.
    + rewrite bind_Ok_l.
      apply Licensee_permutation_facts.get_permutation_map_Ok in Hpm as (_ & _ & Hpm).
      destruct (decide (length (alphabet_char <$> ds) = TOTAL_CHARS_TO_PERMUTE))
        as [Hlen|Hlen].
      * destruct (Licensee_permutation_facts.apply_permutation_spec
                    TOTAL_CHARS_TO_PERMUTE (alphabet_char <$> ds) pm Hlen Hpm)
          as (y & -> & _). done.
      * unfold apply_permutation. apply Nat.eqb_neq in Hlen. rewrite Hlen.
        by intros [= <-].
    + intros [= <-]. by eapply get_permutation_map_raises.
  - intros [= <-]. by left.
  - intros _. exfalso.
    assert (entropy_bits d = TOTAL_BITS - fixed_bits (mode_flag d))%Z as He by done.
    assert (∃ st, foldM pack_value (0, TOTAL_BITS)%Z (fixed_fields d) = Ok st)
      as [st Hst].
    { destruct (foldM pack_value (0, TOTAL_BITS)%Z (fixed_fields d)) as [st|e1] eqn:Hst;
        [by eexists|].
      rewrite LicenseData_facts.to_bits_loop, Hst in Hb.
      apply LicenseData_facts.foldM_pack_raises in Hst. by subst e1. }
    rewrite LicenseData_facts.to_bits_loop, Hst, bind_Ok_l in Hb.
    apply LicenseData_facts.foldM_pack_position in Hst.
    rewrite LicenseData_facts.fixed_fields_bits in Hst. cbn [snd] in Hst.
    rewrite Hst, He in Hb.
    replace (TOTAL_BITS - fixed_bits (mode_flag d)
             =? TOTAL_BITS - (TOTAL_BITS - (TOTAL_BITS - fixed_bits (mode_flag d))))%Z
      with true in Hb by (symmetry; apply Z.eqb_eq; lia).
    cbn [negb] in Hb.
    destruct (pack_value st _) as [st'|e1] eqn:Hst';
      [by rewrite bind_Ok_l in Hb|].
    apply LicenseData_facts.pack_value_raises in Hst'. subst e1.
    simpl in Hb. done.
Qed.

(** The key is 88 groups of five alphabet characters joined by hyphens. *)
Lemma generated_key_groups random_swap_param random_entropy now_days private_key
    license_plan duration_days key_holder_group unique_license_id version_lock
    use_included_swap_param fixed_swap_param key :
  generate_license_key sign_data random_swap_param random_entropy now_days
    private_key license_plan duration_days key_holder_group unique_license_id
    version_lock use_included_swap_param fixed_swap_param = Ok key →
  length key = 527
  ∧ length (split key) = 88
  ∧ Forall (λ g, length g = 5 ∧ Forall (λ c, c ∈ ALPHABET) g) (split key)
  ∧ join (split key) = key.
Proof.
  intros Hgen. apply generate_inv in Hgen
    as (swap & bytes & signature & original & pm & permuted & _ & _ & _ & _ & _
        & _ & _ & Halpha & _ & _ & _ & Hplen & Hperm & ->).
  set (groups := segments 440 5 permuted).
  assert (length groups = 88) as Hglen.
  { apply LicenseManager_facts.length_segments; [by rewrite Hplen|lia]. }
  assert (concat groups = permuted) as Hconcat.
  { apply concat_segments; lia. }
  assert (Forall (λ c, c ∈ ALPHABET) permuted) as Hpalpha by (by rewrite Hperm).
  assert (Forall (λ g, length g = 5 ∧ Forall (λ c, c ∈ ALPHABET) g) groups) as Hg.
  { apply Forall_and. split.
    - apply (segments_lengths 5 88); [lia|by rewrite Hplen|lia].
    - apply Forall_concat. by rewrite Hconcat. }
  assert (split (join groups) = groups) as Hsplit.
  { apply split_join; [by destruct groups|].
    eapply Forall_impl; [exact Hg|]. intros g [_ Hga] Hin.
    rewrite Forall_forall in Hga. by apply hyphen_not_in_alphabet, Hga. }
  rewrite Hsplit. split_and!; [|done|done|done].
  rewrite length_join by (by destruct groups). rewrite Hconcat, Hplen, Hglen. done.
Qed.

(** The payload of a request that is generated is well formed when the
    inputs are not negative. *)
Lemma issued_well_formed use_included_swap_param swap_param random_entropy
    now_days license_plan duration_days key_holder_group unique_license_id
    version_lock (bytes : list Z) :
  to_bits (issued_payload use_included_swap_param swap_param random_entropy
             now_days license_plan duration_days key_holder_group
             unique_license_id version_lock) = Ok bytes →
  (0 ≤ license_plan)%Z → (0 ≤ duration_days)%Z → (0 ≤ key_holder_group)%Z →
  (0 ≤ unique_license_id)%Z → (0 ≤ version_lock)%Z →
  (use_included_swap_param = true → 0 ≤ Qtrunc (fmul swap_param 255))%Z →
  well_formed (issued_payload use_included_swap_param swap_param random_entropy
                 now_days license_plan duration_days key_holder_group
                 unique_license_id version_lock).
Proof.
  intros Hbytes Hplan Hdur Hgrp Huid Hver Hswap.
  apply LicenseData_facts.to_bits_Ok_fits in Hbytes as [Hfit Hbits].
  split; [|done].
  assert (Forall (λ field, 0 ≤ field.1)%Z
            (packed_fields
               (issued_payload use_included_swap_param swap_param random_entropy
                  now_days license_plan duration_days key_holder_group
                  unique_license_id version_lock))) as Hlow.
  { unfold packed_fields, fixed_fields, issued_payload.
    destruct use_included_swap_param; cbn -[Z.pow Z.modulo Qtrunc fmul];
      repeat (constructor; cbn -[Z.pow Z.modulo Qtrunc fmul]);
      try done; try lia;
      try (by apply Hswap);
      try (by destruct (now_days <? 0)%Z eqn:Hn; [|apply Z.ltb_ge in Hn]);
      try (by apply Z.mod_pos_bound);
      by (destruct (0 <? _)%Z; [apply Z.mod_pos_bound|]). }
  rewrite Forall_forall in Hfit, Hlow. apply Forall_forall. intros f Hf.
  split; [by apply Hlow|by apply Hfit].
Qed.

(** Packing and unpacking a well-formed record gives its stored form. *)
Lemma to_bits_from_bits (d : LicenseData) (bytes : list Z) :
  well_formed d → to_bits d = Ok bytes →
  length bytes = 19 ∧ Forall is_byte bytes ∧ from_bits bytes = Ok (stored d).
Proof.
  intros Hwf Hbytes. destruct (LicenseData_facts.to_bits_value d Hwf) as [Hval _].
  rewrite Hval in Hbytes. injection Hbytes as <-.
  split_and!; [apply (length_be_digits 8)|apply Encoding_facts.be_digits_bytes|].
  by apply LicenseData_facts.from_bits_packed.
Qed.

(** What a generated key carries: undoing the grouping, the permutation and
    the encoding gives the packed payload followed by its signature, and the
    payload unpacks to the stored form of the issued record. *)
Lemma generated_key_decodes random_swap_param random_entropy now_days private_key
    license_plan duration_days key_holder_group unique_license_id version_lock
    use_included_swap_param fixed_swap_param key :
  generate_license_key sign_data random_swap_param random_entropy now_days
    private_key license_plan duration_days key_holder_group unique_license_id
    version_lock use_included_swap_param fixed_swap_param = Ok key →
  (∀ data signature,
     sign_data data private_key = Ok signature → Forall is_byte signature) →
  (0 ≤ license_plan)%Z → (0 ≤ duration_days)%Z → (0 ≤ key_holder_group)%Z →
  (0 ≤ unique_license_id)%Z → (0 ≤ version_lock)%Z →
  (use_included_swap_param = true → 0 ≤ Qtrunc (fmul random_swap_param 255))%Z →
  ∃ swap_param pm inv original bytes signature,
    (if use_included_swap_param then Some random_swap_param else fixed_swap_param)
    = Some swap_param
    ∧ get_permutation_map TOTAL_CHARS_TO_PERMUTE swap_param = Ok pm
    ∧ get_inverse_permutation_map TOTAL_CHARS_TO_PERMUTE pm = Ok inv
    ∧ apply_inverse_permutation TOTAL_CHARS_TO_PERMUTE (concat (split key)) inv
      = Ok original
    ∧ alphabet_string_to_bytes original 2200 = Ok (bytes ++ signature)
    ∧ length bytes = 19
    ∧ sign_data bytes private_key = Ok signature
    ∧ from_bits bytes
      = Ok (stored (issued_payload use_included_swap_param swap_param
                      random_entropy now_days license_plan duration_days
                      key_holder_group unique_license_id version_lock)).
Proof.
  intros Hgen Hsig Hplan Hdur Hgrp Huid Hver Hswap.
  pose proof Hgen as Hinv. apply generate_inv in Hinv
    as (swap & bytes & signature & original & pm & permuted & Hsw & Hbytes
        & Hblen & Hsign & Hslen & Horig & Holen & Halpha & Hpm & Hpmperm & Hperm
        & Hplen & Hpperm & ->).
  assert (concat (split (join (segments 440 5 permuted))) = permuted) as Hcat.
  { assert (permuted ≠ []) as Hne by (by destruct permuted).
    assert (segments 440 5 permuted ≠ []) as Hgne.
    { destruct permuted; [done|]. done. }
    rewrite split_join; [apply concat_segments; lia|done|].
    assert (Forall (λ c, c ∈ ALPHABET) (concat (segments 440 5 permuted))) as Hall.
    { rewrite concat_segments by lia. by rewrite Hpperm. }
    apply Forall_concat in Hall. eapply Forall_impl; [exact Hall|].
    intros g Hga Hin. rewrite Forall_forall in Hga.
    by apply hyphen_not_in_alphabet, Hga. }
  destruct (Licensee_permutation_facts.apply_then_inverse TOTAL_CHARS_TO_PERMUTE
              original pm Holen Hpmperm) as (y & inv & Hy & Hinv & Hback).
  rewrite Hy in Hperm. injection Hperm as ->.
  assert (use_included_swap_param = true → swap = random_swap_param) as Hsame.
  { intros ->. by injection Hsw. }
  assert (well_formed (issued_payload use_included_swap_param swap random_entropy
                         now_days license_plan duration_days key_holder_group
                         unique_license_id version_lock)) as Hwf.
  { eapply issued_well_formed; try done. intros Hu. rewrite (Hsame Hu). by apply Hswap. }
  destruct (to_bits_from_bits _ bytes Hwf Hbytes) as (_ & Hbyte & Hfrom).
  assert (Forall is_byte (bytes ++ signature)) as Hcomb.
  { apply Forall_app. split; [done|by eapply Hsig]. }
  destruct (Encoding_facts.alphabet_string_round_trip _ Hcomb) as (s & Hs & Hdec).
  rewrite Horig in Hs. injection Hs as <-.
  rewrite length_app, Hblen, Hslen in Hdec.
  exists swap, pm, inv, original, bytes, signature. rewrite Hcat.
  by split_and!.
Qed.
End WithCrypto.

(** Generation asks the signer for one signature, that of the packed payload
    under the given private key: a signer that answers there as [sign_data]
    did gives the same key. *)
Lemma generate_signer `{FloatOps} {PrivateKey : Type}
    (sign_data sign_data' : list Z → PrivateKey → result (list Z))
    (random_swap_param : Q) (random_entropy now_days : Z)
    (private_key : PrivateKey)
    (license_plan duration_days key_holder_group unique_license_id : Z)
    (version_lock : Z) (use_included_swap_param : bool)
    (fixed_swap_param : option Q) (swap_param : Q) (bytes : list Z)
    (outcome : result (list Z)) :
  (if use_included_swap_param then Some random_swap_param else fixed_swap_param)
  = Some swap_param →
  to_bits (issued_payload use_included_swap_param swap_param random_entropy
             now_days license_plan duration_days key_holder_group
             unique_license_id version_lock) = Ok bytes →
  sign_data bytes private_key = outcome →
  sign_data' bytes private_key = outcome →
  generate_license_key sign_data' random_swap_param random_entropy now_days
    private_key license_plan duration_days key_holder_group unique_license_id
    version_lock use_included_swap_param fixed_swap_param
  = generate_license_key sign_data random_swap_param random_entropy now_days
      private_key license_plan duration_days key_holder_group unique_license_id
      version_lock use_included_swap_param fixed_swap_param.
Proof.
  intros Hsw Hbytes Hsign Hsign'. rewrite !generate_steps.
  assert ((if use_included_swap_param then Ok random_swap_param
           else match fixed_swap_param with
                | None => Raise ValueError
                | Some p => Ok p
                end) = Ok swap_param) as ->.
  { destruct use_included_swap_param; [by injection Hsw as ->|].
    by rewrite Hsw. }
  rewrite !bind_Ok_l, Hbytes, !bind_Ok_l. by rewrite Hsign, Hsign'.
Qed.
End LicenseManager_more.
(** ** XOF-Genetics: more about the organisms ([organism.py]) *)

Module Organism_more.
Import XOF.

(** A shorter output of the SHA-256 variant is a prefix of a longer one. *)
Lemma hash_prefix (D : list Z) (L1 L2 : nat) :
  L1 ≤ L2 → SHA256Hash_hash D L1 = take L1 (SHA256Hash_hash D L2).
Proof.
  intros HL.
  assert (L2 ≤ 32 * (L2 / 32 + 1)) as H2.
  { pose proof (Nat.div_mod_eq L2 32). pose proof (Nat.mod_upper_bound L2 32). lia. }
  rewrite (SHA256Hash_facts.hash_accumulated D L2 (L2 / 32) H2).
  rewrite take_take, Nat.min_l by done.
  apply SHA256Hash_facts.hash_accumulated. lia.
Qed.

Lemma extendR_length {A B} (n : nat) (f : A → result (list B)) xs ys :
  (∀ x zs, x ∈ xs → f x = Ok zs → length zs = n) →
  extendR f xs = Ok ys → length ys = n * length xs.
Proof.
  revert ys. induction xs as [|x xs IH]; intros ys Hf Hrun.
  - injection Hrun as <-. simpl. lia.
  - simpl in Hrun. inv_run Hrun. injection Hrun as <-.
    rewrite length_app, (Hf x a); [|by left|done].
    rewrite (IH a0); [simpl; lia| |done]. intros x' zs Hx'. apply Hf. by right.
Qed.

Lemma set_eqb_refl (l : list nat) : set_eqb l l = true.
Proof.
  unfold set_eqb. apply andb_true_iff.
  split; apply forallb_forall; intros x Hx; apply bool_decide_eq_true;
    by apply list_elem_of_In.
Qed.

Lemma forM_load_seq {A} (l : list A) :
  forM (list_load l) (seq 0 (length l)) = Ok l.
Proof.
  assert (∀ pre, forM (list_load (pre ++ l)) (seq (length pre) (length l)) = Ok l)
    as Hgen.
  { induction l as [|x l IH]; intros pre; [done|].
    cbn [length seq]. rewrite forM_cons.
    assert (list_load (pre ++ x :: l) (length pre) = Ok x) as ->.
    { unfold list_load. by rewrite list_lookup_middle. }
    rewrite bind_Ok_l.
    specialize (IH (pre ++ [x])). rewrite <-app_assoc, length_app in IH.
    simpl in IH. rewrite Nat.add_1_r in IH. by rewrite IH. }
  apply (Hgen []).
Qed.

Lemma zip_with_lxor_zero (g mask : list Z) :
  length g ≤ length mask → Forall (λ m, m = 0%Z) mask →
  zip_with Z.lxor g mask = g.
Proof.
  revert mask. induction g as [|x g IH]; intros [|m mask] Hlen Hm; simpl in *;
    [done|done|lia|].
  apply Forall_cons in Hm as [-> Hm]. rewrite Z.lxor_0_r, IH; [done|lia|done].
Qed.

Section WithFloat.
Context `{FloatOps}.

(** *** What the constructor guarantees *)

Lemma init_fresh (g : list Z) (cfg : OrganismConfig) meta o :
  Organism__init__ g cfg meta = Ok o →
  genome o = g ∧ generation o = 0 ∧ fresh_organism cfg o.
Proof.
  unfold Organism__init__. destruct (negb _) eqn:Hlen; [done|].
  apply negb_false_iff, Nat.eqb_eq in Hlen.
  intros Hrun. inv_run Hrun. injection Hrun as <-. by repeat split.
Qed.

Lemma new_child_fresh (self : Organism) g n c :
  new_child self g n = Ok c → fresh_organism (config self) c.
Proof.
  unfold new_child. intros Hc. inv_run Hc. injection Hc as <-.
  apply init_fresh in Hrun as (_ & _ & Hcfg & Hlen & Hfit). by repeat split.
Qed.

Lemma direct_asexual_one (self : Organism) cs :
  direct_asexual_reproduction self = Ok cs →
  ∃ c, cs = [c] ∧ fresh_organism (config self) c.
Proof.
  unfold direct_asexual_reproduction. intros Hc. inv_run Hc. injection Hc as <-.
  eexists. split; [done|]. by eapply new_child_fresh.
Qed.

Lemma mutate_one (self : Organism) mask cs :
  mutate self mask = Ok cs → ∃ c, cs = [c] ∧ fresh_organism (config self) c.
Proof.
  unfold mutate. destruct (negb _); [done|]. intros Hc. inv_run Hc.
  injection Hc as <-. eexists. split; [done|]. by eapply new_child_fresh.
Qed.

Lemma rotate_one (self : Organism) pos cs :
  rotate self pos = Ok cs → ∃ c, cs = [c] ∧ fresh_organism (config self) c.
Proof.
  unfold rotate. destruct (decide _); [done|]. intros Hc. inv_run Hc.
  injection Hc as <-. eexists. split; [done|]. by eapply new_child_fresh.
Qed.

Lemma permute_one (self : Organism) pm cs :
  permute self pm = Ok cs → ∃ c, cs = [c] ∧ fresh_organism (config self) c.
Proof.
  unfold permute. destruct (negb _); [done|]. destruct (negb _); [done|].
  intros Hc. inv_run Hc. injection Hc as <-. eexists. split; [done|].
  by eapply new_child_fresh.
Qed.

Lemma reproduce_sexually_count (self partner : Organism) cs t t' :
  reproduce_sexually self partner t = Ok (cs, t') →
  length cs = (if enable_reciprocal_reproduction (config self) then 2 else 1)
  ∧ Forall (fresh_organism (config self)) cs.
Proof.
  unfold reproduce_sexually.
  destruct (enable_reciprocal_reproduction (config self)); intros Hc.
  - apply M_bind_Ok in Hc as (c1 & t1 & [H1 _]%lift_Ok & Hc).
    apply M_bind_Ok in Hc as (c2 & t2 & [H2 _]%lift_Ok & Hc).
    apply M_ret_Ok in Hc as [<- _]. split; [done|].
    apply init_fresh in H1 as (_ & _ & ? & ? & ?).
    apply init_fresh in H2 as (_ & _ & ? & ? & ?).
    apply Forall_cons; split; [done|]. by apply Forall_singleton.
  - apply M_bind_Ok in Hc as (coin & t1 & _ & Hc).
    apply M_bind_Ok in Hc as (c & t2 & [Hn _]%lift_Ok & Hc).
    apply M_ret_Ok in Hc as [<- _]. split; [done|].
    apply Forall_singleton. by eapply new_child_fresh.
Qed.

Lemma asexual_self_count (self : Organism) cs t t' :
  asexual_self_reproduction self t = Ok (cs, t') →
  length cs = 2 ∧ Forall (fresh_organism (config self)) cs.
Proof.
  unfold asexual_self_reproduction. intros Hc.
  apply M_bind_Ok in Hc as (l1 & t1 & [Hd _]%lift_Ok & Hc).
  apply M_bind_Ok in Hc as (c1 & t2 & [Hl1 _]%lift_Ok & Hc).
  apply M_bind_Ok in Hc as (c2 & t3 & Hc2 & Hc).
  apply M_ret_Ok in Hc as [<- _]. split; [done|].
  apply direct_asexual_one in Hd as (c & -> & Hfresh).
  injection Hl1 as <-. constructor; [done|]. constructor; [|done].
  destruct (bool_decide _).
  - apply lift_Ok in Hc2 as [Hn _]. by eapply new_child_fresh.
  - apply M_bind_Ok in Hc2 as (mask & t4 & _ & Hc2).
    apply M_bind_Ok in Hc2 as (l2 & t5 & [Hm _]%lift_Ok & [Hl2 _]%lift_Ok).
    apply mutate_one in Hm as (c' & -> & Hfresh'). by injection Hl2 as <-.
Qed.

(** *** Self reproduction with the sexual method enabled *)

Lemma self_reproduction_twins (self : Organism) (t : tape) :
  SEXUAL ∈ enabled_methods (config self) →
  asexual_self_reproduction self t
  = (cs ← direct_asexual_reproduction self; c ← list_load cs 0; Ok ([c; c], t)).
Proof.
  intros Hsex. unfold asexual_self_reproduction, direct_asexual_reproduction.
  rewrite bool_decide_eq_true_2 by done. rewrite take_drop.
  unfold mbind at 1, M_bind. unfold lift at 1.
  destruct (new_child self (H_ self (genome self)) (generation self + 1))
    as [c|e] eqn:Hc; [|done].
  by rewrite !bind_Ok_l.
Qed.

(** *** Parameters that change nothing *)

Lemma rotate_neutral (self : Organism) (positions : Z) :
  genome_length (config self) ≠ 0 →
  (positions mod Z.of_nat (genome_length (config self)) = 0)%Z →
  rotate self positions = direct_asexual_reproduction self.
Proof.
  intros HG Hpos. unfold rotate, direct_asexual_reproduction.
  destruct (decide _); [done|]. rewrite Hpos. simpl. by rewrite app_nil_r.
Qed.

Lemma mutate_neutral (self : Organism) (mask : list Z) :
  length (genome self) = genome_length (config self) →
  length mask = genome_length (config self) → Forall (λ m, m = 0%Z) mask →
  mutate self mask = direct_asexual_reproduction self.
Proof.
  intros Hg Hlen Hmask. unfold mutate, direct_asexual_reproduction.
  rewrite Hlen, Nat.eqb_refl. simpl.
  rewrite zip_with_lxor_zero; [done|lia|done].
Qed.

Lemma permute_neutral (self : Organism) :
  length (genome self) = genome_length (config self) →
  permute self (seq 0 (genome_length (config self)))
  = direct_asexual_reproduction self.
Proof.
  intros Hg. unfold permute, direct_asexual_reproduction.
  rewrite length_seq, Nat.eqb_refl, set_eqb_refl. cbn [negb].
  rewrite <-Hg at 1. by rewrite forM_load_seq, bind_Ok_l.
Qed.

(** *** The children of omni reproduction *)

Lemma for_both_count {A} (self p : Organism)
    (f : Organism → A → result (list Organism)) xs l :
  (∀ o x zs, f o x = Ok zs → ∃ c, zs = [c] ∧ fresh_organism (config o) c) →
  for_both self p f xs = Ok l →
  length l = 2 * length xs
  ∧ Forall (λ c, fresh_organism (config self) c ∨ fresh_organism (config p) c) l.
Proof.
  intros Hf Hrun. unfold for_both in Hrun. split.
  - revert Hrun. apply extendR_length. intros x zs _ Hx. inv_run Hx.
    injection Hx as <-. apply Hf in Hrun as (c1 & -> & _).
    by apply Hf in Hrun0 as (c2 & -> & _).
  - revert Hrun. apply extendR_Forall. intros x zs _ Hx. inv_run Hx.
    injection Hx as <-. apply Hf in Hrun as (c1 & -> & ?).
    apply Hf in Hrun0 as (c2 & -> & ?).
    apply Forall_cons; split; [by left|]. apply Forall_singleton. by right.
Qed.

Lemma omni_reproduce_children (self : Organism) (partner : option Organism)
    cs t t' :
  omni_reproduce self partner t = Ok (cs, t') →
  length cs = omni_children (config self)
  ∧ Forall (λ c, fresh_organism (config self) c
                 ∨ fresh_organism (config (default self partner)) c) cs.
Proof.
  unfold omni_reproduce. set (p := default self partner). intros Hc.
  apply M_bind_Ok in Hc as (c1a & ? & [H1a _]%lift_Ok & Hc).
  apply M_bind_Ok in Hc as (c1b & ? & [H1b _]%lift_Ok & Hc).
  apply M_bind_Ok in Hc as (c2a & ? & H2a & Hc).
  apply M_bind_Ok in Hc as (c2b & ? & H2b & Hc).
  apply M_bind_Ok in Hc as (c3 & ? & H3 & Hc).
  apply M_bind_Ok in Hc as (c4 & ? & [H4 _]%lift_Ok & Hc).
  apply M_bind_Ok in Hc as (c5 & ? & [H5 _]%lift_Ok & Hc).
  apply M_bind_Ok in Hc as (c6 & ? & [H6 _]%lift_Ok & Hc).
  apply M_bind_Ok in Hc as (c7 & ? & [H7 _]%lift_Ok & Hc).
  apply M_bind_Ok in Hc as (sc & ? & Hsc & Hc).
  apply M_bind_Ok in Hc as (c8 & ? & [H8 _]%lift_Ok & Hc).
  apply M_ret_Ok in Hc as [<- _].
  apply direct_asexual_one in H1a as (a1 & -> & Ha1).
  apply direct_asexual_one in H1b as (b1 & -> & Hb1).
  apply asexual_self_count in H2a as [L2a F2a].
  apply asexual_self_count in H2b as [L2b F2b].
  apply reproduce_sexually_count in H3 as [L3 F3].
  apply for_both_count in H4 as [L4 F4]; [|intros ???; apply mutate_one].
  apply for_both_count in H5 as [L5 F5]; [|intros ???; apply rotate_one].
  apply for_both_count in H6 as [L6 F6]; [|intros ???; apply permute_one].
  apply reproduce_sexually_count in Hsc as [Lsc Fsc].
  assert (length c7 = 2 * (3 `min` length (rotation_positions (config self)))
                      * length (take 3 (mutation_masks (config self)))
          ∧ Forall (λ c, fresh_organism (config self) c
                         ∨ fresh_organism (config p) c) c7) as [L7 F7].
  { split.
    - revert H7. apply extendR_length. intros mask zs _ Hz.
      rewrite <-length_take. revert Hz. apply extendR_length. intros pos zs' _ Hx.
      inv_run Hx. injection Hx as <-.
      apply rotate_one in Hrun1 as (? & -> & _).
      by apply rotate_one in Hrun4 as (? & -> & _).
    - revert H7. apply extendR_Forall. intros mask zs _.
      apply extendR_Forall. intros pos zs' _ Hx.
      inv_run Hx. injection Hx as <-.
      apply mutate_one in Hrun as (m1 & -> & Hm1 & _).
      apply mutate_one in Hrun2 as (m2 & -> & Hm2 & _).
      injection Hrun0 as <-. injection Hrun3 as <-.
      apply rotate_one in Hrun1 as (? & -> & Hr1).
      apply rotate_one in Hrun4 as (? & -> & Hr2).
      rewrite Hm1 in Hr1. rewrite Hm2 in Hr2.
      apply Forall_cons; split; [by left|]. apply Forall_singleton. by right. }
  assert (length c8 = length (take 3 (mutation_masks (config self))) * length sc
          ∧ Forall (fresh_organism (config self)) c8) as [L8 F8].
  { split.
    - revert H8. apply extendR_length. intros child zs _.
      replace (length (take 3 (mutation_masks (config self))))
        with (1 * length (take 3 (mutation_masks (config self)))) by lia.
      apply extendR_length. intros mask zs' _ Hx.
      by apply mutate_one in Hx as (? & -> & _).
    - revert H8. apply extendR_Forall. intros child zs Hchild.
      apply extendR_Forall. intros mask zs' _ Hx.
      apply mutate_one in Hx as (? & -> & Hx).
      destruct (proj1 (Forall_forall _ _) Fsc child Hchild) as (Hcfg & _).
      rewrite Hcfg in Hx. by apply Forall_singleton. }
  split.
  - rewrite !length_app, L2a, L2b, L3, L4, L5, L6, L7, L8, Lsc, !length_take.
    unfold omni_children. cbn [length].
    destruct (enable_reciprocal_reproduction (config self)); lia.
  - assert (∀ l, Forall (fresh_organism (config self)) l →
                 Forall (λ c, fresh_organism (config self) c
                              ∨ fresh_organism (config p) c) l) as Hl.
    { intros l Hl. eapply Forall_impl; [exact Hl|]. by left. }
    assert (∀ l, Forall (fresh_organism (config p)) l →
                 Forall (λ c, fresh_organism (config self) c
                              ∨ fresh_organism (config p) c) l) as Hr.
    { intros l Hl'. eapply Forall_impl; [exact Hl'|]. by right. }
    repeat (apply Forall_app; split); auto.
Qed.
End WithFloat.
End Organism_more.
(** ** XOF-Genetics: selection and the history of the loop ([evolution.py]) *)

Lemma Qltb_lt (x y : Q) : Qltb x y = true ↔ (x < y)%Q.
Proof.
  unfold Qltb. rewrite negb_true_iff. split.
  - intros Hb. apply Qnot_le_lt. intros Hle. apply Qle_bool_iff in Hle. congruence.
  - intros Hlt. destruct (Qle_bool y x) eqn:Hle; [|done].
    apply Qle_bool_iff in Hle. by apply Qle_not_lt in Hle.
Qed.

Lemma Qltb_ge (x y : Q) : Qltb x y = false ↔ (y <= x)%Q.
Proof. unfold Qltb. rewrite negb_false_iff. apply Qle_bool_iff. Qed.

Module Evolution_more.
Import XOF Evolution.
Section Loop.
Context `{FloatOps}.
Variable fitness_func : Organism → Q.
Variable auto_population_step : list Organism → result (list Organism).

(** *** [max(population, key=...)] *)

Lemma foldl_max (o : Organism) (rest : list Organism) :
  let best := foldl (λ best x, if Qltb (fitness best) (fitness x) then x else best)
                    o rest in
  best ∈ o :: rest
  ∧ (fitness o <= fitness best)%Q
  ∧ Forall (λ x, (fitness x <= fitness best)%Q) rest.
Proof.
  revert o. induction rest as [|x rest IH]; intros o; cbn [foldl].
  - split_and!; [by left|apply Qle_refl|constructor].
  - destruct (IH (if Qltb (fitness o) (fitness x) then x else o))
      as (Hin & Hle & Hall).
    destruct (Qltb (fitness o) (fitness x)) eqn:Hlt.
    + apply Qltb_lt in Hlt. split_and!.
      * by right.
      * eapply Qle_trans; [by apply Qlt_le_weak|done].
      * by constructor.
    + apply Qltb_ge in Hlt. split_and!.
      * apply elem_of_cons in Hin as [->|Hin]; [by left|by do 2 right].
      * done.
      * constructor; [by eapply Qle_trans|done].
Qed.

Lemma max_by_fitness_spec (population : list Organism) (best : Organism) :
  max_by_fitness population = Ok best →
  best ∈ population ∧ Forall (λ x, (fitness x <= fitness best)%Q) population.
Proof.
  destruct population as [|o rest]; [done|]. intros [= <-].
  destruct (foldl_max o rest) as (Hin & Hle & Hall). split; [done|by constructor].
Qed.

Lemma evaluated_fitness (population : list Organism) (x : Organism) :
  x ∈ threaded_fitness_evaluation fitness_func population →
  ∃ o, o ∈ population ∧ x = set_fitness o (fitness_func o).
Proof.
  unfold threaded_fitness_evaluation. intros (o & -> & Ho)%list_elem_of_fmap.
  by exists o.
Qed.

(** *** The tournament of two parents and their children *)

Lemma tournament_list (p1 p2 c : Organism) :
  let l := (if Qltb (fitness c) (fitness p1) then [p1] else [])
           ++ (if Qltb (fitness c) (fitness p2) then [p2] else []) ++ [c] in
  l ≠ [] ∧ length l ≤ 3 ∧ c ∈ l
  ∧ (∀ s, s ∈ l → s ∈ [p1; p2; c])
  ∧ (∀ x, x ∈ [p1; p2] → ∃ s, s ∈ l ∧ (fitness x <= fitness s)%Q).
Proof.
  destruct (Qltb (fitness c) (fitness p1)) eqn:H1;
    destruct (Qltb (fitness c) (fitness p2)) eqn:H2; simpl;
    try apply Qltb_ge in H1; try apply Qltb_ge in H2.
  all: split; [done|]; split; [lia|]; split;
         [rewrite !elem_of_cons; tauto|]; split;
         [intros s; rewrite !elem_of_cons, !elem_of_nil; tauto|].
  all: intros x [->|[->|[]%elem_of_nil]%elem_of_cons]%elem_of_cons.
  all: try (by exists p1; split; [rewrite !elem_of_cons; tauto|apply Qle_refl]).
  all: try (by exists p2; split; [rewrite !elem_of_cons; tauto|apply Qle_refl]).
  all: by exists c; split; [rewrite !elem_of_cons; tauto|].
Qed.

Lemma tournament_survivors (parent1 parent2 : Organism) survivors t t' :
  intergenerational_tournament fitness_func parent1 parent2 t = Ok (survivors, t') →
  ∃ children,
    reproduce_sexually parent1 parent2 t = Ok (children, t')
    ∧ survivors ≠ []
    ∧ length survivors ≤ 3
    ∧ (∀ s, s ∈ survivors →
         ∃ x, x ∈ parent1 :: parent2 :: children
              ∧ s = set_fitness x (fitness_func x))
    ∧ (∀ x, x ∈ parent1 :: parent2 :: children →
         ∃ s, s ∈ survivors ∧ (fitness_func x <= fitness s)%Q).
Proof.
  unfold intergenerational_tournament. intros Hrun.
  apply M_bind_Ok in Hrun as (children & t1 & Hsex & Hrun).
  apply M_ret_Ok in Hrun as [<- <-]. exists children. split; [done|].
  apply Organism_more.reproduce_sexually_count in Hsex as [Hlen _].
  set (e := λ o : Organism, set_fitness o (fitness_func o)).
  assert (∀ o, fitness (e o) = fitness_func o) as He by done.
  assert (∃ c, (c = e <$> children !! 0 ∨ c = e <$> children !! 1)
               ∧ is_Some c
               ∧ (∀ x, x ∈ children → ∃ y, c = Some y ∧ (fitness_func x <= fitness y)%Q)
               ∧ c = match e <$> children !! 0,
                           e <$> (if decide (length children = 2)
                                  then children !! 1 else None) with
                     | Some c1, Some c2 =>
                         Some (if Qltb (fitness c2) (fitness c1) then c1 else c2)
                     | Some c1, None => Some c1
                     | None, c2 => c2
                     end) as (champion & Hfrom & [c Hc] & Hbest & Hchampion).
  { destruct children as [|c1 [|c2 [|c3 children]]];
      [by destruct (enable_reciprocal_reproduction _)| | |
       by destruct (enable_reciprocal_reproduction _)]; clear Hlen; simpl.
    - exists (Some (e c1)). split_and!; [by left|done| |done].
      intros x [->|[]%elem_of_nil]%elem_of_cons. eexists. split; [done|].
      rewrite ?He. apply Qle_refl.
    - fold (e c1) (e c2). rewrite ?He.
      destruct (Qltb (fitness_func c2) (fitness_func c1)) eqn:Hlt.
      + apply Qltb_lt in Hlt. exists (Some (e c1)).
        split_and!; [by left|done| |done].
        intros x [->|[->|[]%elem_of_nil]%elem_of_cons]%elem_of_cons;
          (eexists; split; [done|]); rewrite ?He;
          [apply Qle_refl|by apply Qlt_le_weak].
      + apply Qltb_ge in Hlt. exists (Some (e c2)).
        split_and!; [by right|done| |done].
        intros x [->|[->|[]%elem_of_nil]%elem_of_cons]%elem_of_cons;
          (eexists; split; [done|]); rewrite ?He; [done|apply Qle_refl]. }
  fold (e parent1) (e parent2).
  change (λ c0 : Organism, set_fitness c0 (fitness_func c0)) with e.
  rewrite <-Hchampion, Hc. cbn [option_list].
  destruct (tournament_list (e parent1) (e parent2) c)
    as (Hne & Hlen3 & Hcin & Hsub & Hpar).
  assert (∃ y, y ∈ children ∧ c = e y) as (y & Hy & Hcy).
  { rewrite Hc in Hfrom.
    destruct Hfrom as [Hf|Hf]; symmetry in Hf;
      apply fmap_Some in Hf as (y & Hy & ->); exists y;
      (split; [by eapply list_elem_of_lookup_2|done]). }
  split_and!; [done|done| |].
  - intros s Hs. apply Hsub in Hs.
    rewrite !elem_of_cons, elem_of_nil in Hs. destruct Hs as [->|[->|[->|[]]]].
    + exists parent1. split; [by left|done].
    + exists parent2. split; [by right; left|done].
    + exists y. split; [by do 2 right|done].
  - intros x Hx. rewrite !elem_of_cons in Hx. destruct Hx as [->|[->|Hx]].
    + destruct (Hpar (e parent1)) as (s & Hs & Hle); [by left|]. by exists s.
    + destruct (Hpar (e parent2)) as (s & Hs & Hle); [by right; left|]. by exists s.
    + destruct (Hbest x Hx) as (y' & Hy' & Hle). rewrite Hc in Hy'.
      injection Hy' as <-. by exists c.
Qed.

(** *** The history of the loop *)

Lemma generation_step_history (config : EvolutionConfig) (generation : nat)
    (st st' : LoopState) (t t' : tape) :
  generation_step fitness_func auto_population_step config generation st t
  = Ok (st', t') →
  ∃ entry best,
    st_history st' = st_history st ++ [entry]
    ∧ h_generation entry = generation
    ∧ h_population_size entry = length (st_population st)
    ∧ max_by_fitness (threaded_fitness_evaluation fitness_func (st_population st))
      = Ok best
    ∧ h_best_fitness entry = fitness best.
Proof.
  unfold generation_step. intros Hrun.
  apply M_bind_Ok in Hrun as (current_best & t1 & [Hcur ->]%lift_Ok & Hrun).
  apply M_bind_Ok in Hrun as (best & t2 & [Hbest ->]%lift_Ok & Hrun).
  apply M_bind_Ok in Hrun as (new_population & t3 & _ & Hrun).
  apply M_bind_Ok in Hrun as (population & t4 & _ & Hrun).
  apply M_ret_Ok in Hrun as [<- _]. cbn [st_history].
  eexists _, best. split_and!; try done.
  cbn [h_population_size]. unfold threaded_fitness_evaluation. by rewrite length_fmap.
Qed.

Lemma loop_history (config : EvolutionConfig) (gens : list nat)
    (acc : M LoopState) (st : LoopState) (t t' : tape) :
  foldl (λ acc generation,
           st ← acc; generation_step fitness_func auto_population_step
                       config generation st)
        acc gens t = Ok (st, t') →
  ∃ st0 t0 entries, acc t = Ok (st0, t0)
    ∧ st_history st = st_history st0 ++ entries
    ∧ h_generation <$> entries = gens
    ∧ (∀ entry, head entries = Some entry →
         h_population_size entry = length (st_population st0)
         ∧ ∃ best,
             max_by_fitness
               (threaded_fitness_evaluation fitness_func (st_population st0))
             = Ok best
             ∧ h_best_fitness entry = fitness best).
Proof.
  revert acc. induction gens as [|g gens IH]; intros acc Hrun; cbn [foldl] in Hrun.
  - exists st, t', []. split_and!; [done|by rewrite app_nil_r|done|done].
  - apply IH in Hrun as (st1 & t1 & entries & Hstep & Hentries & Hgens & _).
    apply M_bind_Ok in Hstep as (st0 & t0 & Hacc & Hstep).
    apply generation_step_history in Hstep
      as (entry & best & Hhist & Hgen & Hsize & Hbest & Hfit).
    exists st0, t0, (entry :: entries). split_and!; [done| | |].
    + by rewrite Hentries, Hhist, <-app_assoc.
    + rewrite fmap_cons. by rewrite Hgen, Hgens.
    + intros ? [= <-]. split; [done|]. by exists best.
Qed.
End Loop.
End Evolution_more.
(** ** XOF-Genetics: pairing ([evolution.py]) *)

Lemma swap_Permutation {A} (x : list A) (i j : nat) (xi xj : A) :
  x !! i = Some xi → x !! j = Some xj → <[j:=xi]> (<[i:=xj]> x) ≡ₚ x.
Proof.
  intros Hi Hj. apply Permutation_inj. split; [by rewrite !length_insert|].
  pose proof (lookup_lt_Some _ _ _ Hi) as Hilt.
  pose proof (lookup_lt_Some _ _ _ Hj) as Hjlt.
  exists (λ n, if decide (n = j) then i else if decide (n = i) then j else n).
  split.
  - intros a b. repeat case_decide; intros; subst; congruence.
  - intros n. destruct (decide (n = j)) as [->|Hnj].
    + rewrite list_lookup_insert_eq by (by rewrite length_insert). done.
    + rewrite list_lookup_insert_ne by done.
      destruct (decide (n = i)) as [->|Hni].
      * by rewrite list_lookup_insert_eq.
      * by rewrite list_lookup_insert_ne.
Qed.

Lemma zip_parts {A B} (l : list A) (k : list B) :
  length l ≤ length k →
  (zip l k).*1 = l ∧ (zip l k).*2 = take (length l) k
  ∧ length (zip l k) = length l.
Proof.
  revert k. induction l as [|x l IH]; intros [|y k] Hlen;
    [done|done|simpl in Hlen; lia|].
  destruct (IH k) as (H1 & H2 & H3); [simpl in Hlen; lia|].
  cbn [zip_with]. rewrite !fmap_cons. cbn [length take fst snd].
  by rewrite H1, H2, H3.
Qed.

Module Pairing_facts.
Import XOF Evolution.

Lemma shuffle_from_spec {A} (i : nat) (x : list A) (t : tape) :
  i < length x ∨ i = 0 →
  ∃ y t', random_shuffle_from i x t = Ok (y, t') ∧ y ≡ₚ x.
Proof.
  revert x t. induction i as [|i IH]; intros x t Hi.
  - by exists x, t.
  - destruct Hi as [Hi|?]; [|done]. cbn [random_shuffle_from].
    assert (∃ j t1, randbelow (S i + 1) t = Ok (j, t1) ∧ j < length x)
      as (j & t1 & Hj & Hjlt).
    { unfold randbelow. destruct t as [|r t].
      - exists 0, []. split; [done|lia].
      - exists (r mod (S i + 1)), t. split; [done|].
        pose proof (Nat.mod_upper_bound r (S i + 1)). lia. }
    unfold mbind, M_bind. rewrite Hj.
    destruct (lookup_lt_is_Some_2 x (S i) Hi) as [xi Hxi].
    destruct (lookup_lt_is_Some_2 x j Hjlt) as [xj Hxj].
    rewrite Hxi, Hxj.
    destruct (IH (<[j:=xi]> (<[S i:=xj]> x)) t1) as (y & t' & Hy & Hperm).
    { left. rewrite !length_insert. lia. }
    exists y, t'. split; [done|]. rewrite Hperm. by eapply swap_Permutation.
Qed.

Lemma consecutive_pairs_spec (x : list Organism) :
  length (consecutive_pairs x) = length x / 2
  ∧ (consecutive_pairs x).*1 ++ (consecutive_pairs x).*2 ⊆+ x.
Proof.
  assert (∀ n (x : list Organism), length x ≤ n →
            length (consecutive_pairs x) = length x / 2
            ∧ (consecutive_pairs x).*1 ++ (consecutive_pairs x).*2 ⊆+ x) as Hgen.
  { clear x. induction n as [|n IH]; intros [|a [|b rest]] Hlen; simpl in Hlen;
      try lia; try (split; [done|apply submseteq_nil_l]).
    destruct (IH rest) as [Hl Hsub]; [lia|].
    cbn [consecutive_pairs length fmap list_fmap fst snd app]. split.
    - rewrite Hl. change (S (S (length rest))) with (2 + length rest).
      replace (2 + length rest) with (length rest + 1 * 2) by lia.
      rewrite Nat.div_add by lia. lia.
    - apply submseteq_skip. rewrite <-Permutation_middle.
      by apply submseteq_skip. }
  by apply (Hgen (length x)).
Qed.

Section Loop.
Context `{FloatOps}.

(** Every strategy forms [len(organisms) // 2] pairs and uses no organism
    of the list more often than the list holds it. *)
Lemma pair_organisms_spec (organisms : list Organism) (strategy : PairingStrategy)
    (t : tape) :
  ∃ pairs t',
    pair_organisms organisms strategy t = Ok (pairs, t')
    ∧ length pairs = length organisms / 2
    ∧ pairs.*1 ++ pairs.*2 ⊆+ organisms.
Proof.
  unfold pair_organisms. destruct (decide (length organisms < 2)) as [Hsmall|Hbig].
  - exists [], t. split_and!; [done| |apply submseteq_nil_l].
    destruct organisms as [|a [|b rest]]; [done|done|simpl in Hsmall; lia].
  - pose proof (list_sort_perm (λ x y, Qltb (fitness y) (fitness x)) organisms)
      as Hsort.
    fold (sort_by_fitness organisms) in Hsort.
    pose proof (Permutation_length Hsort) as Hslen.
    destruct strategy.
    + destruct (shuffle_from_spec (length organisms - 1) organisms t)
        as (y & t' & Hy & Hperm); [lia|].
      exists (consecutive_pairs y), t'. unfold random_shuffle, mbind, M_bind.
      rewrite Hy. destruct (consecutive_pairs_spec y) as [Hl Hsub].
      split_and!; [done|by rewrite Hl, Hperm|by rewrite <-Hperm].
    + exists (consecutive_pairs (sort_by_fitness organisms)), t.
      destruct (consecutive_pairs_spec (sort_by_fitness organisms)) as [Hl Hsub].
      split_and!; [done|by rewrite Hl, Hslen|].
      etrans; [exact Hsub|by apply Permutation_submseteq].
    + eexists _, t. split; [done|].
      set (s := sort_by_fitness organisms) in *. set (mid := length s / 2).
      assert (mid + mid ≤ length s) as Hmid.
      { unfold mid. pose proof (Nat.div_mod_eq (length s) 2). lia. }
      destruct (zip_parts (take mid s) (drop mid s)) as (H1 & H2 & H3).
      { rewrite length_take, length_drop. lia. }
      rewrite H1, H2, H3, length_take, (Nat.min_l mid) by lia.
      split; [unfold mid; by rewrite Hslen|].
      trans s; [|by apply Permutation_submseteq].
      trans (take mid s ++ drop mid s); [|by rewrite take_drop].
      apply submseteq_app; [done|apply submseteq_take].
    + eexists _, t. split; [done|].
      set (s := sort_by_fitness organisms) in *. set (mid := length s / 2).
      assert (mid + mid ≤ length s) as Hmid.
      { unfold mid. pose proof (Nat.div_mod_eq (length s) 2). lia. }
      destruct (zip_parts (take mid s) (reverse s)) as (H1 & H2 & H3).
      { rewrite length_take, length_reverse. lia. }
      rewrite H1, H2, H3, length_take, (Nat.min_l mid) by lia.
      split; [unfold mid; by rewrite Hslen|].
      rewrite take_reverse, reverse_Permutation.
      trans s; [|by apply Permutation_submseteq].
      trans (take mid s ++ drop mid s); [|by rewrite take_drop].
      apply submseteq_app; [done|].
      replace (length s - mid) with (mid + (length s - mid - mid)) by lia.
      rewrite <-drop_drop. apply submseteq_drop.
Qed.
End Loop.
End Pairing_facts.
(** ** Strings over the alphabet, and the bytes of the hash *)

Lemma alphabet_string_digits (s : list ascii) :
  Forall (λ c, c ∈ Licensee.ALPHABET) s →
  ∃ ds, s = alphabet_char <$> ds ∧ Forall (is_digit 5) ds.
Proof.
  induction 1 as [|c s Hc _ (ds & -> & Hds)]; [by exists []|].
  destruct (Encoding_facts.alphabet_map_elem c Hc) as [d Hd].
  apply Encoding_facts.alphabet_map_Some in Hd as [Hd <-].
  exists (d :: ds). split; [done|by constructor].
Qed.

Lemma be_bytes_bytes (count : nat) (x : Z) : Forall is_byte (SHA256.be_bytes count x).
Proof.
  induction count as [|c IH]; cbn [SHA256.be_bytes]; constructor; [|done].
  change 255%Z with (Z.ones 8). rewrite Z.land_ones by lia.
  unfold is_byte. change 256%Z with (2 ^ 8)%Z. apply Z.mod_pos_bound. lia.
Qed.

Lemma digest_bytes (data : list Z) : Forall is_byte (SHA256.digest data).
Proof. unfold SHA256.digest. rewrite !Forall_app. split_and!; apply be_bytes_bytes. Qed.

Lemma accumulated_bytes (D : list Z) (k : nat) :
  Forall is_byte (accumulated_digest D k).
Proof.
  induction k as [|k IH]; cbn [accumulated_digest]; [apply digest_bytes|].
  apply Forall_app. split; [done|apply digest_bytes].
Qed.

Lemma hash_bytes (D : list Z) (L : nat) : Forall is_byte (XOF.SHA256Hash_hash D L).
Proof.
  rewrite (SHA256Hash_facts.hash_accumulated D L (L / 32)).
  - apply Forall_take, accumulated_bytes.
  - pose proof (Nat.div_mod_eq L 32). pose proof (Nat.mod_upper_bound L 32). lia.
Qed.

(** The stand-in signature consists of bytes. *)
Lemma toy_sign_bytes (data key signature : list Z) :
  toy_sign data key = Ok signature → Forall is_byte signature.
Proof. unfold toy_sign. intros [= <-]. apply hash_bytes. Qed.

(** The sample inputs of generation return a key. *)
Lemma scenario5_generated :
  is_Ok (LicenseManager.generate_license_key (H:=fixed_float) toy_sign
           (42 # 100) 12345 1037 toy_key 3 730 50 98765 2 true None) = true.
Proof. vm_compute. reflexivity. Qed.
(** * Further properties of the code *)

(** ** SineShift: data ([sineshift/mutator.py]) *)

(** X1.  [mutate_data] followed by [unmute_data] with the same key [s >= 0]
    gives the data back as [mutate_data] fitted it to the frame count: cut to
    [frame_count] samples when longer, padded with zeros when shorter.
    Neither call raises, and the mutated data holds the same samples as the
    fitted data, in another order. *)
Theorem sineshift_data_round_trip `{FloatOps} (frame_count : nat)
    (data : list Q) (s : Q) :
  (0 <= s)%Q →
  ∃ mutated,
    SineShiftMutator.mutate_data frame_count data s = Ok mutated
    ∧ length mutated = frame_count
    ∧ mutated ≡ₚ take frame_count data
                  ++ replicate (frame_count - length data) 0%Q
    ∧ SineShiftMutator.unmute_data frame_count mutated s
      = Ok (take frame_count data ++ replicate (frame_count - length data) 0%Q).
Proof. apply SineShiftMutator_data_facts.mutate_then_unmute. Qed.

(** Six samples in four frames with the key [0.42]: the last two samples are
    cut off. *)
Lemma sineshift_data_round_trip_witness :
  ∃ mutated,
    SineShiftMutator.mutate_data (H:=fixed_float) 4 [1; 2; 3; 4; 5; 6]%Q (42 # 100)
    = Ok mutated
    ∧ length mutated = 4
    ∧ mutated ≡ₚ take 4 [1; 2; 3; 4; 5; 6]%Q ++ replicate (4 - 6) 0%Q
    ∧ SineShiftMutator.unmute_data (H:=fixed_float) 4 mutated (42 # 100)
      = Ok (take 4 [1; 2; 3; 4; 5; 6]%Q ++ replicate (4 - 6) 0%Q).
Proof.
  apply (sineshift_data_round_trip (H:=fixed_float) 4 [1; 2; 3; 4; 5; 6]%Q (42 # 100)).
  unfold Qle. simpl. lia.
Defined.

(** ** Licensee: the permutation functions ([licensee/permutation.py]) *)

(** X2.  The inverse map of a rearrangement [p] of [0 .. N-1] is a
    rearrangement of [0 .. N-1] again, and its own inverse map is [p]:
    [get_inverse_permutation_map] undoes itself. *)
Theorem inverse_map_involution (N : nat) (p : list nat) :
  p ≡ₚ seq 0 N →
  ∃ inv,
    Licensee_permutation.get_inverse_permutation_map N p = Ok inv
    ∧ inv ≡ₚ seq 0 N
    ∧ Licensee_permutation.get_inverse_permutation_map N inv = Ok p.
Proof. apply Licensee_permutation_more.inverse_of_inverse. Qed.

Lemma inverse_map_involution_witness :
  ∃ inv,
    Licensee_permutation.get_inverse_permutation_map 3 [1; 0; 2] = Ok inv
    ∧ inv ≡ₚ seq 0 3
    ∧ Licensee_permutation.get_inverse_permutation_map 3 inv = Ok [1; 0; 2].
Proof. apply (inverse_map_involution 3 [1; 0; 2]). simpl. apply perm_swap. Defined.

(** X3.  For a rearrangement [p] of [0 .. N-1] and a string [x] of [N]
    characters, [apply_permutation] returns a string with the same characters
    as [x], counted with their multiplicity, in which the character of
    position [i] of [x] stands at position [p[i]]. *)
Theorem apply_permutation_moves_characters {C} (N : nat) (x : list C)
    (p : list nat) :
  length x = N → p ≡ₚ seq 0 N →
  ∃ y,
    Licensee_permutation.apply_permutation N x p = Ok y
    ∧ y ≡ₚ x
    ∧ ∀ i j, p !! i = Some j → y !! j = x !! i.
Proof. apply Licensee_permutation_more.apply_permutation_rearranges. Qed.

Lemma apply_permutation_moves_characters_witness :
  ∃ y,
    Licensee_permutation.apply_permutation 3 (list_ascii_of_string "ABC") [1; 0; 2]
    = Ok y
    ∧ y ≡ₚ list_ascii_of_string "ABC"
    ∧ ∀ i j, [1; 0; 2] !! i = Some j → y !! j = list_ascii_of_string "ABC" !! i.
Proof.
  apply (apply_permutation_moves_characters 3 (list_ascii_of_string "ABC") [1; 0; 2]).
  - reflexivity.
  - simpl. apply perm_swap.
Defined.

(** X4.  The two length checks: when the input string or the map does not
    have [TOTAL_CHARS_TO_PERMUTE] entries, [apply_permutation] and
    [apply_inverse_permutation] raise [ValueError]. *)
Theorem permutation_length_checks {C} (N : nat) (x : list C) (p : list nat) :
  length x ≠ N ∨ length p ≠ N →
  Licensee_permutation.apply_permutation N x p = Raise ValueError
  ∧ Licensee_permutation.apply_inverse_permutation N x p = Raise ValueError.
Proof. apply Licensee_permutation_more.apply_permutation_wrong_length. Qed.

Lemma permutation_length_checks_witness :
  Licensee_permutation.apply_permutation 3 (list_ascii_of_string "AB") [1; 0; 2]
  = Raise ValueError
  ∧ Licensee_permutation.apply_inverse_permutation 3 (list_ascii_of_string "AB")
      [1; 0; 2] = Raise ValueError.
Proof.
  apply (permutation_length_checks 3 (list_ascii_of_string "AB") [1; 0; 2]).
  left. simpl. lia.
Defined.

(** X5.  The length is all that [apply_permutation] checks of a map.  A map
    of the right length with entries in range is accepted also when entries
    repeat; the result then has as many characters as the map has distinct
    entries, fewer than the input. *)
Theorem apply_permutation_accepts_repeats {C} (N : nat) (x : list C)
    (p : list nat) :
  length x = N → length p = N → Forall (λ j, j < N) p →
  ∃ y,
    Licensee_permutation.apply_permutation N x p = Ok y
    ∧ length y = length (remove_dups p).
Proof. apply Licensee_permutation_more.apply_permutation_unchecked. Qed.

Lemma apply_permutation_accepts_repeats_witness :
  ∃ y,
    Licensee_permutation.apply_permutation 3 (list_ascii_of_string "ABC") [0; 0; 1]
    = Ok y
    ∧ length y = length (remove_dups [0; 0; 1]).
Proof.
  apply (apply_permutation_accepts_repeats 3 (list_ascii_of_string "ABC") [0; 0; 1]).
  - reflexivity.
  - reflexivity.
  - repeat constructor; lia.
Defined.

(** ** SineScramble ([sinescramble/cipher.py]) *)

(** X6.  What [encrypt] and [decrypt] leave unchanged.  The result has the
    length of the input, bytes stay bytes, and the upper seven bits of the
    bytes are the same as in the input up to their order: a round moves bytes
    and flips at most their lowest bit. *)
Theorem sinescramble_changes_low_bits_only `{FloatOps}
    (self : SineScramble.SineScrambleCipher) (data r : list Z) :
  SineScramble.encrypt self data = Ok r ∨ SineScramble.decrypt self data = Ok r →
  length r = length data
  ∧ (Forall is_byte data → Forall is_byte r)
  ∧ high_bits r ≡ₚ high_bits data.
Proof. apply SineScramble_more.encrypt_decrypt_kept. Qed.

Lemma sinescramble_changes_low_bits_only_witness :
  match SineScramble.encrypt (H:=fixed_float)
          {| SineScramble.key := [1; 2]%Q; SineScramble.mode := SineScramble.SEGMENTED;
             SineScramble.amplitude := 100; SineScramble.frequency := double_0_1;
             SineScramble.phase := 1 |} (bytes_of_string "Hello") with
  | Ok r =>
      length r = length (bytes_of_string "Hello")
      ∧ (Forall is_byte (bytes_of_string "Hello") → Forall is_byte r)
      ∧ high_bits r ≡ₚ high_bits (bytes_of_string "Hello")
  | Raise _ => False
  end.
Proof.
  assert (is_Ok (SineScramble.encrypt (H:=fixed_float)
                   {| SineScramble.key := [1; 2]%Q;
                      SineScramble.mode := SineScramble.SEGMENTED;
                      SineScramble.amplitude := 100;
                      SineScramble.frequency := double_0_1;
                      SineScramble.phase := 1 |} (bytes_of_string "Hello")) = true)
    as Hok by (vm_compute; reflexivity).
  destruct (SineScramble.encrypt _ _) as [r|e] eqn:Henc.
  - eapply sinescramble_changes_low_bits_only. left. exact Henc.
  - discriminate Hok.
Defined.

(** X7.  The round trip in the other order: for a cipher built from a
    non-empty key vector, in either mode, and every buffer (of length at least
    the key length in segmented mode), [decrypt] returns a buffer and
    [encrypt] returns the input from it. *)
Theorem sinescramble_decrypt_then_encrypt `{FloatOps} (key : list Q)
    (mode : SineScramble.OperationMode) (amplitude frequency phase : Q)
    (self : SineScramble.SineScrambleCipher) (c : list Z) :
  SineScramble.__init__ key mode amplitude frequency phase = Ok self →
  (mode = SineScramble.SEGMENTED → length key ≤ length c) →
  ∃ d, SineScramble.decrypt self c = Ok d
       ∧ SineScramble.encrypt self d = Ok c.
Proof.
  intros Hinit Hsize. unfold SineScramble.__init__ in Hinit.
  destruct key as [|k ks] eqn:Hkey; [done|]. injection Hinit as <-.
  unfold SineScramble.encrypt, SineScramble.decrypt. simpl SineScramble.mode.
  destruct mode.
  - destruct (SineScramble_more.multi_round_inverse_first
               {| SineScramble.key := k :: ks; SineScramble.mode := SineScramble.MULTI_ROUND;
                  SineScramble.amplitude := amplitude;
                  SineScramble.frequency := frequency;
                  SineScramble.phase := phase |} (k :: ks) c)
      as (d & Hd & _ & Hback).
    by exists d.
  - destruct (SineScramble_more.segmented_inverse_first
               {| SineScramble.key := k :: ks; SineScramble.mode := SineScramble.SEGMENTED;
                  SineScramble.amplitude := amplitude;
                  SineScramble.frequency := frequency;
                  SineScramble.phase := phase |} c)
      as (d & Hd & _ & Hback); [done|by apply Hsize|].
    by exists d.
Qed.

Lemma sinescramble_decrypt_then_encrypt_witness :
  ∃ self,
    SineScramble.__init__ [1; 2]%Q SineScramble.SEGMENTED 100 double_0_1 1 = Ok self
    ∧ ∃ d, SineScramble.decrypt (H:=fixed_float) self (bytes_of_string "Hello") = Ok d
           ∧ SineScramble.encrypt (H:=fixed_float) self d
             = Ok (bytes_of_string "Hello").
Proof.
  eexists. split; [reflexivity|].
  apply (sinescramble_decrypt_then_encrypt (H:=fixed_float) [1; 2]%Q
           SineScramble.SEGMENTED 100 double_0_1 1); [reflexivity|].
  intros _. vm_compute. lia.
Defined.

(** X8.  With a key of one component the two modes are the same cipher: the
    single segment is the whole buffer, and on every non-empty buffer
    [encrypt] and [decrypt] of the segmented cipher return what those of the
    multi-round cipher return. *)
Theorem sinescramble_single_key_modes_agree `{FloatOps} (k : Q)
    (amplitude frequency phase : Q)
    (multi segmented : SineScramble.SineScrambleCipher) (data : list Z) :
  SineScramble.__init__ [k] SineScramble.MULTI_ROUND amplitude frequency phase
  = Ok multi →
  SineScramble.__init__ [k] SineScramble.SEGMENTED amplitude frequency phase
  = Ok segmented →
  data ≠ [] →
  SineScramble.encrypt segmented data = SineScramble.encrypt multi data
  ∧ SineScramble.decrypt segmented data = SineScramble.decrypt multi data.
Proof.
  intros [= <-] [= <-] Hdata.
  unfold SineScramble.encrypt, SineScramble.decrypt. simpl SineScramble.mode.
  destruct (SineScramble_more.single_segment
              {| SineScramble.key := [k]; SineScramble.mode := SineScramble.SEGMENTED;
                 SineScramble.amplitude := amplitude;
                 SineScramble.frequency := frequency;
                 SineScramble.phase := phase |} k data eq_refl Hdata) as [He Hd].
  rewrite He, Hd. split; reflexivity.
Qed.

Lemma sinescramble_single_key_modes_agree_witness :
  ∃ multi segmented,
    SineScramble.__init__ [3 # 2]%Q SineScramble.MULTI_ROUND 100 double_0_1 1 = Ok multi
    ∧ SineScramble.__init__ [3 # 2]%Q SineScramble.SEGMENTED 100 double_0_1 1
      = Ok segmented
    ∧ SineScramble.encrypt (H:=fixed_float) segmented (bytes_of_string "Hello")
      = SineScramble.encrypt (H:=fixed_float) multi (bytes_of_string "Hello")
    ∧ SineScramble.decrypt (H:=fixed_float) segmented (bytes_of_string "Hello")
      = SineScramble.decrypt (H:=fixed_float) multi (bytes_of_string "Hello").
Proof.
  eexists _, _. split; [reflexivity|]. split; [reflexivity|].
  apply (sinescramble_single_key_modes_agree (H:=fixed_float) (3 # 2)%Q
           100 double_0_1 1); [reflexivity|reflexivity|discriminate].
Defined.

(** ** Licensee: the encodings ([licensee/encoding.py]) *)

(** X9.  Thirty characters of the alphabet are the text of a payload:
    [chars_to_bits] returns 19 bytes for them, and [bits_to_chars] returns the
    thirty characters from these bytes. *)
Theorem chars_bits_round_trip (s : list ascii) :
  length s = 30 → Forall (λ c, c ∈ Licensee.ALPHABET) s →
  ∃ b, Licensee.chars_to_bits s = Ok b
       ∧ length b = 19 ∧ Forall is_byte b
       ∧ Licensee.bits_to_chars b = Ok s.
Proof.
  intros Hlen Hs. apply alphabet_string_digits in Hs as (ds & -> & Hds).
  apply Encoding_facts.chars_bits_chars; [by rewrite length_fmap in Hlen|done].
Qed.

Lemma chars_bits_round_trip_witness :
  ∃ b, Licensee.chars_to_bits (list_ascii_of_string "0123456789ABCDEFGHJKMNPQRSTWVX")
       = Ok b
       ∧ length b = 19 ∧ Forall is_byte b
       ∧ Licensee.bits_to_chars b
         = Ok (list_ascii_of_string "0123456789ABCDEFGHJKMNPQRSTWVX").
Proof.
  apply (chars_bits_round_trip (list_ascii_of_string "0123456789ABCDEFGHJKMNPQRSTWVX")).
  - reflexivity.
  - apply (bool_decide_unpack _). vm_compute. reflexivity.
Defined.

(** X10.  Nineteen bytes whose last two bits are zero (the 150 payload bits,
    left-aligned in 152) are the bytes of a text: [bits_to_chars] returns
    thirty characters of the alphabet for them, and [chars_to_bits] returns
    the nineteen bytes from these characters. *)
Theorem bits_chars_round_trip (b : list Z) :
  length b = 19 → Forall is_byte b → (int_from_bytes b mod 4 = 0)%Z →
  ∃ s, Licensee.bits_to_chars b = Ok s
       ∧ length s = 30 ∧ Forall (λ c, c ∈ Licensee.ALPHABET) s
       ∧ Licensee.chars_to_bits s = Ok b.
Proof. apply Encoding_facts.bits_chars_bits. Qed.

Lemma bits_chars_round_trip_witness :
  ∃ s, Licensee.bits_to_chars (replicate 18 255%Z ++ [252%Z]) = Ok s
       ∧ length s = 30 ∧ Forall (λ c, c ∈ Licensee.ALPHABET) s
       ∧ Licensee.chars_to_bits s = Ok (replicate 18 255%Z ++ [252%Z]).
Proof.
  apply (bits_chars_round_trip (replicate 18 255%Z ++ [252%Z])).
  - reflexivity.
  - simpl. repeat constructor; lia.
  - vm_compute. reflexivity.
Defined.

(** X11.  The string form of a byte string.  For bytes [b],
    [bytes_to_alphabet_string] returns a string of [ceil(8 * len(b) / 5)]
    characters of the alphabet, and [alphabet_string_to_bytes] with the bit
    count [8 * len(b)] returns [b] from it. *)
Theorem alphabet_string_of_bytes (b : list Z) :
  Forall is_byte b →
  ∃ s, Licensee.bytes_to_alphabet_string b = Ok s
       ∧ Z.of_nat (length s) = ((8 * Z.of_nat (length b) + 4) / 5)%Z
       ∧ Forall (λ c, c ∈ Licensee.ALPHABET) s
       ∧ Licensee.alphabet_string_to_bytes s (8 * Z.of_nat (length b)) = Ok b.
Proof.
  intros Hb.
  destruct (Encoding_facts.alphabet_string_round_trip b Hb) as (s & Hs & Hback).
  destruct (Encoding_facts.length_bytes_to_alphabet_string b s Hs) as [Hlen Halpha].
  by exists s.
Qed.

Lemma alphabet_string_of_bytes_witness :
  ∃ s, Licensee.bytes_to_alphabet_string [72; 101; 108; 108; 111]%Z = Ok s
       ∧ Z.of_nat (length s)
         = ((8 * Z.of_nat (length [72; 101; 108; 108; 111]%Z) + 4) / 5)%Z
       ∧ Forall (λ c, c ∈ Licensee.ALPHABET) s
       ∧ Licensee.alphabet_string_to_bytes s
           (8 * Z.of_nat (length [72; 101; 108; 108; 111]%Z))
         = Ok [72; 101; 108; 108; 111]%Z.
Proof.
  apply (alphabet_string_of_bytes [72; 101; 108; 108; 111]%Z).
  repeat constructor; lia.
Defined.

(** X12.  A string with a character outside the alphabet is rejected by both
    decoders: [chars_to_bits] and [alphabet_string_to_bytes] (for every
    expected bit count) raise [ValueError]. *)
Theorem decoders_reject_foreign_characters (s : list ascii) :
  ¬ Forall (λ c, c ∈ Licensee.ALPHABET) s →
  Licensee.chars_to_bits s = Raise ValueError
  ∧ ∀ expected_total_bits,
      Licensee.alphabet_string_to_bytes s expected_total_bits = Raise ValueError.
Proof.
  intros Hs. split.
  - apply Encoding_facts.chars_to_bits_rejects. by right.
  - intros expected. apply Encoding_facts.alphabet_string_to_bytes_rejects. by left.
Qed.

Lemma decoders_reject_foreign_characters_witness :
  Licensee.chars_to_bits (list_ascii_of_string "0123456789ABCDEFGHIJKLMNOPQRST")
  = Raise ValueError
  ∧ ∀ expected_total_bits,
      Licensee.alphabet_string_to_bytes
        (list_ascii_of_string "0123456789ABCDEFGHIJKLMNOPQRST") expected_total_bits
      = Raise ValueError.
Proof.
  apply (decoders_reject_foreign_characters
           (list_ascii_of_string "0123456789ABCDEFGHIJKLMNOPQRST")).
  apply (bool_decide_unpack _). vm_compute. reflexivity.
Defined.

(** ** Licensee: the payload ([licensee/license_data.py]) *)

(** X13.  Packing and unpacking.  For a payload whose fields are not negative
    and fit their widths, with the entropy width the code computes, [to_bits]
    returns 19 bytes and [from_bits] returns the payload from them as it is
    stored: every field as given, the swap parameter replaced by its eight
    stored bits ([int(swap_param * 255) / 255], and [0.0] when the mode flag
    is 0). *)
Theorem payload_round_trip `{FloatOps} (d : Licensee.LicenseData) :
  well_formed d →
  ∃ bytes,
    Licensee.to_bits d = Ok bytes
    ∧ length bytes = 19 ∧ Forall is_byte bytes
    ∧ Licensee.from_bits bytes = Ok (stored d).
Proof.
  intros Hwf. destruct (LicenseData_facts.to_bits_value d Hwf) as [Hbytes _].
  eexists. split; [exact Hbytes|].
  by apply LicenseManager_more.to_bits_from_bits.
Qed.

Lemma payload_round_trip_witness :
  ∃ bytes,
    Licensee.to_bits (H:=fixed_float)
      (issued_payload true (42 # 100) 12345 1037 3 730 50 98765 2) = Ok bytes
    ∧ length bytes = 19 ∧ Forall is_byte bytes
    ∧ Licensee.from_bits (H:=fixed_float) bytes
      = Ok (stored (H:=fixed_float)
              (issued_payload true (42 # 100) 12345 1037 3 730 50 98765 2)).
Proof.
  apply (payload_round_trip (H:=fixed_float)
           (issued_payload true (42 # 100) 12345 1037 3 730 50 98765 2)).
  split; [|reflexivity]. vm_compute. repeat constructor; discriminate.
Defined.

(** X14.  A field that does not fit its width is refused: when one of the
    fixed fields (mode flag, stored swap parameter, issue date, plan,
    duration, group, license id, version lock, checksum) is at least
    [2 ^ width], [to_bits] raises [ValueError]. *)
Theorem payload_field_overflow `{FloatOps} (d : Licensee.LicenseData) :
  Exists (λ field, 2 ^ field.2 ≤ field.1)%Z (fixed_fields d) →
  Licensee.to_bits d = Raise ValueError.
Proof. apply LicenseData_facts.to_bits_overflow. Qed.

(** The plan 16 does not fit four bits. *)
Lemma payload_field_overflow_witness :
  Licensee.to_bits (H:=fixed_float)
    (issued_payload true (42 # 100) 12345 1037 16 730 50 98765 2)
  = Raise ValueError.
Proof.
  apply (payload_field_overflow (H:=fixed_float)
           (issued_payload true (42 # 100) 12345 1037 16 730 50 98765 2)).
  apply (bool_decide_unpack _). vm_compute. reflexivity.
Defined.

(** X15.  [from_bits] reads the first 150 bits: bytes after the nineteenth
    do not change its result. *)
Theorem from_bits_reads_19_bytes `{FloatOps} (b extra : list Z) :
  length b = 19 → Forall is_byte b → Forall is_byte extra →
  Licensee.from_bits (b ++ extra) = Licensee.from_bits b.
Proof. apply LicenseData_facts.from_bits_trailing. Qed.

Lemma from_bits_reads_19_bytes_witness :
  Licensee.from_bits (H:=fixed_float) (replicate 19 65%Z ++ [1; 2; 3]%Z)
  = Licensee.from_bits (H:=fixed_float) (replicate 19 65%Z).
Proof.
  apply (from_bits_reads_19_bytes (H:=fixed_float) (replicate 19 65%Z) [1; 2; 3]%Z).
  - reflexivity.
  - simpl. repeat constructor; lia.
  - repeat constructor; lia.
Defined.

(** ** Licensee: generation and validation ([licensee/license_manager.py]) *)

(** X16.  The format of a generated key: 527 characters, which [split] at the
    hyphens into 88 groups of five characters of the alphabet each; joining
    the groups with hyphens gives the key. *)
Theorem generated_key_format `{FloatOps} {PrivateKey : Type}
    (sign_data : list Z → PrivateKey → result (list Z))
    (random_swap_param : Q) (random_entropy now_days : Z)
    (private_key : PrivateKey)
    (license_plan duration_days key_holder_group unique_license_id : Z)
    (version_lock : Z) (use_included_swap_param : bool)
    (fixed_swap_param : option Q) (key : list ascii) :
  LicenseManager.generate_license_key sign_data random_swap_param random_entropy
    now_days private_key license_plan duration_days key_holder_group
    unique_license_id version_lock use_included_swap_param fixed_swap_param
  = Ok key →
  length key = 527
  ∧ length (LicenseManager.split key) = 88
  ∧ Forall (λ g, length g = 5 ∧ Forall (λ c, c ∈ Licensee.ALPHABET) g)
           (LicenseManager.split key)
  ∧ LicenseManager.join (LicenseManager.split key) = key.
Proof. apply LicenseManager_more.generated_key_groups. Qed.

Lemma generated_key_format_witness :
  match LicenseManager.generate_license_key (H:=fixed_float) toy_sign
          (42 # 100) 12345 1037 toy_key 3 730 50 98765 2 true None with
  | Ok key =>
      length key = 527
      ∧ length (LicenseManager.split key) = 88
      ∧ Forall (λ g, length g = 5 ∧ Forall (λ c, c ∈ Licensee.ALPHABET) g)
               (LicenseManager.split key)
      ∧ LicenseManager.join (LicenseManager.split key) = key
  | Raise _ => False
  end.
Proof.
  pose proof scenario5_generated as Hok.
  destruct (LicenseManager.generate_license_key _ _ _ _ _ _ _ _ _ _ _ _)
    as [key|e] eqn:Hgen.
  - eapply generated_key_format. exact Hgen.
  - discriminate Hok.
Defined.

(** X17.  How [generate_license_key] fails.  An exception it raises is a
    [ValueError] (no swap parameter in fixed mode, a field that does not fit
    its bits or is negative, a swap parameter out of range), or it is the
    exception that [sign_data] raised on the packed payload bytes of the
    issued record and the given private key.  Conversely, when [sign_data]
    raises on these bytes, generation raises the same exception. *)
Theorem generation_failures `{FloatOps} {PrivateKey : Type}
    (sign_data : list Z → PrivateKey → result (list Z))
    (random_swap_param : Q) (random_entropy now_days : Z)
    (private_key : PrivateKey)
    (license_plan duration_days key_holder_group unique_license_id : Z)
    (version_lock : Z) (use_included_swap_param : bool)
    (fixed_swap_param : option Q) (e : exn) :
  (LicenseManager.generate_license_key sign_data random_swap_param
     random_entropy now_days private_key license_plan duration_days
     key_holder_group unique_license_id version_lock use_included_swap_param
     fixed_swap_param = Raise e →
   e = ValueError
   ∨ ∃ swap_param bytes,
       (if use_included_swap_param then Some random_swap_param
        else fixed_swap_param) = Some swap_param
       ∧ Licensee.to_bits
           (issued_payload use_included_swap_param swap_param random_entropy
              now_days license_plan duration_days key_holder_group
              unique_license_id version_lock) = Ok bytes
       ∧ sign_data bytes private_key = Raise e)
  ∧ (∀ swap_param bytes,
       (if use_included_swap_param then Some random_swap_param
        else fixed_swap_param) = Some swap_param →
       Licensee.to_bits
         (issued_payload use_included_swap_param swap_param random_entropy
            now_days license_plan duration_days key_holder_group
            unique_license_id version_lock) = Ok bytes →
       sign_data bytes private_key = Raise e →
       LicenseManager.generate_license_key sign_data random_swap_param
         random_entropy now_days private_key license_plan duration_days
         key_holder_group unique_license_id version_lock
         use_included_swap_param fixed_swap_param = Raise e).
Proof.
  split; [apply LicenseManager_more.generate_raises|].
  intros swap_param bytes Hsw Hbytes Hsign.
  rewrite LicenseManager_more.generate_steps.
  assert ((if use_included_swap_param then Ok random_swap_param
           else match fixed_swap_param with
                | None => Raise ValueError
                | Some p => Ok p
                end) = Ok swap_param) as ->.
  { destruct use_included_swap_param; [by injection Hsw as ->|].
    by rewrite Hsw. }
  by rewrite !bind_Ok_l, Hbytes, !bind_Ok_l, Hsign.
Qed.

(** The plan 16 does not fit four bits: a [ValueError] with any signer.  With
    no private key, a signer that raises [AttributeError] there makes the
    generation of the key of scenario 5 raise [AttributeError]. *)
Lemma generation_failures_witness :
  match LicenseManager.generate_license_key (H:=fixed_float) toy_sign
          (42 # 100) 12345 1037 toy_key 16 730 50 98765 2 true None with
  | Ok _ => False
  | Raise e => e = ValueError
  end
  ∧ LicenseManager.generate_license_key (H:=fixed_float) keyless_sign
      (42 # 100) 12345 1037 None 3 730 50 98765 2 true None
    = Raise AttributeError.
Proof.
  split.
  - assert (is_Ok (LicenseManager.generate_license_key (H:=fixed_float) toy_sign
                     (42 # 100) 12345 1037 toy_key 16 730 50 98765 2 true None)
            = false) as Hfail by (vm_compute; reflexivity).
    destruct (LicenseManager.generate_license_key _ _ _ _ _ _ _ _ _ _ _ _)
      as [key|e] eqn:Hgen.
    + discriminate Hfail.
    + destruct (generation_failures (H:=fixed_float) toy_sign
                  (42 # 100) 12345 1037 toy_key 16 730 50 98765 2 true None e)
        as [Hraise _].
      destruct (Hraise Hgen) as [He|(swap_param & bytes & _ & _ & Hsign)];
        [exact He|discriminate Hsign].
  - assert (is_Ok (Licensee.to_bits (H:=fixed_float)
                     (issued_payload true (42 # 100) 12345 1037 3 730 50 98765 2))
            = true) as Hok by (vm_compute; reflexivity).
    destruct (Licensee.to_bits (H:=fixed_float)
                (issued_payload true (42 # 100) 12345 1037 3 730 50 98765 2))
      as [bytes|e] eqn:Hbytes; [|discriminate Hok].
    destruct (generation_failures (H:=fixed_float) keyless_sign
                (42 # 100) 12345 1037 None 3 730 50 98765 2 true None
                AttributeError) as [_ Hconv].
    apply (Hconv (42 # 100)%Q bytes eq_refl Hbytes eq_refl).
Defined.

(** X18.  What a generated key carries.  When the inputs are not negative and
    the signature consists of bytes, the key can be read back with the
    functions of the library: the characters of its groups, un-permuted with
    the inverse of the map of the swap parameter, decode (as 2200 bits) to the
    19 payload bytes followed by the signature of these bytes, and
    [from_bits] returns from the payload bytes the stored form of the record
    that was issued. *)
Theorem generated_key_payload `{FloatOps} {PrivateKey : Type}
    (sign_data : list Z → PrivateKey → result (list Z))
    (random_swap_param : Q) (random_entropy now_days : Z)
    (private_key : PrivateKey)
    (license_plan duration_days key_holder_group unique_license_id : Z)
    (version_lock : Z) (use_included_swap_param : bool)
    (fixed_swap_param : option Q) (key : list ascii) :
  LicenseManager.generate_license_key sign_data random_swap_param random_entropy
    now_days private_key license_plan duration_days key_holder_group
    unique_license_id version_lock use_included_swap_param fixed_swap_param
  = Ok key →
  (∀ data signature,
     sign_data data private_key = Ok signature → Forall is_byte signature) →
  (0 ≤ license_plan)%Z → (0 ≤ duration_days)%Z → (0 ≤ key_holder_group)%Z →
  (0 ≤ unique_license_id)%Z → (0 ≤ version_lock)%Z →
  (use_included_swap_param = true → 0 ≤ Qtrunc (fmul random_swap_param 255))%Z →
  ∃ swap_param pm inv original bytes signature,
    (if use_included_swap_param then Some random_swap_param else fixed_swap_param)
    = Some swap_param
    ∧ Licensee_permutation.get_permutation_map
        LicenseManager.TOTAL_CHARS_TO_PERMUTE swap_param = Ok pm
    ∧ Licensee_permutation.get_inverse_permutation_map
        LicenseManager.TOTAL_CHARS_TO_PERMUTE pm = Ok inv
    ∧ Licensee_permutation.apply_inverse_permutation
        LicenseManager.TOTAL_CHARS_TO_PERMUTE
        (concat (LicenseManager.split key)) inv = Ok original
    ∧ Licensee.alphabet_string_to_bytes original 2200 = Ok (bytes ++ signature)
    ∧ length bytes = 19
    ∧ sign_data bytes private_key = Ok signature
    ∧ Licensee.from_bits bytes
      = Ok (stored (issued_payload use_included_swap_param swap_param
                      random_entropy now_days license_plan duration_days
                      key_holder_group unique_license_id version_lock)).
Proof. apply LicenseManager_more.generated_key_decodes. Qed.

Lemma generated_key_payload_witness :
  match LicenseManager.generate_license_key (H:=fixed_float) toy_sign
          (42 # 100) 12345 1037 toy_key 3 730 50 98765 2 true None with
  | Ok key =>
      ∃ swap_param pm inv original bytes signature,
        Some (42 # 100)%Q = Some swap_param
        ∧ Licensee_permutation.get_permutation_map (H:=fixed_float)
            LicenseManager.TOTAL_CHARS_TO_PERMUTE swap_param = Ok pm
        ∧ Licensee_permutation.get_inverse_permutation_map
            LicenseManager.TOTAL_CHARS_TO_PERMUTE pm = Ok inv
        ∧ Licensee_permutation.apply_inverse_permutation
            LicenseManager.TOTAL_CHARS_TO_PERMUTE
            (concat (LicenseManager.split key)) inv = Ok original
        ∧ Licensee.alphabet_string_to_bytes original 2200
          = Ok (bytes ++ signature)
        ∧ length bytes = 19
        ∧ toy_sign bytes toy_key = Ok signature
        ∧ Licensee.from_bits (H:=fixed_float) bytes
          = Ok (stored (H:=fixed_float)
                  (issued_payload true swap_param 12345 1037 3 730 50 98765 2))
  | Raise _ => False
  end.
Proof.
  pose proof scenario5_generated as Hok.
  destruct (LicenseManager.generate_license_key _ _ _ _ _ _ _ _ _ _ _ _)
    as [key|e] eqn:Hgen.
  - apply (generated_key_payload (H:=fixed_float) toy_sign (42 # 100) 12345 1037
             toy_key 3 730 50 98765 2 true None key Hgen).
    + intros data signature. apply toy_sign_bytes.
    + lia.
    + lia.
    + lia.
    + lia.
    + lia.
    + intros _. vm_compute. discriminate.
  - discriminate Hok.
Defined.

(** X20.  What is signed and what is verified.  Generation signs the packed
    payload: a key that [generate_license_key] returns comes from the 19
    bytes that [to_bits] gives for the issued record and from the signature
    that [sign_data] returns for exactly these bytes and the private key (it
    is the grouping of the permuted encoding of the bytes followed by that
    signature), and a signer that gives the same answer on these bytes gives
    the same key.  Validation makes at most one call of [verify_signature],
    for a key of seven hyphen-separated parts: the message is the ASCII form
    of the 440 permuted characters of the first six parts, one byte for each
    character and before anything is un-permuted, and the signature is the
    decoding of the seventh part. *)
Theorem validation_verifies_permuted_chars `{FloatOps}
    {PrivateKey PublicKey : Type}
    (sign_data : list Z → PrivateKey → result (list Z))
    (verify_signature : list Z → list Z → PublicKey → bool)
    (load_public_key : PublicKey)
    (random_swap_param : Q) (random_entropy now_days : Z)
    (private_key : PrivateKey)
    (license_plan duration_days key_holder_group unique_license_id : Z)
    (version_lock : Z) (use_included_swap_param : bool)
    (fixed_swap_param : option Q) (key : list ascii)
    (now : Q) (license_key_string : list ascii) (current_app_version : Z)
    (hardcoded_swap_param : option Q) :
  LicenseManager.generate_license_key sign_data random_swap_param random_entropy
    now_days private_key license_plan duration_days key_holder_group
    unique_license_id version_lock use_included_swap_param fixed_swap_param
  = Ok key →
  (∃ swap_param license_data_bytes signature_bytes original perm_map permuted,
     (if use_included_swap_param then Some random_swap_param
      else fixed_swap_param) = Some swap_param
     ∧ Licensee.to_bits
         (issued_payload use_included_swap_param swap_param random_entropy
            now_days license_plan duration_days key_holder_group
            unique_license_id version_lock) = Ok license_data_bytes
     ∧ length license_data_bytes = 19
     ∧ sign_data license_data_bytes private_key = Ok signature_bytes
     ∧ Licensee.bytes_to_alphabet_string (license_data_bytes ++ signature_bytes)
       = Ok original
     ∧ Licensee_permutation.get_permutation_map
         LicenseManager.TOTAL_CHARS_TO_PERMUTE swap_param = Ok perm_map
     ∧ Licensee_permutation.apply_permutation
         LicenseManager.TOTAL_CHARS_TO_PERMUTE original perm_map = Ok permuted
     ∧ key = LicenseManager.join (LicenseManager.segments 440 5 permuted)
     ∧ ∀ sign_data' : list Z → PrivateKey → result (list Z),
         sign_data' license_data_bytes private_key = Ok signature_bytes →
         LicenseManager.generate_license_key sign_data' random_swap_param
           random_entropy now_days private_key license_plan duration_days
           key_holder_group unique_license_id version_lock
           use_included_swap_param fixed_swap_param = Ok key)
  ∧ (let calls :=
       (LicenseManager.validate_license_key verify_signature load_public_key
          now license_key_string current_app_version hardcoded_swap_param).2 in
     length calls ≤ 1
     ∧ Forall (λ call,
           length (LicenseManager.split license_key_string) = 7
           ∧ LicenseManager.encode_ascii
               (concat (take 6 (LicenseManager.split license_key_string)))
             = Ok call.1
           ∧ call.1
             = (λ c, Z.of_N (N_of_ascii c))
               <$> concat (take 6 (LicenseManager.split license_key_string))
           ∧ length call.1 = 440
           ∧ Licensee.alphabet_string_to_bytes
               (default [] (LicenseManager.split license_key_string !! 6))
               LicenseManager.SIGNATURE_BIT_LENGTH = Ok call.2) calls).
Proof.
  intros Hgen. split.
  - pose proof Hgen as Hinv. apply LicenseManager_more.generate_inv in Hinv
      as (swap & bytes & signature & original & pm & permuted & Hsw & Hbytes
          & Hblen & Hsign & _ & Horig & _ & _ & Hpm & _ & Hperm & _ & _ & Hkey).
    exists swap, bytes, signature, original, pm, permuted.
    split_and!; try done.
    intros sign_data' Hsign'. rewrite <-Hgen.
    by eapply LicenseManager_more.generate_signer.
  - destruct (LicenseManager_facts.verified_calls verify_signature
                load_public_key now license_key_string current_app_version
                hardcoded_swap_param) as [Hone Hcalls].
    split; [exact Hone|].
    eapply Forall_impl; [exact Hcalls|].
    intros call (Hparts & Hdata & Hlen & Hsig). split_and!; try done.
    by apply LicenseManager_facts.encode_ascii_Ok in Hdata as [-> _].
Qed.

(** The key of scenario 5 and, for validation, the key [seven_part_key]: its
    one call verifies 440 times the byte of [A] against the decoding of its
    seventh part. *)
Lemma validation_verifies_permuted_chars_witness :
  match LicenseManager.generate_license_key (H:=fixed_float) toy_sign
          (42 # 100) 12345 1037 toy_key 3 730 50 98765 2 true None with
  | Ok key =>
      (∃ license_data_bytes signature_bytes,
         Licensee.to_bits (H:=fixed_float)
           (issued_payload true (42 # 100) 12345 1037 3 730 50 98765 2)
         = Ok license_data_bytes
         ∧ length license_data_bytes = 19
         ∧ toy_sign license_data_bytes toy_key = Ok signature_bytes)
      ∧ (LicenseManager.validate_license_key (H:=fixed_float) toy_verify
           toy_key 1037 seven_part_key 2 None).2
        = [(replicate 440 65%Z, replicate 256 0%Z)]
      ∧ Forall (λ call,
            LicenseManager.encode_ascii
              (concat (take 6 (LicenseManager.split seven_part_key)))
            = Ok call.1)
          (LicenseManager.validate_license_key (H:=fixed_float) toy_verify
             toy_key 1037 seven_part_key 2 None).2
  | Raise _ => False
  end.
Proof.
  pose proof scenario5_generated as Hok.
  destruct (LicenseManager.generate_license_key _ _ _ _ _ _ _ _ _ _ _ _)
    as [key|e] eqn:Hgen; [|discriminate Hok].
  destruct (validation_verifies_permuted_chars (H:=fixed_float) toy_sign
              toy_verify toy_key (42 # 100) 12345 1037 toy_key 3 730 50 98765 2
              true None key 1037 seven_part_key 2 None Hgen)
    as [(swap & bytes & signature & original & pm & permuted & Hsw & Hbytes
         & Hblen & Hsign & _) [_ Hcalls]].
  injection Hsw as <-. split_and!.
  - exists bytes, signature. split_and!; [exact Hbytes|exact Hblen|exact Hsign].
  - vm_compute. reflexivity.
  - eapply Forall_impl; [exact Hcalls|]. by intros call (_ & Hdata & _).
Defined.

(** X21.  [validate_license_key] returns a payload for no key at all: whatever
    the key string, the signature check, the date, the application version
    and the hardcoded swap parameter, its result is [None] or an exception.
    (It decodes the 440 un-permuted characters with [chars_to_bits], which
    accepts 30.) *)
Theorem validation_accepts_nothing `{FloatOps} {PublicKey : Type}
    (verify_signature : list Z → list Z → PublicKey → bool)
    (load_public_key : PublicKey) (now : Q) (key : list ascii)
    (current_app_version : Z) (hardcoded_swap_param : option Q) :
  (LicenseManager.validate_license_key verify_signature load_public_key now key
     current_app_version hardcoded_swap_param).1 = Ok None
  ∨ ∃ e, (LicenseManager.validate_license_key verify_signature load_public_key
            now key current_app_version hardcoded_swap_param).1 = Raise e.
Proof.
  pose proof (LicenseManager_facts.validate_never_accepts verify_signature
                load_public_key now key current_app_version hardcoded_swap_param)
    as Hnever.
  destruct (LicenseManager.validate_license_key _ _ _ _ _ _).1 as [[d|]|e].
  - by destruct (Hnever d).
  - by left.
  - right. by exists e.
Qed.

(** ** XOF-Genetics: the hash and the organisms ([xof_genetics/organism.py]) *)

(** X22.  The SHA-256 variant extends its output: the output of a shorter
    length is the beginning of the output of a longer length for the same
    input, and the output consists of bytes. *)
Theorem sha256_output_extends (D : list Z) (L1 L2 : nat) :
  L1 ≤ L2 →
  XOF.SHA256Hash_hash D L1 = take L1 (XOF.SHA256Hash_hash D L2)
  ∧ Forall is_byte (XOF.SHA256Hash_hash D L2).
Proof.
  intros HL. split; [by apply Organism_more.hash_prefix|apply hash_bytes].
Qed.

Lemma sha256_output_extends_witness :
  XOF.SHA256Hash_hash (bytes_of_string "abc") 40
  = take 40 (XOF.SHA256Hash_hash (bytes_of_string "abc") 100)
  ∧ Forall is_byte (XOF.SHA256Hash_hash (bytes_of_string "abc") 100).
Proof. apply (sha256_output_extends (bytes_of_string "abc") 40 100). lia. Defined.

(** X23.  Self reproduction with the sexual method enabled returns twins.
    The second child is made from the organism's own two genome halves put
    together again, which is its genome: [asexual_self_reproduction] returns
    the child of [direct_asexual_reproduction] twice, draws nothing, and
    raises what [direct_asexual_reproduction] raises. *)
Theorem self_reproduction_returns_twins `{FloatOps} (self : XOF.Organism)
    (t : tape) :
  XOF.SEXUAL ∈ XOF.enabled_methods (XOF.config self) →
  XOF.asexual_self_reproduction self t
  = (cs ← XOF.direct_asexual_reproduction self;
     c ← list_load cs 0;
     Ok ([c; c], t)).
Proof. apply Organism_more.self_reproduction_twins. Qed.

Lemma self_reproduction_returns_twins_witness :
  XOF.asexual_self_reproduction (H:=fixed_float) (seeded XOF.BASIC "parent1")
    sample_tape
  = (cs ← XOF.direct_asexual_reproduction (H:=fixed_float)
            (seeded XOF.BASIC "parent1");
     c ← list_load cs 0;
     Ok ([c; c], sample_tape)).
Proof.
  apply (self_reproduction_returns_twins (H:=fixed_float)
           (seeded XOF.BASIC "parent1") sample_tape).
  apply (bool_decide_unpack _). vm_compute. reflexivity.
Defined.

(** X24.  Parameters that change nothing.  For an organism whose genome has
    the configured length (not 0), a rotation by a multiple of the genome
    length, a mutation with the all-zero mask and a permutation with the
    identity map each return what [direct_asexual_reproduction] returns. *)
Theorem neutral_parameters `{FloatOps} (self : XOF.Organism) :
  length (XOF.genome self) = XOF.genome_length (XOF.config self) →
  XOF.genome_length (XOF.config self) ≠ 0 →
  (∀ positions,
     (positions mod Z.of_nat (XOF.genome_length (XOF.config self)) = 0)%Z →
     XOF.rotate self positions = XOF.direct_asexual_reproduction self)
  ∧ XOF.mutate self (replicate (XOF.genome_length (XOF.config self)) 0%Z)
    = XOF.direct_asexual_reproduction self
  ∧ XOF.permute self (seq 0 (XOF.genome_length (XOF.config self)))
    = XOF.direct_asexual_reproduction self.
Proof.
  intros Hlen HG. split_and!.
  - intros positions. by apply Organism_more.rotate_neutral.
  - apply Organism_more.mutate_neutral;
      [done|by rewrite length_replicate|by apply Forall_replicate].
  - by apply Organism_more.permute_neutral.
Qed.

Lemma neutral_parameters_witness :
  (∀ positions,
     (positions
      mod Z.of_nat (XOF.genome_length (XOF.config (seeded XOF.BASIC "parent1")))
      = 0)%Z →
     XOF.rotate (H:=fixed_float) (seeded XOF.BASIC "parent1") positions
     = XOF.direct_asexual_reproduction (H:=fixed_float) (seeded XOF.BASIC "parent1"))
  ∧ XOF.mutate (H:=fixed_float) (seeded XOF.BASIC "parent1")
      (replicate (XOF.genome_length (XOF.config (seeded XOF.BASIC "parent1"))) 0%Z)
    = XOF.direct_asexual_reproduction (H:=fixed_float) (seeded XOF.BASIC "parent1")
  ∧ XOF.permute (H:=fixed_float) (seeded XOF.BASIC "parent1")
      (seq 0 (XOF.genome_length (XOF.config (seeded XOF.BASIC "parent1"))))
    = XOF.direct_asexual_reproduction (H:=fixed_float) (seeded XOF.BASIC "parent1").
Proof.
  apply (neutral_parameters (H:=fixed_float) (seeded XOF.BASIC "parent1")).
  - vm_compute. reflexivity.
  - vm_compute. discriminate.
Defined.

(** X25.  The children of omni reproduction.  A call that returns gives
    [omni_children] children, a number fixed by the first parent's
    configuration: 2 direct and 4 self-reproduction children, the sexual
    children [s] (2 with reciprocal reproduction, else 1), two for each of
    the first five masks, positions and maps, two for each pair of the first
    three masks and positions, and [s] for each of the first three masks.
    Each child is as the constructor leaves an organism for the configuration
    of one of the parents: genome of the configured length, fitness 0. *)
Theorem omni_reproduction_children `{FloatOps} (self : XOF.Organism)
    (partner : option XOF.Organism) (children : list XOF.Organism)
    (t t' : tape) :
  XOF.omni_reproduce self partner t = Ok (children, t') →
  length children = omni_children (XOF.config self)
  ∧ Forall (λ c, fresh_organism (XOF.config self) c
                 ∨ fresh_organism (XOF.config (default self partner)) c)
           children.
Proof. apply Organism_more.omni_reproduce_children. Qed.

(** The organisms of the seeds [parent1] and [parent2]: 18 children. *)
Lemma omni_reproduction_children_witness :
  match XOF.omni_reproduce (H:=fixed_float) (seeded XOF.BASIC "parent1")
          (Some (seeded XOF.BASIC "parent2")) [] with
  | Ok (children, _) =>
      length children = omni_children (XOF.config (seeded XOF.BASIC "parent1"))
      ∧ Forall (λ c, fresh_organism (XOF.config (seeded XOF.BASIC "parent1")) c
                     ∨ fresh_organism
                         (XOF.config (default (seeded XOF.BASIC "parent1")
                                        (Some (seeded XOF.BASIC "parent2")))) c)
               children
  | Raise _ => False
  end.
Proof.
  assert (is_Ok (XOF.omni_reproduce (H:=fixed_float) (seeded XOF.BASIC "parent1")
                   (Some (seeded XOF.BASIC "parent2")) []) = true)
    as Hok by (vm_compute; reflexivity).
  destruct (XOF.omni_reproduce _ _ _) as [[children t']|e] eqn:Hrun.
  - eapply omni_reproduction_children. exact Hrun.
  - discriminate Hok.
Defined.

(** ** XOF-Genetics: selection ([xof_genetics/evolution.py]) *)

(** X26.  The tournament of two parents and their sexual children keeps the
    best of the family.  A call that returns gives between one and three
    survivors, each a parent or a child carrying the fitness that
    [fitness_func] gives it, and every parent and every child is matched or
    beaten by a survivor. *)
Theorem tournament_keeps_the_best `{FloatOps} (fitness_func : XOF.Organism → Q)
    (parent1 parent2 : XOF.Organism) (survivors : list XOF.Organism)
    (t t' : tape) :
  Evolution.intergenerational_tournament fitness_func parent1 parent2 t
  = Ok (survivors, t') →
  ∃ children,
    XOF.reproduce_sexually parent1 parent2 t = Ok (children, t')
    ∧ survivors ≠ []
    ∧ length survivors ≤ 3
    ∧ (∀ s, s ∈ survivors →
         ∃ x, x ∈ parent1 :: parent2 :: children
              ∧ s = XOF.set_fitness x (fitness_func x))
    ∧ (∀ x, x ∈ parent1 :: parent2 :: children →
         ∃ s, s ∈ survivors ∧ (fitness_func x <= XOF.fitness s)%Q).
Proof. apply Evolution_more.tournament_survivors. Qed.

Lemma tournament_keeps_the_best_witness :
  match Evolution.intergenerational_tournament (H:=fixed_float)
          negative_sum_fitness (seeded XOF.BASIC "parent1")
          (seeded XOF.BASIC "parent2") sample_tape with
  | Ok (survivors, t') =>
      ∃ children,
        XOF.reproduce_sexually (H:=fixed_float) (seeded XOF.BASIC "parent1")
          (seeded XOF.BASIC "parent2") sample_tape = Ok (children, t')
        ∧ survivors ≠ []
        ∧ length survivors ≤ 3
        ∧ (∀ s, s ∈ survivors →
             ∃ x, x ∈ seeded XOF.BASIC "parent1" :: seeded XOF.BASIC "parent2"
                      :: children
                  ∧ s = XOF.set_fitness x (negative_sum_fitness x))
        ∧ (∀ x, x ∈ seeded XOF.BASIC "parent1" :: seeded XOF.BASIC "parent2"
                    :: children →
             ∃ s, s ∈ survivors ∧ (negative_sum_fitness x <= XOF.fitness s)%Q)
  | Raise _ => False
  end.
Proof.
  assert (is_Ok (Evolution.intergenerational_tournament (H:=fixed_float)
                   negative_sum_fitness (seeded XOF.BASIC "parent1")
                   (seeded XOF.BASIC "parent2") sample_tape) = true)
    as Hok by (vm_compute; reflexivity).
  destruct (Evolution.intergenerational_tournament _ _ _ _)
    as [[survivors t']|e] eqn:Hrun.
  - eapply tournament_keeps_the_best. exact Hrun.
  - discriminate Hok.
Defined.

(** X27.  Pairing.  Every strategy returns (it raises for no list and no
    draws), forms [len(organisms) // 2] pairs, and uses no organism more
    often than the list holds it: the first and second members of the pairs,
    taken together, are part of the list as a multiset. *)
Theorem pairing_uses_each_organism_once `{FloatOps}
    (organisms : list XOF.Organism) (strategy : Evolution.PairingStrategy)
    (t : tape) :
  ∃ pairs t',
    Evolution.pair_organisms organisms strategy t = Ok (pairs, t')
    ∧ length pairs = length organisms / 2
    ∧ pairs.*1 ++ pairs.*2 ⊆+ organisms.
Proof. apply Pairing_facts.pair_organisms_spec. Qed.

(** X28.  The history of the loop.  A run that returns has recorded one
    entry per generation, numbered [1 .. max_generations]; the first entry
    holds the size of the initial population and, as best fitness, the
    largest value of [fitness_func] on the initial population. *)
Theorem loop_history_entries `{FloatOps} (fitness_func : XOF.Organism → Q)
    (auto_population_step : list XOF.Organism → result (list XOF.Organism))
    (initial_population : list XOF.Organism) (config : Evolution.EvolutionConfig)
    (population : list XOF.Organism) (history : list Evolution.HistoryEntry)
    (t t' : tape) :
  Evolution.evolutionary_loop fitness_func auto_population_step
    initial_population config t = Ok ((population, history), t') →
  Evolution.h_generation <$> history = seq 1 (Evolution.max_generations config)
  ∧ ∀ entry, head history = Some entry →
      Evolution.h_population_size entry = length initial_population
      ∧ (∃ o, o ∈ initial_population
              ∧ Evolution.h_best_fitness entry = fitness_func o)
      ∧ Forall (λ o, (fitness_func o <= Evolution.h_best_fitness entry)%Q)
               initial_population.
Proof.
  unfold Evolution.evolutionary_loop. intros Hrun.
  apply M_bind_Ok in Hrun as (st & t1 & Hloop & Hret).
  apply M_ret_Ok in Hret as [[= <- <-] _].
  apply Evolution_more.loop_history in Hloop
    as (st0 & t0 & entries & Hinit & Hhist & Hgens & Hfirst).
  apply M_ret_Ok in Hinit as [<- _]. cbn [Evolution.st_history app] in Hhist.
  cbn [Evolution.st_population] in Hfirst. rewrite Hhist. split; [done|].
  intros entry Hentry. destruct (Hfirst entry Hentry) as (Hsize & best & Hbest & Hfit).
  apply Evolution_more.max_by_fitness_spec in Hbest as [Hin Hall].
  split_and!; [done| |].
  - apply Evolution_more.evaluated_fitness in Hin as (o & Ho & ->).
    exists o. by rewrite Hfit.
  - apply Forall_forall. intros o Ho. rewrite Hfit.
    rewrite Forall_forall in Hall.
    apply (Hall (XOF.set_fitness o (fitness_func o))).
    unfold Evolution.threaded_fitness_evaluation.
    apply list_elem_of_fmap. by exists o.
Qed.

(** One generation of the capped omni run over the organisms of the seeds
    [seed_0] and [seed_1]. *)
Lemma loop_history_entries_witness :
  match Evolution.evolutionary_loop (H:=fixed_float) negative_sum_fitness Ok
          two_seeds (capped_omni_config 1) [] with
  | Ok (_, history, _) =>
      Evolution.h_generation <$> history
      = seq 1 (Evolution.max_generations (capped_omni_config 1))
      ∧ ∀ entry, head history = Some entry →
          Evolution.h_population_size entry = length two_seeds
          ∧ (∃ o, o ∈ two_seeds
                  ∧ Evolution.h_best_fitness entry = negative_sum_fitness o)
          ∧ Forall (λ o, (negative_sum_fitness o
                          <= Evolution.h_best_fitness entry)%Q) two_seeds
  | Raise _ => False
  end.
Proof.
  assert (is_Ok (Evolution.evolutionary_loop (H:=fixed_float) negative_sum_fitness
                   Ok two_seeds (capped_omni_config 1) []) = true)
    as Hok by (vm_compute; reflexivity).
  destruct (Evolution.evolutionary_loop _ _ _ _ _)
    as [[[population history] t']|e] eqn:Hrun.
  - eapply loop_history_entries. exact Hrun.
  - discriminate Hok.
Defined.
